(** * KLL quantile sketch of datasketches-go: a shallow embedding

    The development follows the Go sources under [kll/]:
    - [Items]       : [kll/items_sketch.go], the generic items sketch
                      (fixed-width unsigned fields [uint8]/[uint16]/[uint32]/[uint64]);
    - [Helper]      : [kll/helper.go], the [int]-based capacity helpers and
                      [convertToCumulative];
    - [Doubles]     : the [float64] sketch ([kll/double_sketch.go] in its two
                      revisions) and its sorted view.

    Go slices are lists indexed by [Z]; an index out of range is a run-time
    panic, which the embedding renders as [None] (or [Panic]). Fixed-width
    integer arithmetic is written with its wrap-around. *)

From Stdlib Require Import ZArith Lia Bool List Floats QArith Qround.
From Stdlib Require Import Permutation Sorted.
From stdpp Require Import base option list.

Local Open Scope Z_scope.

(** ** Machine integers *)

Module MachineInt.

Definition u8 (z : Z) : Z := z mod 2 ^ 8.
Definition u16 (z : Z) : Z := z mod 2 ^ 16.
Definition u32 (z : Z) : Z := z mod 2 ^ 32.
Definition u64 (z : Z) : Z := z mod 2 ^ 64.

(** Two's complement [int64]. *)
Definition i64 (z : Z) : Z := (z + 2 ^ 63) mod 2 ^ 64 - 2 ^ 63.

End MachineInt.
Import MachineInt.

(** ** Slices *)

(** [zget l i] is [l[i]]: [None] stands for the index-out-of-range panic. *)
Definition zget {A} (l : list A) (i : Z) : option A :=
  if decide (0 <= i) then l !! Z.to_nat i else None.

(** [zset l i x] is the slice after [l[i] = x]. *)
Definition zset {A} (l : list A) (i : Z) (x : A) : option (list A) :=
  if decide (0 <= i < Z.of_nat (length l)) then Some (<[Z.to_nat i := x]> l) else None.

Definition zlen {A} (l : list A) : Z := Z.of_nat (length l).

(** ** Outcomes and loops *)

(** Outcome of a Go function with an [error] result. *)
Inductive result (A : Type) : Type :=
| Ok (a : A)
| Err (msg : nat)
| Panic.
Arguments Ok {A} a.
Arguments Err {A} msg.
Arguments Panic {A}.

Definition bind {A B} (r : result A) (f : A -> result B) : result B :=
  match r with
  | Ok a => f a
  | Err e => Err e
  | Panic => Panic
  end.

Definition of_option {A} (o : option A) : result A :=
  match o with Some a => Ok a | None => Panic end.

(** [for i := lo; ...; i++ { body }] run [n] times from [i]. *)
Fixpoint iter_up {St} (n : nat) (i : Z) (body : Z -> St -> option St) (st : St) : option St :=
  match n with
  | O => Some st
  | S n' => st' ← body i st; iter_up n' (i + 1) body st'
  end.

(** [for i := hi; ...; i-- { body }] run [n] times from [i]. *)
Fixpoint iter_down {St} (n : nat) (i : Z) (body : Z -> St -> option St) (st : St) : option St :=
  match n with
  | O => Some st
  | S n' => st' ← body i st; iter_down n' (i - 1) body st'
  end.

(** [buf[lo:hi]] *)
Definition zslice {A} (l : list A) (lo hi : Z) : option (list A) :=
  if decide (0 <= lo <= hi /\ hi <= zlen l)
  then Some (take (Z.to_nat (hi - lo)) (drop (Z.to_nat lo) l))
  else None.

(** ** Merging two sorted runs

    [mergeSortedItemsArrays] ([kll/items_sketch.go]) and
    [mergeSortedDoubleArrays] ([kll/double_sketch.go]) are the same loop over
    [uint32] and [int] indices; [wrap] is the index type's wrap-around and
    [less] the comparison. The three slices may share their backing array:
    buffers are named and live in a store. *)

Section SliceMerge.
Context {C : Type}.
Variable wrap : Z -> Z.
Variable less : C -> C -> bool.

Definition store : Type := nat -> list C.

Definition rd (st : store) (buf : nat) (i : Z) : option C := zget (st buf) i.

Definition wr (st : store) (buf : nat) (i : Z) (x : C) : option store :=
  l ← zset (st buf) i x;
  Some (fun b => if decide (b = buf) then l else st b).

(** One turn of the loop at write index [c]: the store after the write and
    the advanced read indices. *)
Definition merge_step (bufA bufB bufC : nat) (limA limB : Z)
    (st : store) (a b c : Z) : option (store * Z * Z) :=
  if decide (a = limA) then
    x ← rd st bufB b; st' ← wr st bufC c x; Some (st', a, wrap (b + 1))
  else if decide (b = limB) then
    x ← rd st bufA a; st' ← wr st bufC c x; Some (st', wrap (a + 1), b)
  else
    xa ← rd st bufA a; xb ← rd st bufB b;
    if less xa xb then st' ← wr st bufC c xa; Some (st', wrap (a + 1), b)
    else st' ← wr st bufC c xb; Some (st', a, wrap (b + 1)).

Fixpoint merge_loop (bufA bufB bufC : nat) (limA limB : Z)
    (n : nat) (st : store) (a b c : Z) : option store :=
  match n with
  | O => Some st
  | S n' =>
      r ← merge_step bufA bufB bufC limA limB st a b c;
      let '(st', a', b') := r in
      merge_loop bufA bufB bufC limA limB n' st' a' b' (wrap (c + 1))
  end.

Definition mergeSortedArrays (st : store)
    (bufA : nat) (startA lenA : Z) (bufB : nat) (startB lenB : Z)
    (bufC : nat) (startC : Z) : option store :=
  let lenC := wrap (lenA + lenB) in
  let limA := wrap (startA + lenA) in
  let limB := wrap (startB + lenB) in
  let limC := wrap (startC + lenC) in
  merge_loop bufA bufB bufC limA limB (Z.to_nat (limC - startC)) st startA startB startC.

(** The write at [c] leaves alone what is still to be read: the portions of
    the two sources not yet consumed once this turn's item has been taken. *)
Definition keeps_unread (bufA bufB bufC : nat) (limA limB a' b' c : Z) : Prop :=
  ~ (bufC = bufA /\ a' <= c < limA) /\ ~ (bufC = bufB /\ b' <= c < limB).

(** No write of the run lands on an unread source item. *)
Fixpoint no_clobber (bufA bufB bufC : nat) (limA limB : Z)
    (n : nat) (st : store) (a b c : Z) : Prop :=
  match n with
  | O => True
  | S n' =>
      match merge_step bufA bufB bufC limA limB st a b c with
      | None => True
      | Some (st', a', b') =>
          keeps_unread bufA bufB bufC limA limB a' b' c /\
          no_clobber bufA bufB bufC limA limB n' st' a' b' (wrap (c + 1))
      end
  end.

(** The merge of two lists, taking from the first only on [less]. *)
Fixpoint merge_lists (la : list C) : list C -> list C :=
  fix inner (lb : list C) : list C :=
    match la, lb with
    | [], _ => lb
    | _, [] => la
    | x :: la', y :: lb' =>
        if less x y then x :: merge_lists la' lb else y :: inner lb'
    end.

(** Ascending order under a strict comparison: no item is [less] than its
    predecessor. *)
Definition ascending (l : list C) : Prop := Sorted (fun x y => less y x = false) l.

End SliceMerge.

(** ** Level-capacity arithmetic ([kll/items_sketch.go]) *)

Module Items.

Definition _DEFAULT_K : Z := 200.
Definition _DEFAULT_M : Z := 8.
Definition _MIN_K : Z := _DEFAULT_M.
Definition _MAX_K : Z := 2 ^ 16 - 1.
Definition _MIN_M : Z := 2.
Definition _MAX_M : Z := 8.

Definition powersOfThree : list Z :=
  [1; 3; 9; 27; 81; 243; 729; 2187; 6561; 19683; 59049; 177147; 531441;
   1594323; 4782969; 14348907; 43046721; 129140163; 387420489; 1162261467;
   3486784401; 10460353203; 31381059609; 94143178827; 282429536481;
   847288609443; 2541865828329; 7625597484987; 22876792454961; 68630377364883;
   205891132094649].

(** [intCapAuxAux(k uint16, depth uint8) uint32]. The shift [k << 1] is
    carried out on the [uint16] operand and only then widened to [uint64]. *)
Definition intCapAuxAux (k depth : Z) : option Z :=
  let twok := u64 (u16 (Z.shiftl k 1)) in
  p3 ← zget powersOfThree depth;
  let tmp := u64 (Z.shiftl twok depth) / p3 in
  let result := Z.shiftr (u64 (tmp + 1)) 1 in
  if decide (result <= k) then Some (u32 result) else Some (u32 k).

(** [intCapAux(k uint16, depth uint8) uint32] *)
Definition intCapAux (k depth : Z) : option Z :=
  if decide (depth <= 30) then intCapAuxAux k depth
  else
    let half := depth / 2 in
    let rest := u8 (depth - half) in
    tmp ← intCapAuxAux k half;
    intCapAuxAux (u16 tmp) rest.

(** [levelCapacity(k uint16, numLevels uint8, level uint8, m uint8) uint32] *)
Definition levelCapacity (k numLevels level m : Z) : option Z :=
  let depth := u8 (u8 (numLevels - level) - 1) in
  c ← intCapAux k depth;
  Some (Z.max (u32 m) c).


(** *** The sketch *)

(** The injected item operations (interface [ItemSketchOp]); a byte is a [Z]
    below 256. *)
Class ItemSketchOp (C : Type) : Type := {
  identity : C;
  lessFn : C -> C -> bool;
  sizeOf : C -> Z;
  sizeOfMany : list Z -> Z -> Z -> result Z;
  SerializeManyToSlice : list C -> list Z;
  SerializeOneToSlice : C -> list Z;
  DeserializeFromSlice : list Z -> Z -> Z -> result (list C);
}.

(** What the file takes from outside: the zero value of [C] that [make]
    fills in, [internal.IsNil], [sort.Slice] (on a slice, with the given
    comparison) and [ubOnNumLevels]; none of them is among the sources. *)
Class Runtime (C : Type) : Type := {
  zeroValue : C;
  isNil : C -> bool;
  sortSlice : (C -> C -> bool) -> list C -> list C;
  ubOnNumLevels : Z -> Z;
}.

Record ItemsSketch (C SV : Type) : Type := mkItemsSketch {
  k : Z;                       (* uint16 *)
  m : Z;                       (* uint8 *)
  minK : Z;                    (* uint16 *)
  numLevels : Z;               (* uint8 *)
  isLevelZeroSorted : bool;
  n : Z;                       (* uint64 *)
  levels : list Z;             (* []uint32 *)
  items : list C;
  minItem : option C;          (* *C, [None] is nil *)
  maxItem : option C;
  sortedView : option SV;      (* *ItemsSketchSortedView[C] *)
}.
Arguments mkItemsSketch {C SV}.
Arguments k {C SV}.
Arguments m {C SV}.
Arguments minK {C SV}.
Arguments numLevels {C SV}.
Arguments isLevelZeroSorted {C SV}.
Arguments n {C SV}.
Arguments levels {C SV}.
Arguments items {C SV}.
Arguments minItem {C SV}.
Arguments maxItem {C SV}.
Arguments sortedView {C SV}.

(** The sorted view of the items sketch ([newItemsSketchSortedView] and the
    methods of [ItemsSketchSortedView]) is not among the sources: the sketch
    is given its operations. *)
Class SortedViewOps (C SV : Type) : Type := {
  PartitionBoundaries : Type;
  newItemsSketchSortedView : ItemsSketch C SV -> result SV;
  sv_GetRank : SV -> C -> bool -> result float;
  sv_GetQuantile : SV -> float -> bool -> result C;
  sv_GetPMF : SV -> list C -> bool -> result (list float);
  sv_GetCDF : SV -> list C -> bool -> result (list float);
  sv_GetPartitionBoundaries : SV -> Z -> bool -> result PartitionBoundaries;
}.

(** Error values of the public operations. *)
Definition E_badK : nat := 10.
Definition E_empty : nat := 11.
Definition E_badRank : nat := 12.
Definition E_notSingle : nat := 13.
Definition E_updatable : nat := 14.

Definition E_corrupt : nat := 15.

(** The constants of the preamble and the sketch structures are not among
    the sources: the values are those of the byte layout in the
    specification (section 6.2). *)
Definition _N_LONG_ADR : Z := 8.
Definition _DATA_START_ADR_SINGLE_ITEM : Z := 8.
Definition _DATA_START_ADR : Z := 20.
Definition _EMPTY_BIT_MASK : Z := 1.
Definition _LEVEL_ZERO_SORTED_BIT_MASK : Z := 2.
Definition _SINGLE_ITEM_BIT_MASK : Z := 4.
Definition _FAMILY_KLL : Z := 15.

Inductive sketchStructure : Type :=
  _COMPACT_EMPTY | _COMPACT_SINGLE | _COMPACT_FULL | _UPDATABLE.

Definition getPreInts (t : sketchStructure) : Z :=
  match t with
  | _COMPACT_EMPTY | _COMPACT_SINGLE => 2
  | _COMPACT_FULL | _UPDATABLE => 5
  end.

Definition getSerVer (t : sketchStructure) : Z :=
  match t with
  | _COMPACT_EMPTY | _COMPACT_FULL => 1
  | _COMPACT_SINGLE => 2
  | _UPDATABLE => 3
  end.

(** [binary.LittleEndian.PutUintN(b[off:], v)] for [width] bytes. *)
Fixpoint putLE (width : nat) (b : list Z) (off v : Z) : option (list Z) :=
  match width with
  | O => Some b
  | S w => b' ← zset b off (v mod 256); putLE w b' (off + 1) (v / 256)
  end.

(** [binary.LittleEndian.UintN(b[off:])] *)
Fixpoint getLE (width : nat) (b : list Z) (off : Z) : option Z :=
  match width with
  | O => Some 0
  | S w => x ← zget b off; rest ← getLE w b (off + 1); Some (x + 256 * rest)
  end.

(** [copy(dst[off:], src)] *)
Definition copyAt {A} (dst : list A) (off : Z) (src : list A) : option (list A) :=
  if decide (0 <= off <= zlen dst)
  then Some (take (length dst)
               (take (Z.to_nat off) dst ++ src ++ drop (Z.to_nat off + length src) dst))
  else None.

Section Sketch.
Context {C SV : Type} `{!ItemSketchOp C} `{!Runtime C}.
#[local] Abbreviation Sketch := (ItemsSketch C SV).

Definition set_numLevels (s : Sketch) (v : Z) : Sketch :=
  mkItemsSketch (k s) (m s) (minK s) v (isLevelZeroSorted s) (n s) (levels s)
    (items s) (minItem s) (maxItem s) (sortedView s).
Definition set_levels (s : Sketch) (v : list Z) : Sketch :=
  mkItemsSketch (k s) (m s) (minK s) (numLevels s) (isLevelZeroSorted s) (n s) v
    (items s) (minItem s) (maxItem s) (sortedView s).
Definition set_items (s : Sketch) (v : list C) : Sketch :=
  mkItemsSketch (k s) (m s) (minK s) (numLevels s) (isLevelZeroSorted s) (n s) (levels s)
    v (minItem s) (maxItem s) (sortedView s).
Definition set_minItem (s : Sketch) (v : option C) : Sketch :=
  mkItemsSketch (k s) (m s) (minK s) (numLevels s) (isLevelZeroSorted s) (n s) (levels s)
    (items s) v (maxItem s) (sortedView s).
Definition set_maxItem (s : Sketch) (v : option C) : Sketch :=
  mkItemsSketch (k s) (m s) (minK s) (numLevels s) (isLevelZeroSorted s) (n s) (levels s)
    (items s) (minItem s) v (sortedView s).
Definition set_sortedView (s : Sketch) (v : option SV) : Sketch :=
  mkItemsSketch (k s) (m s) (minK s) (numLevels s) (isLevelZeroSorted s) (n s) (levels s)
    (items s) (minItem s) (maxItem s) v.

Definition NewItemsSketch (k : Z) : result Sketch :=
  if decide (k < _MIN_K \/ k > _MAX_K) then Err E_badK
  else Ok (mkItemsSketch k _DEFAULT_M k 1 false 0 [u32 k; u32 k]
             (replicate (Z.to_nat k) zeroValue) None None None).

Definition IsEmpty (s : Sketch) : bool := bool_decide (n s = 0).

Definition GetNumRetained (s : Sketch) : option Z :=
  hi ← zget (levels s) (numLevels s);
  lo ← zget (levels s) 0;
  Some (u32 (hi - lo)).

Definition IsEstimationMode (s : Sketch) : bool := bool_decide (numLevels s > 1).

Definition GetTotalItemsArray (s : Sketch) : list C :=
  if decide (n s = 0) then replicate (Z.to_nat (k s)) zeroValue else items s.

Definition getLevelsArray (s : Sketch) : list Z := levels s.

Definition getNumLevels (s : Sketch) : Z := zlen (levels s) - 1.

(** [findLevelToCompact]: the loop [for { ... level++ }] over a [uint8]
    counter. After 256 turns without a return the counter is back at 0 and
    nothing has changed, so the loop never returns: [None] is a panic on an
    index or that endless loop. *)
Fixpoint findLevelToCompact_from (fuel : nat) (k m numLevels : Z) (levels : list Z)
    (level : Z) : option Z :=
  match fuel with
  | O => None
  | S fuel' =>
      hi ← zget levels (u8 (level + 1));
      lo ← zget levels level;
      let pop := u32 (hi - lo) in
      capacity ← levelCapacity k numLevels level m;
      if decide (pop >= capacity) then Some level
      else findLevelToCompact_from fuel' k m numLevels levels (u8 (level + 1))
  end.

Definition findLevelToCompact (k m numLevels : Z) (levels : list Z) : option Z :=
  findLevelToCompact_from 256 k m numLevels levels 0.

Definition computeTotalItemCapacity (k m numLevels : Z) : option Z :=
  iter_up (Z.to_nat numLevels) 0
    (fun level total => c ← levelCapacity k numLevels level m; Some (u32 (total + c))) 0.

(** [randomlyHalveUpItems]: the offset is the constant 1 (the call of
    [rand.Intn(2)] is commented out in the source). The counter [i] is
    unsigned: with a lower limit of 0 the test [i >= 0] never fails and the
    loop runs until [i] wraps and the index leaves the slice (slices hold
    fewer than 2^32 items). *)
Definition randomlyHalveUpItems (buf : list C) (start length : Z) : option (list C) :=
  let halfLength := length / 2 in
  let offset := 1 in
  let j := u32 (u32 (u32 (start + length) - 1) - offset) in
  let top := u32 (u32 (start + length) - 1) in
  let lim := u32 (start + halfLength) in
  if decide (lim = 0) then None
  else
    r ← iter_down (Z.to_nat (top - lim + 1)) top
          (fun i '(buf, j) => x ← zget buf j; buf' ← zset buf i x; Some (buf', u32 (j - 2)))
          (buf, j);
    Some r.1.

(** [randomlyHalveDownItems], with the same constant offset. *)
Definition randomlyHalveDownItems (buf : list C) (start length : Z) : option (list C) :=
  let halfLength := length / 2 in
  let offset := 1 in
  let j := u32 (start + offset) in
  let lim := u32 (start + halfLength) in
  r ← iter_up (Z.to_nat (lim - start)) start
        (fun i '(buf, j) => x ← zget buf j; buf' ← zset buf i x; Some (buf', u32 (j + 2)))
        (buf, j);
  Some r.1.

Definition mergeSortedItemsArrays := mergeSortedArrays (C := C) u32 lessFn.

(** [sort.Slice(buf[lo:hi], less)] *)
Definition sortRange (buf : list C) (lo hi : Z) : option (list C) :=
  mid ← zslice buf lo hi;
  Some (take (Z.to_nat lo) buf ++ sortSlice lessFn mid ++ drop (Z.to_nat hi) buf).

Definition addEmptyTopLevelToCompletelyFullSketch (s : Sketch) : option Sketch :=
  let myCurLevelsArr := getLevelsArray s in
  let myCurNumLevels := numLevels s in
  myCurTotalItemsCapacity ← zget myCurLevelsArr myCurNumLevels;
  let myCurItemsArr := GetTotalItemsArray s in
  deltaItemsCap ← levelCapacity (k s) (u8 (myCurNumLevels + 1)) 0 (m s);
  let myNewTotalItemsCapacity := u32 (myCurTotalItemsCapacity + deltaItemsCap) in
  let growLevelsArr := bool_decide (zlen myCurLevelsArr < u8 (myCurNumLevels + 2)) in
  let myNewLevelsArr :=
    if growLevelsArr
    then take (Z.to_nat (u8 (myCurNumLevels + 2)))
           (myCurLevelsArr ++ replicate (Z.to_nat (u8 (myCurNumLevels + 2))) 0)
    else myCurLevelsArr in
  let myNewNumLevels := if growLevelsArr then u8 (myCurNumLevels + 1) else myCurNumLevels in
  (* for level := uint8(0); level <= myNewNumLevels-1; level++ *)
  let last := u8 (myNewNumLevels - 1) in
  if decide (last = 255) then None
  else
    myNewLevelsArr ← iter_up (Z.to_nat (last + 1)) 0
      (fun level arr => v ← zget arr level; zset arr level (u32 (v + deltaItemsCap)))
      myNewLevelsArr;
    myNewLevelsArr ← zset myNewLevelsArr myNewNumLevels myNewTotalItemsCapacity;
    myNewItemsArr ← iter_up (Z.to_nat myCurTotalItemsCapacity) 0
      (fun i arr => x ← zget myCurItemsArr i; zset arr (u32 (i + deltaItemsCap)) x)
      (replicate (Z.to_nat myNewTotalItemsCapacity) zeroValue);
    Some (set_items (set_levels (set_numLevels s myNewNumLevels) myNewLevelsArr) myNewItemsArr).

Definition compressWhileUpdatingSketch (s : Sketch) : option Sketch :=
  level ← findLevelToCompact (k s) (m s) (numLevels s) (levels s);
  s ← (if decide (level = u8 (numLevels s - 1))
       then addEmptyTopLevelToCompletelyFullSketch s else Some s);
  let myLevelsArr := levels s in
  rawBeg ← zget myLevelsArr level;
  rawEnd ← zget myLevelsArr (u8 (level + 1));
  above ← zget myLevelsArr (u8 (level + 2));
  let popAbove := u32 (above - rawEnd) in
  let rawPop := u32 (rawEnd - rawBeg) in
  let oddPop := bool_decide (rawPop mod 2 = 1) in
  let adjBeg := if oddPop then u32 (rawBeg + 1) else rawBeg in
  let adjPop := if oddPop then u32 (rawPop - 1) else rawPop in
  let halfAdjPop := adjPop / 2 in
  let myItemsArr := GetTotalItemsArray s in
  myItemsArr ← (if decide (level = 0)
                then sortRange myItemsArr adjBeg (u32 (adjBeg + adjPop))
                else Some myItemsArr);
  myItemsArr ← (if decide (popAbove = 0)
                then randomlyHalveUpItems myItemsArr adjBeg adjPop
                else
                  buf ← randomlyHalveDownItems myItemsArr adjBeg adjPop;
                  st ← mergeSortedItemsArrays (fun _ => buf)
                         0%nat adjBeg halfAdjPop 0%nat rawEnd popAbove
                         0%nat (u32 (adjBeg + halfAdjPop));
                  Some (st 0%nat));
  cur ← zget myLevelsArr (u8 (level + 1));
  let newIndex := u32 (cur - halfAdjPop) in
  myLevelsArr ← zset myLevelsArr (u8 (level + 1)) newIndex;
  r ← (if oddPop then
         v ← zget myLevelsArr (u8 (level + 1));
         myLevelsArr ← zset myLevelsArr level (u32 (v - 1));
         dst ← zget myLevelsArr level;
         x ← zget myItemsArr rawBeg;
         myItemsArr ← zset myItemsArr dst x;
         Some (myLevelsArr, myItemsArr)
       else
         v ← zget myLevelsArr (u8 (level + 1));
         myLevelsArr ← zset myLevelsArr level v;
         Some (myLevelsArr, myItemsArr));
  let '(myLevelsArr, myItemsArr) := r in
  myItemsArr ← (if decide (level > 0) then
                  l0 ← zget myLevelsArr 0;
                  let amount := u32 (rawBeg - l0) in
                  iter_down (Z.to_nat amount) amount
                    (fun i arr =>
                       l0 ← zget myLevelsArr 0;
                       let tgtInx := u32 (u32 (u32 (l0 + halfAdjPop) + i) - 1) in
                       let stcInx := u32 (u32 (l0 + i) - 1) in
                       x ← zget arr stcInx; zset arr tgtInx x)
                    myItemsArr
                else Some myItemsArr);
  myLevelsArr ← iter_up (Z.to_nat level) 0
    (fun lvl arr => v ← zget arr lvl; zset arr lvl (u32 (v + halfAdjPop)))
    myLevelsArr;
  Some (set_items (set_levels s myLevelsArr) myItemsArr).

Definition updateItem (s : Sketch) (item : C) : option Sketch :=
  if isNil item then Some s
  else
    s ← (if IsEmpty s then Some (set_maxItem (set_minItem s (Some item)) (Some item))
         else
           mi ← minItem s;
           let s := if lessFn item mi then set_minItem s (Some item) else s in
           ma ← maxItem s;
           Some (if lessFn ma item then set_maxItem s (Some item) else s));
    level0space ← zget (levels s) 0;
    r ← (if decide (level0space = 0) then
           s ← compressWhileUpdatingSketch s;
           level0space ← zget (levels s) 0;
           Some (s, level0space)
         else Some (s, level0space));
    let '(s, level0space) := r in
    let nextPos := u32 (level0space - 1) in
    levels' ← zset (levels s) 0 nextPos;
    items' ← zset (items s) nextPos item;
    Some (mkItemsSketch (k s) (m s) (minK s) (numLevels s) false (u64 (n s + 1))
            levels' items' (minItem s) (maxItem s) (sortedView s)).

Definition Update (s : Sketch) (item : C) : option Sketch :=
  s ← updateItem s item;
  Some (set_sortedView s None).

(** Modelled from the spec: [currentLevelSizeItems] is not among the sources.
    Section 4.5, step 4c, has each sketch contribute its level-[l] run to the
    work buffer; a sketch without that level contributes nothing. *)
Definition currentLevelSizeItems (level numLevels : Z) (levels : list Z) : option Z :=
  if decide (level >= numLevels) then Some 0
  else
    hi ← zget levels (u8 (level + 1));
    lo ← zget levels level;
    Some (u32 (hi - lo)).

(** Modelled from the spec: [getNumRetainedAboveLevelZero] is not among the
    sources. Section 4.5, step 4a: the sum of [levels[l+1] - levels[l]] over
    the levels [l >= 1]. *)
Definition getNumRetainedAboveLevelZero (numLevels : Z) (levels : list Z) : option Z :=
  iter_up (Z.to_nat (numLevels - 1)) 1
    (fun l acc => hi ← zget levels (l + 1); lo ← zget levels l; Some (u32 (acc + u32 (hi - lo))))
    0.

(** Buffers of [populateItemWorkArrays] in the store. *)
Definition bufSelf : nat := 0.
Definition bufOther : nat := 1.
Definition bufWork : nat := 2.

Definition populateItemWorkArrays (workbuf : list C) (worklevels : list Z)
    (provisionalNumLevels : Z)
    (myCurNumLevels : Z) (myCurLevelsArr : list Z) (myCurItemsArr : list C)
    (otherNumLevels : Z) (otherLevelsArr : list Z) (otherItemsArr : list C)
    : option (list C * list Z) :=
  worklevels ← zset worklevels 0 0;
  selfPopZero ← currentLevelSizeItems 0 myCurNumLevels myCurLevelsArr;
  workbuf ← iter_up (Z.to_nat selfPopZero) 0
    (fun i buf =>
       w0 ← zget worklevels 0; l0 ← zget myCurLevelsArr 0;
       x ← zget myCurItemsArr (u32 (l0 + i));
       zset buf (u32 (w0 + i)) x)
    workbuf;
  w0 ← zget worklevels 0;
  worklevels ← zset worklevels 1 (u32 (w0 + selfPopZero));
  (* for lvl := uint8(1); lvl < provisionalNumLevels; lvl++ *)
  iter_up (Z.to_nat (provisionalNumLevels - 1)) 1
    (fun lvl '(workbuf, worklevels) =>
       selfPop ← currentLevelSizeItems lvl myCurNumLevels myCurLevelsArr;
       otherPop ← currentLevelSizeItems lvl otherNumLevels otherLevelsArr;
       wl ← zget worklevels lvl;
       worklevels ← zset worklevels (u8 (lvl + 1)) (u32 (u32 (wl + selfPop) + otherPop));
       if decide (selfPop > 0 /\ otherPop = 0) then
         workbuf ← iter_up (Z.to_nat selfPop) 0
           (fun i buf =>
              wl ← zget worklevels lvl; l ← zget myCurLevelsArr lvl;
              x ← zget myCurItemsArr (u32 (l + i));
              zset buf (u32 (wl + i)) x)
           workbuf;
         Some (workbuf, worklevels)
       else if decide (selfPop = 0 /\ otherPop > 0) then
         workbuf ← iter_up (Z.to_nat otherPop) 0
           (fun i buf =>
              wl ← zget worklevels lvl; l ← zget otherLevelsArr lvl;
              x ← zget otherItemsArr (u32 (l + i));
              zset buf (u32 (wl + i)) x)
           workbuf;
         Some (workbuf, worklevels)
       else if decide (selfPop > 0 /\ otherPop > 0) then
         la ← zget myCurLevelsArr lvl;
         lb ← zget otherLevelsArr lvl;
         wl ← zget worklevels lvl;
         st ← mergeSortedItemsArrays
                (fun b => if decide (b = bufSelf) then myCurItemsArr
                          else if decide (b = bufOther) then otherItemsArr
                          else workbuf)
                bufSelf la selfPop bufOther lb otherPop bufWork wl;
         Some (st bufWork, worklevels)
       else Some (workbuf, worklevels))
    (workbuf, worklevels).

(** The loop state of [generalItemsCompress]; [inBuf] and [outBuf] name
    buffers of the store (the only caller passes the same slice for both). *)
Record compressState : Type := mkCompressState {
  cs_numLevels : Z;          (* uint8 *)
  cs_currentItemCount : Z;   (* uint32 *)
  cs_targetItemCount : Z;    (* uint32 *)
  cs_store : store (C := C);
  cs_inLevels : list Z;
  cs_outLevels : list Z;
}.

(** One turn of the loop [for !doneYet], at [curLevel] (already incremented). *)
Definition generalItemsCompress_step (k m : Z) (inBuf outBuf : nat)
    (isLevelZeroSorted : bool) (curLevel : Z) (cs : compressState) : option compressState :=
  let numLevels := cs_numLevels cs in
  let inLevels := cs_inLevels cs in
  inLevels ← (if decide (curLevel = numLevels - 1)
              then v ← zget inLevels (curLevel + 1); zset inLevels (curLevel + 2) v
              else Some inLevels);
  rawBeg ← zget inLevels curLevel;
  rawLim ← zget inLevels (curLevel + 1);
  let rawPop := u32 (rawLim - rawBeg) in
  through ← (if decide (cs_currentItemCount cs < cs_targetItemCount cs) then Some true
             else c ← levelCapacity k numLevels (u8 curLevel) m;
                  Some (bool_decide (rawPop < c)));
  if through : bool then
    st ← iter_up (Z.to_nat rawPop) 0
      (fun i st =>
         o ← zget (cs_outLevels cs) curLevel;
         x ← rd st inBuf (u32 (rawBeg + i));
         wr st outBuf (u32 (o + i)) x)
      (cs_store cs);
    o ← zget (cs_outLevels cs) curLevel;
    outLevels ← zset (cs_outLevels cs) (curLevel + 1) (u32 (o + rawPop));
    Some (mkCompressState numLevels (cs_currentItemCount cs) (cs_targetItemCount cs)
            st inLevels outLevels)
  else
    above ← zget inLevels (curLevel + 2);
    let popAbove := u32 (above - rawLim) in
    let oddPop := bool_decide (rawPop mod 2 = 1) in
    let adjBeg := if oddPop then u32 (rawBeg + 1) else rawBeg in
    let adjPop := if oddPop then u32 (rawPop - 1) else rawPop in
    let halfAdjPop := adjPop / 2 in
    r ← (if oddPop then
           o ← zget (cs_outLevels cs) curLevel;
           x ← rd (cs_store cs) inBuf rawBeg;
           st ← wr (cs_store cs) outBuf o x;
           o ← zget (cs_outLevels cs) curLevel;
           outLevels ← zset (cs_outLevels cs) (curLevel + 1) (u32 (o + 1));
           Some (st, outLevels)
         else
           o ← zget (cs_outLevels cs) curLevel;
           outLevels ← zset (cs_outLevels cs) (curLevel + 1) o;
           Some (cs_store cs, outLevels));
    let '(st, outLevels) := r in
    buf ← (if decide (curLevel = 0 /\ isLevelZeroSorted = false)
           then sortRange (st inBuf) adjBeg (u32 (adjBeg + adjPop))
           else Some (st inBuf));
    buf ← (if decide (popAbove = 0)
           then randomlyHalveUpItems buf adjBeg adjPop
           else
             buf ← randomlyHalveDownItems buf adjBeg adjPop;
             st' ← mergeSortedItemsArrays (fun _ => buf)
                     0%nat adjBeg halfAdjPop 0%nat rawLim popAbove
                     0%nat (u32 (adjBeg + halfAdjPop));
             Some (st' 0%nat));
    let st := fun b => if decide (b = inBuf) then buf else st b in
    let currentItemCount := u32 (cs_currentItemCount cs - halfAdjPop) in
    v ← zget inLevels (curLevel + 1);
    inLevels ← zset inLevels (curLevel + 1) (u32 (v - halfAdjPop));
    if decide (curLevel = numLevels - 1) then
      let numLevels := u8 (numLevels + 1) in
      c ← levelCapacity k numLevels 0 m;
      Some (mkCompressState numLevels currentItemCount (u32 (cs_targetItemCount cs + c))
              st inLevels outLevels)
    else
      Some (mkCompressState numLevels currentItemCount (cs_targetItemCount cs)
              st inLevels outLevels).

(** The loop: [curLevel] counts up from 0 and the loop is done at the level
    [numLevels - 1]. As [numLevels] is a [uint8], a run that is not done
    within 256 turns has wrapped it and can only end in a panic. *)
Fixpoint generalItemsCompress_loop (fuel : nat) (k m : Z) (inBuf outBuf : nat)
    (isLevelZeroSorted : bool) (curLevel : Z) (cs : compressState) : option compressState :=
  match fuel with
  | O => None
  | S fuel' =>
      cs ← generalItemsCompress_step k m inBuf outBuf isLevelZeroSorted curLevel cs;
      if decide (curLevel = cs_numLevels cs - 1) then Some cs
      else generalItemsCompress_loop fuel' k m inBuf outBuf isLevelZeroSorted (curLevel + 1) cs
  end.

(** [generalItemsCompress]: the final state holds the buffers and level
    arrays the caller reads back, and the returned triple
    [(numLevels, targetItemCount, currentItemCount)]. *)
Definition generalItemsCompress (k m numLevelsIn : Z) (st : store) (inBuf : nat)
    (inLevels : list Z) (outBuf : nat) (outLevels : list Z) (isLevelZeroSorted : bool)
    : option compressState :=
  let numLevels := numLevelsIn in
  hi ← zget inLevels numLevels;
  lo ← zget inLevels 0;
  let currentItemCount := u32 (hi - lo) in
  targetItemCount ← computeTotalItemCapacity k m numLevels;
  outLevels ← zset outLevels 0 0;
  generalItemsCompress_loop 256 k m inBuf outBuf isLevelZeroSorted 0
    (mkCompressState numLevels currentItemCount targetItemCount st inLevels outLevels).

(** [mergeItemsSketch(other)] for an argument that is another object than
    the receiver: the call only reads [other], whose levels and items stay
    what they were on entry while the receiver is updated. The call with
    the receiver as its own argument is [mergeItemsSketchSelf], further
    down. *)
Definition mergeItemsSketch (s other : Sketch) : option Sketch :=
  if IsEmpty other then Some s
  else
    let myEmpty := IsEmpty s in
    mm ← (if myEmpty then Some (zeroValue, zeroValue)
          else mi ← minItem s; ma ← maxItem s; Some (mi, ma));
    let '(myMin, myMax) := mm in
    let myMinK := minK s in
    let finalN := u64 (n s + n other) in
    let otherNumLevels := numLevels other in
    let otherLevelsArr := levels other in
    let otherItemsArr := GetTotalItemsArray other in
    lo ← zget otherLevelsArr 0;
    hi ← zget otherLevelsArr 1;
    s ← iter_up (Z.to_nat (hi - lo)) lo
          (fun i s => x ← zget otherItemsArr i; updateItem s x) s;
    let myCurNumLevels := numLevels s in
    let myCurLevelsArr := levels s in
    let myCurItemsArr := GetTotalItemsArray s in
    r ← (if decide (otherNumLevels > 1) then
           retained ← GetNumRetained s;
           above ← getNumRetainedAboveLevelZero otherNumLevels otherLevelsArr;
           let tmpSpaceNeeded := u32 (retained + above) in
           let workbuf := replicate (Z.to_nat tmpSpaceNeeded) zeroValue in
           let ub := ubOnNumLevels finalN in
           if decide (ub + 2 < 0) then None
           else
             let worklevels := replicate (Z.to_nat (ub + 2)) 0 in
             let outlevels := replicate (Z.to_nat (ub + 2)) 0 in
             let provisionalNumLevels := Z.max myCurNumLevels otherNumLevels in
             w ← populateItemWorkArrays workbuf worklevels provisionalNumLevels
                   myCurNumLevels myCurLevelsArr myCurItemsArr
                   otherNumLevels otherLevelsArr otherItemsArr;
             let '(workbuf, worklevels) := w in
             cs ← generalItemsCompress (k s) (m s) provisionalNumLevels
                    (fun _ => workbuf) 0%nat worklevels 0%nat outlevels (isLevelZeroSorted s);
             let workbuf := cs_store cs 0%nat in
             let outlevels := cs_outLevels cs in
             let targetItemCount := cs_targetItemCount cs in
             let curItemCount := cs_currentItemCount cs in
             let myNewNumLevels := u8 (cs_numLevels cs) in
             let myNewItemsArr :=
               if decide (targetItemCount = zlen myCurItemsArr) then myCurItemsArr
               else replicate (Z.to_nat targetItemCount) zeroValue in
             let freeSpaceAtBottom := u32 (targetItemCount - curItemCount) in
             myNewItemsArr ← iter_up (Z.to_nat curItemCount) 0
               (fun i arr =>
                  o0 ← zget outlevels 0;
                  x ← zget workbuf (u32 (o0 + i));
                  zset arr (u32 (freeSpaceAtBottom + i)) x)
               myNewItemsArr;
             o0 ← zget outlevels 0;
             let theShift := u32 (freeSpaceAtBottom - o0) in
             let finalLevelsArrLen :=
               if decide (u32 (zlen myCurLevelsArr) < u8 (myNewNumLevels + 1))
               then u8 (myNewNumLevels + 1) else u32 (zlen myCurLevelsArr) in
             myNewLevelsArr ← iter_up (Z.to_nat (u8 (myNewNumLevels + 1))) 0
               (fun lvl arr => o ← zget outlevels lvl; zset arr lvl (u32 (o + theShift)))
               (replicate (Z.to_nat finalLevelsArrLen) 0);
             Some (myNewNumLevels, myNewLevelsArr, myNewItemsArr)
         else Some (myCurNumLevels, myCurLevelsArr, myCurItemsArr));
    let '(myNewNumLevels, myNewLevelsArr, myNewItemsArr) := r in
    let newMinK := if IsEstimationMode other then Z.min myMinK (minK other) else minK s in
    mx ← (if myEmpty then Some (minItem other, maxItem other)
          else
            omin ← minItem other;
            let mi := if lessFn myMin omin then Some myMin else minItem other in
            omax ← maxItem other;
            let ma := if lessFn omax myMax then Some myMax else maxItem other in
            Some (mi, ma));
    Some (mkItemsSketch (k s) (m s) newMinK myNewNumLevels (isLevelZeroSorted s) finalN
            myNewLevelsArr myNewItemsArr mx.1 mx.2 (sortedView s)).

Definition Merge (s other : Sketch) : option Sketch :=
  if IsEmpty other then Some s
  else s ← mergeItemsSketch s other; Some (set_sortedView s None).

Definition Reset (s : Sketch) : Sketch :=
  mkItemsSketch (k s) (m s) (minK s) 1 false 0 [u32 (k s); u32 (k s)]
    (replicate (Z.to_nat (k s)) zeroValue) None None None.

(** *** Queries. A query that may build the sorted view returns the sketch as
    it leaves it, next to its result. *)

Context `{!SortedViewOps C SV}.

Definition GetMinItem (s : Sketch) : result C :=
  if IsEmpty s then Err E_empty else of_option (minItem s).

Definition GetMaxItem (s : Sketch) : result C :=
  if IsEmpty s then Err E_empty else of_option (maxItem s).

Definition setupSortedView (s : Sketch) : result Sketch :=
  match sortedView s with
  | None => bind (newItemsSketchSortedView s) (fun sView => Ok (set_sortedView s (Some sView)))
  | Some _ => Ok s
  end.

(** [setupSortedView] followed by a call on [s.sortedView]. *)
Definition withSortedView {A} (s : Sketch) (call : SV -> result A) : result A * Sketch :=
  match setupSortedView s with
  | Ok s' => (bind (of_option (sortedView s')) call, s')
  | Err e => (Err e, s)
  | Panic => (Panic, s)
  end.

Definition GetRank (s : Sketch) (item : C) (inclusive : bool) : result float * Sketch :=
  if IsEmpty s then (Err E_empty, s)
  else withSortedView s (fun v => sv_GetRank v item inclusive).

Fixpoint each {A B} (f : A -> result B) (l : list A) : result (list B) :=
  match l with
  | [] => Ok []
  | x :: rest => bind (f x) (fun y => bind (each f rest) (fun ys => Ok (y :: ys)))
  end.

Definition GetRanks (s : Sketch) (item : list C) (inclusive : bool)
    : result (list float) * Sketch :=
  if IsEmpty s then (Err E_empty, s)
  else withSortedView s (fun v => each (fun x => sv_GetRank v x inclusive) item).

Definition GetQuantile (s : Sketch) (rank : float) (inclusive : bool) : result C * Sketch :=
  if IsEmpty s then (Err E_empty, s)
  else if (rank <? 0)%float || (1 <? rank)%float then (Err E_badRank, s)
  else withSortedView s (fun v => sv_GetQuantile v rank inclusive).

Definition GetQuantiles (s : Sketch) (ranks : list float) (inclusive : bool)
    : result (list C) * Sketch :=
  if IsEmpty s then (Err E_empty, s)
  else withSortedView s (fun v => each (fun r => sv_GetQuantile v r inclusive) ranks).

Definition GetPMF (s : Sketch) (splitPoints : list C) (inclusive : bool)
    : result (list float) * Sketch :=
  if IsEmpty s then (Err E_empty, s)
  else withSortedView s (fun v => sv_GetPMF v splitPoints inclusive).

Definition GetCDF (s : Sketch) (splitPoints : list C) (inclusive : bool)
    : result (list float) * Sketch :=
  if IsEmpty s then (Err E_empty, s)
  else withSortedView s (fun v => sv_GetCDF v splitPoints inclusive).

Definition GetPartitionBoundaries (s : Sketch) (numEquallySized : Z) (inclusive : bool)
    : result PartitionBoundaries * Sketch :=
  if IsEmpty s then (Err E_empty, s)
  else withSortedView s (fun v => sv_GetPartitionBoundaries v numEquallySized inclusive).

Definition GetSortedView (s : Sketch) : result SV * Sketch :=
  if IsEmpty s then (Err E_empty, s)
  else withSortedView s (fun v => Ok v).

(** *** Serialization *)

Definition getLevelsArrSizeBytes (s : Sketch) (structure : sketchStructure) : Z :=
  match structure with
  | _UPDATABLE => zlen (levels s) * 4
  | _COMPACT_FULL => (zlen (levels s) - 1) * 4
  | _ => 0
  end.

Definition getMinMaxSizeBytes (s : Sketch) : option Z :=
  mi ← minItem s; ma ← maxItem s; Some (sizeOf mi + sizeOf ma).

Definition getMinMaxByteArr (s : Sketch) : option (list Z) :=
  mi ← minItem s; ma ← maxItem s;
  Some (SerializeOneToSlice mi ++ SerializeOneToSlice ma).

Definition getSingleItem (s : Sketch) : result C :=
  if decide (n s <> 1) then Err E_notSingle
  else of_option (zget (items s) (u16 (k s - 1))).

Definition getSingleItemSizeBytes (s : Sketch) : result Z :=
  bind (getSingleItem s) (fun v => Ok (sizeOf v + 4)).

Definition getSingleItemByteArr (s : Sketch) : result (list Z) :=
  bind (getSingleItem s) (fun v => Ok (SerializeOneToSlice v)).

Definition getRetainedItemsArray (s : Sketch) : option (list C) :=
  numRet ← GetNumRetained s;
  l0 ← zget (levels s) 0;
  src ← zslice (items s) l0 (zlen (items s));
  Some (take (Z.to_nat numRet) (src ++ replicate (Z.to_nat numRet) zeroValue)).

Definition getRetainedItemsByteArr (s : Sketch) : option (list Z) :=
  retArr ← getRetainedItemsArray s; Some (SerializeManyToSlice retArr).

Definition getRetainedItemsSizeBytes (s : Sketch) : option Z :=
  b ← getRetainedItemsByteArr s; Some (zlen b).

Definition currentSerializedSizeBytes (s : Sketch) : result Z :=
  let srcN := n s in
  if decide (srcN = 0) then Ok _N_LONG_ADR
  else if decide (srcN = 1) then
    bind (getSingleItemSizeBytes s) (fun v => Ok (_DATA_START_ADR_SINGLE_ITEM + v))
  else
    of_option (
      mm ← getMinMaxSizeBytes s;
      ri ← getRetainedItemsSizeBytes s;
      Some (_DATA_START_ADR + getLevelsArrSizeBytes s _COMPACT_FULL + mm + ri)).


Definition ToSlice (s : Sketch) : result (list Z) :=
  let srcN := n s in
  let tgtStructure :=
    if decide (srcN = 0) then _COMPACT_EMPTY
    else if decide (srcN = 1) then _COMPACT_SINGLE else _COMPACT_FULL in
  bind (currentSerializedSizeBytes s) (fun totalBytes =>
  if decide (totalBytes < 0) then Panic
  else
    let bytesOut := replicate (Z.to_nat totalBytes) 0 in
    let preInts := getPreInts tgtStructure mod 256 in
    let serVer := getSerVer tgtStructure mod 256 in
    let famId := _FAMILY_KLL mod 256 in
    let flags :=
      Z.lor (Z.lor (if IsEmpty s then _EMPTY_BIT_MASK else 0)
                   (if isLevelZeroSorted s then _LEVEL_ZERO_SORTED_BIT_MASK else 0))
            (if decide (n s = 1) then _SINGLE_ITEM_BIT_MASK else 0) in
    bind (of_option (
      b ← zset bytesOut 0 preInts;
      b ← zset b 1 serVer;
      b ← zset b 2 famId;
      b ← zset b 3 flags;
      sub ← zslice b 4 6;
      b ← putLE 2 b 4 (u16 (k s));
      zset b 6 (u8 (m s)))) (fun bytesOut =>
    match tgtStructure with
    | _COMPACT_EMPTY => Ok bytesOut
    | _COMPACT_SINGLE =>
        bind (getSingleItemByteArr s) (fun siByteArr =>
        of_option (copyAt bytesOut _DATA_START_ADR_SINGLE_ITEM siByteArr))
    | _ =>
        let numLevels := u8 (numLevels s) in
        let lvlsArr := getLevelsArray s in
        bind (of_option (getMinMaxByteArr s)) (fun minMaxByteArr =>
        bind (of_option (getRetainedItemsByteArr s)) (fun itemsByteArr =>
        of_option (
          sub ← zslice bytesOut 8 16;
          b ← putLE 8 bytesOut 8 (n s);
          sub ← zslice b 16 18;
          b ← putLE 2 b 16 (u16 (minK s));
          b ← zset b 18 numLevels;
          b ← iter_up (Z.to_nat numLevels) 0
                (fun i b => v ← zget lvlsArr i;
                            putLE 4 b (u8 (_DATA_START_ADR + u8 (i * 4))) v) b;
          b ← copyAt b (u8 (_DATA_START_ADR + u8 (numLevels * 4))) minMaxByteArr;
          copyAt b (_DATA_START_ADR + u8 (numLevels * 4) + zlen minMaxByteArr)
            itemsByteArr)))
    end)).

(** Modelled from the spec: [newItemsSketchMemoryValidate] is not among the
    sources. Section 6.2 gives the preamble; the compact-empty and
    compact-single forms carry neither N, minK nor the levels (a sketch of
    one level with N = 0, resp. N = 1 and its item in the last slot); in the
    compact-full form [levels[numLevels]] is implicit, equal to the capacity
    (the sum of the level capacities, data model, invariant 3). Section 7: a
    wrong family or serial version, inconsistent flags and a truncated array
    are corruption errors. *)
Record memoryValidate : Type := mkMemoryValidate {
  mv_sketchStructure : sketchStructure;
  mv_k : Z;
  mv_m : Z;
  mv_n : Z;
  mv_minK : Z;
  mv_numLevels : Z;
  mv_levelsArr : list Z;
  mv_level0SortedFlag : bool;
}.

Definition newItemsSketchMemoryValidate (sl : list Z) : result memoryValidate :=
  match getLE 1 sl 0, getLE 1 sl 1, getLE 1 sl 2, getLE 1 sl 3, getLE 2 sl 4, getLE 1 sl 6,
        getLE 1 sl 7 with
  | Some preInts, Some serVer, Some famId, Some flags, Some k, Some m, Some _ =>
      let emptyFlag := bool_decide (Z.land flags _EMPTY_BIT_MASK <> 0) in
      let sortedFlag := bool_decide (Z.land flags _LEVEL_ZERO_SORTED_BIT_MASK <> 0) in
      let singleFlag := bool_decide (Z.land flags _SINGLE_ITEM_BIT_MASK <> 0) in
      if decide (famId <> _FAMILY_KLL) then Err E_corrupt
      else if decide (preInts = 2 /\ serVer = 1 /\ emptyFlag = true /\ singleFlag = false) then
        Ok (mkMemoryValidate _COMPACT_EMPTY k m 0 k 1 [k; k] sortedFlag)
      else if decide (preInts = 2 /\ serVer = 2 /\ emptyFlag = false /\ singleFlag = true) then
        Ok (mkMemoryValidate _COMPACT_SINGLE k m 1 k 1 [u32 (k - 1); k] sortedFlag)
      else if decide (preInts = 5 /\ serVer = 1 /\ emptyFlag = false /\ singleFlag = false) then
        match getLE 8 sl 8, getLE 2 sl 16, getLE 1 sl 18, getLE 1 sl 19 with
        | Some n, Some minK, Some numLevels, Some _ =>
            match iter_up (Z.to_nat numLevels) 0
                    (fun i acc => v ← getLE 4 sl (_DATA_START_ADR + 4 * i); Some (acc ++ [v]))
                    [] with
            | Some lv =>
                match computeTotalItemCapacity k m numLevels with
                | Some capacity =>
                    Ok (mkMemoryValidate _COMPACT_FULL k m n minK numLevels
                          (lv ++ [capacity]) sortedFlag)
                | None => Err E_corrupt
                end
            | None => Err E_corrupt
            end
        | _, _, _, _ => Err E_corrupt
        end
      else Err E_corrupt
  | _, _, _, _, _, _, _ => Err E_corrupt
  end.

Definition NewItemsSketchFromSlice (sl : list Z) : result Sketch :=
  bind (newItemsSketchMemoryValidate sl) (fun memVal =>
  let k := mv_k memVal in
  let levelsArr := mv_levelsArr memVal in
  bind (of_option (zget levelsArr (mv_numLevels memVal))) (fun top =>
  let items := replicate (Z.to_nat top) zeroValue in
  bind (
    match mv_sketchStructure memVal with
    | _COMPACT_EMPTY => Ok (None, None, replicate (Z.to_nat k) zeroValue)
    | _COMPACT_SINGLE =>
        let offset := _N_LONG_ADR in
        bind (DeserializeFromSlice sl offset 1) (fun deserItems =>
        bind (of_option (zget deserItems 0)) (fun x =>
        let items := replicate (Z.to_nat k) zeroValue in
        bind (of_option (zset items (u16 (k - 1)) x)) (fun items =>
        Ok (Some x, Some x, items))))
    | _COMPACT_FULL =>
        let offset := u8 (_DATA_START_ADR + u8 (mv_numLevels memVal * 4)) in
        (* [minItem = &deserMinItems[0]] comes before the test of [err] *)
        match DeserializeFromSlice sl offset 1 with
        | Ok deserMinItems =>
            bind (of_option (zget deserMinItems 0)) (fun minItem =>
            let offset := offset + sizeOf minItem in
            match DeserializeFromSlice sl offset 1 with
            | Ok deserMaxItems =>
                bind (of_option (zget deserMaxItems 0)) (fun maxItem =>
                let offset := offset + sizeOf maxItem in
                bind (of_option (zget levelsArr 0)) (fun l0 =>
                let numRetained := u32 (top - l0) in
                bind (DeserializeFromSlice sl offset numRetained) (fun deseRetItems =>
                bind (of_option (
                  iter_up (Z.to_nat numRetained) 0
                    (fun i items => x ← zget deseRetItems i; zset items (u32 (i + l0)) x)
                    items)) (fun items =>
                Ok (Some minItem, Some maxItem, items)))))
            | _ => Panic
            end)
        | _ => Panic
        end
    | _UPDATABLE => Ok (None, None, items)
    end) (fun r =>
  let '(minItem, maxItem, items) := r in
  Ok (mkItemsSketch k (mv_m memVal) (mv_minK memVal) (mv_numLevels memVal)
        (mv_level0SortedFlag memVal) (mv_n memVal) levelsArr items minItem maxItem None)))).

(** [NewItemsSketchFromSlice] applied to the outcome of [ToSlice]. *)
Definition roundTrip (s : Sketch) : result Sketch :=
  bind (ToSlice s) NewItemsSketchFromSlice.

(** What a round trip is to preserve: N, K, M, minK, the levels array, the
    retained items in logical order, the minimum and the maximum. *)
Definition observe (s : Sketch)
    : Z * Z * Z * Z * list Z * option (list C) * option C * option C :=
  (n s, k s, m s, minK s, levels s, getRetainedItemsArray s, minItem s, maxItem s).

End Sketch.

End Items.

(** ** The string items of the tests ([stringItemsSketchOp], in
    [kll/items_sketch_test.go]); a Go string is its sequence of bytes. *)

Module StringItems.
Import Items.

Definition GoString : Type := list Z.

(** [a < b] on strings: bytewise lexicographic. *)
Fixpoint string_lt (a b : GoString) : bool :=
  match a, b with
  | _, [] => false
  | [], _ :: _ => true
  | x :: a', y :: b' => if x <? y then true else if y <? x then false else string_lt a' b'
  end.

Definition E_offset : nat := 30.

(** [checkBounds] is not among the sources; it is taken to accept exactly
    the requests that lie inside the allocation. *)
Definition checkBounds (reqOff reqLen allocSize : Z) : bool :=
  bool_decide (0 <= reqOff /\ 0 <= reqLen /\ reqOff + reqLen <= allocSize).

Definition string_sizeOf (item : GoString) : Z :=
  if decide (zlen item = 0) then 4 else zlen item + 4.

Definition string_SerializeOneToSlice (item : GoString) : list Z :=
  if decide (zlen item = 0) then []
  else
    let utf8len := zlen item in
    default [] (b ← putLE 4 (replicate (Z.to_nat (utf8len + 4)) 0) 0 (u32 utf8len);
                copyAt b 4 item).

Definition string_SerializeManyToSlice (item : list GoString) : list Z :=
  if decide (zlen item = 0) then []
  else concat (map (fun x => default [] (putLE 4 [0; 0; 0; 0] 0 (u32 (zlen x))) ++ x) item).

(** The loop of [DeserializeFromSlice] and [sizeOfMany]: [numItems] turns,
    each returning the bounds error or moving [offset] forward by at least
    4. A run of more than [len(mem)/4] turns therefore ends in that error,
    and [fuel = len(mem) + 1] turns are never all used. *)
Fixpoint deserialize_loop (fuel : nat) (mem : list Z) (offset remaining : Z)
    : result (list GoString * Z) :=
  if decide (remaining <= 0) then Ok ([], offset)
  else
    match fuel with
    | O => Panic
    | S fuel' =>
        let memCap := zlen mem in
        if negb (checkBounds offset 4 memCap) then Err E_offset
        else
          bind (of_option (getLE 4 mem offset)) (fun strLength =>
          let offset := offset + 4 in
          if negb (checkBounds offset strLength memCap) then Err E_offset
          else
            bind (of_option (zslice mem offset (offset + strLength))) (fun utf8Bytes =>
            bind (deserialize_loop fuel' mem (offset + strLength) (remaining - 1)) (fun r =>
            Ok (utf8Bytes :: r.1, r.2))))
    end.

Definition string_DeserializeFromSlice (mem : list Z) (offsetBytes numItems : Z)
    : result (list GoString) :=
  if decide (numItems <= 0) then Ok []
  else bind (deserialize_loop (S (length mem)) mem offsetBytes numItems) (fun r => Ok r.1).

Definition string_sizeOfMany (mem : list Z) (offsetBytes numItems : Z) : result Z :=
  if decide (numItems <= 0) then Ok 0
  else bind (deserialize_loop (S (length mem)) mem offsetBytes numItems)
         (fun r => Ok (r.2 - offsetBytes)).

#[global] Instance stringItemsSketchOp : ItemSketchOp GoString := {|
  identity := [];
  lessFn := string_lt;
  sizeOf := string_sizeOf;
  sizeOfMany := string_sizeOfMany;
  SerializeManyToSlice := string_SerializeManyToSlice;
  SerializeOneToSlice := string_SerializeOneToSlice;
  DeserializeFromSlice := string_DeserializeFromSlice;
|}.

(** Insertion into a run that is ascending under [less]. *)
Fixpoint insert_sorted {A} (less : A -> A -> bool) (x : A) (l : list A) : list A :=
  match l with
  | [] => [x]
  | y :: rest => if less x y then x :: l else y :: insert_sorted less x rest
  end.

(** A sort to run the sketch with: [sort.Slice] is not among the sources. *)
Definition insertion_sort {A} (less : A -> A -> bool) (l : list A) : list A :=
  foldr (insert_sorted less) [] l.

(** The run-time of a sketch of strings: the zero value is the empty string,
    no string is nil, and [ubOnNumLevels] (not among the sources) is taken
    as [1 + floor(log2 n)]. *)
#[global] Instance stringRuntime : Runtime GoString := {|
  zeroValue := [];
  isNil := fun _ => false;
  sortSlice := fun less l => insertion_sort less l;
  ubOnNumLevels := fun n => 1 + Z.log2 n;
|}.

(** The sorted view is not modelled: a sketch without one. *)
#[global] Instance noSortedView : SortedViewOps GoString unit := {|
  PartitionBoundaries := unit;
  newItemsSketchSortedView := fun _ => Panic;
  sv_GetRank := fun _ _ _ => Panic;
  sv_GetQuantile := fun _ _ _ => Panic;
  sv_GetPMF := fun _ _ _ => Panic;
  sv_GetCDF := fun _ _ _ => Panic;
  sv_GetPartitionBoundaries := fun _ _ _ => Panic;
|}.

(** A stream of updates. *)
Fixpoint updateAll (s : ItemsSketch GoString unit) (stream : list GoString)
    : option (ItemsSketch GoString unit) :=
  match stream with
  | [] => Some s
  | x :: rest => s ← Update s x; updateAll s rest
  end.

(** A new sketch of size [k] fed with [stream]. *)
Definition sketchOf (k : Z) (stream : list GoString) : result (ItemsSketch GoString unit) :=
  bind (NewItemsSketch k) (fun s => of_option (updateAll s stream)).

(** The one-letter strings [a], [b], ... : a stream to run the sketch on. *)
Definition letters (n : nat) : list GoString :=
  map (fun i => [97 + Z.of_nat i]) (seq 0 n).

End StringItems.

(** ** The [int]-based helpers ([kll/helper.go]) *)

Module Helper.

(** Error messages, numbered in the order of the source. *)
Definition E_resultGtK : nat := 1.
Definition E_kTooLarge : nat := 2.
Definition E_numLevels : nat := 3.
Definition E_level : nat := 4.
Definition E_noLevel : nat := 5.

(** [intCapAuxAux(k int64, depth int) (int64, error)] *)
Definition intCapAuxAux (k depth : Z) : result Z :=
  let twok := i64 (Z.shiftl k 1) in
  bind (of_option (zget Items.powersOfThree depth)) (fun p3 =>
  let tmp := Z.quot (i64 (Z.shiftl twok depth)) p3 in
  let result := Z.shiftr (i64 (tmp + 1)) 1 in
  if decide (result > k) then Err E_resultGtK else Ok result).

(** [intCapAux(k int, depth int) (int64, error)] *)
Definition intCapAux (k depth : Z) : result Z :=
  if decide (depth <= 30) then intCapAuxAux k depth
  else
    let half := Z.quot depth 2 in
    let rest := depth - half in
    bind (intCapAuxAux k half) (fun tmp => intCapAuxAux tmp rest).

(** [levelCapacity(k int, numLevels int, level int, m int) (int, error)] *)
Definition levelCapacity (k numLevels level m : Z) : result Z :=
  if decide (k > 2 ^ 29) then Err E_kTooLarge
  else if decide (numLevels < 1 \/ numLevels > 61) then Err E_numLevels
  else if decide (level < 0 \/ level >= numLevels) then Err E_level
  else
    let depth := numLevels - level - 1 in
    bind (intCapAux k depth) (fun v => Ok (Z.max m v)).

Definition E_badK : nat := 6.
Definition E_badM : nat := 7.
Definition E_badRank : nat := 8.
Definition E_badSplits : nat := 9.

Definition _MAX_K : Z := 2 ^ 16 - 1.
Definition _MAX_M : Z := 8.
Definition _MIN_M : Z := 2.

(** An [error] result without a value: [None] is [nil]. *)
Definition checkK (k m : Z) : option nat :=
  if decide (k < m \/ k > _MAX_K) then Some E_badK else None.

Definition checkM (m : Z) : option nat :=
  if decide (m < _MIN_M \/ m > _MAX_M \/ Z.land m 1 = 1) then Some E_badM else None.

Definition checkNormalizedRankBounds (nRank : float) : option nat :=
  if (nRank <? 0)%float || (1 <? nRank)%float then Some E_badRank else None.

(** [values[j] < values[j+1]] for every adjacent pair, else the error. *)
Fixpoint splitPointsAscending (values : list float) : bool :=
  match values with
  | x :: ((y :: _) as rest) => if (x <? y)%float then splitPointsAscending rest else false
  | _ => true
  end.

Definition checkDoublesSplitPointsOrder (values : list float) : option nat :=
  match values with
  | [x] => if negb (x =? x)%float then Some E_badSplits else None
  | _ => if splitPointsAscending values then None else Some E_badSplits
  end.

(** [findLevelToCompact]: the loop returns by the test [level >= numLevels]
    after at most [numLevels + 1] turns. *)
Fixpoint findLevelToCompact_from (fuel : nat) (k m numLevels : Z) (levels : list Z)
    (level : Z) : result Z :=
  match fuel with
  | O => Panic
  | S fuel' =>
      if decide (level >= numLevels) then Err E_noLevel
      else
        bind (of_option (zget levels (i64 (level + 1)))) (fun hi =>
        bind (of_option (zget levels level)) (fun lo =>
        let pop := i64 (hi - lo) in
        bind (levelCapacity k numLevels level m) (fun capacity =>
        if decide (pop >= capacity) then Ok level
        else findLevelToCompact_from fuel' k m numLevels levels (i64 (level + 1)))))
  end.

Definition findLevelToCompact (k m numLevels : Z) (levels : list Z) : result Z :=
  findLevelToCompact_from (Z.to_nat numLevels + 1) k m numLevels levels 0.

(** [convertToCumulative(array []int64) ([]int64, int64)]: one pass over the
    slice, each entry read and then overwritten; [subtotal] is the loop
    variable. *)
Fixpoint convertToCumulative_from (subtotal : Z) (array : list Z) : list Z * Z :=
  match array with
  | [] => ([], subtotal)
  | x :: rest =>
      let newSubtotal := i64 (subtotal + x) in
      let subtotal' := x in
      let '(out, total) := convertToCumulative_from subtotal' rest in
      (newSubtotal :: out, total)
  end.

Definition convertToCumulative (array : list Z) : list Z * Z :=
  convertToCumulative_from 0 array.

End Helper.

(** ** The doubles sketch ([kll/double_sketch.go], later revision) *)

Module Doubles.
Import Helper.

Local Open Scope float_scope.

(** [math.IsNaN], [math.Min] and [math.Max] of the Go library. *)
Definition IsNaN (x : float) : bool := negb (x =? x).

Definition isZero (x : float) : bool :=
  match classify x with PZero | NZero => true | _ => false end.

Definition Signbit (x : float) : bool :=
  match classify x with
  | NInf | NNormal | NSubn | NZero => true
  | _ => false
  end.

Definition math_Min (x y : float) : float :=
  if (x =? neg_infinity) || (y =? neg_infinity) then neg_infinity
  else if IsNaN x || IsNaN y then nan
  else if isZero x && (x =? y) then (if Signbit x then x else y)
  else if x <? y then x else y.

Definition math_Max (x y : float) : float :=
  if (x =? infinity) || (y =? infinity) then infinity
  else if IsNaN x || IsNaN y then nan
  else if isZero x && (x =? y) then (if Signbit x then y else x)
  else if y <? x then x else y.

Local Open Scope Z_scope.

Inductive sketchStructure : Type := compactEmpty | compactSingle | compactFull | updatable.

#[global] Instance sketchStructure_eq_dec : EqDecision sketchStructure.
Proof. solve_decision. Defined.

Inductive KllSearchCriteria : Type := KLL_INCLUSIVE | KLL_EXCLUSIVE.

Record doubleSketchSortedView : Type := mkSortedView {
  quantiles : list float;
  cumWeights : list Z;         (* []int64 *)
  totalN : Z;                  (* int64 *)
  sv_maxItem : float;
  sv_minItem : float;
}.

Record DoubleSketch : Type := mkDoubleSketch {
  structure : sketchStructure;
  kllDoublesSV : option doubleSketchSortedView;
  readOnly : bool;
  levelsArr : list Z;          (* []int *)
  k : Z;
  m : Z;
  n : Z;                       (* int64 *)
  minK : Z;
  isLevelZeroSorted : bool;
  minDoubleItem : float;
  maxDoubleItem : float;
  doubleItems : list float;
}.

Definition E_readOnly : nat := 20.
Definition E_empty : nat := 21.
Definition E_growth : nat := 22.
Definition E_full : nat := 23.

Definition set_levelsArr (s : DoubleSketch) (v : list Z) : DoubleSketch :=
  mkDoubleSketch (structure s) (kllDoublesSV s) (readOnly s) v (k s) (m s) (n s) (minK s)
    (isLevelZeroSorted s) (minDoubleItem s) (maxDoubleItem s) (doubleItems s).
Definition set_doubleItems (s : DoubleSketch) (v : list float) : DoubleSketch :=
  mkDoubleSketch (structure s) (kllDoublesSV s) (readOnly s) (levelsArr s) (k s) (m s) (n s)
    (minK s) (isLevelZeroSorted s) (minDoubleItem s) (maxDoubleItem s) v.
Definition setMinItem (s : DoubleSketch) (item : float) : DoubleSketch :=
  mkDoubleSketch (structure s) (kllDoublesSV s) (readOnly s) (levelsArr s) (k s) (m s) (n s)
    (minK s) (isLevelZeroSorted s) item (maxDoubleItem s) (doubleItems s).
Definition setMaxItem (s : DoubleSketch) (item : float) : DoubleSketch :=
  mkDoubleSketch (structure s) (kllDoublesSV s) (readOnly s) (levelsArr s) (k s) (m s) (n s)
    (minK s) (isLevelZeroSorted s) (minDoubleItem s) item (doubleItems s).
Definition incN (s : DoubleSketch) : DoubleSketch :=
  mkDoubleSketch (structure s) (kllDoublesSV s) (readOnly s) (levelsArr s) (k s) (m s)
    (i64 (n s + 1)) (minK s) (isLevelZeroSorted s) (minDoubleItem s) (maxDoubleItem s)
    (doubleItems s).
Definition setLevelZeroSorted (s : DoubleSketch) (isSorted : bool) : DoubleSketch :=
  mkDoubleSketch (structure s) (kllDoublesSV s) (readOnly s) (levelsArr s) (k s) (m s) (n s)
    (minK s) isSorted (minDoubleItem s) (maxDoubleItem s) (doubleItems s).
Definition set_kllDoublesSV (s : DoubleSketch) (v : option doubleSketchSortedView)
    : DoubleSketch :=
  mkDoubleSketch (structure s) v (readOnly s) (levelsArr s) (k s) (m s) (n s)
    (minK s) (isLevelZeroSorted s) (minDoubleItem s) (maxDoubleItem s) (doubleItems s).

Definition NewKllDoubleSketch (k m : Z) : result DoubleSketch :=
  match checkK k m with
  | Some e => Err e
  | None =>
      match checkM m with
      | Some e => Err e
      | None =>
          Ok (mkDoubleSketch updatable None false [k; k] k m 0 k false nan nan
                (replicate (Z.to_nat k) 0%float))
      end
  end.

Definition GetN (s : DoubleSketch) : Z := n s.
Definition IsEmpty (s : DoubleSketch) : bool := bool_decide (GetN s = 0).

Definition getNumLevels (s : DoubleSketch) : Z :=
  if decide (structure s = updatable \/ structure s = compactFull)
  then zlen (levelsArr s) - 1 else 1.

Definition GetNumRetained (s : DoubleSketch) : option Z :=
  hi ← zget (levelsArr s) (getNumLevels s);
  lo ← zget (levelsArr s) 0;
  Some (i64 (hi - lo)).

Definition GetMinItem (s : DoubleSketch) : result float :=
  if IsEmpty s then Err E_empty else Ok (minDoubleItem s).

Definition GetMaxItem (s : DoubleSketch) : result float :=
  if IsEmpty s then Err E_empty else Ok (maxDoubleItem s).

(** [make([]int, len(k.levelsArr))] then [copy]. *)
Definition getLevelsArray (s : DoubleSketch) (structure : sketchStructure) : list Z :=
  match structure with
  | updatable => levelsArr s
  | compactFull =>
      take (length (levelsArr s) - 1) (levelsArr s) ++
      (if decide (length (levelsArr s) = 0%nat) then [] else [0])
  | _ => []
  end.

(** [randomlyHalveUpDoubles]; [offset] is the value drawn by [rand.Intn(2)]. *)
Definition randomlyHalveUpDoubles (offset : Z) (buf : list float) (start length : Z)
    : option (list float) :=
  let halfLength := Z.quot length 2 in
  let j := i64 (i64 (i64 (start + length) - 1) - offset) in
  let top := i64 (i64 (start + length) - 1) in
  let lim := i64 (start + halfLength) in
  r ← iter_down (Z.to_nat (top - lim + 1)) top
        (fun i '(buf, j) => x ← zget buf j; buf' ← zset buf i x; Some (buf', i64 (j - 2)))
        (buf, j);
  Some r.1.

(** [randomlyHalveDownDoubles] *)
Definition randomlyHalveDownDoubles (offset : Z) (buf : list float) (start length : Z)
    : option (list float) :=
  let halfLength := Z.quot length 2 in
  let j := i64 (start + offset) in
  let lim := i64 (start + halfLength) in
  r ← iter_up (Z.to_nat (lim - start)) start
        (fun i '(buf, j) => x ← zget buf j; buf' ← zset buf i x; Some (buf', i64 (j + 2)))
        (buf, j);
  Some r.1.

Definition mergeSortedDoubleArrays := mergeSortedArrays (C := float) i64 PrimFloat.ltb.

(** [addEmptyTopLevelToCompletelyFullSketch] from the growth-scheme checks
    on, given the copy of the levels array, the capacity read from it and the
    extremes (the two revisions obtain these differently). *)
Definition addEmptyTopLevel_grow (s : DoubleSketch) (myCurLevelsArr : list Z)
    (myCurNumLevels myCurTotalItemsCapacity : Z) (minDouble maxDouble : float)
    : result DoubleSketch :=
  let myCurDoubleItemsArr := doubleItems s in
  if decide (zlen myCurDoubleItemsArr <> myCurTotalItemsCapacity) then Err E_growth
  else
    bind (of_option (zget myCurLevelsArr 0)) (fun l0 =>
    if decide (l0 <> 0) then Err E_full
    else
      bind (levelCapacity (k s) (i64 (myCurNumLevels + 1)) 0 (m s)) (fun deltaItemsCap =>
      let myNewTotalItemsCapacity := i64 (myCurTotalItemsCapacity + deltaItemsCap) in
      bind (of_option (zget myCurLevelsArr (i64 (myCurNumLevels + 1)))) (fun probe =>
      let growLevelsArr := bool_decide (probe < i64 (myCurNumLevels + 2)) in
      let myNewLevelsArr :=
        if growLevelsArr
        then take (Z.to_nat (i64 (myCurNumLevels + 2)))
               (myCurLevelsArr ++ replicate (Z.to_nat (i64 (myCurNumLevels + 2))) 0)
        else myCurLevelsArr in
      let myNewNumLevels :=
        if growLevelsArr then i64 (myCurNumLevels + 1) else myCurNumLevels in
      of_option (
        myNewLevelsArr ← iter_up (Z.to_nat myNewNumLevels) 0
          (fun level arr => v ← zget arr level; zset arr level (i64 (v + deltaItemsCap)))
          myNewLevelsArr;
        myNewLevelsArr ← zset myNewLevelsArr myNewNumLevels myNewTotalItemsCapacity;
        (if decide (myNewTotalItemsCapacity < 0) then None else Some tt);;
        myNewDoubleItemsArr ← iter_up (Z.to_nat myCurTotalItemsCapacity) 0
          (fun i arr => x ← zget myCurDoubleItemsArr i; zset arr (i64 (i + deltaItemsCap)) x)
          (replicate (Z.to_nat myNewTotalItemsCapacity) 0%float);
        let s := if readOnly s then s else set_levelsArr s myNewLevelsArr in
        Some (set_doubleItems (setMaxItem (setMinItem s minDouble) maxDouble)
                myNewDoubleItemsArr))))).

Definition addEmptyTopLevelToCompletelyFullSketch (s : DoubleSketch) : result DoubleSketch :=
  let myCurLevelsArr := getLevelsArray s updatable in
  let myCurNumLevels := getNumLevels s in
  bind (of_option (zget myCurLevelsArr myCurNumLevels)) (fun myCurTotalItemsCapacity =>
  bind (GetMinItem s) (fun minDouble =>
  bind (GetMaxItem s) (fun maxDouble =>
  addEmptyTopLevel_grow s myCurLevelsArr myCurNumLevels myCurTotalItemsCapacity
    minDouble maxDouble))).

(** [compressWhileUpdatingSketch]; [offset] is the value [rand.Intn(2)]
    returns in the halving step. Sorting level 0 is [panic("implement me")]. *)
Definition compressWhileUpdatingSketch_with
    (addEmptyTopLevel : DoubleSketch -> result DoubleSketch)
    (offset : Z) (s : DoubleSketch) : result DoubleSketch :=
  bind (findLevelToCompact (k s) (m s) (getNumLevels s) (levelsArr s)) (fun level =>
  bind (if decide (level = i64 (getNumLevels s - 1))
        then addEmptyTopLevel s else Ok s) (fun s =>
  of_option (
    let myLevelsArr := levelsArr s in
    rawBeg ← zget myLevelsArr level;
    rawEnd ← zget myLevelsArr (i64 (level + 1));
    above ← zget myLevelsArr (i64 (level + 2));
    let popAbove := i64 (above - rawEnd) in
    let rawPop := i64 (rawEnd - rawBeg) in
    let oddPop := bool_decide (Z.land rawPop 1 = 1) in
    let adjBeg := if oddPop then i64 (rawBeg + 1) else rawBeg in
    let adjPop := if oddPop then i64 (rawPop - 1) else rawPop in
    let halfAdjPop := Z.quot adjPop 2 in
    let myDoubleItemsArr := doubleItems s in
    if decide (level = 0) then None
    else
      myDoubleItemsArr ← (if decide (popAbove = 0)
        then randomlyHalveUpDoubles offset myDoubleItemsArr adjBeg adjPop
        else
          buf ← randomlyHalveDownDoubles offset myDoubleItemsArr adjBeg adjPop;
          st ← mergeSortedDoubleArrays (fun _ => buf)
                 0%nat adjBeg halfAdjPop 0%nat rawEnd popAbove
                 0%nat (i64 (adjBeg + halfAdjPop));
          Some (st 0%nat));
      cur ← zget myLevelsArr (i64 (level + 1));
      let newIndex := i64 (cur - halfAdjPop) in
      myLevelsArr ← zset myLevelsArr (i64 (level + 1)) newIndex;
      r ← (if oddPop then
             v ← zget myLevelsArr (i64 (level + 1));
             myLevelsArr ← zset myLevelsArr level (i64 (v - 1));
             dst ← zget myLevelsArr level;
             x ← zget myDoubleItemsArr rawBeg;
             myDoubleItemsArr ← zset myDoubleItemsArr dst x;
             Some (myLevelsArr, myDoubleItemsArr)
           else
             v ← zget myLevelsArr (i64 (level + 1));
             myLevelsArr ← zset myLevelsArr level v;
             Some (myLevelsArr, myDoubleItemsArr));
      let '(myLevelsArr, myDoubleItemsArr) := r in
      myDoubleItemsArr ← (if decide (level > 0) then
          l0 ← zget myLevelsArr 0;
          let amount := i64 (rawBeg - l0) in
          iter_up (Z.to_nat amount) 0
            (fun i arr =>
               l0 ← zget myLevelsArr 0;
               x ← zget arr (i64 (l0 + i));
               zset arr (i64 (i64 (l0 + halfAdjPop) + i)) x)
            myDoubleItemsArr
        else Some myDoubleItemsArr);
      myLevelsArr ← iter_up (Z.to_nat level) 0
        (fun lvl arr => v ← zget arr lvl; zset arr lvl (i64 (v + halfAdjPop)))
        myLevelsArr;
      Some (set_doubleItems (set_levelsArr s myLevelsArr) myDoubleItemsArr)))).

Definition compressWhileUpdatingSketch :=
  compressWhileUpdatingSketch_with addEmptyTopLevelToCompletelyFullSketch.

(** [updateDouble] from [level0space := dblSk.levelsArr[0]] on. *)
Definition updateDouble_insert
    (compress : Z -> DoubleSketch -> result DoubleSketch)
    (offset : Z) (dblSk : DoubleSketch) (item : float) : result DoubleSketch :=
  bind (of_option (zget (levelsArr dblSk) 0)) (fun level0space =>
  bind (if decide (level0space = 0) then
          bind (compress offset dblSk) (fun dblSk =>
          bind (of_option (zget (levelsArr dblSk) 0)) (fun level0space =>
          Ok (dblSk, level0space)))
        else Ok (dblSk, level0space)) (fun r =>
  let '(dblSk, level0space) := r in
  let dblSk := setLevelZeroSorted (incN dblSk) false in
  let nextPos := i64 (level0space - 1) in
  of_option (
    levels' ← zset (levelsArr dblSk) 0 nextPos;
    items' ← zset (doubleItems dblSk) nextPos item;
    Some (set_doubleItems (set_levelsArr dblSk levels') items')))).

(** [updateDouble]: in this revision the running maximum is computed from
    the value [GetMinItem] returns. *)
Definition updateDouble (offset : Z) (dblSk : DoubleSketch) (item : float) : result DoubleSketch :=
  if IsNaN item then Ok dblSk
  else
    bind (if IsEmpty dblSk then Ok (setMaxItem (setMinItem dblSk item) item)
          else
            bind (GetMinItem dblSk) (fun mi =>
            let dblSk := setMinItem dblSk (math_Min mi item) in
            bind (GetMinItem dblSk) (fun ma =>
            Ok (setMaxItem dblSk (math_Max ma item))))) (fun dblSk =>
    updateDouble_insert compressWhileUpdatingSketch offset dblSk item).

Definition Update (offset : Z) (s : DoubleSketch) (value : float) : result DoubleSketch :=
  if readOnly s then Err E_readOnly else updateDouble offset s value.

(** A stream of updates, every halving drawing [offset]. *)
Fixpoint updateAll (update : DoubleSketch -> float -> result DoubleSketch)
    (s : DoubleSketch) (stream : list float) : result DoubleSketch :=
  match stream with
  | [] => Ok s
  | x :: rest => bind (update s x) (fun s => updateAll update s rest)
  end.

(** *** The sorted view ([kll/double_sketch_sorted_view.go]) *)

Definition E_viewEmpty : nat := 24.

Definition sv_IsEmpty (v : doubleSketchSortedView) : bool := bool_decide (totalN v = 0).

(** [getRank]: [panic("not implemented")] once the view is known not to be empty. *)
Definition getRank (v : doubleSketchSortedView) (quantile : float)
    (searchCriteria : KllSearchCriteria) : result float :=
  if sv_IsEmpty v then Err E_viewEmpty else Panic.

(** [getQuantile]: the same stub, behind the two checks. *)
Definition getQuantile (v : doubleSketchSortedView) (rank : float)
    (searchCriteria : KllSearchCriteria) : result float :=
  if sv_IsEmpty v then Err E_viewEmpty
  else match checkNormalizedRankBounds rank with
       | Some e => Err e
       | None => Panic
       end.

(** [getCDF] and [getPMF], over the rank function they call. *)
Section OverRank.
Variable rankOf : float -> KllSearchCriteria -> result float.

Fixpoint ranksOf (splitPoints : list float) (searchCriteria : KllSearchCriteria)
    : result (list float) :=
  match splitPoints with
  | [] => Ok []
  | x :: rest =>
      bind (rankOf x searchCriteria) (fun r =>
      bind (ranksOf rest searchCriteria) (fun rs => Ok (r :: rs)))
  end.

Definition getCDF_over (splitPoints : list float) (searchCriteria : KllSearchCriteria)
    : result (list float) :=
  match checkDoublesSplitPointsOrder splitPoints with
  | Some e => Err e
  | None => bind (ranksOf splitPoints searchCriteria) (fun rs => Ok (rs ++ [1%float]))
  end.

(** [for i := len(buckets); i > 1; i-- { buckets[i] -= buckets[i-1] }] *)
Definition getPMF_over (splitPoints : list float) (searchCriteria : KllSearchCriteria)
    : result (list float) :=
  bind (getCDF_over splitPoints searchCriteria) (fun buckets =>
  of_option (
    iter_down (Z.to_nat (zlen buckets - 1)) (zlen buckets)
      (fun i buckets =>
         a ← zget buckets i; b ← zget buckets (i - 1);
         zset buckets i (a - b)%float)
      buckets)).

End OverRank.

Definition getCDF (v : doubleSketchSortedView) := getCDF_over (getRank v).
Definition getPMF (v : doubleSketchSortedView) := getPMF_over (getRank v).

(** *** Queries of the sketch. [newView] stands for
    [newDoubleSketchSortedViewFromSketch], which also touches the sketch's
    item array: it returns the view and the sketch as it leaves it. *)
Section Queries.
Variable newView : DoubleSketch -> result (doubleSketchSortedView * DoubleSketch).

Definition refreshSortedView (s : DoubleSketch) : result DoubleSketch :=
  match kllDoublesSV s with
  | None => bind (newView s) (fun r => Ok (set_kllDoublesSV r.2 (Some r.1)))
  | Some _ => Ok s
  end.

Definition withView {A} (s : DoubleSketch) (call : doubleSketchSortedView -> result A)
    : result A * DoubleSketch :=
  match refreshSortedView s with
  | Ok s' => (bind (of_option (kllDoublesSV s')) call, s')
  | Err e => (Err e, s)
  | Panic => (Panic, s)
  end.

Definition GetRankWithMode (s : DoubleSketch) (quantile : float) (mode : KllSearchCriteria)
    : result float :=
  if IsEmpty s then Err E_empty else Panic.

Definition GetQuantileWithCriteria (s : DoubleSketch) (rank : float)
    (criteria : KllSearchCriteria) : result float * DoubleSketch :=
  if IsEmpty s then (Err E_empty, s)
  else withView s (fun v => getQuantile v rank criteria).

Definition GetQuantilesWithCriteria (s : DoubleSketch) (rank : list float)
    (criteria : KllSearchCriteria) : result (list float) * DoubleSketch :=
  if IsEmpty s then (Err E_empty, s)
  else withView s (fun v => ranksOf (fun r c => getQuantile v r c) rank criteria).

Definition GetPMFCriteria (s : DoubleSketch) (rank : list float)
    (criteria : KllSearchCriteria) : result (list float) * DoubleSketch :=
  if IsEmpty s then (Err E_empty, s)
  else withView s (fun v => getPMF v rank criteria).

Definition GetCDFCriteria (s : DoubleSketch) (rank : list float)
    (criteria : KllSearchCriteria) : result (list float) * DoubleSketch :=
  if IsEmpty s then (Err E_empty, s)
  else withView s (fun v => getCDF v rank criteria).

End Queries.

End Doubles.

(** ** The doubles sketch, earlier revision ([kll/double_sketch.go]) *)

Module DoublesRev0.
Import Helper Doubles.

(** [res := make([]int, 0, len(k.levelsArr))]: the slice has length 0, so
    [copy] copies nothing, and the loop of the compact-full branch writes
    past its end. *)
Definition getLevelsArray (s : DoubleSketch) (structure : sketchStructure)
    : option (list Z) :=
  match structure with
  | updatable => Some []
  | compactFull => if decide (length (levelsArr s) <= 1)%nat then Some [] else None
  | _ => Some []
  end.

Definition getMinItem (s : DoubleSketch) : float := minDoubleItem s.
Definition getMaxItem (s : DoubleSketch) : float := maxDoubleItem s.

Definition addEmptyTopLevelToCompletelyFullSketch (s : DoubleSketch) : result DoubleSketch :=
  bind (of_option (getLevelsArray s updatable)) (fun myCurLevelsArr =>
  let myCurNumLevels := getNumLevels s in
  bind (of_option (zget myCurLevelsArr myCurNumLevels)) (fun myCurTotalItemsCapacity =>
  addEmptyTopLevel_grow s myCurLevelsArr myCurNumLevels myCurTotalItemsCapacity
    (getMinItem s) (getMaxItem s))).

Definition compressWhileUpdatingSketch :=
  compressWhileUpdatingSketch_with addEmptyTopLevelToCompletelyFullSketch.

Definition updateDouble (offset : Z) (dblSk : DoubleSketch) (item : float) : result DoubleSketch :=
  if IsNaN item then Ok dblSk
  else
    let dblSk :=
      if IsEmpty dblSk then setMaxItem (setMinItem dblSk item) item
      else
        let dblSk := setMinItem dblSk (math_Min (getMinItem dblSk) item) in
        setMaxItem dblSk (math_Max (getMaxItem dblSk) item) in
    updateDouble_insert compressWhileUpdatingSketch offset dblSk item.

End DoublesRev0.

(** ** What the specification says *)

Module Spec.

(** The capacity formula in the specification's words:
    [max(M, ceil((2K * (2/3)^depth + 1) / 2))], clamped at [K]. *)
Definition capacity (K depth M : Z) : Z :=
  let x := ((inject_Z (2 * K) * (2 # 3) ^ depth + 1) / 2)%Q in
  Z.max M (Z.min K (Qceiling x)).

(** What the code computes by design: the floored quotient
    [2K * 2^depth / 3^depth], rounded half up. *)
Definition roundedCap (K depth : Z) : Z := ((2 * K * 2 ^ depth) / 3 ^ depth + 1) / 2.

(** Beyond depth 30 the exponent is split and the step applied twice, the
    intermediate value carried as the new [K]. *)
Definition foldedCap (K depth : Z) : Z :=
  if decide (depth <= 30) then roundedCap K depth
  else roundedCap (roundedCap K (depth / 2)) (depth - depth / 2).

(** Cumulative weights in the specification's words: [CW[i] = sum of W[0..i]]. *)
Fixpoint cumulative_from (acc : Z) (w : list Z) : list Z :=
  match w with
  | [] => []
  | x :: rest => (acc + x) :: cumulative_from (acc + x) rest
  end.

Definition cumulative (w : list Z) : list Z := cumulative_from 0 w.

Definition total (w : list Z) : Z := fold_right Z.add 0 w.

End Spec.

(** ** The weight invariant of the items sketch: definitions *)

(** A levels array read as a function of the level (0 beyond its end). *)
Definition lv (L : list Z) (i : Z) : Z := default 0 (zget L i).

(** [sum over l < n of 2^l * (f (l+1) - f l)] *)
Fixpoint wsum (f : Z -> Z) (n : nat) : Z :=
  match n with
  | O => 0
  | S l => wsum f l + 2 ^ Z.of_nat l * (f (Z.of_nat l + 1) - f (Z.of_nat l))
  end.

(** The level a slot of the items array belongs to: the level [l] below
    [numLevels] with [levels[l] <= i < levels[l+1]]. *)
Fixpoint levelOfSlot (levels : list Z) (numLevels : nat) (i : Z) : option nat :=
  match numLevels with
  | O => None
  | S l =>
      match levelOfSlot levels l i with
      | Some l' => Some l'
      | None => if decide (lv levels (Z.of_nat l) <= i < lv levels (Z.of_nat l + 1))
                then Some l else None
      end
  end.

(** The weight of the item in slot [i]: [2^l] in level [l]. *)
Definition slotWeight (levels : list Z) (numLevels : nat) (i : Z) : Z :=
  match levelOfSlot levels numLevels i with
  | Some l => 2 ^ Z.of_nat l
  | None => 0
  end.

(** [f lo + f (lo + 1) + ...], [n] terms. *)
Fixpoint sumFrom (f : Z -> Z) (lo : Z) (n : nat) : Z :=
  match n with
  | O => 0
  | S n' => f lo + sumFrom f (lo + 1) n'
  end.

(** The total weight of the retained items, the slots from [levels[0]] up to
    [levels[numLevels]]. *)
Definition retainedWeight (levels : list Z) (numLevels : Z) : Z :=
  sumFrom (slotWeight levels (Z.to_nat numLevels)) (lv levels 0)
    (Z.to_nat (lv levels numLevels - lv levels 0)).

Section Reachable.
Context {C SV : Type} {OpC : Items.ItemSketchOp C} {RtC : Items.Runtime C}.

(** The sum, over the retained items, of [2^l] for the level [l] the item
    resides in. *)
Definition totalWeight (s : Items.ItemsSketch C SV) : Z :=
  retainedWeight (Items.levels s) (Items.numLevels s).

(** The sketches built from a new one by updates, merges and resets, with
    the number of items taken in (a nil item is not taken in); the count
    stays below the range of the [uint64] field [n]. The two sketches of a
    merge are distinct objects: [s.Merge(s)] is not among the steps. *)
Inductive reachable : Items.ItemsSketch C SV -> Z -> Prop :=
| reach_new k s :
    Items.NewItemsSketch k = Ok s -> reachable s 0
| reach_update s c item s' :
    reachable s c -> c + 1 < 2 ^ 64 -> Items.Update s item = Some s' ->
    reachable s' (c + (if Items.isNil item then 0 else 1))
| reach_merge s c other c' s' :
    reachable s c -> reachable other c' -> c + c' < 2 ^ 64 ->
    Items.Merge s other = Some s' -> reachable s' (c + c')
| reach_reset s c :
    reachable s c -> reachable (Items.Reset s) 0.

End Reachable.

Section InvariantDefs.
Context {C : Type} {RtC : Items.Runtime C}.

(** Every slot of [buf] in [lo, hi) holds an item that is not nil. *)
Definition nonNil (buf : list C) (lo hi : Z) : Prop :=
  forall i, lo <= i < hi -> exists x, zget buf i = Some x /\ Items.isNil x = false.

End InvariantDefs.

Section WfDef.
Context {C SV : Type} {OpC : Items.ItemSketchOp C} {RtC : Items.Runtime C}.

(** The invariant of the sketches built from [NewItemsSketch] by updates and
    merges, at [c] items taken in. *)
Record wf (s : Items.ItemsSketch C SV) (c : Z) : Prop := mk_wf {
  wf_k : 8 <= Items.k s <= 65535;
  wf_m : Items.m s = 8;
  wf_numLevels : 1 <= Items.numLevels s <= 61;
  wf_len : zlen (Items.levels s) = Items.numLevels s + 1;
  wf_lo : 0 <= lv (Items.levels s) 0;
  wf_mono : forall i, 0 <= i < Items.numLevels s ->
              lv (Items.levels s) i <= lv (Items.levels s) (i + 1);
  wf_top : lv (Items.levels s) (Items.numLevels s) <= 65535 * Items.numLevels s;
  wf_weight : wsum (lv (Items.levels s)) (Z.to_nat (Items.numLevels s)) = c;
  wf_n : Items.n s = c;
  wf_items : nonNil (Items.items s) (lv (Items.levels s) 0)
               (lv (Items.levels s) (Items.numLevels s));
}.

End WfDef.

(** The levels part of the invariant. *)
Definition levels_ok (nl : Z) (L : list Z) : Prop :=
  1 <= nl <= 61 /\ zlen L = nl + 1 /\ 0 <= lv L 0 /\
  (forall i, 0 <= i < nl -> lv L i <= lv L (i + 1)) /\ lv L nl <= 65535 * nl.

(** A levels array continued by empty levels above its top. *)
Definition clamp (L : list Z) (nl : Z) (j : Z) : Z := lv L (Z.min j nl).

(** The same without the items of level 0. *)
Definition clamp1 (L : list Z) (nl : Z) (j : Z) : Z := lv L (Z.max 1 (Z.min j nl)).

(** The work levels of a merge: level by level, the items of the two sketches
    (level 0 of the other one has already been fed to the updates). *)
Definition workLevel (Ls : list Z) (nls : Z) (Lo : list Z) (nlo : Z) (j : Z) : Z :=
  (clamp Ls nls j - clamp Ls nls 0) + (clamp1 Lo nlo j - clamp1 Lo nlo 0).

(** The levels of [generalItemsCompress] in mid-run: the output levels up to
    [cl], continued by the input levels still to be processed. *)
Definition blend (O I : list Z) (cl i : Z) : Z :=
  if decide (i <= cl) then lv O i else lv O cl + (lv I i - lv I cl).

Section CompressInvDef.
Context {C : Type}.
Context {RtC : Items.Runtime C}.

(** The loop invariant of [generalItemsCompress] on entry to level [cl]:
    [Wt] is the total weight and [B] the number of items in the buffer. *)
Record compress_inv (Wt B cl : Z) (cs : Items.compressState (C := C)) : Prop := mk_compress_inv {
  ci_level : 0 <= cl <= Items.cs_numLevels cs;
  ci_numLevels : 1 <= Items.cs_numLevels cs <= 61;
  ci_out0 : lv (Items.cs_outLevels cs) 0 = 0;
  ci_mono : forall i, 0 <= i < Items.cs_numLevels cs ->
      blend (Items.cs_outLevels cs) (Items.cs_inLevels cs) cl i <=
      blend (Items.cs_outLevels cs) (Items.cs_inLevels cs) cl (i + 1);
  ci_weight : wsum (blend (Items.cs_outLevels cs) (Items.cs_inLevels cs) cl)
                (Z.to_nat (Items.cs_numLevels cs)) = Wt;
  ci_count : Items.cs_currentItemCount cs =
             blend (Items.cs_outLevels cs) (Items.cs_inLevels cs) cl (Items.cs_numLevels cs);
  ci_below : lv (Items.cs_outLevels cs) cl <= lv (Items.cs_inLevels cs) cl;
  ci_top : lv (Items.cs_inLevels cs) (Items.cs_numLevels cs) <= B;
  ci_target : 0 <= Items.cs_targetItemCount cs <= 65535 * Items.cs_numLevels cs;
  ci_items : nonNil (Items.cs_store cs 0%nat) 0 B;
}.

End CompressInvDef.

(** ** The capacity of a sketch and the invariant of the updates *)

(** The capacity of the level at [depth] below the top, as [levelCapacity]
    computes it (0 levels deep is the top level). *)
Definition capOf (k m depth : Z) : Z := Z.max m (default 0 (Items.intCapAux k depth)).

(** The capacities of the [n] levels of a sketch, added up. *)
Fixpoint capSum (k m : Z) (n : nat) : Z :=
  match n with
  | O => 0
  | S d => capSum k m d + capOf k m (Z.of_nat d)
  end.

Section WfxDef.
Context {C SV : Type} {OpC : Items.ItemSketchOp C} {RtC : Items.Runtime C}.

(** The invariant [wf] together with what keeps an update inside its
    arrays: the items array has the length of the total capacity
    [levels[numLevels]], which is no less than the sum of the level
    capacities, and a sketch that is not empty has its minimum and maximum. *)
Record wfx (s : Items.ItemsSketch C SV) (c : Z) : Prop := mk_wfx {
  wfx_wf : wf s c;
  wfx_len : zlen (Items.items s) = lv (Items.levels s) (Items.numLevels s);
  wfx_cap : capSum (Items.k s) (Items.m s) (Z.to_nat (Items.numLevels s))
            <= lv (Items.levels s) (Items.numLevels s);
  wfx_minmax : c <> 0 -> is_Some (Items.minItem s) /\ is_Some (Items.maxItem s);
}.

End WfxDef.

(** ** Streams of updates *)

Section UpdateStream.
Context {C SV : Type} {OpC : Items.ItemSketchOp C} {RtC : Items.Runtime C}.

(** A stream of [Update] calls. *)
Fixpoint updates (s : Items.ItemsSketch C SV) (stream : list C)
    : option (Items.ItemsSketch C SV) :=
  match stream with
  | [] => Some s
  | x :: rest => s ← Items.Update s x; updates s rest
  end.

(** The items of a stream that an update takes in. *)
Definition taken (stream : list C) : list C :=
  List.filter (fun x => negb (Items.isNil x)) stream.

(** What the sketch knows of the items [seen] it has taken in. *)
Definition tracks (s : Items.ItemsSketch C SV) (seen : list C) : Prop :=
  Items.n s = zlen seen /\
  (seen <> [] -> exists mn mx,
     Items.minItem s = Some mn /\ Items.maxItem s = Some mx /\
     In mn seen /\ In mx seen /\
     forall y, In y seen -> Items.lessFn y mn = false /\ Items.lessFn mx y = false).

End UpdateStream.

(** ** The hash of the frequencies sketch ([frequencies/utils.go]) *)

Module Frequencies.

(** [hash(okey int64) int64] ([frequencies/utils.go]): the finalizer of
    MurmurHash3 on the key read as a [uint64]. *)
Definition hash (okey : Z) : Z :=
  let key := u64 okey in
  let key := Z.lxor key (Z.shiftr key 33) in
  let key := u64 (key * 0xff51afd7ed558ccd) in
  let key := Z.lxor key (Z.shiftr key 33) in
  let key := u64 (key * 0xc4ceb9fe1a85ec53) in
  let key := Z.lxor key (Z.shiftr key 33) in
  i64 key.

End Frequencies.

(** ** Further definitions for the properties of the items sketch *)

(** The four bytes of a length, as [PutUint32] lays them out. *)
Definition le4 (v : Z) : list Z :=
  [v mod 256; v / 256 mod 256; v / 256 / 256 mod 256; v / 256 / 256 / 256 mod 256].

(** One item as [SerializeManyToSlice] writes it. *)
Definition encoded (x : StringItems.GoString) : list Z := le4 (zlen x) ++ x.

(** The run-time in which the items that fail [p] count as nil as well: an
    update skips them and touches nothing else. *)
Definition restrictTo {C : Type} (p : C -> bool) (R : Items.Runtime C) : Items.Runtime C := {|
  Items.zeroValue := Items.zeroValue;
  Items.isNil := fun x => Items.isNil x || negb (p x);
  Items.sortSlice := Items.sortSlice;
  Items.ubOnNumLevels := Items.ubOnNumLevels;
|}.

Section SpaceDef.
Context {C SV : Type}.

(** What bounds the space of a sketch: its top level is not empty once there
    are two levels, and the capacity is at most [K] per level. *)
Record wfl (s : Items.ItemsSketch C SV) : Prop := mk_wfl {
  wfl_top : 2 <= Items.numLevels s ->
            lv (Items.levels s) (Items.numLevels s - 1) < lv (Items.levels s) (Items.numLevels s);
  wfl_cap : lv (Items.levels s) (Items.numLevels s) <= Items.k s * Items.numLevels s;
}.

End SpaceDef.

(** ** The doubles sketch before its first compaction *)

(** A doubles sketch that has compacted nothing: one level, which holds the
    values [vals] it has taken in, the newest first. *)
Definition holdsAll (k m : Z) (s : Doubles.DoubleSketch) (vals : list float) : Prop :=
  Doubles.structure s = Doubles.updatable /\ Doubles.readOnly s = false /\
  Doubles.k s = k /\ Doubles.m s = m /\
  0 <= zlen vals <= k /\
  Doubles.n s = zlen vals /\
  Doubles.levelsArr s = [k - zlen vals; k] /\
  zlen (Doubles.doubleItems s) = k /\
  drop (Z.to_nat (k - zlen vals)) (Doubles.doubleItems s) = rev vals.

(** ** Ascending runs and the order of the levels *)

Section SortedDef.
Context {C SV : Type} {OpC : Items.ItemSketchOp C}.

(** A run of an items array in ascending order: no item of the slots from
    [lo] up to [hi] is less than the one before it. *)
Definition sortedRun (buf : list C) (lo hi : Z) : Prop :=
  forall i x y, lo <= i -> i + 1 < hi ->
    zget buf i = Some x -> zget buf (i + 1) = Some y -> Items.lessFn y x = false.

(** The items of level [l], in the order of the array. *)
Definition levelItems (s : Items.ItemsSketch C SV) (l : Z) : list C :=
  take (Z.to_nat (lv (Items.levels s) (l + 1) - lv (Items.levels s) l))
       (drop (Z.to_nat (lv (Items.levels s) l)) (Items.items s)).

(** Every level above level 0 is in ascending order. *)
Definition sortedAbove (s : Items.ItemsSketch C SV) : Prop :=
  forall l, 1 <= l < Items.numLevels s ->
    sortedRun (Items.items s) (lv (Items.levels s) l) (lv (Items.levels s) (l + 1)).

End SortedDef.

Section CompressSortedDef.
Context {C : Type} {OpC : Items.ItemSketchOp C}.

(** The order of the levels of [generalItemsCompress] in mid-run, on entry
    to level [cl]: the levels already written out (below [cl]) and the
    levels still to be processed (from [cl] up) are ascending runs of the
    buffer, level 0 apart. *)
Definition sortedLevels (cl : Z) (cs : Items.compressState (C := C)) : Prop :=
  zlen (Items.cs_store cs 0%nat) < 2 ^ 32 /\
  (forall j, 1 <= j < cl ->
     sortedRun (Items.cs_store cs 0%nat)
       (lv (Items.cs_outLevels cs) j) (lv (Items.cs_outLevels cs) (j + 1))) /\
  (forall j, 1 <= j -> cl <= j < Items.cs_numLevels cs ->
     sortedRun (Items.cs_store cs 0%nat)
       (lv (Items.cs_inLevels cs) j) (lv (Items.cs_inLevels cs) (j + 1))).

End CompressSortedDef.

(** ** A sketch merged into itself ([s.Merge(s)])

    [Items.Merge] and [Items.mergeItemsSketch] take the argument as a second
    object, which the call only reads. In [s.Merge(s)] the argument is the
    receiver: [otherLevelsArr := other.levels] is a second slice header on
    the array of [s.levels], [otherNumLevels] is the level count before the
    loop and [otherItemsArr] a copy of the items ([GetTotalItemsArray]). The
    writes of [updateItem] and [compressWhileUpdatingSketch] to [s.levels]
    are in place and show through [otherLevelsArr], until
    [addEmptyTopLevelToCompletelyFullSketch] installs another array as
    [s.levels] (it works on the copy made by [getLevelsArray], or on a longer
    array); from then on [otherLevelsArr] is the array that call found, with
    the contents it had. *)

Section SelfMergeDef.
Context {C SV : Type} `{!Items.ItemSketchOp C} `{!Items.Runtime C}.
#[local] Abbreviation Sketch := (Items.ItemsSketch C SV).

(** Whether [updateItem(item)] installs another array as [s.levels]: the
    item is not nil, level 0 has no room ([levels[0] == 0]) and the level
    that [compressWhileUpdatingSketch] finds to compact is the top one. No
    write to [s.levels] comes before that in the call. *)
Definition updateItem_renews_levels (s : Sketch) (item : C) : bool :=
  negb (Items.isNil item) &&
  match zget (Items.levels s) 0 with
  | Some level0space =>
      bool_decide (level0space = 0) &&
      match Items.findLevelToCompact (Items.k s) (Items.m s) (Items.numLevels s)
              (Items.levels s) with
      | Some level => bool_decide (level = u8 (Items.numLevels s - 1))
      | None => false
      end
  | None => false
  end.

(** The loop [for i := otherLevelsArr[0]; i < otherLevelsArr[1]; i++] with
    the receiver as the argument. [kept] is the array of [otherLevelsArr] once
    [s.levels] is another one, and [None] while the two are one array. The
    bound is read on every turn. Each turn that returns has read
    [otherItemsArr[i]], so the turn count is within the length of that array:
    the fuel stands for it. *)
Fixpoint selfMerge_level0 (fuel : nat) (otherItemsArr : list C) (kept : option (list Z))
    (i : Z) (s : Sketch) : option (Sketch * option (list Z)) :=
  match fuel with
  | O => None
  | S fuel' =>
      let otherLevelsArr := default (Items.levels s) kept in
      hi ← zget otherLevelsArr 1;
      if decide (i < hi) then
        x ← zget otherItemsArr i;
        let kept' := match kept with
                     | Some L => Some L
                     | None => if updateItem_renews_levels s x
                               then Some (Items.levels s) else None
                     end in
        s' ← Items.updateItem s x;
        selfMerge_level0 fuel' otherItemsArr kept' (u32 (i + 1)) s'
      else Some (s, kept)
  end.

(** [mergeItemsSketch] with the receiver as the argument: what is read of
    [other] after the loop is read of [s] as the loop left it. *)
Definition mergeItemsSketchSelf (s : Sketch) : option Sketch :=
  if Items.IsEmpty s then Some s
  else
    let myEmpty := Items.IsEmpty s in
    mm ← (if myEmpty then Some (Items.zeroValue, Items.zeroValue)
          else mi ← Items.minItem s; ma ← Items.maxItem s; Some (mi, ma));
    let '(myMin, myMax) := mm in
    let myMinK := Items.minK s in
    let finalN := u64 (Items.n s + Items.n s) in
    let otherNumLevels := Items.numLevels s in
    let otherItemsArr := Items.GetTotalItemsArray s in
    lo ← zget (Items.levels s) 0;
    r ← selfMerge_level0 (S (length otherItemsArr)) otherItemsArr None lo s;
    let '(s, kept) := r in
    let otherLevelsArr := default (Items.levels s) kept in
    let myCurNumLevels := Items.numLevels s in
    let myCurLevelsArr := Items.levels s in
    let myCurItemsArr := Items.GetTotalItemsArray s in
    r ← (if decide (otherNumLevels > 1) then
           retained ← Items.GetNumRetained s;
           above ← Items.getNumRetainedAboveLevelZero otherNumLevels otherLevelsArr;
           let tmpSpaceNeeded := u32 (retained + above) in
           let workbuf := replicate (Z.to_nat tmpSpaceNeeded) Items.zeroValue in
           let ub := Items.ubOnNumLevels finalN in
           if decide (ub + 2 < 0) then None
           else
             let worklevels := replicate (Z.to_nat (ub + 2)) 0 in
             let outlevels := replicate (Z.to_nat (ub + 2)) 0 in
             let provisionalNumLevels := Z.max myCurNumLevels otherNumLevels in
             w ← Items.populateItemWorkArrays workbuf worklevels provisionalNumLevels
                   myCurNumLevels myCurLevelsArr myCurItemsArr
                   otherNumLevels otherLevelsArr otherItemsArr;
             let '(workbuf, worklevels) := w in
             cs ← Items.generalItemsCompress (Items.k s) (Items.m s) provisionalNumLevels
                    (fun _ => workbuf) 0%nat worklevels 0%nat outlevels
                    (Items.isLevelZeroSorted s);
             let workbuf := Items.cs_store cs 0%nat in
             let outlevels := Items.cs_outLevels cs in
             let targetItemCount := Items.cs_targetItemCount cs in
             let curItemCount := Items.cs_currentItemCount cs in
             let myNewNumLevels := u8 (Items.cs_numLevels cs) in
             let myNewItemsArr :=
               if decide (targetItemCount = zlen myCurItemsArr) then myCurItemsArr
               else replicate (Z.to_nat targetItemCount) Items.zeroValue in
             let freeSpaceAtBottom := u32 (targetItemCount - curItemCount) in
             myNewItemsArr ← iter_up (Z.to_nat curItemCount) 0
               (fun i arr =>
                  o0 ← zget outlevels 0;
                  x ← zget workbuf (u32 (o0 + i));
                  zset arr (u32 (freeSpaceAtBottom + i)) x)
               myNewItemsArr;
             o0 ← zget outlevels 0;
             let theShift := u32 (freeSpaceAtBottom - o0) in
             let finalLevelsArrLen :=
               if decide (u32 (zlen myCurLevelsArr) < u8 (myNewNumLevels + 1))
               then u8 (myNewNumLevels + 1) else u32 (zlen myCurLevelsArr) in
             myNewLevelsArr ← iter_up (Z.to_nat (u8 (myNewNumLevels + 1))) 0
               (fun lvl arr => o ← zget outlevels lvl; zset arr lvl (u32 (o + theShift)))
               (replicate (Z.to_nat finalLevelsArrLen) 0);
             Some (myNewNumLevels, myNewLevelsArr, myNewItemsArr)
         else Some (myCurNumLevels, myCurLevelsArr, myCurItemsArr));
    let '(myNewNumLevels, myNewLevelsArr, myNewItemsArr) := r in
    let newMinK := if Items.IsEstimationMode s then Z.min myMinK (Items.minK s)
                   else Items.minK s in
    mx ← (if myEmpty then Some (Items.minItem s, Items.maxItem s)
          else
            omin ← Items.minItem s;
            let mi := if Items.lessFn myMin omin then Some myMin else Items.minItem s in
            omax ← Items.maxItem s;
            let ma := if Items.lessFn omax myMax then Some myMax else Items.maxItem s in
            Some (mi, ma));
    Some (Items.mkItemsSketch (Items.k s) (Items.m s) newMinK myNewNumLevels
            (Items.isLevelZeroSorted s) finalN
            myNewLevelsArr myNewItemsArr mx.1 mx.2 (Items.sortedView s)).

(** [s.Merge(s)]. *)
Definition MergeSelf (s : Sketch) : option Sketch :=
  if Items.IsEmpty s then Some s
  else s ← mergeItemsSketchSelf s; Some (Items.set_sortedView s None).

End SelfMergeDef.

(** ** Proof steps shared by the invariant proofs *)

(** Name the result of the first call of a run that returned. *)
Ltac bind_step H x E :=
  match type of H with
  | mbind _ ?e = Some _ =>
      destruct e as [x|] eqn:E; [cbn [mbind option_bind] in H|discriminate H]
  end.

Ltac sk_simpl :=
  cbn [Items.k Items.m Items.minK Items.numLevels Items.isLevelZeroSorted Items.n
       Items.levels Items.items Items.minItem Items.maxItem Items.sortedView] in *.

Ltac cs_simpl :=
  cbn [Items.cs_numLevels Items.cs_currentItemCount Items.cs_targetItemCount
       Items.cs_store Items.cs_inLevels Items.cs_outLevels] in *.

(** Walk through a run that returned, naming nothing. *)
Ltac bind_all H :=
  repeat match type of H with
  | mbind _ ?e = Some _ =>
      let E := fresh "E" in
      destruct e eqn:E; [cbn [mbind option_bind] in H|discriminate H]
  | (if ?c then _ else _) = Some _ => destruct c
  | (let '(_, _) := ?p in _) = Some _ => destruct p
  | None = Some _ => discriminate H
  end.

(** * Properties *)

(** ** Machine integers and slices: basic facts *)

Section BasicFacts.

Lemma u8_small z : 0 <= z < 2 ^ 8 -> u8 z = z.
Proof. intros; unfold u8; now apply Z.mod_small. Qed.

Lemma u16_small z : 0 <= z < 2 ^ 16 -> u16 z = z.
Proof. intros; unfold u16; now apply Z.mod_small. Qed.

Lemma u32_small z : 0 <= z < 2 ^ 32 -> u32 z = z.
Proof. intros; unfold u32; now apply Z.mod_small. Qed.

Lemma u64_small z : 0 <= z < 2 ^ 64 -> u64 z = z.
Proof. intros; unfold u64; now apply Z.mod_small. Qed.

Lemma i64_small z : - 2 ^ 63 <= z < 2 ^ 63 -> i64 z = z.
Proof. intros; unfold i64; rewrite Z.mod_small; lia. Qed.

Lemma u32_range z : 0 <= u32 z < 2 ^ 32.
Proof. unfold u32; apply Z.mod_pos_bound; lia. Qed.

Lemma u64_range z : 0 <= u64 z < 2 ^ 64.
Proof. unfold u64; apply Z.mod_pos_bound; lia. Qed.

Lemma zget_Some_lt {A} (l : list A) i x : zget l i = Some x -> 0 <= i < zlen l.
Proof.
  unfold zget, zlen; case_decide; [|discriminate].
  intros H0; apply lookup_lt_Some in H0; lia.
Qed.

Lemma zget_lt_is_Some {A} (l : list A) i : 0 <= i < zlen l -> is_Some (zget l i).
Proof.
  unfold zget, zlen; intros; case_decide; [|lia].
  apply lookup_lt_is_Some; lia.
Qed.

Lemma zset_length {A} (l l' : list A) i x : zset l i x = Some l' -> zlen l' = zlen l.
Proof.
  unfold zset, zlen; case_decide; [|discriminate].
  intros [= <-]; now rewrite length_insert.
Qed.

Lemma zget_zset_eq {A} (l l' : list A) i x : zset l i x = Some l' -> zget l' i = Some x.
Proof.
  unfold zset, zget; case_decide; [|discriminate].
  intros [= <-]; case_decide; [|lia].
  apply list_lookup_insert_eq; lia.
Qed.

Lemma zget_zset_ne {A} (l l' : list A) i j x :
  zset l i x = Some l' -> i <> j -> zget l' j = zget l j.
Proof.
  unfold zset, zget; case_decide; [|discriminate].
  intros [= <-] Hne; case_decide; [|reflexivity].
  apply list_lookup_insert_ne; lia.
Qed.

Lemma zset_is_Some {A} (l : list A) i x : 0 <= i < zlen l -> is_Some (zset l i x).
Proof. unfold zset, zlen; intros; case_decide; [eauto|lia]. Qed.

End BasicFacts.

(** ** Capacity arithmetic: properties *)

Section CapacityFacts.

Lemma powersOfThree_lookup d :
  0 <= d <= 30 -> zget Items.powersOfThree d = Some (3 ^ d).
Proof.
  intros Hd. unfold zget. case_decide; [|lia].
  assert (Hn : (Z.to_nat d <= 30)%nat) by lia.
  rewrite <- (Z2Nat.id d) at 2 by lia.
  revert Hn. generalize (Z.to_nat d). intros n Hn.
  do 31 (destruct n as [|n]; [reflexivity|]). lia.
Qed.

Lemma pow2_le_pow3 d : 0 <= d -> 2 ^ d <= 3 ^ d.
Proof. intros; apply Z.pow_le_mono_l; lia. Qed.

Lemma scaled_div_le x d : 0 <= x -> 0 <= d -> 0 <= (x * 2 ^ d) / 3 ^ d <= x.
Proof.
  intros Hx Hd.
  assert (H3 : 0 < 3 ^ d) by (apply Z.pow_pos_nonneg; lia).
  assert (H2 : 0 < 2 ^ d) by (apply Z.pow_pos_nonneg; lia).
  pose proof (pow2_le_pow3 d Hd) as Hle.
  split.
  - apply Z.div_pos; [apply Z.mul_nonneg_nonneg|]; lia.
  - apply Z.div_le_upper_bound; [lia|].
    rewrite (Z.mul_comm (3 ^ d)). apply Z.mul_le_mono_nonneg_l; lia.
Qed.

Lemma scaled_lt_pow46 x d : 0 <= x < 2 ^ 16 -> 0 <= d <= 30 -> 0 <= x * 2 ^ d < 2 ^ 46.
Proof.
  intros Hx Hd.
  assert (H2 : 0 < 2 ^ d) by (apply Z.pow_pos_nonneg; lia).
  assert (Hle : 2 ^ d <= 2 ^ 30) by (apply Z.pow_le_mono_r; lia).
  split; [apply Z.mul_nonneg_nonneg; lia|].
  apply Z.le_lt_trans with (x * 2 ^ 30).
  - apply Z.mul_le_mono_nonneg_l; lia.
  - change (2 ^ 46) with (2 ^ 16 * 2 ^ 30). apply Z.mul_lt_mono_pos_r; lia.
Qed.

(** The step at any [uint16] value of [k]: the doubled operand is [u16 (2k)]. *)
Lemma intCapAuxAux_eval k d :
  0 <= k < 2 ^ 16 -> 0 <= d <= 30 ->
  Items.intCapAuxAux k d = Some ((u16 (2 * k) * 2 ^ d / 3 ^ d + 1) / 2) /\
  0 <= (u16 (2 * k) * 2 ^ d / 3 ^ d + 1) / 2 <= k.
Proof.
  intros Hk Hd. unfold Items.intCapAuxAux.
  rewrite powersOfThree_lookup by lia. cbn [mbind option_bind].
  rewrite (Z.shiftl_mul_pow2 k 1) by lia. change (2 ^ 1) with 2. rewrite (Z.mul_comm k 2).
  set (twok := u16 (2 * k)).
  assert (Htw : 0 <= twok < 2 ^ 16) by (unfold twok, u16; apply Z.mod_pos_bound; lia).
  assert (Htwk : twok <= 2 * k).
  { unfold twok, u16. apply Z.mod_le; lia. }
  rewrite (u64_small twok) by lia.
  rewrite (Z.shiftl_mul_pow2 twok d) by lia.
  pose proof (scaled_lt_pow46 twok d Htw Hd) as H46.
  rewrite (u64_small (twok * 2 ^ d)) by lia.
  pose proof (scaled_div_le twok d ltac:(lia) ltac:(lia)) as Hq.
  set (tmp := twok * 2 ^ d / 3 ^ d) in *.
  rewrite (u64_small (tmp + 1)) by lia.
  rewrite Z.shiftr_div_pow2 by lia. change (2 ^ 1) with 2.
  assert (Hres : 0 <= (tmp + 1) / 2 <= k).
  { split; [apply Z.div_pos; lia|].
    enough ((tmp + 1) / 2 < k + 1) by lia. apply Z.div_lt_upper_bound; lia. }
  split; [|exact Hres].
  case_decide; [|lia].
  now rewrite u32_small by lia.
Qed.

Lemma intCapAuxAux_rounded k d :
  0 <= k < 2 ^ 15 -> 0 <= d <= 30 ->
  Items.intCapAuxAux k d = Some (Spec.roundedCap k d) /\ 0 <= Spec.roundedCap k d <= k.
Proof.
  intros Hk Hd. unfold Spec.roundedCap.
  pose proof (intCapAuxAux_eval k d ltac:(lia) Hd) as H.
  rewrite (u16_small (2 * k)) in H by lia. exact H.
Qed.

Lemma intCapAux_le_k k d :
  0 <= k < 2 ^ 16 -> 0 <= d <= 60 ->
  exists c, Items.intCapAux k d = Some c /\ 0 <= c <= k.
Proof.
  intros Hk Hd. unfold Items.intCapAux. case_decide.
  - destruct (intCapAuxAux_eval k d Hk ltac:(lia)) as [-> Hr]. eauto.
  - assert (Hh : 15 <= d / 2 <= 30).
    { split; [apply Z.div_le_lower_bound|apply Z.div_le_upper_bound]; lia. }
    destruct (intCapAuxAux_eval k (d / 2) Hk ltac:(lia)) as [-> Hr].
    cbn [mbind option_bind].
    set (tmp := (u16 (2 * k) * 2 ^ (d / 2) / 3 ^ (d / 2) + 1) / 2) in *.
    assert (Hrest : 0 <= d - d / 2 <= 30).
    { pose proof (Z.div_mod d 2 ltac:(lia)). pose proof (Z.mod_pos_bound d 2 ltac:(lia)). lia. }
    rewrite (u8_small (d - d / 2)) by lia.
    rewrite (u16_small tmp) by lia.
    destruct (intCapAuxAux_eval tmp (d - d / 2) ltac:(lia) Hrest) as [-> Hr2].
    eexists; split; [reflexivity|lia].
Qed.

Lemma intCapAux_folded k d :
  0 <= k < 2 ^ 15 -> 0 <= d <= 60 ->
  Items.intCapAux k d = Some (Spec.foldedCap k d).
Proof.
  intros Hk Hd. unfold Items.intCapAux, Spec.foldedCap. case_decide.
  - now destruct (intCapAuxAux_rounded k d Hk ltac:(lia)) as [-> _].
  - assert (Hh : 15 <= d / 2 <= 30).
    { split; [apply Z.div_le_lower_bound|apply Z.div_le_upper_bound]; lia. }
    destruct (intCapAuxAux_rounded k (d / 2) Hk ltac:(lia)) as [-> Hr].
    cbn [mbind option_bind].
    assert (Hrest : 0 <= d - d / 2 <= 30).
    { pose proof (Z.div_mod d 2 ltac:(lia)). pose proof (Z.mod_pos_bound d 2 ltac:(lia)). lia. }
    rewrite (u8_small (d - d / 2)) by lia.
    rewrite (u16_small (Spec.roundedCap k (d / 2))) by lia.
    now destruct (intCapAuxAux_rounded (Spec.roundedCap k (d / 2)) (d - d / 2) ltac:(lia) Hrest) as [-> _].
Qed.

End CapacityFacts.

(** ** C4: the level capacity *)

(** C4 (counterexample). At [K = 200], [M = 8], two levels, level 0 (depth 1)
    the code returns 133 (and so does the [int]-based helper), whereas the
    stated formula [max(M, ceil((2K * (2/3)^depth + 1) / 2))] clamped at [K]
    evaluates to 134. *)
Lemma levelCapacity_is_not_the_ceiling :
  Items.levelCapacity 200 2 0 8 = Some 133 /\
  Helper.levelCapacity 200 2 0 8 = Ok 133 /\
  Spec.capacity 200 1 8 = 134.
Proof. repeat split; vm_compute; reflexivity. Qed.

(** The doubling [k << 1] is done on the 16-bit operand: from [K = 32768] on
    the high bit is lost before the value is widened. *)
Lemma intCapAuxAux_wraps_at_32768 :
  Items.intCapAuxAux 32768 0 = Some 0 /\
  Items.levelCapacity 40000 1 0 8 = Some 7232 /\
  Helper.levelCapacity 40000 1 0 8 = Ok 40000.
Proof. repeat split; vm_compute; reflexivity. Qed.

(** C4 (amended). For [M <= K <= 65535], [M] in [2, 8], at most 61 levels:
    [intCapAux] returns some [c <= K] and [levelCapacity] is [max(M, c)];
    for [K <= 32767] that [c] is the floored quotient [2K * 2^depth / 3^depth]
    rounded half up (computed without any wrap-around), the step being
    applied twice beyond depth 30. *)
Theorem levelCapacity_rounds_floored_quotient K M numLevels level :
  M <= K <= 65535 -> 2 <= M <= 8 -> 1 <= numLevels <= 61 -> 0 <= level < numLevels ->
  (exists c, Items.intCapAux K (numLevels - level - 1) = Some c /\ 0 <= c <= K /\
             Items.levelCapacity K numLevels level M = Some (Z.max M c)) /\
  (K <= 32767 ->
   Items.levelCapacity K numLevels level M =
     Some (Z.max M (Spec.foldedCap K (numLevels - level - 1)))).
Proof.
  intros HK HM Hn Hl.
  assert (Hd : 0 <= numLevels - level - 1 <= 60) by lia.
  assert (Hdepth : u8 (u8 (numLevels - level) - 1) = numLevels - level - 1).
  { rewrite (u8_small (numLevels - level)) by lia. apply u8_small; lia. }
  split.
  - destruct (intCapAux_le_k K _ ltac:(lia) Hd) as (c & Hc & Hr).
    exists c. repeat split; try lia; [exact Hc|].
    unfold Items.levelCapacity. rewrite Hdepth, Hc. cbn [mbind option_bind].
    now rewrite u32_small by lia.
  - intros HK'. unfold Items.levelCapacity.
    rewrite Hdepth, intCapAux_folded by lia. cbn [mbind option_bind].
    now rewrite u32_small by lia.
Qed.

Lemma levelCapacity_rounds_floored_quotient_witness :
  (exists c, Items.intCapAux 200 (2 - 0 - 1) = Some c /\ 0 <= c <= 200 /\
             Items.levelCapacity 200 2 0 8 = Some (Z.max 8 c)) /\
  (200 <= 32767 ->
   Items.levelCapacity 200 2 0 8 = Some (Z.max 8 (Spec.foldedCap 200 (2 - 0 - 1)))).
Proof. apply (levelCapacity_rounds_floored_quotient 200 8 2 0); lia. Defined.

(** ** C7: cumulative weights *)

Lemma convertToCumulative_from_cons subtotal x rest :
  Helper.convertToCumulative_from subtotal (x :: rest) =
  (i64 (subtotal + x) :: fst (Helper.convertToCumulative_from x rest),
   snd (Helper.convertToCumulative_from x rest)).
Proof. cbn [Helper.convertToCumulative_from]. now destruct Helper.convertToCumulative_from. Qed.

(** The running value carried to the next entry is the entry just read, not
    the sum written: the returned total is the last entry of the input. *)
Lemma convertToCumulative_total subtotal array :
  snd (Helper.convertToCumulative_from subtotal array) = List.last array subtotal.
Proof.
  revert subtotal; induction array as [|x rest IH]; intros subtotal; [reflexivity|].
  rewrite convertToCumulative_from_cons; cbn [snd]. rewrite IH.
  destruct rest as [|y rest]; [reflexivity|].
  change (List.last (x :: y :: rest) subtotal) with (List.last (y :: rest) subtotal).
  clear IH. revert y; induction rest as [|z rest IH]; intros y; [reflexivity|].
  change (List.last (y :: z :: rest) x) with (List.last (z :: rest) x).
  change (List.last (y :: z :: rest) subtotal) with (List.last (z :: rest) subtotal).
  apply IH.
Qed.

(** C7. On the weights [1, 1, 1] the code yields [1, 2, 2] and the total 1;
    the cumulative weights are [1, 2, 3] with total 3. *)
Lemma convertToCumulative_sums_adjacent_pairs :
  Helper.convertToCumulative [1; 1; 1] = ([1; 2; 2], 1) /\
  Spec.cumulative [1; 1; 1] = [1; 2; 3] /\
  Spec.total [1; 1; 1] = 3.
Proof. repeat split; reflexivity. Qed.

(** ** C10: merging two sorted runs *)

Section MergeFacts.
Context {C : Type}.
Variable wrap : Z -> Z.
Variable less : C -> C -> bool.

Lemma rd_wr_eq (st st' : store) buf i (x : C) :
  wr st buf i x = Some st' -> rd st' buf i = Some x.
Proof.
  unfold wr, rd. destruct (zset (st buf) i x) as [l|] eqn:E; [|discriminate].
  cbn. intros [= <-]. rewrite decide_True by reflexivity.
  eapply zget_zset_eq; eassumption.
Qed.

Lemma rd_wr_ne (st st' : store) buf i (x : C) buf' j :
  wr st buf i x = Some st' -> ~ (buf' = buf /\ j = i) -> rd st' buf' j = rd st buf' j.
Proof.
  unfold wr, rd. destruct (zset (st buf) i x) as [l|] eqn:E; [|discriminate].
  cbn. intros [= <-] Hne. case_decide as Hb; [|reflexivity]. subst buf'.
  eapply zget_zset_ne; [eassumption|]. intros ->. apply Hne; split; reflexivity.
Qed.

Lemma wr_zlen (st st' : store) buf i (x : C) buf' :
  wr st buf i x = Some st' -> zlen (st' buf') = zlen (st buf').
Proof.
  unfold wr. destruct (zset (st buf) i x) as [l|] eqn:E; [|discriminate].
  cbn. intros [= <-]. case_decide as Hb; [|reflexivity]. subst buf'.
  eapply zset_length; eassumption.
Qed.

Lemma wr_is_Some (st : store) buf i (x : C) :
  0 <= i < zlen (st buf) -> exists st', wr st buf i x = Some st'.
Proof.
  intros Hi. unfold wr. destruct (zset_is_Some (st buf) i x Hi) as [l ->].
  cbn. eauto.
Qed.

Lemma merge_lists_nil_l (lb : list C) : merge_lists less [] lb = lb.
Proof. destruct lb; reflexivity. Qed.

Lemma merge_lists_nil_r (la : list C) : merge_lists less la [] = la.
Proof. destruct la; reflexivity. Qed.

Lemma merge_lists_cons x la y lb :
  merge_lists less (x :: la) (y :: lb) =
  if less x y then x :: merge_lists less la (y :: lb)
  else y :: merge_lists less (x :: la) lb.
Proof. reflexivity. Qed.

Lemma merge_lists_perm la lb : Permutation (merge_lists less la lb) (la ++ lb).
Proof.
  revert lb; induction la as [|x la IHa]; intros lb.
  - now rewrite merge_lists_nil_l.
  - induction lb as [|y lb IHb].
    + rewrite merge_lists_nil_r, app_nil_r. reflexivity.
    + rewrite merge_lists_cons. destruct (less x y).
      * cbn. constructor. apply IHa.
      * rewrite IHb. apply (Permutation_middle (x :: la) lb y).
Qed.

Lemma merge_lists_hd (R : C -> C -> Prop) z la lb :
  HdRel R z la -> HdRel R z lb -> HdRel R z (merge_lists less la lb).
Proof.
  intros Ha Hb. destruct la as [|x la]; [now rewrite merge_lists_nil_l|].
  destruct lb as [|y lb]; [now rewrite merge_lists_nil_r|].
  rewrite merge_lists_cons. inversion Ha; inversion Hb; subst.
  destruct (less x y); constructor; assumption.
Qed.

Lemma merge_lists_ascending la lb :
  (forall x y, less x y = true -> less y x = false) ->
  ascending less la -> ascending less lb -> ascending less (merge_lists less la lb).
Proof.
  intros Hasym. unfold ascending.
  revert lb; induction la as [|x la IHa]; intros lb Ha Hb.
  - now rewrite merge_lists_nil_l.
  - induction lb as [|y lb IHb].
    + now rewrite merge_lists_nil_r.
    + rewrite merge_lists_cons.
      apply Sorted_inv in Ha as [Ha Hxa]. apply Sorted_inv in Hb as Hb'.
      destruct Hb' as [Hb' Hyb].
      destruct (less x y) eqn:Hxy.
      * constructor; [apply IHa; assumption|].
        apply merge_lists_hd; [assumption|]. constructor. now apply Hasym.
      * constructor; [apply IHb; assumption|].
        apply merge_lists_hd; [|assumption]. constructor. exact Hxy.
Qed.

Variable bound : Z.
Hypothesis wrap_small : forall z, 0 <= z < bound -> wrap z = z.

Variables bufA bufB bufC : nat.
Variables limA limB : Z.

Lemma reads_after_write (st st' : store) (x : C) c buf lo lim (l : list C) :
  wr st bufC c x = Some st' ->
  ~ (bufC = buf /\ lo <= c < lim) ->
  lo + zlen l = lim ->
  (forall t, (t < length l)%nat -> rd st buf (lo + Z.of_nat t) = l !! t) ->
  (forall t, (t < length l)%nat -> rd st' buf (lo + Z.of_nat t) = l !! t).
Proof.
  intros Hwr Hfree Hlen Hrd t Ht. rewrite <- (Hrd t Ht).
  eapply rd_wr_ne; [eassumption|]. intros [-> Heq]. apply Hfree.
  unfold zlen in Hlen. split; [reflexivity|lia].
Qed.

Lemma merge_loop_spec n : forall (la lb : list C) (st : store) a b c,
  n = (length la + length lb)%nat ->
  0 <= a -> a + zlen la = limA -> limA < bound ->
  0 <= b -> b + zlen lb = limB -> limB < bound ->
  0 <= c -> c + Z.of_nat n <= zlen (st bufC) -> c + Z.of_nat n < bound ->
  (forall t, (t < length la)%nat -> rd st bufA (a + Z.of_nat t) = la !! t) ->
  (forall t, (t < length lb)%nat -> rd st bufB (b + Z.of_nat t) = lb !! t) ->
  no_clobber wrap less bufA bufB bufC limA limB n st a b c ->
  exists st', merge_loop wrap less bufA bufB bufC limA limB n st a b c = Some st' /\
    (forall t, (t < n)%nat -> rd st' bufC (c + Z.of_nat t) = merge_lists less la lb !! t) /\
    (forall j, j < c -> rd st' bufC j = rd st bufC j) /\
    (forall buf, zlen (st' buf) = zlen (st buf)).
Proof.
  induction n as [|n IH]; intros la lb st a b c Hn Ha HlimA HbA Hb HlimB HbB Hc Hfit Hcb HrdA HrdB Hsafe.
  { exists st. repeat split; [intros t Ht; lia|reflexivity..]. }
  cbn [merge_loop no_clobber] in *.
  assert (Hcw : wrap (c + 1) = c + 1) by (apply wrap_small; lia).
  (* what one turn does, by the three cases of the source *)
  assert (Hstep : exists x st1 la' lb',
            wr st bufC c x = Some st1 /\
            merge_lists less la lb = x :: merge_lists less la' lb' /\
            n = (length la' + length lb')%nat /\
            exists a' b',
              merge_step wrap less bufA bufB bufC limA limB st a b c = Some (st1, a', b') /\
              0 <= a' /\ a' + zlen la' = limA /\ 0 <= b' /\ b' + zlen lb' = limB /\
              (forall t, (t < length la')%nat -> rd st bufA (a' + Z.of_nat t) = la' !! t) /\
              (forall t, (t < length lb')%nat -> rd st bufB (b' + Z.of_nat t) = lb' !! t)).
  { unfold merge_step, zlen in *.
    destruct la as [|x la'], lb as [|y lb']; cbn [length] in *; try lia.
    - (* only the second run is left *)
      rewrite decide_True by lia.
      pose proof (HrdB 0%nat ltac:(lia)) as Hy. rewrite Z.add_0_r in Hy. cbn in Hy.
      rewrite Hy. cbn [mbind option_bind].
      destruct (wr_is_Some st bufC c y) as [st1 Hst1]; [unfold zlen; lia|]. rewrite Hst1. cbn [mbind option_bind].
      exists y, st1, [], lb'. repeat split; [assumption| |cbn [length]; lia|].
      { now rewrite !merge_lists_nil_l. }
      exists a, (wrap (b + 1)). rewrite wrap_small by lia.
      repeat split; cbn [length]; try lia; try reflexivity; try assumption.
      intros t Ht. replace (b + 1 + Z.of_nat t) with (b + Z.of_nat (S t)) by lia.
      rewrite HrdB by lia. reflexivity.
    - (* only the first run is left *)
      rewrite decide_False by lia. rewrite decide_True by lia.
      pose proof (HrdA 0%nat ltac:(lia)) as Hx. rewrite Z.add_0_r in Hx. cbn in Hx.
      rewrite Hx. cbn [mbind option_bind].
      destruct (wr_is_Some st bufC c x) as [st1 Hst1]; [unfold zlen; lia|]. rewrite Hst1. cbn [mbind option_bind].
      exists x, st1, la', []. repeat split; [assumption| |cbn [length]; lia|].
      { now rewrite !merge_lists_nil_r. }
      exists (wrap (a + 1)), b. rewrite wrap_small by lia.
      repeat split; cbn [length]; try lia; try reflexivity; try assumption.
      intros t Ht. replace (a + 1 + Z.of_nat t) with (a + Z.of_nat (S t)) by lia.
      rewrite HrdA by lia. reflexivity.
    - (* both runs have an item *)
      rewrite decide_False by lia. rewrite decide_False by lia.
      pose proof (HrdA 0%nat ltac:(lia)) as Hx. rewrite Z.add_0_r in Hx. cbn in Hx.
      pose proof (HrdB 0%nat ltac:(lia)) as Hy. rewrite Z.add_0_r in Hy. cbn in Hy.
      rewrite Hx, Hy. cbn [mbind option_bind]. rewrite merge_lists_cons.
      destruct (less x y).
      + destruct (wr_is_Some st bufC c x) as [st1 Hst1]; [unfold zlen; lia|]. rewrite Hst1. cbn [mbind option_bind].
        exists x, st1, la', (y :: lb'). repeat split; [assumption|cbn [length]; lia|].
        exists (wrap (a + 1)), b. rewrite wrap_small by lia.
        repeat split; cbn [length]; try lia; try reflexivity; try assumption.
        intros t Ht. replace (a + 1 + Z.of_nat t) with (a + Z.of_nat (S t)) by lia.
        rewrite HrdA by lia. reflexivity.
      + destruct (wr_is_Some st bufC c y) as [st1 Hst1]; [unfold zlen; lia|]. rewrite Hst1. cbn [mbind option_bind].
        exists y, st1, (x :: la'), lb'. repeat split; [assumption|cbn [length]; lia|].
        exists a, (wrap (b + 1)). rewrite wrap_small by lia.
        repeat split; cbn [length]; try lia; try reflexivity; try assumption.
        intros t Ht. replace (b + 1 + Z.of_nat t) with (b + Z.of_nat (S t)) by lia.
        rewrite HrdB by lia. reflexivity. }
  destruct Hstep as (x & st1 & la' & lb' & Hwr & Hmerge & Hn' & a' & b' & Hst & Ha' & HlimA' & Hb' & HlimB' & HrdA' & HrdB').
  rewrite Hst in Hsafe |- *. cbn [mbind option_bind]. destruct Hsafe as [[HfreeA HfreeB] Hsafe].
  rewrite Hcw in Hsafe |- *.
  destruct (IH la' lb' st1 a' b' (c + 1)) as (st' & Hrun & Hout & Hframe & Hlen); try assumption; try lia.
  - rewrite (wr_zlen _ _ _ _ _ bufC Hwr). lia.
  - eapply reads_after_write; eassumption.
  - eapply reads_after_write; eassumption.
  - exists st'. split; [exact Hrun|]. split; [|split].
    + intros [|t] Ht.
      * rewrite Z.add_0_r, Hframe by lia. rewrite Hmerge. cbn.
        eapply rd_wr_eq; eassumption.
      * replace (c + Z.of_nat (S t)) with (c + 1 + Z.of_nat t) by lia.
        rewrite Hout by lia. rewrite Hmerge. reflexivity.
    + intros j Hj. rewrite Hframe by lia.
      eapply rd_wr_ne; [eassumption|]. intros [_ ->]. lia.
    + intros buf. rewrite Hlen. eapply wr_zlen; eassumption.
Qed.

End MergeFacts.

Section SliceFacts.
Context {A : Type}.

Lemma zslice_reads (l l' : list A) lo hi :
  zslice l lo hi = Some l' ->
  0 <= lo /\ hi <= zlen l /\ zlen l' = hi - lo /\
  forall t, (t < length l')%nat -> zget l (lo + Z.of_nat t) = l' !! t.
Proof.
  unfold zslice, zlen. case_decide as H; [|discriminate]. intros [= <-].
  assert (Hlen : length (take (Z.to_nat (hi - lo)) (drop (Z.to_nat lo) l)) = Z.to_nat (hi - lo)).
  { rewrite length_take, length_drop. lia. }
  repeat split; try lia.
  intros t Ht. rewrite Hlen in Ht. unfold zget. rewrite decide_True by lia.
  rewrite lookup_take_lt by lia. rewrite lookup_drop. f_equal. lia.
Qed.

Lemma reads_zslice (l l' : list A) lo :
  0 <= lo -> lo + zlen l' <= zlen l ->
  (forall t, (t < length l')%nat -> zget l (lo + Z.of_nat t) = l' !! t) ->
  zslice l lo (lo + zlen l') = Some l'.
Proof.
  unfold zslice, zlen. intros Hlo Hfit Hrd. rewrite decide_True by lia. f_equal.
  apply list_eq. intros i.
  destruct (decide (i < length l')%nat) as [Hi|Hi].
  - rewrite lookup_take_lt by lia. rewrite lookup_drop. rewrite <- (Hrd i Hi).
    unfold zget. rewrite decide_True by lia. f_equal. lia.
  - rewrite lookup_take_ge by lia. symmetry. apply lookup_ge_None. lia.
Qed.

End SliceFacts.

(** C10. Two source runs, each ascending under an asymmetric (strict)
    comparison and lying inside its slice; a destination range inside its
    slice that no write of the run reaches while the item there is still
    unread: the merge returns, and the destination range then holds an
    ascending sequence that is a permutation of the two runs. [wrap] is the
    index type's wrap-around ([u32] for the items sketch, [i64] for the
    doubles sketch), whose limit [bound] the ranges stay below. *)
Theorem mergeSortedArrays_sorted_permutation {C : Type}
    (wrap : Z -> Z) (less : C -> C -> bool) (bound : Z) (st : store)
    (bufA : nat) (startA lenA : Z) (bufB : nat) (startB lenB : Z)
    (bufC : nat) (startC : Z) (la lb : list C) :
  (forall z, 0 <= z < bound -> wrap z = z) ->
  (forall x y, less x y = true -> less y x = false) ->
  zslice (st bufA) startA (startA + lenA) = Some la ->
  zslice (st bufB) startB (startB + lenB) = Some lb ->
  ascending less la -> ascending less lb ->
  0 <= startC -> startC + lenA + lenB <= zlen (st bufC) ->
  startA + lenA < bound -> startB + lenB < bound -> startC + lenA + lenB < bound ->
  no_clobber wrap less bufA bufB bufC (startA + lenA) (startB + lenB)
    (Z.to_nat (lenA + lenB)) st startA startB startC ->
  exists st' lc,
    mergeSortedArrays wrap less st bufA startA lenA bufB startB lenB bufC startC = Some st' /\
    zslice (st' bufC) startC (startC + lenA + lenB) = Some lc /\
    ascending less lc /\ Permutation lc (la ++ lb).
Proof.
  intros Hwrap Hasym HA HB HsA HsB HC Hfit HbA HbB HbC Hsafe.
  apply zslice_reads in HA as (HA0 & HAfit & HAlen & HrdA).
  apply zslice_reads in HB as (HB0 & HBfit & HBlen & HrdB).
  assert (HlenA : 0 <= lenA) by (unfold zlen in HAlen; lia).
  assert (HlenB : 0 <= lenB) by (unfold zlen in HBlen; lia).
  unfold mergeSortedArrays.
  rewrite (Hwrap (lenA + lenB)) by lia.
  rewrite (Hwrap (startA + lenA)), (Hwrap (startB + lenB)) by lia.
  rewrite (Hwrap (startC + (lenA + lenB))) by lia.
  replace (startC + (lenA + lenB) - startC) with (lenA + lenB) by lia.
  assert (Hn : Z.to_nat (lenA + lenB) = (length la + length lb)%nat)
    by (unfold zlen in *; lia).
  destruct (merge_loop_spec wrap less bound Hwrap bufA bufB bufC
              (startA + lenA) (startB + lenB) (Z.to_nat (lenA + lenB))
              la lb st startA startB startC)
    as (st' & Hrun & Hout & _ & Hlen); try assumption; try lia.
  exists st', (merge_lists less la lb). split; [exact Hrun|].
  assert (Hml : zlen (merge_lists less la lb) = lenA + lenB).
  { unfold zlen in *. rewrite (Permutation_length (merge_lists_perm less la lb)).
    rewrite length_app. lia. }
  split; [|split].
  - replace (startC + lenA + lenB) with (startC + zlen (merge_lists less la lb)) by lia.
    apply reads_zslice; [lia|rewrite Hlen; lia|].
    intros t Ht. apply Hout. unfold zlen in Hml. lia.
  - apply merge_lists_ascending; assumption.
  - apply merge_lists_perm.
Qed.

(** The compactor's own layout: the halved run at [0, 2), the level above at
    [4, 7), merged in place into [2, 7) of the same array. *)
Lemma mergeSortedArrays_sorted_permutation_witness :
  exists st' lc,
    mergeSortedArrays u32 Z.ltb (fun _ => [1; 5; 0; 0; 2; 3; 7]) 0 0 2 0 4 3 0 2 = Some st' /\
    zslice (st' 0%nat) 2 (2 + 2 + 3) = Some lc /\
    ascending Z.ltb lc /\ Permutation lc ([1; 5] ++ [2; 3; 7]).
Proof.
  apply (mergeSortedArrays_sorted_permutation u32 Z.ltb (2 ^ 32)
           (fun _ => [1; 5; 0; 0; 2; 3; 7]) 0 0 2 0 4 3 0 2 [1; 5] [2; 3; 7]).
  - intros z Hz. apply u32_small. exact Hz.
  - intros x y Hxy. apply Z.ltb_lt in Hxy. apply Z.ltb_ge. lia.
  - reflexivity.
  - reflexivity.
  - repeat constructor.
  - repeat constructor.
  - lia.
  - vm_compute. discriminate.
  - lia.
  - lia.
  - lia.
  - vm_compute. repeat split; intros (_ & H1 & H2); first [discriminate H2 | exact (H1 eq_refl)].
Defined.

(** ** C2: the running minimum and maximum of the doubles sketch *)

(** C2. Stream 5, 3 into a fresh doubles sketch: the later revision of
    [updateDouble] reports the maximum 3 (it takes the maximum of the
    updated minimum and the item); the earlier revision reports 5. *)
Lemma updateDouble_maximum_is_taken_from_the_minimum :
  bind (Doubles.NewKllDoubleSketch 200 8) (fun s =>
    bind (Doubles.updateAll (Doubles.Update 0) s [5; 3]%float) (fun s =>
      Ok (Doubles.GetMinItem s, Doubles.GetMaxItem s)))
  = Ok (Ok 3%float, Ok 3%float) /\
  bind (Doubles.NewKllDoubleSketch 200 8) (fun s =>
    bind (Doubles.updateAll (DoublesRev0.updateDouble 0) s [5; 3]%float) (fun s =>
      Ok (Doubles.GetMinItem s, Doubles.GetMaxItem s)))
  = Ok (Ok 3%float, Ok 5%float).
Proof. split; vm_compute; reflexivity. Qed.

(** ** C5: the halving offset *)

(** C5. The halving of the items sketch takes no random draw: on 1, 2, 3, 4
    it keeps 2 and 4, the outcome of offset 1 in the doubles sketch; the
    outcome of offset 0 (1 and 3) does not occur. *)
Lemma randomlyHalveItems_offset_is_constant :
  Items.randomlyHalveDownItems [1; 2; 3; 4] 0 4 = Some [2; 4; 3; 4] /\
  Items.randomlyHalveUpItems [1; 2; 3; 4] 0 4 = Some [1; 2; 1; 3] /\
  Doubles.randomlyHalveDownDoubles 1 [1; 2; 3; 4]%float 0 4 = Some [2; 4; 3; 4]%float /\
  Doubles.randomlyHalveDownDoubles 0 [1; 2; 3; 4]%float 0 4 = Some [1; 3; 3; 4]%float /\
  Doubles.randomlyHalveUpDoubles 1 [1; 2; 3; 4]%float 0 4 = Some [1; 2; 1; 3]%float /\
  Doubles.randomlyHalveUpDoubles 0 [1; 2; 3; 4]%float 0 4 = Some [1; 2; 2; 4]%float.
Proof. repeat split; vm_compute; reflexivity. Qed.

(** ** C6: PMF from CDF *)

Section PMFFacts.
Variable rankOf : float -> Doubles.KllSearchCriteria -> result float.

Lemma ranksOf_length splitPoints crit rs :
  Doubles.ranksOf rankOf splitPoints crit = Ok rs -> length rs = length splitPoints.
Proof.
  revert rs; induction splitPoints as [|x rest IH]; intros rs; cbn.
  - now intros [= <-].
  - destruct (rankOf x crit); cbn; try discriminate.
    destruct (Doubles.ranksOf rankOf rest crit); cbn; try discriminate.
    intros [= <-]. cbn. f_equal. now apply IH.
Qed.

(** Whatever the rank function: once there is a split point and the CDF has
    been computed, the first turn of the differencing loop reads
    [buckets[len(buckets)]]. *)
Lemma getPMF_over_reads_past_the_end x splitPoints crit buckets :
  Doubles.getCDF_over rankOf (x :: splitPoints) crit = Ok buckets ->
  Doubles.getPMF_over rankOf (x :: splitPoints) crit = Panic.
Proof.
  intros Hcdf. unfold Doubles.getPMF_over. rewrite Hcdf. cbn [bind].
  assert (Hlen : (2 <= length buckets)%nat).
  { unfold Doubles.getCDF_over in Hcdf.
    destruct (Helper.checkDoublesSplitPointsOrder (x :: splitPoints)); [discriminate|].
    destruct (Doubles.ranksOf rankOf (x :: splitPoints) crit) as [rs| |] eqn:E;
      cbn in Hcdf; try discriminate.
    injection Hcdf as <-. apply ranksOf_length in E. rewrite length_app, E. cbn. lia. }
  unfold zlen.
  destruct (Z.to_nat (Z.of_nat (length buckets) - 1)) as [|k] eqn:Ek; [lia|].
  cbn [iter_down].
  replace (zget buckets (Z.of_nat (length buckets))) with (@None float); [reflexivity|].
  symmetry. unfold zget. rewrite decide_True by lia.
  apply lookup_ge_None. lia.
Qed.

End PMFFacts.

(** C6. A view of one item of weight 1 and the split point 1.0: [getCDF]
    and [getPMF] both panic (the rank query is a stub); with an empty split
    array they return [1.0]. With a rank function in place of the stub,
    [getCDF] returns [1.0, 1.0] and [getPMF] still panics, on the index. *)
Lemma getPMF_panics_on_a_split_point :
  let v := Doubles.mkSortedView [1%float] [1] 1 1%float 1%float in
  Doubles.getCDF v [1%float] Doubles.KLL_INCLUSIVE = Panic /\
  Doubles.getPMF v [1%float] Doubles.KLL_INCLUSIVE = Panic /\
  Doubles.getPMF v [] Doubles.KLL_INCLUSIVE = Ok [1%float] /\
  Doubles.getCDF_over (fun _ _ => Ok 1%float) [1%float] Doubles.KLL_INCLUSIVE
    = Ok [1%float; 1%float] /\
  Doubles.getPMF_over (fun _ _ => Ok 1%float) [1%float] Doubles.KLL_INCLUSIVE = Panic.
Proof. repeat split; vm_compute; reflexivity. Qed.

(** ** C9: adding the empty top level *)

(** In the doubles sketch the test for growing the levels array reads
    [myCurLevelsArr[myCurNumLevels+1]], one past the end of an array of
    [numLevels + 1] entries: the function never returns a sketch. *)
Lemma addEmptyTopLevel_doubles_never_returns (s s' : Doubles.DoubleSketch) :
  Doubles.structure s = Doubles.updatable ->
  zlen (Doubles.levelsArr s) < 2 ^ 63 ->
  Doubles.addEmptyTopLevelToCompletelyFullSketch s = Ok s' -> False.
Proof.
  intros Hst Hlen.
  unfold Doubles.addEmptyTopLevelToCompletelyFullSketch, Doubles.getLevelsArray,
    Doubles.getNumLevels.
  rewrite decide_True by (left; exact Hst).
  destruct (zget (Doubles.levelsArr s) (zlen (Doubles.levelsArr s) - 1)); [|discriminate].
  cbn [of_option bind].
  destruct (Doubles.GetMinItem s); cbn [bind]; try discriminate.
  destruct (Doubles.GetMaxItem s); cbn [bind]; try discriminate.
  unfold Doubles.addEmptyTopLevel_grow.
  case_decide; [discriminate|].
  destruct (zget (Doubles.levelsArr s) 0); cbn [of_option bind]; [|discriminate].
  case_decide; [discriminate|].
  destruct (Helper.levelCapacity _ _ _ _); cbn [bind]; try discriminate.
  assert (Hnone : zget (Doubles.levelsArr s) (i64 (zlen (Doubles.levelsArr s) - 1 + 1)) = None).
  { unfold zlen in *. rewrite i64_small by lia. unfold zget. case_decide; [|reflexivity].
    apply lookup_ge_None. lia. }
  rewrite Hnone. discriminate.
Qed.

(** C9. A doubles sketch with [K = 8] after eight updates is completely
    full, with the levels array [0, 8] of minimal length. Adding the empty
    top level panics in both revisions (index out of range), and so does the
    ninth update, which needs it. *)
Lemma addEmptyTopLevel_doubles_indexes_past_the_levels :
  let stream := [5; 3; 4; 1; 2; 6; 7; 8]%float in
  bind (Doubles.NewKllDoubleSketch 8 8) (fun s =>
    bind (Doubles.updateAll (Doubles.Update 0) s stream) (fun s =>
      Ok (Doubles.levelsArr s, Doubles.getNumLevels s))) = Ok ([0; 8], 1) /\
  bind (Doubles.NewKllDoubleSketch 8 8) (fun s =>
    bind (Doubles.updateAll (Doubles.Update 0) s stream)
      Doubles.addEmptyTopLevelToCompletelyFullSketch) = Panic /\
  bind (Doubles.NewKllDoubleSketch 8 8) (fun s =>
    bind (Doubles.updateAll (Doubles.Update 0) s stream)
      DoublesRev0.addEmptyTopLevelToCompletelyFullSketch) = Panic /\
  bind (Doubles.NewKllDoubleSketch 8 8) (fun s =>
    Doubles.updateAll (Doubles.Update 0) s (stream ++ [9%float])) = Panic.
Proof. repeat split; vm_compute; reflexivity. Qed.

(** ** C1: serialization round trip *)

(** C1. A sketch with [K = 40000] holding "a" and "b": its levels array is
    [39998, 40000], while the capacity recomputed on reading back is 7232
    (the doubling of [K] wraps, see [intCapAuxAux_wraps_at_32768]), so
    reading the serialized sketch back stops with the bounds error. With
    [K = 20] and the strings "A", "AB", "ABC" the round trip gives the
    sketch back. With the items "" and "b" it gives back the minimum "b" and
    the retained items "", "": the string operations of the tests serialize
    the empty string alone to no bytes while counting 4 for its size. *)
Lemma round_trip_is_lost_for_large_K :
  bind (StringItems.sketchOf 40000 [[97]; [98]]) (fun s => Ok (Items.levels s))
    = Ok [39998; 40000] /\
  Items.computeTotalItemCapacity 40000 8 1 = Some 7232 /\
  bind (StringItems.sketchOf 40000 [[97]; [98]]) Items.roundTrip = Err StringItems.E_offset /\
  bind (StringItems.sketchOf 20 [[65]; [65; 66]; [65; 66; 67]])
    (fun s => bind (Items.roundTrip s) (fun s' =>
       Ok (bool_decide (Items.observe s' = Items.observe s)))) = Ok true /\
  bind (StringItems.sketchOf 20 [[]; [98]]) (fun s => Ok (Items.observe s))
    = Ok (2, 20, 8, 20, [18; 20], Some [[98]; []], Some [], Some [98]) /\
  bind (StringItems.sketchOf 20 [[]; [98]])
    (fun s => bind (Items.roundTrip s) (fun s' => Ok (Items.observe s')))
    = Ok (2, 20, 8, 20, [18; 20], Some [[]; []], Some [98], Some [98]).
Proof. repeat split; vm_compute; reflexivity. Qed.

(** ** C8: queries on an empty sketch *)

(** C8. On a sketch with [N = 0] each of the nine queries of the items
    sketch returns the error of the empty sketch and leaves the sketch as it
    was, and so do the queries of the doubles sketch (whatever building its
    sorted view would do); [GetQuantile] returns an error, the sketch
    unchanged, for every rank below 0 or above 1 on any sketch. *)
Theorem queries_fail_on_empty_sketch {C SV : Type}
    `{!Items.ItemSketchOp C} `{!Items.Runtime C} `{!Items.SortedViewOps C SV}
    (s : Items.ItemsSketch C SV) (d : Doubles.DoubleSketch)
    (newView : Doubles.DoubleSketch -> result (Doubles.doubleSketchSortedView * Doubles.DoubleSketch)) :
  (Items.n s = 0 ->
     Items.GetMinItem s = Err Items.E_empty /\
     Items.GetMaxItem s = Err Items.E_empty /\
     (forall item incl, Items.GetRank s item incl = (Err Items.E_empty, s)) /\
     (forall rank incl, Items.GetQuantile s rank incl = (Err Items.E_empty, s)) /\
     (forall ranks incl, Items.GetQuantiles s ranks incl = (Err Items.E_empty, s)) /\
     (forall splits incl, Items.GetPMF s splits incl = (Err Items.E_empty, s)) /\
     (forall splits incl, Items.GetCDF s splits incl = (Err Items.E_empty, s)) /\
     (forall parts incl, Items.GetPartitionBoundaries s parts incl = (Err Items.E_empty, s)) /\
     Items.GetSortedView s = (Err Items.E_empty, s)) /\
  (Doubles.n d = 0 ->
     Doubles.GetMinItem d = Err Doubles.E_empty /\
     Doubles.GetMaxItem d = Err Doubles.E_empty /\
     (forall q mode, Doubles.GetRankWithMode d q mode = Err Doubles.E_empty) /\
     (forall r c, Doubles.GetQuantileWithCriteria newView d r c = (Err Doubles.E_empty, d)) /\
     (forall rs c, Doubles.GetQuantilesWithCriteria newView d rs c = (Err Doubles.E_empty, d)) /\
     (forall sp c, Doubles.GetPMFCriteria newView d sp c = (Err Doubles.E_empty, d)) /\
     (forall sp c, Doubles.GetCDFCriteria newView d sp c = (Err Doubles.E_empty, d))) /\
  (forall rank incl,
     (rank <? 0)%float = true \/ (1 <? rank)%float = true ->
     exists e, Items.GetQuantile s rank incl = (Err e, s)).
Proof.
  split; [|split].
  - intros Hn.
    unfold Items.GetMinItem, Items.GetMaxItem, Items.GetRank, Items.GetQuantile,
      Items.GetQuantiles, Items.GetPMF, Items.GetCDF, Items.GetPartitionBoundaries,
      Items.GetSortedView, Items.IsEmpty.
    rewrite bool_decide_eq_true_2 by exact Hn. repeat split.
  - intros Hn.
    unfold Doubles.GetMinItem, Doubles.GetMaxItem, Doubles.GetRankWithMode,
      Doubles.GetQuantileWithCriteria, Doubles.GetQuantilesWithCriteria,
      Doubles.GetPMFCriteria, Doubles.GetCDFCriteria, Doubles.IsEmpty, Doubles.GetN.
    rewrite bool_decide_eq_true_2 by exact Hn. repeat split.
  - intros rank incl Hrank. unfold Items.GetQuantile.
    destruct (Items.IsEmpty s); [eexists; reflexivity|].
    assert (Hor : ((rank <? 0)%float || (1 <? rank)%float) = true)
      by (destruct Hrank as [-> | ->]; [reflexivity|apply orb_true_r]).
    rewrite Hor. eexists; reflexivity.
Qed.

(** The empty sketch of scenario S1, [new(K = 200)], and the ranks -1 and 2
    on a sketch of three items. *)
Lemma queries_fail_on_empty_sketch_witness :
  exists s t : Items.ItemsSketch StringItems.GoString unit,
    Items.NewItemsSketch 200 = Ok s /\
    Items.GetMinItem s = Err Items.E_empty /\
    Items.GetSortedView s = (Err Items.E_empty, s) /\
    (exists e, Items.GetQuantile s (-1)%float true = (Err e, s)) /\
    StringItems.sketchOf 8 (StringItems.letters 3) = Ok t /\ Items.n t = 3 /\
    (exists e, Items.GetQuantile t (-1)%float true = (Err e, t)) /\
    (exists e, Items.GetQuantile t 2%float true = (Err e, t)).
Proof.
  eexists. eexists. split; [reflexivity|].
  match goal with |- context [Items.GetMinItem ?s] => set (s0 := s) end.
  destruct (queries_fail_on_empty_sketch s0
              (Doubles.mkDoubleSketch Doubles.updatable None false [8; 8] 8 8 0 8 false
                 nan nan [])
              (fun _ => Panic)) as (Hitems & _ & Hrank).
  destruct (Hitems eq_refl) as (Hmin & _ & _ & _ & _ & _ & _ & _ & Hview).
  split; [exact Hmin|]. split; [exact Hview|].
  split; [apply Hrank; left; reflexivity|].
  split; [vm_compute; reflexivity|]. split; [reflexivity|].
  match goal with |- context [Items.GetQuantile ?t _ _] => set (t0 := t) end.
  destruct (queries_fail_on_empty_sketch t0
              (Doubles.mkDoubleSketch Doubles.updatable None false [8; 8] 8 8 0 8 false
                 nan nan [])
              (fun _ => Panic)) as (_ & _ & Hrank').
  split; apply Hrank'; [left|right]; reflexivity.
Defined.

(** C8 (counterexample). NaN is a rank outside [[0, 1]] for which neither
    [rank < 0.0] nor [rank > 1.0] holds: on a sketch that is not empty
    [GetQuantile] does not return its error for the rank but hands NaN to
    the sorted view, whichever it is, and returns what the view answers;
    with a view that answers with an item, [GetQuantile] returns that item
    and no error. *)
Lemma getQuantile_hands_nan_to_the_view :
  exists s : Items.ItemsSketch StringItems.GoString unit,
    StringItems.sketchOf 8 (StringItems.letters 3) = Ok s /\
    ((nan <? 0)%float || (1 <? nan)%float) = false /\
    (forall (view : Items.SortedViewOps StringItems.GoString unit) incl,
       Items.GetQuantile s nan incl =
       Items.withSortedView s (fun v => Items.sv_GetQuantile v nan incl)) /\
    Items.GetQuantile
      (SortedViewOps0 := Items.Build_SortedViewOps StringItems.GoString unit unit
         (fun _ => Ok tt) (fun _ _ _ => Panic) (fun _ _ _ => Ok [97])
         (fun _ _ _ => Panic) (fun _ _ _ => Panic) (fun _ _ _ => Panic))
      s nan true = (Ok [97], Items.set_sortedView s (Some tt)).
Proof.
  eexists. split; [vm_compute; reflexivity|].
  split; [vm_compute; reflexivity|]. split.
  - intros view incl. reflexivity.
  - reflexivity.
Qed.

(** ** C3: the weight invariant of the items sketch *)

(** *** Loops, level arrays and weighted sums *)

Section LoopFacts.
Context {St : Type}.

Lemma iter_up_inv (Inv : Z -> St -> Prop) (body : Z -> St -> option St) n : forall a st st',
  (forall i s s', a <= i < a + Z.of_nat n -> Inv i s -> body i s = Some s' -> Inv (i + 1) s') ->
  Inv a st -> iter_up n a body st = Some st' -> Inv (a + Z.of_nat n) st'.
Proof.
  induction n as [|n IH]; intros a st st' Hstep Hinv Hrun; cbn [iter_up] in Hrun.
  - injection Hrun as <-. now rewrite Z.add_0_r.
  - destruct (body a st) as [st1|] eqn:Hb; [|discriminate]. cbn [mbind option_bind] in Hrun.
    replace (a + Z.of_nat (S n)) with (a + 1 + Z.of_nat n) by lia.
    eapply IH; [|eapply Hstep; [|exact Hinv|exact Hb]; lia|exact Hrun].
    intros i s s' Hi. apply Hstep. lia.
Qed.

Lemma iter_down_inv (Inv : Z -> St -> Prop) (body : Z -> St -> option St) n : forall a st st',
  (forall i s s', a - Z.of_nat n < i <= a -> Inv i s -> body i s = Some s' -> Inv (i - 1) s') ->
  Inv a st -> iter_down n a body st = Some st' -> Inv (a - Z.of_nat n) st'.
Proof.
  induction n as [|n IH]; intros a st st' Hstep Hinv Hrun; cbn [iter_down] in Hrun.
  - injection Hrun as <-. now rewrite Z.sub_0_r.
  - destruct (body a st) as [st1|] eqn:Hb; [|discriminate]. cbn [mbind option_bind] in Hrun.
    replace (a - Z.of_nat (S n)) with (a - 1 - Z.of_nat n) by lia.
    eapply IH; [|eapply Hstep; [|exact Hinv|exact Hb]; lia|exact Hrun].
    intros i s s' Hi. apply Hstep. lia.
Qed.

End LoopFacts.

Section LevelsFacts.

Lemma lv_Some L i v : zget L i = Some v -> lv L i = v.
Proof. unfold lv. now intros ->. Qed.

Lemma zget_lv L i : 0 <= i < zlen L -> zget L i = Some (lv L i).
Proof. intros Hi. destruct (zget_lt_is_Some L i Hi) as [v Hv]. now rewrite (lv_Some _ _ _ Hv). Qed.

Lemma lv_zset_eq L L' i v : zset L i v = Some L' -> lv L' i = v.
Proof. intros H. apply lv_Some. eapply zget_zset_eq; eassumption. Qed.

Lemma lv_zset_ne L L' i j v : zset L i v = Some L' -> i <> j -> lv L' j = lv L j.
Proof. intros H Hne. unfold lv. now rewrite (zget_zset_ne _ _ _ _ _ H Hne). Qed.

Lemma zset_Some_lt {A} (l l' : list A) i x : zset l i x = Some l' -> 0 <= i < zlen l.
Proof. unfold zset, zlen. case_decide; [lia|discriminate]. Qed.

(** The loop [for i := a; i < a + n; i++ { arr[i] = F(arr[i]) }]. *)
Lemma iter_up_pointwise (F : Z -> Z) n : forall a arr arr',
  iter_up n a (fun i arr => v ← zget arr i; zset arr i (F v)) arr = Some arr' ->
  zlen arr' = zlen arr /\
  forall i, lv arr' i = if decide (a <= i < a + Z.of_nat n) then F (lv arr i) else lv arr i.
Proof.
  induction n as [|n IH]; intros a arr arr' Hrun; cbn [iter_up] in Hrun.
  - injection Hrun as <-. split; [reflexivity|]. intros i. now rewrite decide_False by lia.
  - destruct (zget arr a) as [v|] eqn:Hv; [|discriminate]. cbn [mbind option_bind] in Hrun.
    destruct (zset arr a (F v)) as [arr1|] eqn:Hs; [|discriminate]. cbn [mbind option_bind] in Hrun.
    destruct (IH _ _ _ Hrun) as [Hlen Hpt]. split.
    + rewrite Hlen. eapply zset_length; eassumption.
    + intros i. rewrite Hpt. destruct (decide (i = a)) as [->|Hne].
      * rewrite decide_False by lia. rewrite decide_True by lia.
        rewrite (lv_zset_eq _ _ _ _ Hs). now rewrite (lv_Some _ _ _ Hv).
      * rewrite (lv_zset_ne _ _ _ i _ Hs) by lia.
        repeat case_decide; try lia; reflexivity.
Qed.

(** The loop [for i := a; i < a + n; i++ { arr[i] = F(src[i]) }]. *)
Lemma iter_up_fill (src : list Z) (F : Z -> Z) n : forall a arr arr',
  iter_up n a (fun i arr => v ← zget src i; zset arr i (F v)) arr = Some arr' ->
  zlen arr' = zlen arr /\
  (forall i, a <= i < a + Z.of_nat n -> 0 <= i < zlen src /\ 0 <= i < zlen arr) /\
  forall i, lv arr' i = if decide (a <= i < a + Z.of_nat n) then F (lv src i) else lv arr i.
Proof.
  induction n as [|n IH]; intros a arr arr' Hrun; cbn [iter_up] in Hrun.
  - injection Hrun as <-. split; [reflexivity|]. split; [intros; lia|].
    intros i. now rewrite decide_False by lia.
  - destruct (zget src a) as [v|] eqn:Hv; [|discriminate]. cbn [mbind option_bind] in Hrun.
    destruct (zset arr a (F v)) as [arr1|] eqn:Hs; [|discriminate]. cbn [mbind option_bind] in Hrun.
    destruct (IH _ _ _ Hrun) as (Hlen & Hin & Hpt).
    pose proof (zset_length _ _ _ _ Hs) as Hlen1. split; [|split].
    + now rewrite Hlen.
    + intros i Hi. destruct (decide (i = a)) as [->|Hne].
      * split; [eapply zget_Some_lt; eassumption|eapply zset_Some_lt; eassumption].
      * rewrite <- Hlen1. apply Hin. lia.
    + intros i. rewrite Hpt. destruct (decide (i = a)) as [->|Hne].
      * rewrite decide_False by lia. rewrite decide_True by lia.
        rewrite (lv_zset_eq _ _ _ _ Hs). now rewrite (lv_Some _ _ _ Hv).
      * rewrite (lv_zset_ne _ _ _ i _ Hs) by lia.
        repeat case_decide; try lia; reflexivity.
Qed.

End LevelsFacts.

Section WeightFacts.

Lemma wsum_ext f g n :
  (forall i, 0 <= i <= Z.of_nat n -> g i = f i) -> wsum g n = wsum f n.
Proof.
  induction n as [|n IH]; intros H; [reflexivity|]. cbn [wsum].
  rewrite IH by (intros; apply H; lia). rewrite !H by lia. reflexivity.
Qed.

Lemma wsum_shift f g h n :
  (forall i, 0 <= i <= Z.of_nat n -> g i = f i + h) -> wsum g n = wsum f n.
Proof.
  induction n as [|n IH]; intros H; [reflexivity|]. cbn [wsum].
  rewrite IH by (intros; apply H; lia). rewrite !H by lia. f_equal. f_equal. lia.
Qed.

Lemma wsum_add f g h d n :
  (forall i, 0 <= i <= Z.of_nat n -> h i = f i + g i + d) -> wsum h n = wsum f n + wsum g n.
Proof.
  induction n as [|n IH]; intros H; [reflexivity|]. cbn [wsum].
  rewrite IH by (intros; apply H; lia). rewrite !H by lia. lia.
Qed.

(** Halving level [lvl] (2h items leave it) and handing h items to the level
    above keeps the weighted sum. *)
Lemma wsum_compact f g h lvl n :
  0 <= lvl -> lvl + 2 <= Z.of_nat n ->
  (forall i, 0 <= i <= lvl -> g i = f i + h) ->
  g (lvl + 1) = f (lvl + 1) - h ->
  (forall i, lvl + 2 <= i <= Z.of_nat n -> g i = f i) ->
  wsum g n = wsum f n.
Proof.
  intros Hl Hn Hlow Hmid Hhigh.
  assert (Hgen : forall j : nat,
            (Z.of_nat j <= Z.of_nat n) ->
            wsum g j = wsum f j +
              (if decide (Z.of_nat j <= lvl) then 0
               else if decide (Z.of_nat j = lvl + 1) then - 2 ^ lvl * (2 * h) else 0)).
  { induction j as [|j IH]; intros Hj.
    - cbn [wsum]. rewrite decide_True by lia. lia.
    - cbn [wsum]. rewrite IH by lia.
      assert (Hp : 2 ^ (lvl + 1) = 2 * 2 ^ lvl) by (rewrite Z.pow_add_r by lia; change (2 ^ 1) with 2; lia).
      destruct (decide (Z.of_nat j < lvl)) as [H1|H1].
      + rewrite !Hlow by lia. repeat case_decide; lia.
      + destruct (decide (Z.of_nat j = lvl)) as [H2|H2].
        * rewrite H2 in *. rewrite Hmid, Hlow by lia. repeat case_decide; lia.
        * destruct (decide (Z.of_nat j = lvl + 1)) as [H3|H3].
          -- rewrite H3 in *. rewrite Hmid. rewrite Hhigh by lia. repeat case_decide; lia.
          -- rewrite !Hhigh by lia. repeat case_decide; lia. }
  rewrite Hgen by lia. repeat case_decide; lia.
Qed.

(** An empty level on top adds nothing. *)
Lemma wsum_extend f n :
  f (Z.of_nat n + 1) = f (Z.of_nat n) -> wsum f (S n) = wsum f n.
Proof. intros H. cbn [wsum]. rewrite H. lia. Qed.

Lemma wsum_flat f (n : nat) (d : nat) :
  (forall i, Z.of_nat n <= i <= Z.of_nat (n + d) -> f i = f (Z.of_nat n)) ->
  wsum f (n + d) = wsum f n.
Proof.
  induction d as [|d IH]; intros H.
  - now rewrite Nat.add_0_r.
  - replace (n + S d)%nat with (S (n + d)) by lia. cbn [wsum].
    rewrite IH by (intros; apply H; lia).
    rewrite (H (Z.of_nat (n + d) + 1)) by lia. rewrite (H (Z.of_nat (n + d))) by lia. lia.
Qed.

Lemma wsum_nonneg f n :
  (forall i, 0 <= i < Z.of_nat n -> f i <= f (i + 1)) -> 0 <= wsum f n.
Proof.
  induction n as [|n IH]; intros H; cbn [wsum]; [lia|].
  specialize (IH ltac:(intros; apply H; lia)).
  pose proof (H (Z.of_nat n) ltac:(lia)) as Hn.
  assert (Hp : 0 < 2 ^ Z.of_nat n) by (apply Z.pow_pos_nonneg; lia).
  pose proof (Z.mul_nonneg_nonneg (2 ^ Z.of_nat n) (f (Z.of_nat n + 1) - f (Z.of_nat n))
                ltac:(lia) ltac:(lia)). lia.
Qed.

(** Every item weighs at least 1. *)
Lemma wsum_ge_count f n :
  (forall i, 0 <= i < Z.of_nat n -> f i <= f (i + 1)) -> f (Z.of_nat n) - f 0 <= wsum f n.
Proof.
  induction n as [|n IH]; intros H; cbn [wsum]; [change (Z.of_nat 0) with 0; lia|].
  specialize (IH ltac:(intros; apply H; lia)).
  pose proof (H (Z.of_nat n) ltac:(lia)) as Hn.
  assert (Hp : 0 < 2 ^ Z.of_nat n) by (apply Z.pow_pos_nonneg; lia).
  replace (Z.of_nat (S n)) with (Z.of_nat n + 1) by lia.
  pose proof (Z.mul_le_mono_nonneg_r 1 (2 ^ Z.of_nat n) (f (Z.of_nat n + 1) - f (Z.of_nat n))
                ltac:(lia) ltac:(lia)). lia.
Qed.

End WeightFacts.

(** *** Capacities and regions of items that are not nil *)

Section CapacityBounds.

Lemma intCapAuxAux_Some_depth k d c : Items.intCapAuxAux k d = Some c -> 0 <= d <= 30.
Proof.
  unfold Items.intCapAuxAux. destruct (zget Items.powersOfThree d) as [p|] eqn:E; [|discriminate].
  intros _. apply zget_Some_lt in E. unfold zlen in E. cbn in E. lia.
Qed.

Lemma levelCapacity_Some k nl level m c :
  0 <= k < 2 ^ 16 -> 0 <= m < 2 ^ 8 -> 0 <= level < nl -> nl <= 255 ->
  Items.levelCapacity k nl level m = Some c ->
  nl - level - 1 <= 60 /\ m <= c <= Z.max m k.
Proof.
  intros Hk Hm Hl Hnl. unfold Items.levelCapacity.
  rewrite (u8_small (nl - level)) by lia. rewrite (u8_small (nl - level - 1)) by lia.
  set (d := nl - level - 1).
  destruct (Items.intCapAux k d) as [c0|] eqn:E; [|discriminate]. cbn [mbind option_bind].
  intros [= <-]. rewrite (u32_small m) by lia.
  assert (Hd : d <= 60).
  { unfold Items.intCapAux in E. case_decide as Hd; [lia|].
    destruct (Items.intCapAuxAux k (d / 2)) as [t|] eqn:E1; [|discriminate].
    cbn [mbind option_bind] in E. apply intCapAuxAux_Some_depth in E.
    assert (0 <= d - d / 2 < 2 ^ 8).
    { pose proof (Z.div_mod d 2 ltac:(lia)). pose proof (Z.mod_pos_bound d 2 ltac:(lia)). lia. }
    rewrite u8_small in E by lia.
    pose proof (Z.div_mod d 2 ltac:(lia)). pose proof (Z.mod_pos_bound d 2 ltac:(lia)). lia. }
  split; [exact Hd|].
  destruct (intCapAux_le_k k d Hk ltac:(lia)) as (c1 & Hc1 & Hr).
  rewrite Hc1 in E. injection E as <-. lia.
Qed.

End CapacityBounds.

Section RegionFacts.
Context {C : Type} {OpC : Items.ItemSketchOp C} {RtC : Items.Runtime C}.

Lemma nonNil_sub (buf : list C) lo hi lo' hi' :
  nonNil buf lo hi -> lo <= lo' -> hi' <= hi -> nonNil buf lo' hi'.
Proof. intros H Hl Hh i Hi. apply H. lia. Qed.

Lemma nonNil_read (buf : list C) lo hi i x :
  nonNil buf lo hi -> lo <= i < hi -> zget buf i = Some x -> Items.isNil x = false.
Proof. intros H Hi Hx. destruct (H i Hi) as (y & Hy & Hn). congruence. Qed.

Lemma nonNil_zset (buf buf' : list C) lo hi i x :
  nonNil buf lo hi -> zset buf i x = Some buf' -> Items.isNil x = false -> nonNil buf' lo hi.
Proof.
  intros H Hs Hx j Hj. destruct (decide (i = j)) as [->|Hne].
  - exists x. split; [eapply zget_zset_eq; eassumption|exact Hx].
  - rewrite (zget_zset_ne _ _ _ _ _ Hs Hne). apply H. exact Hj.
Qed.

(** A write that extends the region by the slot just below or just above. *)
Lemma nonNil_zset_grow (buf buf' : list C) lo hi i x lo' hi' :
  nonNil buf lo hi -> zset buf i x = Some buf' -> Items.isNil x = false ->
  (forall j, lo' <= j < hi' -> j = i \/ lo <= j < hi) -> nonNil buf' lo' hi'.
Proof.
  intros H Hs Hx Hcov j Hj. destruct (decide (i = j)) as [->|Hne].
  - exists x. split; [eapply zget_zset_eq; eassumption|exact Hx].
  - rewrite (zget_zset_ne _ _ _ _ _ Hs Hne). apply H. destruct (Hcov j Hj); [congruence|assumption].
Qed.

Lemma randomlyHalveUpItems_nonNil (buf buf' : list C) start len lo hi :
  nonNil buf lo hi -> 0 <= lo <= start -> start + len <= hi -> hi < 2 ^ 32 ->
  0 <= len -> len mod 2 = 0 ->
  Items.randomlyHalveUpItems buf start len = Some buf' -> nonNil buf' lo hi.
Proof.
  intros Hnn Hlo Hhi Hb Hlen Heven. unfold Items.randomlyHalveUpItems.
  pose proof (Z.div_mod len 2 ltac:(lia)) as Hdm. rewrite Heven in Hdm.
  set (half := len / 2) in *.
  rewrite (u32_small (start + half)) by lia.
  case_decide as Hlim; [discriminate|].
  rewrite (u32_small (start + len)) by lia.
  rewrite (u32_small (start + len - 1)) by lia.
  set (top := start + len - 1).
  replace (top - (start + half) + 1) with half by (unfold top; lia).
  destruct (iter_down _ _ _ _) as [[b j]|] eqn:Hrun; [|discriminate].
  cbn [mbind option_bind]. intros [= <-].
  apply (iter_down_inv
    (fun i (p : list C * Z) => nonNil p.1 lo hi /\ p.2 = u32 (2 * i - top - 1))) in Hrun.
  - exact (proj1 Hrun).
  - intros i [b0 j0] [b1 j1] Hi [Hn0 Hj0]. cbn [fst snd] in *.
    rewrite u32_small in Hj0 by (unfold top in *; lia). subst j0.
    destruct (zget b0 (2 * i - top - 1)) as [x|] eqn:Hx; [|discriminate]. cbn [mbind option_bind].
    destruct (zset b0 i x) as [b2|] eqn:Hs; [|discriminate]. cbn [mbind option_bind].
    intros [= <- <-]. split.
    + eapply nonNil_zset; [exact Hn0|exact Hs|].
      eapply nonNil_read; [exact Hn0| |exact Hx]. unfold top in *; lia.
    + f_equal. lia.
  - cbn [fst snd]. split; [exact Hnn|]. f_equal. lia.
Qed.

Lemma randomlyHalveDownItems_nonNil (buf buf' : list C) start len lo hi :
  nonNil buf lo hi -> 0 <= lo <= start -> start + len <= hi -> hi < 2 ^ 32 ->
  0 <= len -> len mod 2 = 0 ->
  Items.randomlyHalveDownItems buf start len = Some buf' -> nonNil buf' lo hi.
Proof.
  intros Hnn Hlo Hhi Hb Hlen Heven. unfold Items.randomlyHalveDownItems.
  pose proof (Z.div_mod len 2 ltac:(lia)) as Hdm. rewrite Heven in Hdm.
  set (half := len / 2) in *.
  rewrite (u32_small (start + half)) by lia.
  replace (start + half - start) with half by lia.
  destruct (iter_up _ _ _ _) as [[b j]|] eqn:Hrun; [|discriminate].
  cbn [mbind option_bind]. intros [= <-].
  apply (iter_up_inv
    (fun i (p : list C * Z) => nonNil p.1 lo hi /\ p.2 = u32 (start + 1 + 2 * (i - start)))) in Hrun.
  - exact (proj1 Hrun).
  - intros i [b0 j0] [b1 j1] Hi [Hn0 Hj0]. cbn [fst snd] in *.
    rewrite u32_small in Hj0 by lia. subst j0.
    destruct (zget b0 (start + 1 + 2 * (i - start))) as [x|] eqn:Hx; [|discriminate].
    cbn [mbind option_bind].
    destruct (zset b0 i x) as [b2|] eqn:Hs; [|discriminate]. cbn [mbind option_bind].
    intros [= <- <-]. split.
    + eapply nonNil_zset; [exact Hn0|exact Hs|].
      eapply nonNil_read; [exact Hn0| |exact Hx]. lia.
    + f_equal. lia.
  - cbn [fst snd]. split; [exact Hnn|]. f_equal. lia.
Qed.

End RegionFacts.

Section StoreRegionFacts.
Context {C : Type} {RtC : Items.Runtime C}.
Variable less : C -> C -> bool.

Lemma wr_nonNil (st st' : store) buf i (x : C) b lo hi :
  wr st buf i x = Some st' -> Items.isNil x = false ->
  nonNil (st b) lo hi -> nonNil (st' b) lo hi.
Proof.
  unfold wr. destruct (zset (st buf) i x) as [l|] eqn:E; [|discriminate].
  cbn [mbind option_bind]. intros [= <-] Hx Hn. case_decide as Hb; [|exact Hn]. subst b.
  eapply nonNil_zset; eassumption.
Qed.

Lemma wr_nonNil_grow (st st' : store) buf c (x : C) lo :
  wr st buf c x = Some st' -> Items.isNil x = false ->
  nonNil (st buf) lo c -> nonNil (st' buf) lo (c + 1).
Proof.
  unfold wr. destruct (zset (st buf) c x) as [l|] eqn:E; [|discriminate].
  cbn [mbind option_bind]. intros [= <-] Hx Hn. rewrite decide_True by reflexivity.
  eapply nonNil_zset_grow; [exact Hn|exact E|exact Hx|]. intros j Hj. lia.
Qed.

Variables bufA bufB bufC : nat.
Variables limA limB loA hiA loB hiB loC : Z.
Hypothesis HloA : 0 <= loA.
Hypothesis HloB : 0 <= loB.
Hypothesis HlimA : limA <= hiA.
Hypothesis HlimB : limB <= hiB.
Hypothesis HhiA : hiA < 2 ^ 32.
Hypothesis HhiB : hiB < 2 ^ 32.

Lemma merge_loop_nonNil n : forall (st st' : store) a b c,
  nonNil (st bufA) loA hiA -> nonNil (st bufB) loB hiB -> nonNil (st bufC) loC c ->
  loA <= a <= limA -> loB <= b <= limB ->
  Z.of_nat n = (limA - a) + (limB - b) ->
  0 <= c -> c + Z.of_nat n < 2 ^ 32 ->
  merge_loop u32 less bufA bufB bufC limA limB n st a b c = Some st' ->
  nonNil (st' bufA) loA hiA /\ nonNil (st' bufB) loB hiB /\
  nonNil (st' bufC) loC (c + Z.of_nat n).
Proof.
  induction n as [|n IH]; intros st st' a b c HA HB HC Ha Hb Hn Hc Hcn Hrun;
    cbn [merge_loop] in Hrun.
  { injection Hrun as <-. rewrite Z.add_0_r. auto. }
  destruct (merge_step u32 less bufA bufB bufC limA limB st a b c) as [[[st1 a1] b1]|] eqn:Hstep;
    [|discriminate].
  cbn [mbind option_bind] in Hrun.
  assert (Hone : nonNil (st1 bufA) loA hiA /\ nonNil (st1 bufB) loB hiB /\
                 nonNil (st1 bufC) loC (c + 1) /\
                 loA <= a1 <= limA /\ loB <= b1 <= limB /\
                 Z.of_nat n = (limA - a1) + (limB - b1)).
  { unfold merge_step in Hstep.
    destruct (decide (a = limA)) as [Hal|Hal]; [|destruct (decide (b = limB)) as [Hbl|Hbl]].
    - destruct (rd st bufB b) as [x|] eqn:Hx; [|discriminate]. cbn [mbind option_bind] in Hstep.
      destruct (wr st bufC c x) as [st2|] eqn:Hw; [|discriminate]. cbn [mbind option_bind] in Hstep.
      injection Hstep as <- <- <-.
      assert (Hnil : Items.isNil x = false) by (eapply (nonNil_read _ _ _ b); [exact HB|lia|exact Hx]).
      rewrite u32_small by lia.
      repeat split; try lia; eauto using wr_nonNil, wr_nonNil_grow.
    - destruct (rd st bufA a) as [x|] eqn:Hx; [|discriminate]. cbn [mbind option_bind] in Hstep.
      destruct (wr st bufC c x) as [st2|] eqn:Hw; [|discriminate]. cbn [mbind option_bind] in Hstep.
      injection Hstep as <- <- <-.
      assert (Hnil : Items.isNil x = false) by (eapply (nonNil_read _ _ _ a); [exact HA|lia|exact Hx]).
      rewrite u32_small by lia.
      repeat split; try lia; eauto using wr_nonNil, wr_nonNil_grow.
    - destruct (rd st bufA a) as [xa|] eqn:Hxa; [|discriminate]. cbn [mbind option_bind] in Hstep.
      destruct (rd st bufB b) as [xb|] eqn:Hxb; [|discriminate]. cbn [mbind option_bind] in Hstep.
      assert (HnilA : Items.isNil xa = false) by (eapply (nonNil_read _ _ _ a); [exact HA|lia|exact Hxa]).
      assert (HnilB : Items.isNil xb = false) by (eapply (nonNil_read _ _ _ b); [exact HB|lia|exact Hxb]).
      destruct (less xa xb).
      + destruct (wr st bufC c xa) as [st2|] eqn:Hw; [|discriminate]. cbn [mbind option_bind] in Hstep.
        injection Hstep as <- <- <-. rewrite u32_small by lia.
        repeat split; try lia; eauto using wr_nonNil, wr_nonNil_grow.
      + destruct (wr st bufC c xb) as [st2|] eqn:Hw; [|discriminate]. cbn [mbind option_bind] in Hstep.
        injection Hstep as <- <- <-. rewrite u32_small by lia.
        repeat split; try lia; eauto using wr_nonNil, wr_nonNil_grow. }
  destruct Hone as (HA1 & HB1 & HC1 & Ha1 & Hb1 & Hn1).
  rewrite (u32_small (c + 1)) in Hrun by lia.
  replace (c + Z.of_nat (S n)) with (c + 1 + Z.of_nat n) by lia.
  eapply IH; try eassumption; lia.
Qed.

End StoreRegionFacts.

Lemma mergeSortedArrays_nonNil {C : Type} {RtC : Items.Runtime C} (less : C -> C -> bool)
    (bufA bufB bufC : nat) (loA hiA loB hiB loC : Z)
    (st st' : store) startA lenA startB lenB startC :
  nonNil (st bufA) loA hiA -> nonNil (st bufB) loB hiB -> nonNil (st bufC) loC startC ->
  0 <= loA <= startA -> startA + lenA <= hiA -> hiA < 2 ^ 32 ->
  0 <= loB <= startB -> startB + lenB <= hiB -> hiB < 2 ^ 32 ->
  0 <= lenA -> 0 <= lenB -> 0 <= startC -> startC + lenA + lenB < 2 ^ 32 ->
  mergeSortedArrays u32 less st bufA startA lenA bufB startB lenB bufC startC = Some st' ->
  nonNil (st' bufA) loA hiA /\ nonNil (st' bufB) loB hiB /\
  nonNil (st' bufC) loC (startC + lenA + lenB).
Proof.
  intros HA HB HC Ha HfA HhA Hb HfB HhB HlA HlB Hc Hfit. unfold mergeSortedArrays.
  rewrite (u32_small (lenA + lenB)) by lia.
  rewrite (u32_small (startA + lenA)), (u32_small (startB + lenB)) by lia.
  rewrite (u32_small (startC + (lenA + lenB))) by lia.
  replace (startC + (lenA + lenB) - startC) with (lenA + lenB) by lia.
  intros Hrun.
  apply (merge_loop_nonNil less bufA bufB bufC (startA + lenA) (startB + lenB)
           loA hiA loB hiB loC) in Hrun; try assumption; try lia.
  replace (startC + lenA + lenB) with (startC + Z.of_nat (Z.to_nat (lenA + lenB))) by lia.
  exact Hrun.
Qed.


Section SortFacts.
Context {C : Type} {OpC : Items.ItemSketchOp C} {RtC : Items.Runtime C}.
Hypothesis sortSlice_perm : forall less (l : list C), Permutation (Items.sortSlice less l) l.

Lemma sortRange_nonNil (buf buf' : list C) lo' hi' lo hi :
  nonNil buf lo hi -> 0 <= lo -> lo <= lo' -> hi' <= hi ->
  Items.sortRange buf lo' hi' = Some buf' -> nonNil buf' lo hi.
Proof.
  intros Hn H0 Hlo Hhi. unfold Items.sortRange.
  destruct (zslice buf lo' hi') as [mid|] eqn:Hmid; [|discriminate].
  cbn [mbind option_bind]. intros [= <-].
  pose proof (zslice_reads _ _ _ _ Hmid) as (Hl0 & Hfit & Hlen & Hrd).
  set (sorted := Items.sortSlice Items.lessFn mid).
  assert (Hsl : length sorted = length mid) by (apply Permutation_length, sortSlice_perm).
  unfold zlen in *.
  assert (Hmidnn : forall x, In x mid -> Items.isNil x = false).
  { intros x Hx. apply list_elem_of_In, list_elem_of_lookup in Hx as [t Ht].
    pose proof (lookup_lt_Some _ _ _ Ht) as Hlt.
    rewrite <- (Hrd t Hlt) in Ht.
    eapply (nonNil_read _ _ _ (lo' + Z.of_nat t)); [exact Hn|lia|exact Ht]. }
  intros i Hi. unfold zget. rewrite decide_True by lia.
  destruct (decide (i < lo')) as [H1|H1].
  - rewrite lookup_app_l by (rewrite length_take; lia).
    rewrite lookup_take_lt by lia.
    destruct (Hn i Hi) as (x & Hx & Hnil). unfold zget in Hx. rewrite decide_True in Hx by lia.
    eauto.
  - rewrite lookup_app_r by (rewrite length_take; lia).
    rewrite length_take. rewrite Nat.min_l by lia.
    destruct (decide (i < hi')) as [H2|H2].
    + rewrite lookup_app_l by lia.
      destruct (lookup_lt_is_Some_2 sorted (Z.to_nat i - Z.to_nat lo')%nat ltac:(lia)) as [x Hx].
      exists x. split; [exact Hx|]. apply Hmidnn.
      apply (Permutation_in _ (sortSlice_perm Items.lessFn mid)).
      apply list_elem_of_In, list_elem_of_lookup. eauto.
    + rewrite lookup_app_r by lia. rewrite lookup_drop.
      destruct (Hn i Hi) as (x & Hx & Hnil). unfold zget in Hx. rewrite decide_True in Hx by lia.
      exists x. split; [|exact Hnil]. rewrite <- Hx. f_equal. lia.
Qed.

End SortFacts.

(** *** The layout invariant under growth, compaction and update *)

Section MonoFacts.

Lemma mono_le (f : Z -> Z) n :
  (forall i, 0 <= i < n -> f i <= f (i + 1)) ->
  forall i j, 0 <= i -> i <= j -> j <= n -> f i <= f j.
Proof.
  intros H i j Hi Hij Hj.
  replace j with (i + Z.of_nat (Z.to_nat (j - i))) by lia.
  assert (Hd : i + Z.of_nat (Z.to_nat (j - i)) <= n) by lia.
  revert Hd. generalize (Z.to_nat (j - i)). intros d. induction d as [|d IH]; intros Hd.
  - rewrite Z.add_0_r. lia.
  - specialize (IH ltac:(lia)).
    pose proof (H (i + Z.of_nat d) ltac:(lia)) as Hs.
    replace (i + Z.of_nat (S d)) with (i + Z.of_nat d + 1) by lia. lia.
Qed.

Lemma grow_levels (L : list Z) n :
  zlen L < n ->
  zlen (take (Z.to_nat n) (L ++ replicate (Z.to_nat n) 0)) = n /\
  (forall i, 0 <= i < zlen L -> lv (take (Z.to_nat n) (L ++ replicate (Z.to_nat n) 0)) i = lv L i).
Proof.
  unfold zlen. intros Hn. split.
  - rewrite length_take, length_app, length_replicate. lia.
  - intros i Hi. unfold lv, zget. rewrite !decide_True by lia.
    rewrite lookup_take_lt by lia. rewrite lookup_app_l by lia. reflexivity.
Qed.

End MonoFacts.

Section LayoutFacts.
Context {C SV : Type} {OpC : Items.ItemSketchOp C} {RtC : Items.Runtime C}.
Hypothesis sortSlice_perm : forall less (l : list C), Permutation (Items.sortSlice less l) l.
#[local] Abbreviation Sketch := (Items.ItemsSketch C SV).

Lemma wf_le (s : Sketch) c i j :
  wf s c -> 0 <= i -> i <= j -> j <= Items.numLevels s ->
  lv (Items.levels s) i <= lv (Items.levels s) j.
Proof. intros Hwf. apply mono_le. apply (wf_mono _ _ Hwf). Qed.

Lemma wf_range (s : Sketch) c i :
  wf s c -> 0 <= i <= Items.numLevels s ->
  0 <= lv (Items.levels s) i <= 65535 * 61 /\ zget (Items.levels s) i = Some (lv (Items.levels s) i).
Proof.
  intros Hwf Hi. pose proof (wf_numLevels _ _ Hwf). pose proof (wf_top _ _ Hwf).
  pose proof (wf_lo _ _ Hwf).
  pose proof (wf_le s c 0 i Hwf ltac:(lia) ltac:(lia) ltac:(lia)).
  pose proof (wf_le s c i (Items.numLevels s) Hwf ltac:(lia) ltac:(lia) ltac:(lia)).
  split; [lia|]. apply zget_lv. rewrite (wf_len _ _ Hwf). lia.
Qed.

Lemma wf_count_nonneg (s : Sketch) c : wf s c -> 0 <= c.
Proof.
  intros Hwf. rewrite <- (wf_weight _ _ Hwf). apply wsum_nonneg.
  intros i Hi. apply (wf_mono _ _ Hwf). pose proof (wf_numLevels _ _ Hwf). lia.
Qed.

Lemma wf_retained_le (s : Sketch) c :
  wf s c -> lv (Items.levels s) (Items.numLevels s) - lv (Items.levels s) 0 <= c.
Proof.
  intros Hwf. rewrite <- (wf_weight _ _ Hwf). pose proof (wf_numLevels _ _ Hwf).
  pose proof (wsum_ge_count (lv (Items.levels s)) (Z.to_nat (Items.numLevels s))) as H2.
  rewrite Z2Nat.id in H2 by lia. apply H2. intros i Hi. apply (wf_mono _ _ Hwf). lia.
Qed.

Lemma GetTotalItemsArray_nonNil (s : Sketch) c :
  wf s c ->
  nonNil (Items.GetTotalItemsArray s) (lv (Items.levels s) 0)
    (lv (Items.levels s) (Items.numLevels s)).
Proof.
  intros Hwf. unfold Items.GetTotalItemsArray. case_decide as Hn.
  - pose proof (wf_retained_le s c Hwf). rewrite (wf_n _ _ Hwf) in Hn.
    intros i Hi. lia.
  - apply (wf_items _ _ Hwf).
Qed.

Lemma findLevelToCompact_from_Some k m nl L fuel : forall level r,
  0 <= level <= 255 ->
  Items.findLevelToCompact_from fuel k m nl L level = Some r ->
  0 <= r <= 255 /\
  exists hi lo cap, zget L (u8 (r + 1)) = Some hi /\ zget L r = Some lo /\
    Items.levelCapacity k nl r m = Some cap /\ cap <= u32 (hi - lo).
Proof.
  induction fuel as [|fuel IH]; intros level r Hl Hrun; cbn [Items.findLevelToCompact_from] in Hrun;
    [discriminate|].
  bind_step Hrun hi Ehi. bind_step Hrun lo Elo. bind_step Hrun cap Ecap.
  case_decide as Hpop.
  - injection Hrun as <-. split; [lia|]. exists hi, lo, cap. repeat split; try assumption. lia.
  - apply IH in Hrun; [exact Hrun|]. unfold u8. pose proof (Z.mod_pos_bound (level + 1) (2 ^ 8) ltac:(lia)). lia.
Qed.

Lemma findLevelToCompact_wf (s : Sketch) c r :
  wf s c ->
  Items.findLevelToCompact (Items.k s) (Items.m s) (Items.numLevels s) (Items.levels s) = Some r ->
  0 <= r < Items.numLevels s /\ 8 <= lv (Items.levels s) (r + 1) - lv (Items.levels s) r.
Proof.
  intros Hwf Hrun. unfold Items.findLevelToCompact in Hrun.
  apply findLevelToCompact_from_Some in Hrun as (Hr & hi & lo & cap & Hhi & Hlo & Hcap & Hpop); [|lia].
  pose proof (wf_numLevels _ _ Hwf) as Hnl. pose proof (wf_len _ _ Hwf) as Hlen.
  pose proof (wf_k _ _ Hwf) as Hk. pose proof (wf_m _ _ Hwf) as Hm.
  pose proof (zget_Some_lt _ _ _ Hlo) as Hr1.
  rewrite u8_small in Hhi by lia.
  pose proof (zget_Some_lt _ _ _ Hhi) as Hr2.
  assert (Hrn : 0 <= r < Items.numLevels s) by lia.
  split; [exact Hrn|].
  apply levelCapacity_Some in Hcap as [_ Hc]; try lia.
  destruct (wf_range s c r Hwf ltac:(lia)) as [Hb1 Hg1].
  destruct (wf_range s c (r + 1) Hwf ltac:(lia)) as [Hb2 Hg2].
  pose proof (wf_le s c r (r + 1) Hwf ltac:(lia) ltac:(lia) ltac:(lia)).
  rewrite Hg1 in Hlo. rewrite Hg2 in Hhi. injection Hlo as <-. injection Hhi as <-.
  rewrite u32_small in Hpop by lia. lia.
Qed.

Lemma addEmptyTop_wf (s s1 : Sketch) c :
  wf s c -> Items.addEmptyTopLevelToCompletelyFullSketch s = Some s1 ->
  wf s1 c /\ Items.numLevels s1 = Items.numLevels s + 1 /\
  exists delta, forall i, 0 <= i <= Items.numLevels s ->
    lv (Items.levels s1) i = lv (Items.levels s) i + delta.
Proof.
  intros Hwf Hrun.
  pose proof (GetTotalItemsArray_nonNil s c Hwf) as Hcur.
  pose proof (fun i => wf_range s c i Hwf) as Hrange.
  pose proof (wf_le s c 0 (Items.numLevels s) Hwf ltac:(lia) ltac:(pose proof (wf_numLevels _ _ Hwf); lia) ltac:(lia)) as H0top.
  unfold Items.addEmptyTopLevelToCompletelyFullSketch, Items.getLevelsArray in Hrun.
  revert Hcur Hrun. generalize (Items.GetTotalItemsArray s). intros cur Hcur Hrun.
  destruct Hwf as [Hk Hm Hnl Hlen Hlo Hmono Htop Hw Hn Hitems].
  destruct s as [k m minK nl lz n L items mi ma sv]. sk_simpl.
  bind_step Hrun cap Ecap. bind_step Hrun delta Edelta.
  rewrite (u8_small (nl + 1)) in Edelta, Hrun by lia.
  rewrite (u8_small (nl + 2)) in Hrun by lia.
  rewrite bool_decide_eq_true_2 in Hrun by lia.
  replace (nl + 1 - 1) with nl in Hrun by lia.
  rewrite (u8_small nl) in Hrun by lia.
  rewrite decide_False in Hrun by lia.
  apply levelCapacity_Some in Edelta as [Hnl60 Hdelta]; try lia.
  destruct (Hrange nl ltac:(lia)) as [Hcapr Hcapg].
  rewrite Hcapg in Ecap. injection Ecap as <-.
  destruct (grow_levels L (nl + 2) ltac:(lia)) as [Hglen Hglv].
  set (L0 := take (Z.to_nat (nl + 2)) (L ++ replicate (Z.to_nat (nl + 2)) 0)) in *.
  bind_step Hrun L1 EL1. bind_step Hrun L2 EL2. bind_step Hrun new Enew.
  injection Hrun as <-.
  apply (iter_up_pointwise (fun v => u32 (v + delta))) in EL1 as [HL1len HL1].
  pose proof (zset_length _ _ _ _ EL2) as HL2len.
  assert (Hshift : forall i, 0 <= i <= nl -> lv L2 i = lv L i + delta).
  { intros i Hi. rewrite (lv_zset_ne _ _ _ i _ EL2) by lia. rewrite HL1.
    rewrite decide_True by lia. rewrite Hglv by lia.
    destruct (Hrange i ltac:(lia)) as [Hr _]. apply u32_small. lia. }
  assert (Htop2 : lv L2 (nl + 1) = lv L nl + delta).
  { rewrite (lv_zset_eq _ _ _ _ EL2). apply u32_small. lia. }
  unfold Items.set_items, Items.set_levels, Items.set_numLevels. sk_simpl.
  split; [|split; [reflexivity|exists delta; exact Hshift]].
  constructor; sk_simpl; try assumption; try lia.
  - rewrite Hshift by lia. lia.
  - intros i Hi. destruct (decide (i = nl)) as [->|Hne].
    + rewrite Htop2, Hshift by lia. lia.
    + rewrite !Hshift by lia. pose proof (Hmono i ltac:(lia)). lia.
  - replace (Z.to_nat (nl + 1)) with (S (Z.to_nat nl)) by lia.
    rewrite wsum_extend by (rewrite Z2Nat.id by lia; rewrite Htop2, Hshift by lia; reflexivity).
    rewrite <- Hw. apply (wsum_shift _ _ delta). intros i Hi. apply Hshift. lia.
  - rewrite Htop2, Hshift by lia.
    apply (iter_up_inv
      (fun i (arr : list C) => nonNil arr (lv L 0 + delta) (Z.max (lv L 0) i + delta))) in Enew.
    + rewrite Z.add_0_l, Z2Nat.id in Enew by lia.
      rewrite Z.max_r in Enew by lia. exact Enew.
    + intros i arr arr' Hi Hinv Hbody.
      bind_step Hbody x Ex. rewrite u32_small in Hbody by lia.
      destruct (decide (lv L 0 <= i)) as [Hge|Hlt].
      * eapply nonNil_zset_grow; [exact Hinv|exact Hbody| |intros j Hj; lia].
        eapply nonNil_read; [exact Hcur| |exact Ex]. lia.
      * intros j Hj. lia.
    + intros j Hj. lia.
Qed.

End LayoutFacts.

Section UpdateFacts.
Context {C SV : Type} {OpC : Items.ItemSketchOp C} {RtC : Items.Runtime C}.
Hypothesis sortSlice_perm : forall less (l : list C), Permutation (Items.sortSlice less l) l.
#[local] Abbreviation Sketch := (Items.ItemsSketch C SV).

Lemma compress_wf (s s' : Sketch) c :
  wf s c -> Items.compressWhileUpdatingSketch s = Some s' ->
  wf s' c /\ 1 <= lv (Items.levels s') 0.
Proof.
  intros Hwf Hrun. unfold Items.compressWhileUpdatingSketch in Hrun.
  bind_step Hrun level Elevel.
  apply (findLevelToCompact_wf s c level Hwf) in Elevel as [Hlevel Hpop].
  bind_step Hrun s1 Es1.
  assert (H1 : wf s1 c /\ level + 2 <= Items.numLevels s1 /\
               8 <= lv (Items.levels s1) (level + 1) - lv (Items.levels s1) level).
  { pose proof (wf_numLevels _ _ Hwf) as Hnl.
    rewrite u8_small in Es1 by lia.
    destruct (decide (level = Items.numLevels s - 1)) as [Htop|Htop].
    - apply (addEmptyTop_wf s s1 c Hwf) in Es1 as (Hwf1 & Hnl1 & delta & Hshift).
      split; [exact Hwf1|]. split; [lia|]. rewrite !Hshift by lia. lia.
    - injection Es1 as <-. split; [exact Hwf|]. split; lia. }
  clear Hwf Es1 Hpop. destruct H1 as (Hwf & Hl2 & Hpop). destruct Hlevel as [Hlevel _]. clear s.
  pose proof (GetTotalItemsArray_nonNil s1 c Hwf) as Hcur.
  pose proof (fun i => wf_range s1 c i Hwf) as Hrange.
  pose proof (fun i j => wf_le s1 c i j Hwf) as Hle.
  revert Hcur Hrun. generalize (Items.GetTotalItemsArray s1). intros cur Hcur Hrun.
  destruct Hwf as [Hk Hm Hnl Hlen Hlo Hmono Htop Hw Hn Hitems].
  destruct s1 as [k m minK nl lz n L items mi ma sv]. sk_simpl.
  rewrite (u8_small (level + 1)), (u8_small (level + 2)) in Hrun by lia.
  destruct (Hrange level ltac:(lia)) as [Hr0 Hg0].
  destruct (Hrange (level + 1) ltac:(lia)) as [Hr1 Hg1].
  destruct (Hrange (level + 2) ltac:(lia)) as [Hr2 Hg2].
  pose proof (Hle (level + 1) (level + 2) ltac:(lia) ltac:(lia) ltac:(lia)) as Hle12.
  rewrite Hg0, Hg1, Hg2 in Hrun. cbn [mbind option_bind] in Hrun.
  set (rawBeg := lv L level) in *. set (rawEnd := lv L (level + 1)) in *.
  set (above := lv L (level + 2)) in *.
  rewrite (u32_small (above - rawEnd)), (u32_small (rawEnd - rawBeg)) in Hrun by lia.
  set (pop := rawEnd - rawBeg) in *.
  pose proof (Z.div_mod pop 2 ltac:(lia)) as Hdm.
  pose proof (Z.mod_pos_bound pop 2 ltac:(lia)) as Hodd.
  set (odd := pop mod 2) in *. set (h := pop / 2) in *.
  assert (HadjBeg : (if bool_decide (odd = 1) then u32 (rawBeg + 1) else rawBeg) = rawBeg + odd).
  { case_bool_decide; [rewrite u32_small by lia|]; lia. }
  assert (HadjPop : (if bool_decide (odd = 1) then u32 (pop - 1) else pop) = 2 * h).
  { case_bool_decide; [rewrite u32_small by lia|]; lia. }
  rewrite HadjBeg, HadjPop in Hrun. clear HadjBeg HadjPop.
  replace (2 * h / 2) with h in Hrun by (rewrite Z.mul_comm, Z.div_mul; lia).
  replace (rawBeg + odd + 2 * h) with rawEnd in Hrun by lia.
  rewrite (u32_small rawEnd), (u32_small (rawBeg + odd + h)), (u32_small (rawEnd - h)) in Hrun by lia.
  pose proof (Hle 0 level ltac:(lia) ltac:(lia) ltac:(lia)) as Hle0.
  pose proof (Hle (level + 2) nl ltac:(lia) ltac:(lia) ltac:(lia)) as Hle2.
  fold rawBeg above in Hle0, Hle2.
  set (lo := lv L 0) in *. set (hi := lv L nl) in *.
  destruct (Hrange nl ltac:(lia)) as [Hrhi _]. fold hi in Hrhi.
  (* the items: sorting, halving, merging *)
  bind_step Hrun items1 E1.
  assert (Hn1 : nonNil items1 lo hi).
  { destruct (decide (level = 0)).
    - eapply sortRange_nonNil; [exact sortSlice_perm|exact Hcur| | | |exact E1]; lia.
    - injection E1 as <-. exact Hcur. }
  clear E1. bind_step Hrun items2 E2.
  assert (Hn2 : nonNil items2 lo hi).
  { destruct (decide (above - rawEnd = 0)).
    - eapply randomlyHalveUpItems_nonNil; [exact Hn1| | | | | |exact E2]; try lia.
      rewrite Z.mul_comm. apply Z.mod_mul. lia.
    - bind_step E2 buf Ebuf. bind_step E2 st Est. injection E2 as <-.
      assert (Hnb : nonNil buf lo hi).
      { eapply randomlyHalveDownItems_nonNil; [exact Hn1| | | | | |exact Ebuf]; try lia.
        rewrite Z.mul_comm. apply Z.mod_mul. lia. }
      unfold Items.mergeSortedItemsArrays in Est.
      apply (mergeSortedArrays_nonNil Items.lessFn 0 0 0 lo hi lo hi (rawBeg + odd + h)) in Est;
        try assumption; try lia.
      + apply Est.
      + intros t Ht. lia. }
  clear E2. bind_step Hrun La ELa. bind_step Hrun r Er. destruct r as [Lb items3].
  assert (Hb : zlen Lb = zlen L /\ lv Lb level = rawBeg + h /\ lv Lb (level + 1) = rawEnd - h /\
               (forall i, i <> level -> i <> level + 1 -> lv Lb i = lv L i) /\
               nonNil items3 lo hi).
  { pose proof (zset_length _ _ _ _ ELa) as HlenLa.
    pose proof (lv_zset_eq _ _ _ _ ELa) as HLa1.
    rewrite (zget_lv La (level + 1)) in Er by (rewrite HlenLa; lia).
    rewrite HLa1 in Er. cbn [mbind option_bind] in Er.
    destruct (bool_decide (odd = 1)) eqn:Hb.
    - apply bool_decide_eq_true in Hb.
      rewrite (u32_small (rawEnd - h - 1)) in Er by lia.
      bind_step Er Lb' ELb. bind_step Er dst Edst. bind_step Er x Ex. bind_step Er items3' E3.
      injection Er as <- <-.
      pose proof (zset_length _ _ _ _ ELb) as HlenLb.
      repeat split.
      + congruence.
      + rewrite (lv_zset_eq _ _ _ _ ELb). lia.
      + rewrite (lv_zset_ne _ _ _ (level + 1) _ ELb) by lia. exact HLa1.
      + intros i Hi1 Hi2. rewrite (lv_zset_ne _ _ _ i _ ELb) by lia.
        apply (lv_zset_ne _ _ _ i _ ELa). lia.
      + eapply nonNil_zset; [exact Hn2|exact E3|].
        eapply nonNil_read; [exact Hn2| |exact Ex]. lia.
    - bind_step Er Lb' ELb. injection Er as <- <-.
      apply bool_decide_eq_false in Hb.
      pose proof (zset_length _ _ _ _ ELb) as HlenLb.
      repeat split.
      + congruence.
      + rewrite (lv_zset_eq _ _ _ _ ELb). lia.
      + rewrite (lv_zset_ne _ _ _ (level + 1) _ ELb) by lia. exact HLa1.
      + intros i Hi1 Hi2. rewrite (lv_zset_ne _ _ _ i _ ELb) by lia.
        apply (lv_zset_ne _ _ _ i _ ELa). lia.
      + exact Hn2. }
  clear Er ELa. destruct Hb as (HlenLb & HbL & HbM & HbO & Hn3).
  bind_step Hrun items4 E4.
  assert (Hn4 : nonNil items4 lo hi).
  { destruct (decide (level > 0)) as [Hpos|Hzero].
    - rewrite (zget_lv Lb 0) in E4 by lia. cbn [mbind option_bind] in E4.
      rewrite (HbO 0) in E4 by lia. fold lo in E4.
      rewrite (u32_small (rawBeg - lo)) in E4 by lia.
      apply (iter_down_inv (fun _ (arr : list C) => nonNil arr lo hi)) in E4; [exact E4| |exact Hn3].
      intros i arr arr' Hi Hinv Hbody.
      cbn beta in Hbody.
      rewrite (u32_small (lo + i)), (u32_small (lo + i - 1)) in Hbody by lia.
      bind_step Hbody x Ex.
      eapply nonNil_zset; [exact Hinv|exact Hbody|].
      eapply nonNil_read; [exact Hinv| |exact Ex]. lia.
    - injection E4 as <-. exact Hn3. }
  clear E4. bind_step Hrun Lc ELc. injection Hrun as <-.
  apply (iter_up_pointwise (fun v => u32 (v + h))) in ELc as [HlenLc HLc].
  rewrite Z.add_0_l, Z2Nat.id in HLc by lia.
  assert (HcLow : forall i, 0 <= i <= level -> lv Lc i = lv L i + h).
  { intros i Hi. rewrite HLc. destruct (decide (0 <= i < level)).
    - rewrite HbO by lia. destruct (Hrange i ltac:(lia)) as [Hr _].
      pose proof (Hle i level ltac:(lia) ltac:(lia) ltac:(lia)) as Hil. fold rawBeg in Hil.
      apply u32_small. lia.
    - replace i with level by lia. exact HbL. }
  assert (HcMid : lv Lc (level + 1) = lv L (level + 1) - h).
  { rewrite HLc. rewrite decide_False by lia. exact HbM. }
  assert (HcHigh : forall i, level + 2 <= i -> lv Lc i = lv L i).
  { intros i Hi. rewrite HLc. rewrite decide_False by lia. apply HbO; lia. }
  unfold Items.set_items, Items.set_levels. sk_simpl.
  split; [|rewrite HcLow by lia; fold lo; lia].
  constructor; sk_simpl; try assumption; try lia.
  - rewrite HcLow by lia. fold lo. lia.
  - intros i Hi. pose proof (Hmono i Hi) as Hmi.
    destruct (decide (i + 1 <= level)); [rewrite !HcLow by lia; lia|].
    destruct (decide (i = level)) as [->|]; [rewrite HcLow, HcMid by lia; fold rawBeg rawEnd; lia|].
    destruct (decide (i = level + 1)) as [->|].
    + rewrite HcMid. replace (level + 1 + 1) with (level + 2) by lia.
      rewrite HcHigh by lia. fold rawEnd above. lia.
    + rewrite !HcHigh by lia. exact Hmi.
  - rewrite HcHigh by lia. exact Htop.
  - rewrite <- Hw. apply (wsum_compact _ _ h level); try lia; try assumption.
    intros i Hi. apply HcHigh. lia.
  - rewrite HcLow, HcHigh by lia. fold lo hi.
    eapply nonNil_sub; [exact Hn4| |]; lia.
Qed.

Lemma wf_same_layout (s s0 : Sketch) c :
  Items.k s0 = Items.k s -> Items.m s0 = Items.m s -> Items.numLevels s0 = Items.numLevels s ->
  Items.levels s0 = Items.levels s -> Items.items s0 = Items.items s -> Items.n s0 = Items.n s ->
  wf s c -> wf s0 c.
Proof.
  intros Hk Hm Hnl HL Hi Hn [? ? ? ? ? ? ? ? ? ?].
  constructor; rewrite ?Hk, ?Hm, ?Hnl, ?HL, ?Hi, ?Hn; assumption.
Qed.

Lemma wsum_push f g n :
  (0 < n)%nat -> g 0 = f 0 - 1 -> (forall i, 1 <= i <= Z.of_nat n -> g i = f i) ->
  wsum g n = wsum f n + 1.
Proof.
  induction n as [|n IH]; intros Hn H0 Hi; [lia|]. cbn [wsum].
  destruct n as [|n].
  - cbn [wsum]. change (Z.of_nat 0) with 0. rewrite H0, Hi by lia. change (2 ^ 0) with 1. lia.
  - rewrite IH by (try lia; try assumption; intros; apply Hi; lia).
    rewrite !Hi by lia. lia.
Qed.

Lemma updateItem_wf (s s' : Sketch) c x :
  wf s c -> c + 1 < 2 ^ 64 -> Items.updateItem s x = Some s' ->
  wf s' (c + (if Items.isNil x then 0 else 1)).
Proof.
  intros Hwf Hc Hrun. unfold Items.updateItem in Hrun.
  destruct (Items.isNil x) eqn:Hnil.
  { injection Hrun as <-. now rewrite Z.add_0_r. }
  bind_step Hrun s0 E0.
  assert (Hwf0 : wf s0 c).
  { destruct (Items.IsEmpty s).
    - injection E0 as <-. eapply wf_same_layout; [..|exact Hwf]; reflexivity.
    - bind_step E0 mi Emi. bind_step E0 ma Ema. injection E0 as <-.
      destruct (Items.lessFn x mi), (Items.lessFn ma x);
        (eapply wf_same_layout; [..|exact Hwf]; reflexivity). }
  clear E0 Hwf s. bind_step Hrun l0 El0. bind_step Hrun r Er. destruct r as [s1 l1].
  assert (H1 : wf s1 c /\ l1 = lv (Items.levels s1) 0 /\ 1 <= l1).
  { destruct (wf_range s0 c 0 Hwf0 ltac:(pose proof (wf_numLevels _ _ Hwf0); lia)) as [Hr Hg].
    rewrite Hg in El0. injection El0 as <-.
    destruct (decide (lv (Items.levels s0) 0 = 0)) as [Hz|Hz].
    - bind_step Er s2 E2. bind_step Er l2 El2. injection Er as <- <-.
      apply (compress_wf _ _ c Hwf0) in E2 as [Hwf2 Hl2].
      apply lv_Some in El2. subst l2. split; [exact Hwf2|]. split; [reflexivity|exact Hl2].
    - injection Er as <- <-. split; [exact Hwf0|]. split; [reflexivity|lia]. }
  clear Er El0 Hwf0 s0. destruct H1 as (Hwf & -> & Hl1).
  pose proof (fun i => wf_range s1 c i Hwf) as Hrange.
  pose proof (fun i j => wf_le s1 c i j Hwf) as Hle.
  destruct Hwf as [Hk Hm Hnl Hlen Hlo Hmono Htop Hw Hn Hitems].
  destruct s1 as [k m minK nl lz n L items mi ma sv]. sk_simpl.
  destruct (Hrange 0 ltac:(lia)) as [Hr0 _].
  rewrite (u32_small (lv L 0 - 1)) in Hrun by lia.
  bind_step Hrun L' EL. bind_step Hrun items' Ei. injection Hrun as <-.
  pose proof (lv_zset_eq _ _ _ _ EL) as HL0.
  assert (HLi : forall i, 1 <= i -> lv L' i = lv L i).
  { intros i Hi. apply (lv_zset_ne _ _ _ i _ EL). lia. }
  constructor; sk_simpl; try assumption; try lia.
  - rewrite (zset_length _ _ _ _ EL). exact Hlen.
  - intros i Hi. pose proof (Hmono i Hi). destruct (decide (i = 0)) as [->|].
    + rewrite HL0, HLi by lia. lia.
    + rewrite !HLi by lia. lia.
  - rewrite HLi by lia. exact Htop.
  - rewrite <- Hw. apply wsum_push; [lia|exact HL0|]. intros i Hi. apply HLi. lia.
  - subst n. apply u64_small. pose proof (wsum_nonneg (lv L) (Z.to_nat nl)) as Hnn.
    rewrite Hw in Hnn. specialize (Hnn ltac:(intros; apply Hmono; lia)). lia.
  - rewrite HL0, HLi by lia.
    eapply nonNil_zset_grow; [exact Hitems|exact Ei|exact Hnil|]. intros j Hj. lia.
Qed.

End UpdateFacts.

(** *** The work arrays of a merge *)

Section MergeWeightFacts.

Lemma wsum_clamp L nl (p : nat) :
  0 <= nl <= Z.of_nat p -> wsum (clamp L nl) p = wsum (lv L) (Z.to_nat nl).
Proof.
  intros Hp. replace p with (Z.to_nat nl + (p - Z.to_nat nl))%nat by lia.
  rewrite wsum_flat.
  - apply wsum_ext. intros i Hi. unfold clamp. f_equal. lia.
  - intros i Hi. unfold clamp. f_equal. lia.
Qed.

Lemma wsum_drop0 f g n :
  (0 < n)%nat -> g 0 = f 1 -> (forall i, 1 <= i <= Z.of_nat n -> g i = f i) ->
  wsum g n = wsum f n - (f 1 - f 0).
Proof.
  induction n as [|n IH]; intros Hn H0 Hi; [lia|]. cbn [wsum].
  destruct n as [|n].
  - cbn [wsum]. change (Z.of_nat 0) with 0. rewrite H0, Hi by lia. change (0 + 1) with 1. lia.
  - rewrite IH by (try lia; try assumption; intros; apply Hi; lia).
    rewrite !Hi by lia. lia.
Qed.

Lemma wsum_clamp1 L nl (p : nat) :
  1 <= nl <= Z.of_nat p ->
  wsum (clamp1 L nl) p = wsum (lv L) (Z.to_nat nl) - (lv L 1 - lv L 0).
Proof.
  intros Hp. rewrite <- (wsum_clamp L nl p) by lia.
  replace (lv L 1) with (clamp L nl 1) by (unfold clamp; f_equal; lia).
  replace (lv L 0) with (clamp L nl 0) by (unfold clamp; f_equal; lia).
  apply wsum_drop0; [lia| |].
  - unfold clamp1, clamp. f_equal. lia.
  - intros i Hi. unfold clamp1, clamp. f_equal. lia.
Qed.

(** Compaction as the merge does it: level [lvl] keeps its odd item, [h]
    items go up and the levels above slide down by [h]. *)
Lemma wsum_compact_down f g h lvl n :
  0 <= lvl -> lvl + 2 <= Z.of_nat n ->
  (forall i, 0 <= i <= lvl -> g i = f i) ->
  g (lvl + 1) = f (lvl + 1) - 2 * h ->
  (forall i, lvl + 2 <= i <= Z.of_nat n -> g i = f i - h) ->
  wsum g n = wsum f n.
Proof.
  intros Hl Hn Hlow Hmid Hhigh.
  rewrite <- (wsum_shift g (fun i => g i + h) h n) by reflexivity.
  apply (wsum_compact f _ h lvl n); try assumption.
  - intros i Hi. rewrite Hlow by lia. reflexivity.
  - rewrite Hmid. lia.
  - intros i Hi. rewrite Hhigh by lia. lia.
Qed.

End MergeWeightFacts.

Section LevelsOk.

Lemma levels_ok_range nl L i :
  levels_ok nl L -> 0 <= i <= nl ->
  0 <= lv L i <= 65535 * nl /\ zget L i = Some (lv L i).
Proof.
  intros (Hnl & Hlen & Hlo & Hmono & Htop) Hi.
  pose proof (mono_le (lv L) nl Hmono 0 i ltac:(lia) ltac:(lia) ltac:(lia)).
  pose proof (mono_le (lv L) nl Hmono i nl ltac:(lia) ltac:(lia) ltac:(lia)).
  split; [lia|]. apply zget_lv. lia.
Qed.

Lemma clamp_mono nl L i : levels_ok nl L -> 0 <= i -> clamp L nl i <= clamp L nl (i + 1).
Proof.
  intros (Hnl & Hlen & Hlo & Hmono & Htop) Hi. unfold clamp.
  apply (mono_le (lv L) nl Hmono); lia.
Qed.

Lemma clamp1_mono nl L i : levels_ok nl L -> 0 <= i -> clamp1 L nl i <= clamp1 L nl (i + 1).
Proof.
  intros (Hnl & Hlen & Hlo & Hmono & Htop) Hi. unfold clamp1.
  apply (mono_le (lv L) nl Hmono); lia.
Qed.

Lemma clamp_range nl L i : levels_ok nl L -> 0 <= i -> 0 <= clamp L nl i <= 65535 * nl.
Proof.
  intros H Hi. unfold clamp. pose proof (proj1 H).
  apply (levels_ok_range nl L _ H). lia.
Qed.

Lemma clamp1_range nl L i : levels_ok nl L -> 0 <= clamp1 L nl i <= 65535 * nl.
Proof.
  intros H. unfold clamp1. pose proof (proj1 H).
  apply (levels_ok_range nl L _ H). lia.
Qed.

Lemma currentLevelSizeItems_clamp nl L lvl :
  levels_ok nl L -> 0 <= lvl <= 100 ->
  Items.currentLevelSizeItems lvl nl L = Some (clamp L nl (lvl + 1) - clamp L nl lvl).
Proof.
  intros Hok Hl. unfold Items.currentLevelSizeItems, clamp.
  pose proof Hok as (Hnl & Hlen & Hlo & Hmono & Htop).
  destruct (decide (lvl >= nl)).
  - f_equal. rewrite !Z.min_r by lia. lia.
  - rewrite !Z.min_l by lia. rewrite u8_small by lia.
    destruct (levels_ok_range nl L lvl Hok ltac:(lia)) as [Hr1 ->].
    destruct (levels_ok_range nl L (lvl + 1) Hok ltac:(lia)) as [Hr2 ->].
    cbn [mbind option_bind]. f_equal. apply u32_small.
    pose proof (Hmono lvl ltac:(lia)). lia.
Qed.

End LevelsOk.

Section PopulateFacts.
Context {C : Type} {OpC : Items.ItemSketchOp C} {RtC : Items.Runtime C}.

Lemma copy_run_nonNil (src : list C) (W Lsrc : list Z) lvl n wl l lo hi (buf buf' : list C) :
  zget W lvl = Some wl -> zget Lsrc lvl = Some l ->
  nonNil src lo hi -> 0 <= lo <= l -> l + n <= hi -> hi < 2 ^ 32 ->
  0 <= wl -> wl + n < 2 ^ 32 -> 0 <= n ->
  nonNil buf 0 wl ->
  iter_up (Z.to_nat n) 0
    (fun i buf =>
       wl ← zget W lvl; l ← zget Lsrc lvl;
       x ← zget src (u32 (l + i));
       zset buf (u32 (wl + i)) x) buf = Some buf' ->
  nonNil buf' 0 (wl + n).
Proof.
  intros HW HL Hsrc Hlo Hfit Hhi Hwl Hwn Hn Hbuf Hrun.
  apply (iter_up_inv (fun i (b : list C) => nonNil b 0 (wl + i))) in Hrun.
  - rewrite Z.add_0_l, Z2Nat.id in Hrun by lia. exact Hrun.
  - intros i b b' Hi Hinv Hbody. rewrite HW, HL in Hbody. cbn [mbind option_bind] in Hbody.
    rewrite (u32_small (l + i)), (u32_small (wl + i)) in Hbody by lia.
    bind_step Hbody x Ex.
    eapply nonNil_zset_grow; [exact Hinv|exact Hbody| |intros j Hj; lia].
    eapply nonNil_read; [exact Hsrc| |exact Ex]. lia.
  - rewrite Z.add_0_r. exact Hbuf.
Qed.

Lemma workLevel_0 Ls nls Lo nlo : workLevel Ls nls Lo nlo 0 = 0.
Proof. unfold workLevel. lia. Qed.

Lemma workLevel_succ Ls nls Lo nlo j :
  1 <= j -> 1 <= nlo ->
  workLevel Ls nls Lo nlo (j + 1) =
  workLevel Ls nls Lo nlo j + (clamp Ls nls (j + 1) - clamp Ls nls j)
    + (clamp Lo nlo (j + 1) - clamp Lo nlo j).
Proof.
  intros Hj Hn. unfold workLevel, clamp1, clamp.
  replace (Z.max 1 (Z.min (j + 1) nlo)) with (Z.min (j + 1) nlo) by lia.
  replace (Z.max 1 (Z.min j nlo)) with (Z.min j nlo) by lia. lia.
Qed.

Lemma workLevel_mono Ls nls Lo nlo j :
  levels_ok nls Ls -> levels_ok nlo Lo -> 0 <= j ->
  workLevel Ls nls Lo nlo j <= workLevel Ls nls Lo nlo (j + 1).
Proof.
  intros Hs Ho Hj. unfold workLevel.
  pose proof (clamp_mono nls Ls j Hs Hj). pose proof (clamp1_mono nlo Lo j Ho Hj). lia.
Qed.

Lemma workLevel_range Ls nls Lo nlo j :
  levels_ok nls Ls -> levels_ok nlo Lo -> 0 <= j ->
  0 <= workLevel Ls nls Lo nlo j <= 2 * (65535 * 61).
Proof.
  intros Hs Ho Hj. unfold workLevel.
  pose proof (clamp_range nls Ls j Hs Hj). pose proof (clamp_range nls Ls 0 Hs ltac:(lia)).
  pose proof (clamp1_range nlo Lo j Ho). pose proof (clamp1_range nlo Lo 0 Ho).
  pose proof (mono_le _ j (fun i Hi => clamp_mono nls Ls i Hs (proj1 Hi)) 0 j ltac:(lia) ltac:(lia) ltac:(lia)).
  pose proof (mono_le _ j (fun i Hi => clamp1_mono nlo Lo i Ho (proj1 Hi)) 0 j ltac:(lia) ltac:(lia) ltac:(lia)).
  destruct Hs as (? & _). destruct Ho as (? & _). lia.
Qed.

Lemma populateItemWorkArrays_spec (wb0 : list C) W0 prov nls Ls (curS : list C) nlo Lo
    (curO : list C) wb W :
  levels_ok nls Ls -> levels_ok nlo Lo -> 2 <= nlo -> prov = Z.max nls nlo ->
  nonNil curS (lv Ls 0) (lv Ls nls) -> nonNil curO (lv Lo 0) (lv Lo nlo) ->
  Items.populateItemWorkArrays wb0 W0 prov nls Ls curS nlo Lo curO = Some (wb, W) ->
  prov < zlen W /\
  (forall j, 0 <= j <= prov -> lv W j = workLevel Ls nls Lo nlo j) /\
  nonNil wb 0 (lv W prov).
Proof.
  intros Hs Ho Hnlo Hprov HcurS HcurO Hrun.
  pose proof Hs as (Hnls & HlenS & HloS & HmonoS & HtopS).
  pose proof Ho as (Hnlo' & HlenO & HloO & HmonoO & HtopO).
  unfold Items.populateItemWorkArrays in Hrun.
  bind_step Hrun Wa EWa.
  rewrite (currentLevelSizeItems_clamp nls Ls 0 Hs ltac:(lia)) in Hrun.
  cbn [mbind option_bind] in Hrun.
  pose proof (clamp_mono nls Ls 0 Hs ltac:(lia)) as Hsp0.
  pose proof (clamp_range nls Ls 1 Hs ltac:(lia)) as Hc1.
  pose proof (clamp_range nls Ls 0 Hs ltac:(lia)) as Hc0.
  change (0 + 1) with 1 in *.
  set (sp0 := clamp Ls nls 1 - clamp Ls nls 0) in *.
  bind_step Hrun wb1 Ewb1.
  pose proof (zget_zset_eq _ _ _ _ EWa) as HWa0.
  assert (Hn1 : nonNil wb1 0 (0 + sp0)).
  { eapply (copy_run_nonNil curS Wa Ls 0 sp0 0 (lv Ls 0) (lv Ls 0) (lv Ls nls));
      [exact HWa0| |exact HcurS| | | | | | | |exact Ewb1]; try lia.
    - apply (levels_ok_range nls Ls 0 Hs). lia.
    - unfold sp0, clamp. rewrite (Z.min_l 1 nls), (Z.min_l 0 nls) by lia.
      pose proof (mono_le (lv Ls) nls HmonoS 1 nls ltac:(lia) ltac:(lia) ltac:(lia)). lia.
    - intros j Hj. lia. }
  clear Ewb1. rewrite HWa0 in Hrun. cbn [mbind option_bind] in Hrun.
  rewrite (u32_small (0 + sp0)) in Hrun by lia.
  bind_step Hrun Wb EWb.
  apply (iter_up_inv (fun lvl (p : list C * list Z) =>
           lvl < zlen p.2 /\
           (forall j, 0 <= j <= lvl -> lv p.2 j = workLevel Ls nls Lo nlo j) /\
           nonNil p.1 0 (lv p.2 lvl))) in Hrun.
  - replace (1 + Z.of_nat (Z.to_nat (prov - 1))) with prov in Hrun by lia. exact Hrun.
  - intros lvl [buf Wc] [buf' Wc'] Hlvl (Hlen & HT & Hnn) Hbody. cbn [fst snd] in *.
    rewrite (currentLevelSizeItems_clamp nls Ls lvl Hs ltac:(lia)) in Hbody.
    rewrite (currentLevelSizeItems_clamp nlo Lo lvl Ho ltac:(lia)) in Hbody.
    cbn [mbind option_bind] in Hbody.
    pose proof (clamp_mono nls Ls lvl Hs ltac:(lia)) as Hsp.
    pose proof (clamp_mono nlo Lo lvl Ho ltac:(lia)) as Hop.
    set (sp := clamp Ls nls (lvl + 1) - clamp Ls nls lvl) in *.
    set (op := clamp Lo nlo (lvl + 1) - clamp Lo nlo lvl) in *.
    pose proof (workLevel_succ Ls nls Lo nlo lvl ltac:(lia) ltac:(lia)) as HTs.
    fold sp op in HTs.
    pose proof (workLevel_range Ls nls Lo nlo lvl Hs Ho ltac:(lia)) as HTr.
    pose proof (workLevel_range Ls nls Lo nlo (lvl + 1) Hs Ho ltac:(lia)) as HTr1.
    rewrite (zget_lv Wc lvl) in Hbody by lia. cbn [mbind option_bind] in Hbody.
    rewrite (HT lvl) in Hbody, Hnn by lia.
    set (wl := workLevel Ls nls Lo nlo lvl) in *.
    rewrite (u8_small (lvl + 1)) in Hbody by lia.
    rewrite (u32_small (wl + sp)), (u32_small (wl + sp + op)) in Hbody by lia.
    bind_step Hbody Wd EWd.
    pose proof (zset_length _ _ _ _ EWd) as HlenWd.
    pose proof (zset_Some_lt _ _ _ _ EWd) as HinWd.
    pose proof (lv_zset_eq _ _ _ _ EWd) as HWd1.
    assert (HWdl : zget Wd lvl = Some wl).
    { rewrite (zget_zset_ne _ _ _ _ _ EWd) by lia. rewrite zget_lv by lia. f_equal.
      apply HT. lia. }
    assert (Hkeep : lvl + 1 < zlen Wd /\
                    (forall j, 0 <= j <= lvl + 1 -> lv Wd j = workLevel Ls nls Lo nlo j)).
    { split; [lia|]. intros j Hj. destruct (decide (j = lvl + 1)) as [->|Hne].
      - rewrite HWd1. lia.
      - rewrite (lv_zset_ne _ _ _ j _ EWd) by lia. apply HT. lia. }
    assert (Hgoal : forall b : list C, nonNil b 0 (wl + sp + op) ->
              lvl + 1 < zlen Wd /\
              (forall j, 0 <= j <= lvl + 1 -> lv Wd j = workLevel Ls nls Lo nlo j) /\
              nonNil b 0 (lv Wd (lvl + 1))).
    { intros b Hb. destruct Hkeep as [Hk1 Hk2]. split; [exact Hk1|]. split; [exact Hk2|].
      rewrite HWd1. exact Hb. }
    assert (HselfIn : sp > 0 -> lvl < nls /\ clamp Ls nls lvl = lv Ls lvl /\
                      clamp Ls nls (lvl + 1) = lv Ls (lvl + 1)).
    { intros Hpos. unfold sp, clamp in *. destruct (decide (lvl < nls)) as [Hlt|Hge].
      - rewrite !Z.min_l by lia. auto.
      - rewrite !Z.min_r in Hpos by lia. lia. }
    assert (HotherIn : op > 0 -> lvl < nlo /\ clamp Lo nlo lvl = lv Lo lvl /\
                       clamp Lo nlo (lvl + 1) = lv Lo (lvl + 1)).
    { intros Hpos. unfold op, clamp in *. destruct (decide (lvl < nlo)) as [Hlt|Hge].
      - rewrite !Z.min_l by lia. auto.
      - rewrite !Z.min_r in Hpos by lia. lia. }
    destruct (decide (sp > 0 /\ op = 0)) as [[Hsp1 Hop0]|Hc1'].
    { bind_step Hbody b1 Eb1. injection Hbody as <- <-. cbn [fst snd]. apply Hgoal.
      destruct (HselfIn Hsp1) as (Hlt & Hcl & Hcl1).
      replace (wl + sp + op) with (wl + sp) by lia.
      eapply (copy_run_nonNil curS Wd Ls lvl sp wl (lv Ls lvl) (lv Ls 0) (lv Ls nls));
        [exact HWdl| |exact HcurS| | | | | | |exact Hnn|exact Eb1]; try lia.
      - apply (levels_ok_range nls Ls lvl Hs). lia.
      - pose proof (mono_le (lv Ls) nls HmonoS 0 lvl ltac:(lia) ltac:(lia) ltac:(lia)). lia.
      - pose proof (mono_le (lv Ls) nls HmonoS (lvl + 1) nls ltac:(lia) ltac:(lia) ltac:(lia)).
        unfold sp in *. lia. }
    destruct (decide (sp = 0 /\ op > 0)) as [[Hsp0' Hop1]|Hc2'].
    { bind_step Hbody b1 Eb1. injection Hbody as <- <-. cbn [fst snd]. apply Hgoal.
      destruct (HotherIn Hop1) as (Hlt & Hcl & Hcl1).
      replace (wl + sp + op) with (wl + op) by lia.
      eapply (copy_run_nonNil curO Wd Lo lvl op wl (lv Lo lvl) (lv Lo 0) (lv Lo nlo));
        [exact HWdl| |exact HcurO| | | | | | |exact Hnn|exact Eb1]; try lia.
      - apply (levels_ok_range nlo Lo lvl Ho). lia.
      - pose proof (mono_le (lv Lo) nlo HmonoO 0 lvl ltac:(lia) ltac:(lia) ltac:(lia)). lia.
      - pose proof (mono_le (lv Lo) nlo HmonoO (lvl + 1) nlo ltac:(lia) ltac:(lia) ltac:(lia)).
        unfold op in *. lia. }
    destruct (decide (sp > 0 /\ op > 0)) as [[Hsp1 Hop1]|Hc3'].
    { destruct (HselfIn Hsp1) as (HltS & HclS & HclS1).
      destruct (HotherIn Hop1) as (HltO & HclO & HclO1).
      rewrite (proj2 (levels_ok_range nls Ls lvl Hs ltac:(lia))) in Hbody.
      rewrite (proj2 (levels_ok_range nlo Lo lvl Ho ltac:(lia))) in Hbody.
      rewrite HWdl in Hbody. cbn [mbind option_bind] in Hbody.
      bind_step Hbody st Est. injection Hbody as <- <-. cbn [fst snd]. apply Hgoal.
      unfold Items.mergeSortedItemsArrays in Est.
      pose proof (mono_le (lv Ls) nls HmonoS 0 lvl ltac:(lia) ltac:(lia) ltac:(lia)).
      pose proof (mono_le (lv Ls) nls HmonoS (lvl + 1) nls ltac:(lia) ltac:(lia) ltac:(lia)).
      pose proof (mono_le (lv Lo) nlo HmonoO 0 lvl ltac:(lia) ltac:(lia) ltac:(lia)).
      pose proof (mono_le (lv Lo) nlo HmonoO (lvl + 1) nlo ltac:(lia) ltac:(lia) ltac:(lia)).
      apply (mergeSortedArrays_nonNil Items.lessFn Items.bufSelf Items.bufOther Items.bufWork
               (lv Ls 0) (lv Ls nls) (lv Lo 0) (lv Lo nlo) 0) in Est;
        try assumption; try (unfold sp, op in *; lia).
      apply Est. }
    injection Hbody as <- <-. cbn [fst snd]. apply Hgoal.
    replace (wl + sp + op) with wl by lia. exact Hnn.
  - cbn [fst snd]. pose proof (zset_Some_lt _ _ _ _ EWb) as HinWb.
    pose proof (lv_zset_eq _ _ _ _ EWb) as HWb1.
    split; [rewrite (zset_length _ _ _ _ EWb); lia|]. split.
    + intros j Hj. destruct (decide (j = 1)) as [->|Hne].
      * rewrite HWb1. unfold workLevel, clamp1, sp0.
        replace (Z.max 1 (Z.min 1 nlo)) with (Z.max 1 (Z.min 0 nlo)) by lia. lia.
      * replace j with 0 by lia. rewrite (lv_zset_ne _ _ _ 0 _ EWb) by lia.
        rewrite (lv_zset_eq _ _ _ _ EWa). now rewrite workLevel_0.
    + rewrite HWb1. exact Hn1.
Qed.

End PopulateFacts.

(** *** The capacities of the levels, added up *)

Section CapacitySums.
Variables k m : Z.
Hypothesis Hk : 8 <= k <= 65535.
Hypothesis Hm : m = 8.

Lemma levelCapacity_capOf nl level :
  0 <= level < nl -> nl - level - 1 <= 60 -> nl <= 255 ->
  Items.levelCapacity k nl level m = Some (capOf k m (nl - level - 1)).
Proof.
  intros Hl Hd Hnl. unfold Items.levelCapacity, capOf.
  rewrite (u8_small (nl - level)) by lia. rewrite (u8_small (nl - level - 1)) by lia.
  destruct (intCapAux_le_k k (nl - level - 1) ltac:(lia) ltac:(lia)) as (c & -> & Hc).
  cbn [mbind option_bind default]. rewrite (u32_small m) by lia. reflexivity.
Qed.

Lemma capOf_range d : 0 <= d <= 60 -> 8 <= capOf k m d <= 65535.
Proof.
  intros Hd. unfold capOf.
  destruct (intCapAux_le_k k d ltac:(lia) ltac:(lia)) as (c & -> & Hc).
  change (default 0 (Some c)) with c. lia.
Qed.

Lemma capSum_range (n : nat) : (n <= 61)%nat -> 0 <= capSum k m n <= 65535 * Z.of_nat n.
Proof.
  induction n as [|n IH]; intros Hn; cbn [capSum]; [lia|].
  specialize (IH ltac:(lia)). pose proof (capOf_range (Z.of_nat n) ltac:(lia)). lia.
Qed.

Lemma capSum_succ (n : Z) :
  0 <= n -> capSum k m (Z.to_nat (n + 1)) = capSum k m (Z.to_nat n) + capOf k m n.
Proof.
  intros Hn. replace (Z.to_nat (n + 1)) with (S (Z.to_nat n)) by lia. cbn [capSum].
  rewrite Z2Nat.id by lia. reflexivity.
Qed.

End CapacitySums.

(** *** [generalItemsCompress] *)

Section CompressFacts.
Context {C : Type} {OpC : Items.ItemSketchOp C} {RtC : Items.Runtime C}.
Hypothesis sortSlice_perm : forall less (l : list C), Permutation (Items.sortSlice less l) l.
Variables k m Wt B : Z.
Variable lz : bool.
Hypothesis Hk : 8 <= k <= 65535.
Hypothesis Hm : m = 8.
Hypothesis HB : B < 2 ^ 32.

Lemma blend_low O I cl i : i <= cl -> blend O I cl i = lv O i.
Proof. intros. unfold blend. now rewrite decide_True by lia. Qed.

Lemma blend_high O I cl i : cl <= i -> blend O I cl i = lv O cl + (lv I i - lv I cl).
Proof.
  intros. unfold blend. destruct (decide (i <= cl)); [|reflexivity].
  replace i with cl by lia. lia.
Qed.

Lemma generalItemsCompress_step_inv cl (cs cs' : Items.compressState (C := C)) :
  compress_inv Wt B cl cs -> cl < Items.cs_numLevels cs ->
  Items.generalItemsCompress_step k m 0 0 lz cl cs = Some cs' ->
  compress_inv Wt B (cl + 1) cs' /\ Items.cs_numLevels cs <= Items.cs_numLevels cs'.
Proof.
  intros [Hcl Hnl Hout0 Hmono Hw Hcount Hbelow Htop Htarget Hitems] Hlt Hrun.
  destruct cs as [nl cur target st I O]. cs_simpl.
  unfold Items.generalItemsCompress_step in Hrun. cs_simpl.
  bind_step Hrun I1 EI1.
  assert (HI1 : (forall i, 0 <= i <= nl -> lv I1 i = lv I i) /\
                (cl = nl - 1 -> lv I1 (nl + 1) = lv I nl)).
  { destruct (decide (cl = nl - 1)) as [Heq|Hne].
    - bind_step EI1 v Ev. apply lv_Some in Ev. subst v. split.
      + intros i Hi. apply (lv_zset_ne _ _ _ i _ EI1). lia.
      + intros _. replace (nl + 1) with (cl + 2) by lia. rewrite (lv_zset_eq _ _ _ _ EI1).
        f_equal. lia.
    - injection EI1 as <-. split; [reflexivity|]. intros Heq. lia. }
  clear EI1. destruct HI1 as [HI1 HI1top].
  bind_step Hrun rawBeg Ebeg. bind_step Hrun rawLim Elim.
  apply lv_Some in Ebeg, Elim. rewrite HI1 in Ebeg, Elim by lia. subst rawBeg rawLim.
  pose proof (mono_le _ nl Hmono 0 cl ltac:(lia) ltac:(lia) ltac:(lia)) as H0cl.
  pose proof (Hmono cl ltac:(lia)) as Hclcl.
  pose proof (mono_le _ nl Hmono (cl + 1) nl ltac:(lia) ltac:(lia) ltac:(lia)) as Hclnl.
  rewrite (blend_low O I cl 0), (blend_low O I cl cl) in H0cl by lia.
  rewrite (blend_low O I cl cl), (blend_high O I cl (cl + 1)) in Hclcl by lia.
  rewrite (blend_high O I cl (cl + 1)), (blend_high O I cl nl) in Hclnl by lia.
  set (rawBeg := lv I cl) in *. set (rawLim := lv I (cl + 1)) in *.
  rewrite (u32_small (rawLim - rawBeg)) in Hrun by lia.
  bind_step Hrun through Eth. clear Eth. destruct through.
  - (* the level is copied through *)
    bind_step Hrun st' Est.
    assert (Hst' : nonNil (st' 0%nat) 0 B).
    { apply (iter_up_inv (fun _ (s : store) => nonNil (s 0%nat) 0 B)) in Est;
        [exact Est| |exact Hitems].
      intros i s s' Hi Hinv Hbody. bind_step Hbody o Eo. bind_step Hbody x Ex.
      rewrite (u32_small (rawBeg + i)) in Ex by lia.
      eapply wr_nonNil; [exact Hbody| |exact Hinv].
      eapply (nonNil_read _ _ _ (rawBeg + i)); [exact Hinv| |exact Ex]. lia. }
    clear Est. bind_step Hrun o Eo. apply lv_Some in Eo. subst o.
    rewrite (u32_small (lv O cl + (rawLim - rawBeg))) in Hrun by lia.
    bind_step Hrun O' EO'. injection Hrun as <-. cs_simpl.
    pose proof (lv_zset_eq _ _ _ _ EO') as HO'1.
    assert (HO'i : forall i, i <> cl + 1 -> lv O' i = lv O i).
    { intros i Hi. apply (lv_zset_ne _ _ _ i _ EO'). lia. }
    assert (Hext : forall i, 0 <= i <= nl -> blend O' I1 (cl + 1) i = blend O I cl i).
    { intros i Hi. destruct (decide (i <= cl)).
      - rewrite !blend_low by lia. apply HO'i. lia.
      - rewrite !blend_high by lia. rewrite HO'1, !HI1 by lia. fold rawBeg rawLim. lia. }
    split; [|lia].
    constructor; cs_simpl; try assumption; try lia.
    + rewrite HO'i by lia. exact Hout0.
    + intros i Hi. rewrite !Hext by lia. apply Hmono. lia.
    + rewrite <- Hw. apply wsum_ext. intros i Hi. apply Hext. lia.
    + rewrite Hext by lia. exact Hcount.
    + rewrite HO'1, HI1 by lia. fold rawLim. lia.
    + rewrite HI1 by lia. exact Htop.
  - (* the level is compacted *)
    bind_step Hrun above Eab. apply lv_Some in Eab.
    assert (Hab : rawLim <= above <= B /\ (cl + 2 <= nl -> above = lv I (cl + 2)) /\
                  (cl = nl - 1 -> above = rawLim)).
    { destruct (decide (cl = nl - 1)) as [Heq|Hne].
      - replace (cl + 2) with (nl + 1) in Eab by lia. rewrite HI1top in Eab by lia.
        assert (rawLim = lv I nl) by (unfold rawLim; f_equal; lia).
        split; [lia|]. split; [intros; lia|intros; lia].
      - rewrite HI1 in Eab by lia.
        pose proof (Hmono (cl + 1) ltac:(lia)) as H12.
        pose proof (mono_le _ nl Hmono (cl + 2) nl ltac:(lia) ltac:(lia) ltac:(lia)) as H2n.
        rewrite (blend_high O I cl (cl + 1)), (blend_high O I cl (cl + 1 + 1)) in H12 by lia.
        rewrite (blend_high O I cl (cl + 2)), (blend_high O I cl nl) in H2n by lia.
        replace (cl + 1 + 1) with (cl + 2) in H12 by lia. fold rawBeg rawLim in H12, H2n.
        split; [lia|]. split; [intros; lia|intros; lia]. }
    destruct Hab as (Habr & Hab2 & Habtop).
    rewrite (u32_small (above - rawLim)) in Hrun by lia.
    set (pop := rawLim - rawBeg) in *.
    pose proof (Z.div_mod pop 2 ltac:(lia)) as Hdm.
    pose proof (Z.mod_pos_bound pop 2 ltac:(lia)) as Hodd.
    set (odd := pop mod 2) in *. set (h := pop / 2) in *.
    assert (HadjBeg : (if bool_decide (odd = 1) then u32 (rawBeg + 1) else rawBeg) = rawBeg + odd).
    { case_bool_decide; [rewrite u32_small by lia|]; lia. }
    assert (HadjPop : (if bool_decide (odd = 1) then u32 (pop - 1) else pop) = 2 * h).
    { case_bool_decide; [rewrite u32_small by lia|]; lia. }
    rewrite HadjBeg, HadjPop in Hrun. clear HadjBeg HadjPop.
    replace (2 * h / 2) with h in Hrun by (rewrite Z.mul_comm, Z.div_mul; lia).
    replace (rawBeg + odd + 2 * h) with rawLim in Hrun by lia.
    rewrite (u32_small rawLim), (u32_small (rawBeg + odd + h)), (u32_small (rawLim - h)) in Hrun by lia.
    bind_step Hrun r Er. destruct r as [st1 O'].
    assert (Hr : lv O' (cl + 1) = lv O cl + odd /\
                 (forall i, i <> cl + 1 -> lv O' i = lv O i) /\ nonNil (st1 0%nat) 0 B).
    { destruct (bool_decide (odd = 1)) eqn:Hb.
      - apply bool_decide_eq_true in Hb.
        bind_step Er o Eo. apply lv_Some in Eo. subst o.
        bind_step Er x Ex. bind_step Er st1' Est1.
        rewrite (u32_small (lv O cl + 1)) in Er by lia.
        bind_step Er O'' EO'. injection Er as <- <-.
        split; [rewrite (lv_zset_eq _ _ _ _ EO'); lia|]. split.
        + intros i Hi. apply (lv_zset_ne _ _ _ i _ EO'). lia.
        + eapply wr_nonNil; [exact Est1| |exact Hitems].
          eapply (nonNil_read _ _ _ rawBeg); [exact Hitems| |exact Ex]. lia.
      - apply bool_decide_eq_false in Hb.
        bind_step Er o Eo. apply lv_Some in Eo. subst o.
        bind_step Er O'' EO'. injection Er as <- <-.
        split; [rewrite (lv_zset_eq _ _ _ _ EO'); lia|]. split.
        + intros i Hi. apply (lv_zset_ne _ _ _ i _ EO'). lia.
        + exact Hitems. }
    clear Er. destruct Hr as (HO'1 & HO'i & Hst1).
    bind_step Hrun buf1 E1.
    assert (Hn1 : nonNil buf1 0 B).
    { destruct (decide (cl = 0 /\ lz = false)).
      - eapply sortRange_nonNil; [exact sortSlice_perm|exact Hst1| | | |exact E1]; lia.
      - injection E1 as <-. exact Hst1. }
    clear E1. bind_step Hrun buf2 E2.
    assert (Hn2 : nonNil buf2 0 B).
    { destruct (decide (above - rawLim = 0)).
      - eapply randomlyHalveUpItems_nonNil; [exact Hn1| | | | | |exact E2]; try lia.
        rewrite Z.mul_comm. apply Z.mod_mul. lia.
      - bind_step E2 buf Ebuf. bind_step E2 st2 Est2. injection E2 as <-.
        assert (Hnb : nonNil buf 0 B).
        { eapply randomlyHalveDownItems_nonNil; [exact Hn1| | | | | |exact Ebuf]; try lia.
          rewrite Z.mul_comm. apply Z.mod_mul. lia. }
        unfold Items.mergeSortedItemsArrays in Est2.
        apply (mergeSortedArrays_nonNil Items.lessFn 0 0 0 0 B 0 B (rawBeg + odd + h)) in Est2;
          try assumption; try lia.
        + apply Est2.
        + intros t Ht. lia. }
    clear E2. bind_step Hrun I2 EI2.
    pose proof (lv_zset_eq _ _ _ _ EI2) as HI21.
    assert (HI2i : forall i, i <> cl + 1 -> lv I2 i = lv I1 i).
    { intros i Hi. apply (lv_zset_ne _ _ _ i _ EI2). lia. }
    assert (Hfinal : forall nl' target',
              (nl' = nl /\ cl + 2 <= nl) \/ (nl' = nl + 1 /\ cl = nl - 1 /\ nl <= 60) ->
              0 <= target' <= 65535 * nl' ->
              compress_inv Wt B (cl + 1)
                (Items.mkCompressState nl' (u32 (cur - h)) target'
                   (fun b => if decide (b = 0%nat) then buf2 else st1 b) I2 O')).
    { intros nl' target' Hnl' Htarget'.
      assert (Hx : forall i, 0 <= i <= nl -> blend O I1 cl i = blend O I cl i).
      { intros i Hi. unfold blend. rewrite !HI1 by lia. reflexivity. }
      assert (Hxmono : forall i, 0 <= i < nl' -> blend O I1 cl i <= blend O I1 cl (i + 1)).
      { intros i Hi. destruct (decide (i < nl)).
        - rewrite !Hx by lia. apply Hmono. lia.
        - assert (i = nl) by lia. subst i.
          rewrite (blend_high O I1 cl nl), (blend_high O I1 cl (nl + 1)) by lia.
          rewrite HI1top by lia. rewrite (HI1 nl) by lia. lia. }
      assert (Hxw : wsum (blend O I1 cl) (Z.to_nat nl') = Wt).
      { rewrite <- Hw. destruct Hnl' as [[-> _]|(-> & Hcltop & _)].
        - apply wsum_ext. intros i Hi. apply Hx. lia.
        - replace (Z.to_nat (nl + 1)) with (S (Z.to_nat nl)) by lia.
          rewrite wsum_extend.
          + apply wsum_ext. intros i Hi. apply Hx. lia.
          + rewrite Z2Nat.id by lia.
            rewrite (blend_high O I1 cl nl), (blend_high O I1 cl (nl + 1)) by lia.
            rewrite HI1top by lia. rewrite (HI1 nl) by lia. reflexivity. }
      assert (Hxn : blend O I1 cl nl' = cur).
      { rewrite Hcount. destruct Hnl' as [[-> _]|(-> & Hcltop & _)].
        - apply Hx. lia.
        - rewrite (blend_high O I1 cl (nl + 1)), (blend_high O I cl nl) by lia.
          rewrite HI1top by lia. rewrite (HI1 cl) by lia. reflexivity. }
      assert (HgLow : forall i, 0 <= i <= cl -> blend O' I2 (cl + 1) i = blend O I1 cl i).
      { intros i Hi. rewrite !blend_low by lia. apply HO'i. lia. }
      assert (HgMid : blend O' I2 (cl + 1) (cl + 1) = blend O I1 cl (cl + 1) - 2 * h).
      { rewrite blend_low by lia. rewrite blend_high by lia.
        rewrite HO'1, !HI1 by lia. fold rawBeg rawLim. lia. }
      assert (HgHigh : forall i, cl + 2 <= i -> blend O' I2 (cl + 1) i = blend O I1 cl i - h).
      { intros i Hi. rewrite !blend_high by lia.
        rewrite HO'1, HI21, HI2i by lia. rewrite (HI1 cl) by lia. fold rawBeg. lia. }
      assert (Hgmono : forall i, 0 <= i < nl' ->
                blend O' I2 (cl + 1) i <= blend O' I2 (cl + 1) (i + 1)).
      { intros i Hi. pose proof (Hxmono i Hi) as Hmi.
        destruct (decide (i + 1 <= cl)); [rewrite !HgLow by lia; exact Hmi|].
        destruct (decide (i = cl)) as [->|].
        { rewrite HgLow, HgMid by lia. rewrite blend_low by lia.
          rewrite (blend_high O I1 cl (cl + 1)) by lia. rewrite !HI1 by lia.
          fold rawBeg rawLim. lia. }
        destruct (decide (i = cl + 1)) as [->|].
        - rewrite HgMid. replace (cl + 1 + 1) with (cl + 2) in * by lia.
          rewrite HgHigh by lia. lia.
        - rewrite !HgHigh by lia. lia. }
      assert (Hcurh : blend O' I2 (cl + 1) nl' = cur - h).
      { rewrite HgHigh by lia. lia. }
      pose proof (mono_le _ nl' Hgmono 0 nl' ltac:(lia) ltac:(lia) ltac:(lia)) as H0n.
      rewrite (blend_low O' I2 (cl + 1) 0) in H0n by lia.
      rewrite HO'i, Hout0, Hcurh in H0n by lia.
      assert (Hcurle : cur <= B).
      { rewrite Hcount. rewrite blend_high by lia. fold rawBeg. lia. }
      constructor; cs_simpl; try lia.
      - rewrite HO'i by lia. exact Hout0.
      - exact Hgmono.
      - rewrite <- Hxw. apply (wsum_compact_down _ _ h cl); try lia; try assumption.
        intros i Hi. apply HgHigh. lia.
      - rewrite Hcurh. apply u32_small. lia.
      - rewrite HI2i by lia. destruct Hnl' as [[-> _]|(-> & Hcltop & _)].
        + rewrite HI1 by lia. exact Htop.
        + rewrite HI1top by lia. exact Htop.
      - rewrite decide_True by reflexivity. exact Hn2. }
    destruct (decide (cl = nl - 1)) as [Heq|Hne].
    + bind_step Hrun c Ec. rewrite (u8_small (nl + 1)) in Ec, Hrun by lia.
      apply levelCapacity_Some in Ec as [Hd Hc]; try lia.
      rewrite (u32_small (target + c)) in Hrun by lia.
      injection Hrun as <-. cs_simpl. split; [|lia]. apply Hfinal; lia.
    + injection Hrun as <-. cs_simpl. split; [|lia]. apply Hfinal; lia.
Qed.

Lemma generalItemsCompress_loop_inv fuel : forall cl (cs cs' : Items.compressState (C := C)),
  compress_inv Wt B cl cs -> cl < Items.cs_numLevels cs ->
  Items.generalItemsCompress_loop fuel k m 0 0 lz cl cs = Some cs' ->
  compress_inv Wt B (Items.cs_numLevels cs') cs' /\
  Items.cs_numLevels cs <= Items.cs_numLevels cs'.
Proof.
  induction fuel as [|fuel IH]; intros cl cs cs' Hinv Hlt Hrun;
    cbn [Items.generalItemsCompress_loop] in Hrun; [discriminate|].
  bind_step Hrun cs1 E1.
  apply (generalItemsCompress_step_inv cl cs cs1 Hinv Hlt) in E1 as [Hinv1 Hle1].
  destruct (decide (cl = Items.cs_numLevels cs1 - 1)) as [Heq|Hne].
  - injection Hrun as <-. split; [|exact Hle1].
    replace (Items.cs_numLevels cs1) with (cl + 1) at 1 by lia. exact Hinv1.
  - pose proof (ci_level _ _ _ _ Hinv1) as Hl1.
    apply (IH (cl + 1) cs1 cs' Hinv1 ltac:(lia)) in Hrun as [Hinv' Hle']. split; [exact Hinv'|lia].
Qed.

Lemma computeTotalItemCapacity_le nl t :
  1 <= nl <= 61 -> Items.computeTotalItemCapacity k m nl = Some t -> 0 <= t <= 65535 * nl.
Proof.
  intros Hnl Hrun. unfold Items.computeTotalItemCapacity in Hrun.
  apply (iter_up_inv (fun i total => 0 <= total <= 65535 * i)) in Hrun.
  - rewrite Z.add_0_l, Z2Nat.id in Hrun by lia. exact Hrun.
  - intros i total total' Hi Hinv Hbody. bind_step Hbody c Ec.
    apply levelCapacity_Some in Ec as [_ Hc]; try lia.
    rewrite u32_small in Hbody by lia. injection Hbody as <-. lia.
  - lia.
Qed.

Lemma generalItemsCompress_inv prov (wb : list C) W O0 (cs : Items.compressState (C := C)) :
  1 <= prov <= 61 -> lv W 0 = 0 ->
  (forall i, 0 <= i < prov -> lv W i <= lv W (i + 1)) ->
  lv W prov = B -> nonNil wb 0 B -> wsum (lv W) (Z.to_nat prov) = Wt ->
  Items.generalItemsCompress k m prov (fun _ => wb) 0 W 0 O0 lz = Some cs ->
  compress_inv Wt B (Items.cs_numLevels cs) cs /\ prov <= Items.cs_numLevels cs.
Proof.
  intros Hprov HW0 HWmono HWtop Hwb HWw Hrun. unfold Items.generalItemsCompress in Hrun.
  bind_step Hrun hi Ehi. bind_step Hrun lo Elo. apply lv_Some in Ehi, Elo.
  rewrite HWtop in Ehi. rewrite HW0 in Elo. subst hi lo.
  pose proof (mono_le _ prov HWmono 0 prov ltac:(lia) ltac:(lia) ltac:(lia)) as H0B.
  rewrite HW0, HWtop in H0B.
  rewrite (u32_small (B - 0)) in Hrun by lia.
  bind_step Hrun target Et. apply computeTotalItemCapacity_le in Et; [|lia].
  bind_step Hrun O1 EO1.
  pose proof (lv_zset_eq _ _ _ _ EO1) as HO10.
  apply generalItemsCompress_loop_inv in Hrun; cs_simpl; [exact Hrun| |lia].
  assert (Hext : forall i, 0 <= i -> blend O1 W 0 i = lv W i).
  { intros i Hi. destruct (decide (i = 0)) as [->|].
    - rewrite blend_low by lia. congruence.
    - rewrite blend_high by lia. lia. }
  constructor; cs_simpl; try assumption; try lia.
  - intros i Hi. rewrite !Hext by lia. apply HWmono. lia.
  - rewrite <- HWw. apply wsum_ext. intros i Hi. apply Hext. lia.
  - rewrite Hext by lia. lia.
Qed.

Lemma compress_inv_final (cs : Items.compressState (C := C)) :
  compress_inv Wt B (Items.cs_numLevels cs) cs ->
  1 <= Items.cs_numLevels cs <= 61 /\
  lv (Items.cs_outLevels cs) 0 = 0 /\
  (forall i, 0 <= i < Items.cs_numLevels cs ->
     lv (Items.cs_outLevels cs) i <= lv (Items.cs_outLevels cs) (i + 1)) /\
  wsum (lv (Items.cs_outLevels cs)) (Z.to_nat (Items.cs_numLevels cs)) = Wt /\
  Items.cs_currentItemCount cs = lv (Items.cs_outLevels cs) (Items.cs_numLevels cs) /\
  lv (Items.cs_outLevels cs) (Items.cs_numLevels cs) <= B /\
  0 <= Items.cs_targetItemCount cs <= 65535 * Items.cs_numLevels cs /\
  nonNil (Items.cs_store cs 0%nat) 0 B.
Proof.
  intros [Hcl Hnl Hout0 Hmono Hw Hcount Hbelow Htop Htarget Hitems].
  destruct cs as [nl cur target st I O]. cs_simpl.
  assert (Hext : forall i, i <= nl -> blend O I nl i = lv O i).
  { intros i Hi. apply blend_low. exact Hi. }
  repeat split; try assumption; try lia.
  - intros i Hi. rewrite <- !Hext by lia. apply Hmono. lia.
  - rewrite <- Hw. apply wsum_ext. intros i Hi. symmetry. apply Hext. lia.
  - rewrite Hcount. apply Hext. lia.
Qed.

End CompressFacts.

(** The target count of [generalItemsCompress] is the capacity of the levels. *)
Section TargetFacts.
Context {C : Type} {OpC : Items.ItemSketchOp C} {RtC : Items.Runtime C}.
Hypothesis sortSlice_perm : forall less (l : list C), Permutation (Items.sortSlice less l) l.
Variables k m Wt B : Z.
Variable lz : bool.
Hypothesis Hk : 8 <= k <= 65535.
Hypothesis Hm : m = 8.
Hypothesis HB : B < 2 ^ 32.

Lemma computeTotalItemCapacity_capSum nl t :
  1 <= nl <= 61 -> Items.computeTotalItemCapacity k m nl = Some t ->
  t = capSum k m (Z.to_nat nl).
Proof.
  intros Hnl Hrun. unfold Items.computeTotalItemCapacity in Hrun.
  apply (iter_up_inv (fun i total => 0 <= total /\
           total = capSum k m (Z.to_nat nl) - capSum k m (Z.to_nat (nl - i)))) in Hrun.
  - rewrite Z.add_0_l, Z2Nat.id in Hrun by lia. rewrite Z.sub_diag in Hrun.
    change (capSum k m (Z.to_nat 0)) with 0 in Hrun. lia.
  - intros i total total' Hi [Hpos Hinv] Hbody. bind_step Hbody c Ec.
    rewrite (levelCapacity_capOf k m Hk Hm) in Ec by lia. injection Ec as <-.
    injection Hbody as <-.
    pose proof (capSum_range k m Hk Hm (Z.to_nat nl) ltac:(lia)) as Hr1.
    pose proof (capSum_range k m Hk Hm (Z.to_nat (nl - (i + 1))) ltac:(lia)) as Hr3.
    pose proof (capOf_range k m Hk Hm (nl - i - 1) ltac:(lia)) as Hr4.
    replace (nl - i) with (nl - (i + 1) + 1) in Hinv by lia.
    rewrite capSum_succ in Hinv by lia.
    replace (nl - (i + 1)) with (nl - i - 1) in * by lia.
    rewrite u32_small by lia. lia.
  - rewrite Z.sub_0_r. lia.
Qed.

Lemma generalItemsCompress_step_target cl (cs cs' : Items.compressState (C := C)) :
  1 <= Items.cs_numLevels cs <= 61 -> 0 <= cl ->
  Items.cs_targetItemCount cs = capSum k m (Z.to_nat (Items.cs_numLevels cs)) ->
  Items.generalItemsCompress_step k m 0 0 lz cl cs = Some cs' ->
  Items.cs_targetItemCount cs' = capSum k m (Z.to_nat (Items.cs_numLevels cs')).
Proof.
  intros Hnl Hcl Ht Hrun. destruct cs as [nl cur target st I O]. cs_simpl.
  unfold Items.generalItemsCompress_step in Hrun. cs_simpl. cbv zeta in Hrun.
  bind_step Hrun I1 EI1. clear EI1. bind_step Hrun rawBeg E1. clear E1.
  bind_step Hrun rawLim E2. clear E2. bind_step Hrun through E3. clear E3.
  destruct through.
  - bind_all Hrun. injection Hrun as <-. cs_simpl. exact Ht.
  - bind_step Hrun above E4. clear E4. bind_step Hrun r E5. clear E5. destruct r as [st1 O1].
    bind_step Hrun buf1 E6. clear E6. bind_step Hrun buf2 E7. clear E7.
    bind_step Hrun v E8. clear E8.
    destruct (decide (cl = nl - 1)) as [Htop|Hmid].
    + bind_step Hrun c Ec. injection Hrun as <-. cs_simpl.
      rewrite (u8_small (nl + 1)) in * by lia.
      pose proof (levelCapacity_Some k (nl + 1) 0 m c ltac:(lia) ltac:(lia) ltac:(lia) ltac:(lia) Ec)
        as [H60 _].
      rewrite (levelCapacity_capOf k m Hk Hm) in Ec by lia. injection Ec as <-.
      replace (nl + 1 - 0 - 1) with nl by lia.
      rewrite capSum_succ by lia. subst target.
      pose proof (capSum_range k m Hk Hm (Z.to_nat nl) ltac:(lia)) as Hr1.
      pose proof (capOf_range k m Hk Hm nl ltac:(lia)) as Hr2.
      apply u32_small. lia.
    + injection Hrun as <-. cs_simpl. exact Ht.
Qed.

Lemma generalItemsCompress_loop_target fuel : forall cl (cs cs' : Items.compressState (C := C)),
  compress_inv Wt B cl cs -> cl < Items.cs_numLevels cs ->
  Items.cs_targetItemCount cs = capSum k m (Z.to_nat (Items.cs_numLevels cs)) ->
  Items.generalItemsCompress_loop fuel k m 0 0 lz cl cs = Some cs' ->
  Items.cs_targetItemCount cs' = capSum k m (Z.to_nat (Items.cs_numLevels cs')).
Proof.
  induction fuel as [|fuel IH]; intros cl cs cs' Hinv Hlt Ht Hrun;
    cbn [Items.generalItemsCompress_loop] in Hrun; [discriminate|].
  bind_step Hrun cs1 E1.
  pose proof (generalItemsCompress_step_target cl cs cs1 (ci_numLevels _ _ _ _ Hinv)
                ltac:(pose proof (ci_level _ _ _ _ Hinv); lia) Ht E1) as Ht1.
  apply (generalItemsCompress_step_inv sortSlice_perm k m Wt B lz Hk Hm HB cl cs cs1 Hinv Hlt)
    in E1 as [Hinv1 Hle1].
  destruct (decide (cl = Items.cs_numLevels cs1 - 1)) as [Heq|Hne].
  - injection Hrun as <-. exact Ht1.
  - pose proof (ci_level _ _ _ _ Hinv1) as Hl1.
    apply (IH (cl + 1) cs1 cs' Hinv1 ltac:(lia) Ht1 Hrun).
Qed.

Lemma generalItemsCompress_target prov (wb : list C) W O0 (cs : Items.compressState (C := C)) :
  1 <= prov <= 61 -> lv W 0 = 0 ->
  (forall i, 0 <= i < prov -> lv W i <= lv W (i + 1)) ->
  lv W prov = B -> nonNil wb 0 B -> wsum (lv W) (Z.to_nat prov) = Wt ->
  Items.generalItemsCompress k m prov (fun _ => wb) 0 W 0 O0 lz = Some cs ->
  Items.cs_targetItemCount cs = capSum k m (Z.to_nat (Items.cs_numLevels cs)).
Proof.
  intros Hprov HW0 HWmono HWtop Hwb HWw Hrun. unfold Items.generalItemsCompress in Hrun.
  bind_step Hrun hi Ehi. bind_step Hrun lo Elo. apply lv_Some in Ehi, Elo.
  rewrite HWtop in Ehi. rewrite HW0 in Elo. subst hi lo.
  pose proof (mono_le _ prov HWmono 0 prov ltac:(lia) ltac:(lia) ltac:(lia)) as H0B.
  rewrite HW0, HWtop in H0B.
  rewrite (u32_small (B - 0)) in Hrun by lia.
  bind_step Hrun target Et.
  pose proof (computeTotalItemCapacity_le k m Hk Hm prov target Hprov Et) as Htr.
  apply computeTotalItemCapacity_capSum in Et; [|lia].
  bind_step Hrun O1 EO1.
  pose proof (lv_zset_eq _ _ _ _ EO1) as HO10.
  apply generalItemsCompress_loop_target in Hrun; cs_simpl; [exact Hrun| |lia|exact Et].
  assert (Hext : forall i, 0 <= i -> blend O1 W 0 i = lv W i).
  { intros i Hi. destruct (decide (i = 0)) as [->|].
    - rewrite blend_low by lia. congruence.
    - rewrite blend_high by lia. lia. }
  constructor; cs_simpl; try assumption; try lia.
  - intros i Hi. rewrite !Hext by lia. apply HWmono. lia.
  - rewrite <- HWw. apply wsum_ext. intros i Hi. apply Hext. lia.
  - rewrite Hext by lia. lia.
Qed.

End TargetFacts.

(** *** The merge *)

Section MergeSketchFacts.
Context {C SV : Type} {OpC : Items.ItemSketchOp C} {RtC : Items.Runtime C}.
Hypothesis sortSlice_perm : forall less (l : list C), Permutation (Items.sortSlice less l) l.
#[local] Abbreviation Sketch := (Items.ItemsSketch C SV).

Lemma wf_levels_ok (s : Sketch) c : wf s c -> levels_ok (Items.numLevels s) (Items.levels s).
Proof. intros [? ? ? ? ? ? ? ? ? ?]. repeat split; try assumption; lia. Qed.

Lemma wf_level0_le (s : Sketch) c :
  wf s c -> lv (Items.levels s) 1 - lv (Items.levels s) 0 <= c.
Proof.
  intros Hwf. pose proof (wf_levels_ok s c Hwf) as Hok.
  pose proof (wf_numLevels _ _ Hwf) as Hnl.
  pose proof (wsum_clamp1 (Items.levels s) (Items.numLevels s)
                (Z.to_nat (Items.numLevels s)) ltac:(lia)) as H1.
  rewrite (wf_weight _ _ Hwf) in H1.
  pose proof (wsum_nonneg (clamp1 (Items.levels s) (Items.numLevels s))
                (Z.to_nat (Items.numLevels s))
                ltac:(intros i Hi; apply (clamp1_mono _ _ _ Hok); lia)) as H2.
  lia.
Qed.

Lemma level0_updates_wf (other : Sketch) c' n : forall (s s1 : Sketch) c,
  wf other c' -> wf s c ->
  0 <= n -> lv (Items.levels other) 0 + n <= lv (Items.levels other) 1 ->
  c + n < 2 ^ 64 ->
  iter_up (Z.to_nat n) (lv (Items.levels other) 0)
    (fun i s => x ← zget (Items.GetTotalItemsArray other) i; Items.updateItem s x) s = Some s1 ->
  wf s1 (c + n).
Proof.
  intros s s1 c Ho Hs Hn Hfit Hc Hrun.
  pose proof (GetTotalItemsArray_nonNil other c' Ho) as Hnn.
  pose proof (wf_numLevels _ _ Ho) as Hnlo.
  pose proof (wf_le other c' 1 (Items.numLevels other) Ho ltac:(lia) ltac:(lia) ltac:(lia)) as H1top.
  set (lo := lv (Items.levels other) 0) in *.
  apply (iter_up_inv (fun i (s : Sketch) => wf s (c + (i - lo)))) in Hrun.
  - replace (lo + Z.of_nat (Z.to_nat n) - lo) with n in Hrun by lia. exact Hrun.
  - intros i s0 s0' Hi Hinv Hbody. bind_step Hbody x Ex.
    assert (Hx : Items.isNil x = false).
    { eapply (nonNil_read _ _ _ i); [exact Hnn| |exact Ex]. lia. }
    apply (updateItem_wf sortSlice_perm _ _ _ _ Hinv ltac:(lia)) in Hbody.
    rewrite Hx in Hbody. replace (c + (i + 1 - lo)) with (c + (i - lo) + 1) by lia. exact Hbody.
  - replace (c + (lo - lo)) with c by lia. exact Hs.
Qed.

Lemma u32_sub_fits target cur :
  0 <= target < 2 ^ 32 -> 0 <= cur < 2 ^ 32 -> u32 (target - cur) < target ->
  cur <= target /\ u32 (target - cur) = target - cur.
Proof.
  intros Ht Hc Hlt. destruct (decide (cur <= target)) as [Hle|Hgt].
  - split; [exact Hle|]. apply u32_small. lia.
  - exfalso. unfold u32 in Hlt.
    rewrite <- (Z_mod_plus_full (target - cur) 1 (2 ^ 32)) in Hlt.
    rewrite Z.mod_small in Hlt by lia. lia.
Qed.

(** What [mergeItemsSketch] installs as level array and items array. *)
Lemma merged_layout_ok (s1 other : Sketch) c1 c' fin nl' L' (items' : list C) :
  wf s1 c1 -> wf other c' ->
  c1 + c' - (lv (Items.levels other) 1 - lv (Items.levels other) 0) = fin ->
  (if decide (Items.numLevels other > 1) then
     retained ← Items.GetNumRetained s1;
     above ← Items.getNumRetainedAboveLevelZero (Items.numLevels other) (Items.levels other);
     let tmpSpaceNeeded := u32 (retained + above) in
     let workbuf := replicate (Z.to_nat tmpSpaceNeeded) Items.zeroValue in
     let ub := Items.ubOnNumLevels fin in
     if decide (ub + 2 < 0) then None
     else
       let worklevels := replicate (Z.to_nat (ub + 2)) 0 in
       let outlevels := replicate (Z.to_nat (ub + 2)) 0 in
       let provisionalNumLevels := Z.max (Items.numLevels s1) (Items.numLevels other) in
       w ← Items.populateItemWorkArrays workbuf worklevels provisionalNumLevels
             (Items.numLevels s1) (Items.levels s1) (Items.GetTotalItemsArray s1)
             (Items.numLevels other) (Items.levels other) (Items.GetTotalItemsArray other);
       let '(workbuf, worklevels) := w in
       cs ← Items.generalItemsCompress (Items.k s1) (Items.m s1) provisionalNumLevels
              (fun _ => workbuf) 0%nat worklevels 0%nat outlevels (Items.isLevelZeroSorted s1);
       let workbuf := Items.cs_store cs 0%nat in
       let outlevels := Items.cs_outLevels cs in
       let targetItemCount := Items.cs_targetItemCount cs in
       let curItemCount := Items.cs_currentItemCount cs in
       let myNewNumLevels := u8 (Items.cs_numLevels cs) in
       let myNewItemsArr :=
         if decide (targetItemCount = zlen (Items.GetTotalItemsArray s1))
         then Items.GetTotalItemsArray s1
         else replicate (Z.to_nat targetItemCount) Items.zeroValue in
       let freeSpaceAtBottom := u32 (targetItemCount - curItemCount) in
       myNewItemsArr ← iter_up (Z.to_nat curItemCount) 0
         (fun i arr =>
            o0 ← zget outlevels 0;
            x ← zget workbuf (u32 (o0 + i));
            zset arr (u32 (freeSpaceAtBottom + i)) x)
         myNewItemsArr;
       o0 ← zget outlevels 0;
       let theShift := u32 (freeSpaceAtBottom - o0) in
       let finalLevelsArrLen :=
         if decide (u32 (zlen (Items.levels s1)) < u8 (myNewNumLevels + 1))
         then u8 (myNewNumLevels + 1) else u32 (zlen (Items.levels s1)) in
       myNewLevelsArr ← iter_up (Z.to_nat (u8 (myNewNumLevels + 1))) 0
         (fun lvl arr => o ← zget outlevels lvl; zset arr lvl (u32 (o + theShift)))
         (replicate (Z.to_nat finalLevelsArrLen) 0);
       Some (myNewNumLevels, myNewLevelsArr, myNewItemsArr)
   else Some (Items.numLevels s1, Items.levels s1, Items.GetTotalItemsArray s1))
  = Some (nl', L', items') ->
  levels_ok nl' L' /\ wsum (lv L') (Z.to_nat nl') = fin /\ nonNil items' (lv L' 0) (lv L' nl') /\
  ((Items.numLevels other = 1 ->
    zlen (Items.GetTotalItemsArray s1) = lv (Items.levels s1) (Items.numLevels s1)) ->
   capSum (Items.k s1) (Items.m s1) (Z.to_nat (Items.numLevels s1))
     <= lv (Items.levels s1) (Items.numLevels s1) ->
   zlen items' = lv L' nl' /\
   capSum (Items.k s1) (Items.m s1) (Z.to_nat nl') <= lv L' nl').
Proof.
  intros Hs Ho Hfin Er.
  pose proof (wf_levels_ok s1 c1 Hs) as HokS. pose proof (wf_levels_ok other c' Ho) as HokO.
  pose proof (GetTotalItemsArray_nonNil s1 c1 Hs) as HcurS.
  pose proof (GetTotalItemsArray_nonNil other c' Ho) as HcurO.
  pose proof (wf_numLevels _ _ Hs) as Hnls. pose proof (wf_numLevels _ _ Ho) as Hnlo.
  pose proof (wf_k _ _ Hs) as Hk. pose proof (wf_m _ _ Hs) as Hm.
  pose proof (wf_len _ _ Hs) as HlenS.
  pose proof (wf_weight _ _ Hs) as HwS. pose proof (wf_weight _ _ Ho) as HwO.
  revert HcurS HcurO Er.
  generalize (Items.GetTotalItemsArray s1), (Items.GetTotalItemsArray other).
  intros curS curO HcurS HcurO Er.
  set (nls := Items.numLevels s1) in *. set (Ls := Items.levels s1) in *.
  set (nlo := Items.numLevels other) in *. set (Lo := Items.levels other) in *.
  destruct (decide (nlo > 1)) as [Hest|Hone].
  2:{ injection Er as <- <- <-. split; [exact HokS|]. split; [|split; [exact HcurS|]].
      - assert (nlo = 1) by lia.
        replace (Z.to_nat nlo) with 1%nat in HwO by lia. cbn [wsum] in HwO.
        change (Z.of_nat 0) with 0 in HwO. change (2 ^ 0) with 1 in HwO.
        change (0 + 1) with 1 in HwO. lia.
      - intros Hlen Hcap. split; [apply Hlen; lia|exact Hcap]. }
  cbn zeta in Er.
  bind_step Er retained Eret. clear Eret. bind_step Er above Eab. clear Eab.
  destruct (decide (Items.ubOnNumLevels fin + 2 < 0)); [discriminate|].
  bind_step Er w Ew. destruct w as [wb W].
  apply (populateItemWorkArrays_spec _ _ _ nls Ls curS nlo Lo curO wb W HokS HokO
           ltac:(lia) eq_refl HcurS HcurO) in Ew as (HWlen & HWT & Hwb).
  set (prov := Z.max nls nlo) in *.
  pose proof (workLevel_range Ls nls Lo nlo prov HokS HokO ltac:(lia)) as HBr.
  rewrite <- (HWT prov) in HBr by lia.
  bind_step Er cs Ecs.
  assert (Htcap : Items.cs_targetItemCount cs
                  = capSum (Items.k s1) (Items.m s1) (Z.to_nat (Items.cs_numLevels cs))).
  { apply (generalItemsCompress_target sortSlice_perm _ _ fin (lv W prov)
             (Items.isLevelZeroSorted s1) Hk Hm ltac:(lia) prov wb W
             (replicate (Z.to_nat (Items.ubOnNumLevels fin + 2)) 0) cs);
      try lia; try assumption.
    - rewrite HWT by lia. apply workLevel_0.
    - intros i Hi. rewrite !HWT by lia. apply workLevel_mono; try assumption. lia.
    - rewrite (wsum_ext (workLevel Ls nls Lo nlo) (lv W))
        by (intros i Hi; apply HWT; lia).
      rewrite (wsum_add (clamp Ls nls) (clamp1 Lo nlo) _
                 (- clamp Ls nls 0 - clamp1 Lo nlo 0))
        by (intros i Hi; unfold workLevel; lia).
      rewrite wsum_clamp, wsum_clamp1 by lia. lia. }
  apply (generalItemsCompress_inv sortSlice_perm _ _ fin (lv W prov) _ Hk Hm ltac:(lia))
    in Ecs as [Hinv Hprov]; try lia; try assumption.
  2:{ rewrite HWT by lia. apply workLevel_0. }
  2:{ intros i Hi. rewrite !HWT by lia. apply workLevel_mono; try assumption. lia. }
  2:{ rewrite (wsum_ext (workLevel Ls nls Lo nlo) (lv W))
        by (intros i Hi; apply HWT; lia).
      rewrite (wsum_add (clamp Ls nls) (clamp1 Lo nlo) _
                 (- clamp Ls nls 0 - clamp1 Lo nlo 0))
        by (intros i Hi; unfold workLevel; lia).
      rewrite wsum_clamp, wsum_clamp1 by lia. lia. }
  apply compress_inv_final in Hinv
    as (Hnlf & HO0 & HOmono & HOw & Hcur & HcurB & Htarget & Hst).
  destruct cs as [nlf cur target st I O]. cs_simpl.
  rewrite (u8_small nlf), (u8_small (nlf + 1)) in Er by lia.
  rewrite (zget_lv O 0) in Er.
  2:{ (* the first out level has been written *)
      destruct (zget O 0) as [o|] eqn:Eo; [apply zget_Some_lt in Eo; exact Eo|].
      bind_step Er a Ea. discriminate Er. }
  rewrite HO0 in Er. cbn [mbind option_bind] in Er.
  set (free := u32 (target - cur)) in *.
  assert (Hfree : 0 <= free < 2 ^ 32) by apply u32_range.
  rewrite (u32_small (free - 0)) in Er by lia.
  pose proof (mono_le _ nlf HOmono 0 nlf ltac:(lia) ltac:(lia) ltac:(lia)) as H0cur.
  rewrite HO0, <- Hcur in H0cur.
  bind_step Er items1 Eit.
  assert (Hit : free = target - cur /\ cur <= target /\ nonNil items1 free (free + cur) /\
                zlen items1 = target).
  { apply (iter_up_inv (fun i (arr : list C) =>
             zlen arr = target /\ (1 <= i -> free < target) /\
             nonNil arr free (free + i))) in Eit.
    - rewrite Z.add_0_l, Z2Nat.id in Eit by lia. destruct Eit as (Hl1 & Hf & Hnn).
      destruct (decide (cur = 0)) as [Hz|Hnz].
      + assert (free = target) by (unfold free; rewrite Hz, Z.sub_0_r; apply u32_small; lia).
        split; [lia|]. split; [lia|]. split; [exact Hnn|exact Hl1].
      + destruct (u32_sub_fits target cur ltac:(lia) ltac:(lia) (Hf ltac:(lia))) as [Hle Heq].
        fold free in Heq. split; [exact Heq|]. split; [exact Hle|]. split; [exact Hnn|exact Hl1].
    - intros i arr arr' Hi (Hlen & Hf & Hnn) Hbody. cbn beta in Hbody.
      rewrite Z.add_0_l, Z2Nat.id in Hi by lia.
      rewrite (u32_small (0 + i)) in Hbody by lia. bind_step Hbody x Ex.
      assert (Hx : Items.isNil x = false).
      { eapply (nonNil_read _ _ _ (0 + i)); [exact Hst| |exact Ex]. lia. }
      assert (Hidx : u32 (free + i) = free + i /\ free < target).
      { destruct (decide (i = 0)) as [->|Hpos].
        - rewrite Z.add_0_r in *. rewrite (u32_small free) in * by lia.
          split; [reflexivity|]. apply zset_Some_lt in Hbody. lia.
        - specialize (Hf ltac:(lia)).
          destruct (u32_sub_fits target cur ltac:(lia) ltac:(lia) Hf) as [Hle Heq].
          fold free in Heq. split; [apply u32_small; lia|exact Hf]. }
      destruct Hidx as [Hidx Hft]. rewrite Hidx in Hbody.
      split; [rewrite (zset_length _ _ _ _ Hbody); exact Hlen|]. split; [intros _; exact Hft|].
      eapply nonNil_zset_grow; [exact Hnn|exact Hbody|exact Hx|]. intros j Hj. lia.
    - split; [|split; [intros; lia|intros j Hj; lia]].
      destruct (decide (target = zlen curS)) as [Heq|Hne]; [congruence|].
      unfold zlen. rewrite length_replicate. lia. }
  clear Eit. destruct Hit as (Hfeq & Hcurle & Hnn & Hl1).
  bind_step Er Lnew EL. injection Er as <- <- <-.
  apply (iter_up_fill O (fun o => u32 (o + (free - 0)))) in EL as (HLlen & _ & HLpt).
  assert (Hinit : zlen (replicate (Z.to_nat
                     (if decide (u32 (zlen Ls) < nlf + 1) then nlf + 1 else u32 (zlen Ls))) 0)
                  = nlf + 1).
  { unfold zlen at 1. rewrite length_replicate. rewrite HlenS.
    rewrite (u32_small (nls + 1)) by lia. destruct (decide (nls + 1 < nlf + 1)); lia. }
  assert (Hshift : forall i, 0 <= i <= nlf -> lv Lnew i = lv O i + free).
  { intros i Hi. rewrite HLpt. rewrite decide_True by lia. rewrite Z.sub_0_r.
    pose proof (mono_le _ nlf HOmono 0 i ltac:(lia) ltac:(lia) ltac:(lia)) as H1.
    pose proof (mono_le _ nlf HOmono i nlf ltac:(lia) ltac:(lia) ltac:(lia)) as H2.
    apply u32_small. lia. }
  split; [|split; [|split]].
  - repeat split; try lia.
    + rewrite Hshift by lia. lia.
    + intros i Hi. rewrite !Hshift by lia. pose proof (HOmono i Hi). lia.
    + rewrite Hshift by lia. lia.
  - rewrite <- HOw. apply (wsum_shift _ _ free). intros i Hi. apply Hshift. lia.
  - rewrite !Hshift by lia. rewrite HO0, <- Hcur. rewrite Z.add_0_l.
    replace (cur + free) with (free + cur) by lia. exact Hnn.
  - intros _ _. rewrite Hshift by lia. rewrite <- Hcur. split; lia.
Qed.

Lemma mergeItemsSketch_wf (s other s' : Sketch) c c' :
  wf s c -> wf other c' -> c + c' < 2 ^ 64 ->
  Items.mergeItemsSketch s other = Some s' -> wf s' (c + c').
Proof.
  intros Hs Ho Hc Hrun. unfold Items.mergeItemsSketch in Hrun.
  destruct (Items.IsEmpty other) eqn:Hemp.
  { injection Hrun as <-. unfold Items.IsEmpty in Hemp. apply bool_decide_eq_true in Hemp.
    rewrite (wf_n _ _ Ho) in Hemp. subst c'. now rewrite Z.add_0_r. }
  bind_step Hrun mm Emm. clear Emm. destruct mm as [myMin myMax].
  pose proof (wf_numLevels _ _ Ho) as Hnlo.
  destruct (wf_range other c' 0 Ho ltac:(lia)) as [Hr0 Hg0].
  destruct (wf_range other c' 1 Ho ltac:(lia)) as [Hr1 Hg1].
  pose proof (wf_le other c' 0 1 Ho ltac:(lia) ltac:(lia) ltac:(lia)) as H01.
  pose proof (wf_level0_le other c' Ho) as Hpop0.
  rewrite Hg0, Hg1 in Hrun. cbn [mbind option_bind] in Hrun.
  bind_step Hrun s1 Es1.
  apply (level0_updates_wf other c' (lv (Items.levels other) 1 - lv (Items.levels other) 0)
           s s1 c Ho Hs ltac:(lia) ltac:(lia) ltac:(lia)) in Es1.
  rewrite (wf_n _ _ Hs), (wf_n _ _ Ho) in Hrun.
  rewrite (u64_small (c + c')) in Hrun
    by (pose proof (wf_count_nonneg _ _ Hs); pose proof (wf_count_nonneg _ _ Ho); lia).
  bind_step Hrun r Er. destruct r as [[nl' L'] items'].
  apply (merged_layout_ok s1 other _ c' (c + c') nl' L' items' Es1 Ho ltac:(lia)) in Er
    as ((Hnl' & Hlen' & Hlo' & Hmono' & Htop') & Hw' & Hnn' & _).
  bind_step Hrun mx Emx. clear Emx. injection Hrun as <-.
  constructor; sk_simpl; try assumption.
  - apply (wf_k _ _ Es1).
  - apply (wf_m _ _ Es1).
  - reflexivity.
Qed.

End MergeSketchFacts.

(** *** Reachable sketches *)

Section RetainedWeightFacts.

Lemma sumFrom_ext f g lo n :
  (forall i, lo <= i < lo + Z.of_nat n -> f i = g i) -> sumFrom f lo n = sumFrom g lo n.
Proof.
  revert lo. induction n as [|n IH]; intros lo H; [reflexivity|]. cbn [sumFrom].
  rewrite H by lia. rewrite (IH (lo + 1)) by (intros; apply H; lia). reflexivity.
Qed.

Lemma sumFrom_app f lo n1 n2 :
  sumFrom f lo (n1 + n2) = sumFrom f lo n1 + sumFrom f (lo + Z.of_nat n1) n2.
Proof.
  revert lo. induction n1 as [|n1 IH]; intros lo.
  - cbn [sumFrom Nat.add]. now rewrite Z.add_0_r.
  - cbn [sumFrom Nat.add]. rewrite IH. replace (lo + 1 + Z.of_nat n1) with (lo + Z.of_nat (S n1)) by lia.
    lia.
Qed.

Lemma sumFrom_const f lo n v :
  (forall i, lo <= i < lo + Z.of_nat n -> f i = v) -> sumFrom f lo n = v * Z.of_nat n.
Proof.
  revert lo. induction n as [|n IH]; intros lo H; [cbn [sumFrom]; lia|]. cbn [sumFrom].
  rewrite H by lia. rewrite (IH (lo + 1)) by (intros; apply H; lia). lia.
Qed.

Variable L : list Z.
Variable nl : Z.
Hypothesis Hmono : forall i, 0 <= i < nl -> lv L i <= lv L (i + 1).

Lemma levelOfSlot_covers (n : nat) i :
  Z.of_nat n <= nl -> lv L 0 <= i < lv L (Z.of_nat n) ->
  exists l, levelOfSlot L n i = Some l.
Proof.
  induction n as [|n IH]; intros Hn Hi; [change (Z.of_nat 0) with 0 in Hi; lia|].
  cbn [levelOfSlot]. destruct (decide (i < lv L (Z.of_nat n))) as [Hlt|Hge].
  - destruct (IH ltac:(lia) ltac:(lia)) as [l ->]. eauto.
  - destruct (levelOfSlot L n i) as [l|]; [eauto|].
    rewrite decide_True; [eauto|]. replace (Z.of_nat n + 1) with (Z.of_nat (S n)) by lia. lia.
Qed.

Lemma levelOfSlot_above (n : nat) i :
  Z.of_nat n <= nl -> lv L (Z.of_nat n) <= i -> levelOfSlot L n i = None.
Proof.
  induction n as [|n IH]; intros Hn Hi; [reflexivity|]. cbn [levelOfSlot].
  pose proof (Hmono (Z.of_nat n) ltac:(lia)) as Hs.
  replace (Z.of_nat (S n)) with (Z.of_nat n + 1) in Hi by lia.
  rewrite IH by lia. rewrite decide_False by lia. reflexivity.
Qed.

Lemma retained_weight_by_level (n : nat) :
  Z.of_nat n <= nl ->
  sumFrom (slotWeight L n) (lv L 0) (Z.to_nat (lv L (Z.of_nat n) - lv L 0)) = wsum (lv L) n.
Proof.
  induction n as [|n IH]; intros Hn.
  - change (Z.of_nat 0) with 0. rewrite Z.sub_diag. reflexivity.
  - cbn [wsum]. rewrite <- IH by lia.
    pose proof (mono_le (lv L) nl Hmono 0 (Z.of_nat n) ltac:(lia) ltac:(lia) ltac:(lia)) as H0n.
    pose proof (Hmono (Z.of_nat n) ltac:(lia)) as Hs.
    replace (Z.of_nat (S n)) with (Z.of_nat n + 1) by lia.
    replace (Z.to_nat (lv L (Z.of_nat n + 1) - lv L 0))
      with (Z.to_nat (lv L (Z.of_nat n) - lv L 0)
            + Z.to_nat (lv L (Z.of_nat n + 1) - lv L (Z.of_nat n)))%nat by lia.
    rewrite sumFrom_app. f_equal.
    + apply sumFrom_ext. intros i Hi. unfold slotWeight. cbn [levelOfSlot].
      destruct (levelOfSlot_covers n i ltac:(lia) ltac:(lia)) as [l ->]. reflexivity.
    + rewrite Z2Nat.id by lia. replace (lv L 0 + (lv L (Z.of_nat n) - lv L 0)) with (lv L (Z.of_nat n)) by lia.
      rewrite (sumFrom_const _ _ _ (2 ^ Z.of_nat n)); [rewrite Z2Nat.id by lia; reflexivity|].
      intros i Hi. unfold slotWeight. cbn [levelOfSlot].
      rewrite levelOfSlot_above by lia. rewrite decide_True by lia. reflexivity.
Qed.

End RetainedWeightFacts.

Section ReachableFacts.
Context {C SV : Type} {OpC : Items.ItemSketchOp C} {RtC : Items.Runtime C}.
Hypothesis sortSlice_perm : forall less (l : list C), Permutation (Items.sortSlice less l) l.
#[local] Abbreviation Sketch := (Items.ItemsSketch C SV).

Lemma wf_totalWeight (s : Sketch) c : wf s c -> totalWeight s = c /\ Items.n s = c.
Proof.
  intros Hwf. split; [|apply (wf_n _ _ Hwf)]. unfold totalWeight, retainedWeight.
  pose proof (wf_numLevels _ _ Hwf) as Hnl.
  rewrite <- (wf_weight _ _ Hwf).
  rewrite <- (retained_weight_by_level (Items.levels s) (Items.numLevels s) (wf_mono _ _ Hwf)
                (Z.to_nat (Items.numLevels s))) by lia.
  rewrite Z2Nat.id by lia. reflexivity.
Qed.

Lemma fresh_wf (k0 m0 minK0 : Z) (lz : bool) (mi ma : option C) (sv : option SV) :
  8 <= k0 <= 65535 -> m0 = 8 ->
  wf (Items.mkItemsSketch k0 m0 minK0 1 lz 0 [u32 k0; u32 k0]
        (replicate (Z.to_nat k0) Items.zeroValue) mi ma sv) 0.
Proof.
  intros Hk Hm. rewrite (u32_small k0) by lia.
  assert (H0 : lv [k0; k0] 0 = k0) by reflexivity.
  assert (H1 : lv [k0; k0] 1 = k0) by reflexivity.
  constructor; sk_simpl; rewrite ?H0, ?H1; try assumption; try lia; try reflexivity.
  - intros i Hi. replace i with 0 by lia. change (0 + 1) with 1. rewrite H0, H1. lia.
  - change (Z.to_nat 1) with 1%nat. cbn [wsum]. change (Z.of_nat 0) with 0.
    change (0 + 1) with 1. rewrite H0, H1. lia.
  - intros i Hi. lia.
Qed.

Lemma reachable_wf (s : Sketch) c : reachable s c -> wf s c.
Proof.
  induction 1 as [k0 s Hnew|s c item s' Hr IH Hc Hup|s c other c' s' Hr1 IH1 Hr2 IH2 Hc Hm|s c Hr IH].
  - unfold Items.NewItemsSketch in Hnew.
    destruct (decide (k0 < Items._MIN_K \/ k0 > Items._MAX_K)) as [Hbad|Hok]; [discriminate|].
    injection Hnew as <-. unfold Items._MIN_K, Items._MAX_K, Items._DEFAULT_M in *.
    apply fresh_wf; [lia|reflexivity].
  - unfold Items.Update in Hup. bind_step Hup s1 E1. injection Hup as <-.
    apply (updateItem_wf sortSlice_perm _ _ _ _ IH Hc) in E1.
    eapply wf_same_layout; [..|exact E1]; reflexivity.
  - unfold Items.Merge in Hm. destruct (Items.IsEmpty other) eqn:Hemp.
    + injection Hm as <-. unfold Items.IsEmpty in Hemp. apply bool_decide_eq_true in Hemp.
      rewrite (wf_n _ _ IH2) in Hemp. subst c'. now rewrite Z.add_0_r.
    + bind_step Hm s1 E1. injection Hm as <-.
      apply (mergeItemsSketch_wf sortSlice_perm _ _ _ _ _ IH1 IH2 Hc) in E1.
      eapply wf_same_layout; [..|exact E1]; reflexivity.
  - unfold Items.Reset. apply fresh_wf; [apply (wf_k _ _ IH)|apply (wf_m _ _ IH)].
Qed.

End ReachableFacts.

(** C3. In every sketch built from a new one by updates, merges and resets
    that return (with [sort.Slice] permuting its slice, and no sketch merged
    into itself: the two sketches of a merge are two objects), the weights
    [2^l] of
    the retained items, [l] being the level of the item, add up to the number
    of items taken in, which is also the field [n]; and a compaction of such a
    sketch ([compressWhileUpdatingSketch]) leaves that sum as it is. *)
Theorem total_weight_is_item_count {C SV : Type} {OpC : Items.ItemSketchOp C}
    {RtC : Items.Runtime C} (s : Items.ItemsSketch C SV) (c : Z) :
  (forall less (l : list C), Permutation (Items.sortSlice less l) l) ->
  reachable s c ->
  totalWeight s = c /\ Items.n s = c /\
  forall s', Items.compressWhileUpdatingSketch s = Some s' ->
    totalWeight s' = totalWeight s /\ Items.n s' = Items.n s.
Proof.
  intros Hsort Hreach. pose proof (reachable_wf Hsort s c Hreach) as Hwf.
  destruct (wf_totalWeight s c Hwf) as [Hw Hn]. split; [exact Hw|]. split; [exact Hn|].
  intros s' Hc. apply (compress_wf Hsort s s' c Hwf) in Hc as [Hwf' _].
  destruct (wf_totalWeight s' c Hwf') as [Hw' Hn']. split; congruence.
Qed.

Section StringSketchFacts.

Lemma insert_sorted_perm {A} (less : A -> A -> bool) x (l : list A) :
  Permutation (StringItems.insert_sorted less x l) (x :: l).
Proof.
  induction l as [|y l IH]; cbn [StringItems.insert_sorted]; [reflexivity|].
  destruct (less x y); [reflexivity|].
  rewrite IH. apply perm_swap.
Qed.

Lemma insertion_sort_perm {A} (less : A -> A -> bool) (l : list A) :
  Permutation (StringItems.insertion_sort less l) l.
Proof.
  unfold StringItems.insertion_sort. induction l as [|x l IH]; cbn [foldr]; [reflexivity|].
  rewrite insert_sorted_perm. now constructor.
Qed.

Lemma reachable_updateAll stream : forall (s s' : Items.ItemsSketch StringItems.GoString unit) c,
  reachable s c -> c + zlen stream < 2 ^ 64 ->
  StringItems.updateAll s stream = Some s' -> reachable s' (c + zlen stream).
Proof.
  unfold zlen. induction stream as [|x stream IH]; intros s s' c Hr Hc Hrun;
    cbn [StringItems.updateAll length] in *.
  - injection Hrun as <-. now rewrite Z.add_0_r.
  - destruct (Items.Update s x) as [s1|] eqn:E1; [|discriminate]. cbn [mbind option_bind] in Hrun.
    replace (c + Z.of_nat (S (length stream))) with (c + 1 + Z.of_nat (length stream)) by lia.
    apply (IH s1 s' (c + 1)); [|lia|exact Hrun].
    apply (reach_update s c x s1 Hr ltac:(lia) E1).
Qed.

Lemma reachable_sketchOf k stream (s : Items.ItemsSketch StringItems.GoString unit) :
  zlen stream < 2 ^ 64 -> StringItems.sketchOf k stream = Ok s -> reachable s (zlen stream).
Proof.
  intros Hlen Hrun. unfold StringItems.sketchOf in Hrun.
  destruct (Items.NewItemsSketch k) as [s0| |] eqn:E0; try discriminate. cbn [bind] in Hrun.
  destruct (StringItems.updateAll s0 stream) as [s1|] eqn:E1; [|discriminate].
  cbn [of_option] in Hrun. injection Hrun as <-.
  apply (reachable_updateAll stream s0 s1 0 (reach_new k s0 E0) ltac:(lia) E1).
Qed.

End StringSketchFacts.

Lemma total_weight_is_item_count_witness :
  exists s1 s2 s : Items.ItemsSketch StringItems.GoString unit,
    StringItems.sketchOf 8 (StringItems.letters 12) = Ok s1 /\
    StringItems.sketchOf 8 (StringItems.letters 20) = Ok s2 /\
    Items.Merge s1 s2 = Some s /\
    Items.numLevels s = 3 /\
    totalWeight s = 32 /\ Items.n s = 32 /\
    forall s', Items.compressWhileUpdatingSketch s = Some s' ->
      totalWeight s' = totalWeight s /\ Items.n s' = Items.n s.
Proof.
  eexists. eexists. eexists.
  split; [vm_compute; reflexivity|].
  split; [vm_compute; reflexivity|].
  split; [vm_compute; reflexivity|].
  split; [reflexivity|].
  apply (total_weight_is_item_count (C := StringItems.GoString) (RtC := StringItems.stringRuntime)
           _ 32 (fun less l => insertion_sort_perm less l)).
  eapply (reach_merge _ 12 _ 20).
  - apply (reachable_sketchOf 8 (StringItems.letters 12)); [vm_compute; reflexivity|vm_compute; reflexivity].
  - apply (reachable_sketchOf 8 (StringItems.letters 20)); [vm_compute; reflexivity|vm_compute; reflexivity].
  - lia.
  - vm_compute. reflexivity.
Defined.

(** C3 (counterexample). A sketch merged into itself. After 19 updates at
    [K = 8] the levels are [[1; 12; 16]]. In [s.Merge(s)] the second update of
    the level-0 loop compacts level 0 in place, which moves the loop's bound
    [otherLevelsArr[1]] from 12 to 6: the loop takes in 5 of the 11 items of
    level 0, and the upper levels are then merged with a run of the copied
    items that is no level. The sketch ends with [N = 38] and retained items
    of total weight 44. *)
Lemma self_merge_breaks_the_weight_invariant :
  exists s t : Items.ItemsSketch StringItems.GoString unit,
    StringItems.sketchOf 8 (StringItems.letters 19) = Ok s /\
    Items.levels s = [1; 12; 16] /\ Items.n s = 19 /\ totalWeight s = 19 /\
    MergeSelf s = Some t /\
    Items.n t = 38 /\ totalWeight t = 44.
Proof.
  eexists. eexists.
  split; [vm_compute; reflexivity|].
  split; [reflexivity|]. split; [reflexivity|]. split; [vm_compute; reflexivity|].
  split; [vm_compute; reflexivity|].
  split; [reflexivity|vm_compute; reflexivity].
Qed.

(** ** Further properties of the items sketch *)

(** *** The compaction inside a merge *)

Lemma retainedWeight_wsum L nl :
  0 <= nl -> (forall i, 0 <= i < nl -> lv L i <= lv L (i + 1)) ->
  retainedWeight L nl = wsum (lv L) (Z.to_nat nl).
Proof.
  intros Hnl Hmono. unfold retainedWeight.
  rewrite <- (retained_weight_by_level L nl Hmono (Z.to_nat nl)) by lia.
  rewrite Z2Nat.id by lia. reflexivity.
Qed.

(** X1. The compaction of the merge keeps the weight. The work levels [W] start
    at 0 and ascend and the buffer holds their items, as [mergeItemsSketch]
    passes them (one buffer for input and output; [sort.Slice] permutes its
    slice): when [generalItemsCompress] returns, the output levels carry the
    weight of the input levels, and the returned item count is the number of
    items they hold. *)
Theorem generalItemsCompress_keeps_weight {C : Type} {OpC : Items.ItemSketchOp C}
    {RtC : Items.Runtime C} (k m prov : Z) (wb : list C) (W O0 : list Z) (lz : bool)
    (cs : Items.compressState) :
  (forall less (l : list C), Permutation (Items.sortSlice less l) l) ->
  8 <= k <= 65535 -> m = 8 -> 1 <= prov <= 61 ->
  lv W 0 = 0 -> (forall i, 0 <= i < prov -> lv W i <= lv W (i + 1)) ->
  lv W prov < 2 ^ 32 -> nonNil wb 0 (lv W prov) ->
  Items.generalItemsCompress k m prov (fun _ => wb) 0 W 0 O0 lz = Some cs ->
  retainedWeight (Items.cs_outLevels cs) (Items.cs_numLevels cs) = retainedWeight W prov /\
  Items.cs_currentItemCount cs =
    lv (Items.cs_outLevels cs) (Items.cs_numLevels cs) - lv (Items.cs_outLevels cs) 0 /\
  prov <= Items.cs_numLevels cs <= 61.
Proof.
  intros Hsort Hk Hm Hprov HW0 HWmono HWtop Hwb Hrun.
  apply (generalItemsCompress_inv Hsort k m (wsum (lv W) (Z.to_nat prov)) (lv W prov) lz
           Hk Hm HWtop prov wb W O0 cs Hprov HW0 HWmono eq_refl Hwb eq_refl) in Hrun
    as [Hinv Hle].
  apply compress_inv_final in Hinv as (Hnl & HO0 & HOmono & HOw & Hcur & _ & _ & _).
  split; [|split; [rewrite HO0; lia|lia]].
  rewrite (retainedWeight_wsum (Items.cs_outLevels cs) (Items.cs_numLevels cs) ltac:(lia) HOmono).
  rewrite (retainedWeight_wsum W prov ltac:(lia) HWmono). exact HOw.
Qed.

Lemma generalItemsCompress_keeps_weight_witness :
  exists cs,
    Items.generalItemsCompress (C := StringItems.GoString) 8 8 2
      (fun _ => StringItems.letters 20) 0 [0; 12; 20; 0; 0; 0] 0 (replicate 6 0) false = Some cs /\
    retainedWeight (Items.cs_outLevels cs) (Items.cs_numLevels cs)
      = retainedWeight [0; 12; 20; 0; 0; 0] 2 /\
    Items.cs_currentItemCount cs =
      lv (Items.cs_outLevels cs) (Items.cs_numLevels cs) - lv (Items.cs_outLevels cs) 0 /\
    2 <= Items.cs_numLevels cs <= 61.
Proof.
  destruct (Items.generalItemsCompress (C := StringItems.GoString) 8 8 2
              (fun _ => StringItems.letters 20) 0 [0; 12; 20; 0; 0; 0] 0 (replicate 6 0) false)
    as [cs|] eqn:E; [|vm_compute in E; discriminate E].
  exists cs. split; [reflexivity|].
  apply (generalItemsCompress_keeps_weight (C := StringItems.GoString)
           (RtC := StringItems.stringRuntime) 8 8 2 (StringItems.letters 20)
           [0; 12; 20; 0; 0; 0] (replicate 6 0) false cs
           (fun less l => insertion_sort_perm less l)); try lia; try reflexivity.
  - intros i Hi. assert (Hc : i = 0 \/ i = 1) by lia.
    destruct Hc as [-> | ->]; vm_compute; discriminate.
  - intros i Hi. change (lv [0; 12; 20; 0; 0; 0] 2) with 20 in Hi.
    destruct (zget_lt_is_Some (StringItems.letters 20) i) as [x Hx]; [vm_compute zlen; lia|].
    exists x. split; [exact Hx|reflexivity].
  - exact E.
Defined.

(** *** Growing by a level *)

Section LoopProgress.
Context {St : Type}.

(** A loop whose every turn returns and keeps [Inv] returns. *)
Lemma iter_up_total (Inv : Z -> St -> Prop) (body : Z -> St -> option St) n : forall a st,
  (forall i s, a <= i < a + Z.of_nat n -> Inv i s ->
     exists s', body i s = Some s' /\ Inv (i + 1) s') ->
  Inv a st -> exists st', iter_up n a body st = Some st' /\ Inv (a + Z.of_nat n) st'.
Proof.
  induction n as [|n IH]; intros a st Hstep Hinv; cbn [iter_up].
  - exists st. rewrite Z.add_0_r. auto.
  - destruct (Hstep a st ltac:(lia) Hinv) as (st1 & -> & Hinv1). cbn [mbind option_bind].
    destruct (IH (a + 1) st1) as (st' & Hrun & Hinv'); [|exact Hinv1|].
    + intros i s Hi. apply Hstep. lia.
    + exists st'. split; [exact Hrun|]. replace (a + Z.of_nat (S n)) with (a + 1 + Z.of_nat n) by lia.
      exact Hinv'.
Qed.

Lemma iter_down_total (Inv : Z -> St -> Prop) (body : Z -> St -> option St) n : forall a st,
  (forall i s, a - Z.of_nat n < i <= a -> Inv i s ->
     exists s', body i s = Some s' /\ Inv (i - 1) s') ->
  Inv a st -> exists st', iter_down n a body st = Some st' /\ Inv (a - Z.of_nat n) st'.
Proof.
  induction n as [|n IH]; intros a st Hstep Hinv; cbn [iter_down].
  - exists st. rewrite Z.sub_0_r. auto.
  - destruct (Hstep a st ltac:(lia) Hinv) as (st1 & -> & Hinv1). cbn [mbind option_bind].
    destruct (IH (a - 1) st1) as (st' & Hrun & Hinv'); [|exact Hinv1|].
    + intros i s Hi. apply Hstep. lia.
    + exists st'. split; [exact Hrun|]. replace (a - Z.of_nat (S n)) with (a - 1 - Z.of_nat n) by lia.
      exact Hinv'.
Qed.

End LoopProgress.

Lemma zset_total {A} (l : list A) i x : 0 <= i < zlen l -> exists l', zset l i x = Some l'.
Proof. intros Hi. destruct (zset_is_Some l i x Hi) as [l' Hl']. eauto. Qed.

Lemma levelCapacity_total k nl level m :
  0 <= k < 2 ^ 16 -> 0 <= m < 2 ^ 8 -> 0 <= level < nl -> nl - level - 1 <= 60 ->
  exists c, Items.levelCapacity k nl level m = Some c /\ m <= c <= Z.max m k.
Proof.
  intros Hk Hm Hl Hd. unfold Items.levelCapacity.
  rewrite (u8_small (nl - level)) by lia. rewrite (u8_small (nl - level - 1)) by lia.
  destruct (intCapAux_le_k k (nl - level - 1) Hk ltac:(lia)) as (c & -> & Hc).
  cbn [mbind option_bind]. rewrite (u32_small m) by lia. eexists. split; [reflexivity|]. lia.
Qed.

(** Growing by a level returns, and where it puts the indices and the items. *)
Lemma addEmptyTop_grows {C SV : Type} {OpC : Items.ItemSketchOp C}
    {RtC : Items.Runtime C} (s : Items.ItemsSketch C SV) :
  8 <= Items.k s <= 65535 -> Items.m s = 8 -> 1 <= Items.numLevels s <= 60 ->
  zlen (Items.levels s) = Items.numLevels s + 1 ->
  (forall i, 0 <= i <= Items.numLevels s ->
     0 <= lv (Items.levels s) i <= 65535 * Items.numLevels s) ->
  lv (Items.levels s) (Items.numLevels s) <= zlen (Items.GetTotalItemsArray s) ->
  exists s1 delta,
    Items.addEmptyTopLevelToCompletelyFullSketch s = Some s1 /\
    Items.levelCapacity (Items.k s) (Items.numLevels s + 1) 0 (Items.m s) = Some delta /\
    Items.numLevels s1 = Items.numLevels s + 1 /\
    zlen (Items.levels s1) = Items.numLevels s + 2 /\
    (forall i, 0 <= i <= Items.numLevels s ->
       lv (Items.levels s1) i = lv (Items.levels s) i + delta) /\
    lv (Items.levels s1) (Items.numLevels s + 1)
      = lv (Items.levels s) (Items.numLevels s) + delta /\
    zlen (Items.items s1) = lv (Items.levels s) (Items.numLevels s) + delta /\
    (forall i, 0 <= i < lv (Items.levels s) (Items.numLevels s) ->
       zget (Items.items s1) (i + delta) = zget (Items.GetTotalItemsArray s) i).
Proof.
  intros Hk Hm Hnl Hlen Hrange Hcap.
  unfold Items.addEmptyTopLevelToCompletelyFullSketch, Items.getLevelsArray.
  revert Hcap. generalize (Items.GetTotalItemsArray s). intros cur Hcap.
  destruct s as [k m minK nl lz n L items mi ma sv]. sk_simpl.
  rewrite (zget_lv L nl) by lia. cbn [mbind option_bind].
  rewrite (u8_small (nl + 1)), (u8_small (nl + 2)) by lia.
  destruct (levelCapacity_total k (nl + 1) 0 m ltac:(lia) ltac:(lia) ltac:(lia) ltac:(lia))
    as (delta & Hdelta & Hd).
  rewrite Hdelta. cbn [mbind option_bind].
  rewrite bool_decide_eq_true_2 by lia.
  replace (nl + 1 - 1) with nl by lia. rewrite (u8_small nl) by lia.
  rewrite decide_False by lia.
  destruct (grow_levels L (nl + 2) ltac:(lia)) as [Hglen Hglv].
  set (L0 := take (Z.to_nat (nl + 2)) (L ++ replicate (Z.to_nat (nl + 2)) 0)) in *.
  pose proof (Hrange nl ltac:(lia)) as Htop. set (top := lv L nl) in *.
  (* the level indices *)
  destruct (iter_up_total
              (fun i (arr : list Z) => zlen arr = nl + 2 /\
                 forall j, 0 <= j <= nl -> lv arr j = if decide (j < i) then lv L j + delta else lv L j)
              (fun level arr => v ← zget arr level; zset arr level (u32 (v + delta)))
              (Z.to_nat (nl + 1)) 0 L0) as (L1 & HL1 & HL1len & HL1pt).
  { intros i arr Hi (Hal & Hapt). rewrite (zget_lv arr i) by lia. cbn [mbind option_bind].
    rewrite (Hapt i) by lia. rewrite decide_False by lia.
    pose proof (Hrange i ltac:(lia)) as Hri. rewrite (u32_small (lv L i + delta)) by lia.
    destruct (zset_total arr i (lv L i + delta) ltac:(lia)) as (arr' & Harr').
    exists arr'. split; [exact Harr'|]. split; [rewrite (zset_length _ _ _ _ Harr'); exact Hal|].
    intros j Hj. destruct (decide (j = i)) as [->|Hne].
    - rewrite (lv_zset_eq _ _ _ _ Harr'). rewrite decide_True by lia. reflexivity.
    - rewrite (lv_zset_ne _ _ _ j _ Harr') by lia. rewrite Hapt by lia.
      destruct (decide (j < i)), (decide (j < i + 1)); try lia; reflexivity. }
  { split; [exact Hglen|]. intros j Hj. rewrite decide_False by lia. apply Hglv. lia. }
  rewrite HL1. cbn [mbind option_bind].
  rewrite (u32_small (top + delta)) by lia.
  destruct (zset_total L1 (nl + 1) (top + delta) ltac:(lia)) as (L2 & HL2). rewrite HL2.
  cbn [mbind option_bind].
  (* the items *)
  destruct (iter_up_total
              (fun i (arr : list C) => zlen arr = top + delta /\
                 forall j, 0 <= j < i -> zget arr (j + delta) = zget cur j)
              (fun i arr => x ← zget cur i; zset arr (u32 (i + delta)) x)
              (Z.to_nat top) 0 (replicate (Z.to_nat (top + delta)) Items.zeroValue))
    as (new & Hnew & Hnewlen & Hnewpt).
  { intros i arr Hi (Hal & Hapt).
    destruct (zget_lt_is_Some cur i ltac:(lia)) as [x Hx]. rewrite Hx. cbn [mbind option_bind].
    rewrite (u32_small (i + delta)) by lia.
    destruct (zset_total arr (i + delta) x ltac:(lia)) as (arr' & Harr').
    exists arr'. split; [exact Harr'|]. split; [rewrite (zset_length _ _ _ _ Harr'); exact Hal|].
    intros j Hj. destruct (decide (j = i)) as [->|Hne].
    - rewrite Hx. eapply zget_zset_eq. exact Harr'.
    - rewrite (zget_zset_ne _ _ _ _ _ Harr') by lia. apply Hapt. lia. }
  { split; [unfold zlen; rewrite length_replicate; lia|]. intros j Hj. lia. }
  rewrite Hnew. cbn [mbind option_bind].
  rewrite Z.add_0_l, Z2Nat.id in HL1pt, Hnewpt by lia.
  eexists. exists delta. split; [reflexivity|].
  unfold Items.set_items, Items.set_levels, Items.set_numLevels. sk_simpl.
  split; [reflexivity|]. split; [reflexivity|].
  split; [rewrite (zset_length _ _ _ _ HL2); exact HL1len|].
  split; [|split; [|split]].
  - intros i Hi. rewrite (lv_zset_ne _ _ _ i _ HL2) by lia. rewrite HL1pt by lia.
    rewrite decide_True by lia. reflexivity.
  - apply (lv_zset_eq _ _ _ _ HL2).
  - exact Hnewlen.
  - exact Hnewpt.
Qed.

(** X2. The generic items sketch grows by a level without leaving its arrays.
    A sketch of at most 60 levels whose levels array has [numLevels + 1]
    ascending entries and whose items array holds the capacity
    [levels[numLevels]]: [addEmptyTopLevelToCompletelyFullSketch] returns; it
    has grown the levels array by one entry, added the capacity [delta] of the
    new bottom level to every level index, set the new top index to the new
    total capacity, moved every item up by [delta] and incremented
    [numLevels]. *)
Theorem addEmptyTopLevel_items_grows {C SV : Type} {OpC : Items.ItemSketchOp C}
    {RtC : Items.Runtime C} (s : Items.ItemsSketch C SV) :
  8 <= Items.k s <= 65535 -> Items.m s = 8 -> 1 <= Items.numLevels s <= 60 ->
  zlen (Items.levels s) = Items.numLevels s + 1 ->
  (forall i, 0 <= i <= Items.numLevels s ->
     0 <= lv (Items.levels s) i <= 65535 * Items.numLevels s) ->
  lv (Items.levels s) (Items.numLevels s) <= zlen (Items.GetTotalItemsArray s) ->
  exists s1 delta,
    Items.addEmptyTopLevelToCompletelyFullSketch s = Some s1 /\
    Items.levelCapacity (Items.k s) (Items.numLevels s + 1) 0 (Items.m s) = Some delta /\
    Items.numLevels s1 = Items.numLevels s + 1 /\
    zlen (Items.levels s1) = Items.numLevels s + 2 /\
    (forall i, 0 <= i <= Items.numLevels s ->
       lv (Items.levels s1) i = lv (Items.levels s) i + delta) /\
    lv (Items.levels s1) (Items.numLevels s + 1)
      = lv (Items.levels s) (Items.numLevels s) + delta /\
    zlen (Items.items s1) = lv (Items.levels s) (Items.numLevels s) + delta /\
    (forall i, 0 <= i < lv (Items.levels s) (Items.numLevels s) ->
       zget (Items.items s1) (i + delta) = zget (Items.GetTotalItemsArray s) i).
Proof. apply addEmptyTop_grows. Qed.

Lemma addEmptyTopLevel_items_grows_witness :
  exists s : Items.ItemsSketch StringItems.GoString unit,
    StringItems.sketchOf 8 (StringItems.letters 8) = Ok s /\
    exists s1 delta,
      Items.addEmptyTopLevelToCompletelyFullSketch s = Some s1 /\
      Items.levelCapacity (Items.k s) (Items.numLevels s + 1) 0 (Items.m s) = Some delta /\
      Items.numLevels s1 = Items.numLevels s + 1 /\
      zlen (Items.levels s1) = Items.numLevels s + 2 /\
      (forall i, 0 <= i <= Items.numLevels s ->
         lv (Items.levels s1) i = lv (Items.levels s) i + delta) /\
      lv (Items.levels s1) (Items.numLevels s + 1)
        = lv (Items.levels s) (Items.numLevels s) + delta /\
      zlen (Items.items s1) = lv (Items.levels s) (Items.numLevels s) + delta /\
      (forall i, 0 <= i < lv (Items.levels s) (Items.numLevels s) ->
         zget (Items.items s1) (i + delta) = zget (Items.GetTotalItemsArray s) i).
Proof.
  eexists. split; [vm_compute; reflexivity|].
  apply (addEmptyTopLevel_items_grows (C := StringItems.GoString) (SV := unit)); sk_simpl.
  - lia.
  - reflexivity.
  - lia.
  - reflexivity.
  - intros i Hi. assert (Hc : i = 0 \/ i = 1) by lia.
    destruct Hc as [-> | ->]; vm_compute; split; discriminate.
  - vm_compute. discriminate.
Defined.

(** *** Minimum and maximum under updates *)

Section MinMaxFacts.
Context {C SV : Type} {OpC : Items.ItemSketchOp C} {RtC : Items.Runtime C}.
#[local] Abbreviation Sketch := (Items.ItemsSketch C SV).

Lemma addEmptyTop_fields (s s1 : Sketch) :
  Items.addEmptyTopLevelToCompletelyFullSketch s = Some s1 ->
  Items.minItem s1 = Items.minItem s /\ Items.maxItem s1 = Items.maxItem s /\
  Items.n s1 = Items.n s.
Proof.
  intros Hrun. unfold Items.addEmptyTopLevelToCompletelyFullSketch in Hrun.
  bind_all Hrun. injection Hrun as <-. repeat split.
Qed.

Lemma compress_fields (s s' : Sketch) :
  Items.compressWhileUpdatingSketch s = Some s' ->
  Items.minItem s' = Items.minItem s /\ Items.maxItem s' = Items.maxItem s /\
  Items.n s' = Items.n s.
Proof.
  intros Hrun. unfold Items.compressWhileUpdatingSketch in Hrun.
  bind_step Hrun level Elevel. bind_step Hrun s1 Es1.
  assert (H1 : Items.minItem s1 = Items.minItem s /\ Items.maxItem s1 = Items.maxItem s /\
               Items.n s1 = Items.n s).
  { destruct (decide (level = u8 (Items.numLevels s - 1))).
    - now apply addEmptyTop_fields.
    - injection Es1 as <-. repeat split. }
  destruct H1 as (<- & <- & <-). clear Es1 Elevel.
  bind_step Hrun a1 E1. bind_step Hrun a2 E2. bind_step Hrun a3 E3.
  bind_step Hrun a4 E4. clear E4. bind_step Hrun a5 E5. clear E5.
  bind_step Hrun a6 E6. bind_step Hrun a7 E7. clear E7. destruct a7 as [a7 a8].
  bind_step Hrun a9 E9. clear E9. bind_step Hrun a10 E10.
  injection Hrun as <-. repeat split.
Qed.

Lemma updateItem_fields (s s' : Sketch) x :
  Items.isNil x = false -> Items.updateItem s x = Some s' ->
  Items.n s' = u64 (Items.n s + 1) /\
  (Items.n s = 0 -> Items.minItem s' = Some x /\ Items.maxItem s' = Some x) /\
  (Items.n s <> 0 -> exists mi ma,
     Items.minItem s = Some mi /\ Items.maxItem s = Some ma /\
     Items.minItem s' = Some (if Items.lessFn x mi then x else mi) /\
     Items.maxItem s' = Some (if Items.lessFn ma x then x else ma)).
Proof.
  intros Hnil Hrun. unfold Items.updateItem in Hrun. rewrite Hnil in Hrun.
  bind_step Hrun s0 E0.
  assert (H0 : Items.n s0 = Items.n s /\
               (Items.n s = 0 -> Items.minItem s0 = Some x /\ Items.maxItem s0 = Some x) /\
               (Items.n s <> 0 -> exists mi ma,
                  Items.minItem s = Some mi /\ Items.maxItem s = Some ma /\
                  Items.minItem s0 = Some (if Items.lessFn x mi then x else mi) /\
                  Items.maxItem s0 = Some (if Items.lessFn ma x then x else ma))).
  { unfold Items.IsEmpty in E0. destruct (bool_decide (Items.n s = 0)) eqn:Hemp.
    - apply bool_decide_eq_true in Hemp. injection E0 as <-.
      split; [reflexivity|]. split; [intros _; split; reflexivity|intros Hne; contradiction].
    - apply bool_decide_eq_false in Hemp.
      bind_step E0 mi Emi. bind_step E0 ma Ema. injection E0 as <-.
      split; [destruct (Items.lessFn x mi), (Items.lessFn ma x); reflexivity|].
      split; [intros Hz; contradiction|]. intros _. exists mi, ma.
      assert (Hma : Items.maxItem s = Some ma).
      { destruct (Items.lessFn x mi); exact Ema. }
      split; [reflexivity|]. split; [exact Hma|].
      destruct (Items.lessFn x mi), (Items.lessFn ma x); split; try reflexivity; sk_simpl;
        try assumption; try exact Emi. }
  clear E0. bind_step Hrun l0 El0. clear El0. bind_step Hrun r Er. destruct r as [s1 l1].
  assert (H1 : Items.minItem s1 = Items.minItem s0 /\ Items.maxItem s1 = Items.maxItem s0 /\
               Items.n s1 = Items.n s0).
  { destruct (decide (l0 = 0)).
    - bind_step Er s2 E2. bind_step Er l2 El2. injection Er as <- <-.
      now apply compress_fields.
    - injection Er as <- <-. repeat split. }
  clear Er. bind_step Hrun L' EL. clear EL. bind_step Hrun it' Eit. clear Eit.
  injection Hrun as <-. sk_simpl.
  destruct H1 as (Hmi & Hma & Hn). destruct H0 as (Hn0 & Hz & Hnz).
  rewrite Hmi, Hma, Hn, Hn0. split; [reflexivity|]. split; assumption.
Qed.

Hypothesis less_irrefl : forall a : C, Items.lessFn a a = false.
Hypothesis less_trans : forall a b c : C,
  Items.lessFn a b = true -> Items.lessFn b c = true -> Items.lessFn a c = true.

Lemma updateItem_tracks (s s' : Sketch) seen x :
  tracks s seen -> zlen seen + 1 < 2 ^ 64 -> Items.isNil x = false ->
  Items.updateItem s x = Some s' -> tracks s' (seen ++ [x]).
Proof.
  intros [Hn Hmm] Hlen Hnil Hrun.
  apply (updateItem_fields s s' x Hnil) in Hrun as (Hn' & Hz & Hnz).
  assert (Hlen' : zlen (seen ++ [x]) = zlen seen + 1).
  { unfold zlen. rewrite length_app. cbn [length]. lia. }
  split.
  - rewrite Hn', Hn, Hlen'. apply u64_small. unfold zlen in *. lia.
  - intros _. destruct seen as [|x0 seen'].
    + destruct (Hz Hn) as [-> ->]. exists x, x. cbn [app].
      repeat split; try (left; reflexivity).
      * destruct H as [<-|[]]. apply less_irrefl.
      * destruct H as [<-|[]]. apply less_irrefl.
    + assert (Hne : Items.n s <> 0) by (rewrite Hn; unfold zlen; cbn [length]; lia).
      destruct (Hnz Hne) as (mi & ma & Hmi & Hma & -> & ->).
      destruct (Hmm ltac:(discriminate)) as (mn & mx & Hmn & Hmx & Hin1 & Hin2 & Hall).
      rewrite Hmn in Hmi. rewrite Hmx in Hma. injection Hmi as <-. injection Hma as <-.
      eexists. eexists. split; [reflexivity|]. split; [reflexivity|].
      split; [|split].
      * destruct (Items.lessFn x mn); apply in_or_app; [right; left; reflexivity|left; exact Hin1].
      * destruct (Items.lessFn mx x); apply in_or_app; [right; left; reflexivity|left; exact Hin2].
      * intros y Hy. apply in_app_or in Hy. split.
        -- destruct (Items.lessFn x mn) eqn:Hx.
           ++ destruct Hy as [Hy|[<-|[]]]; [|apply less_irrefl].
              destruct (Items.lessFn y x) eqn:Hyx; [|reflexivity].
              rewrite <- (proj1 (Hall y Hy)). symmetry. eapply less_trans; eassumption.
           ++ destruct Hy as [Hy|[<-|[]]]; [apply (Hall y Hy)|exact Hx].
        -- destruct (Items.lessFn mx x) eqn:Hx.
           ++ destruct Hy as [Hy|[<-|[]]]; [|apply less_irrefl].
              destruct (Items.lessFn x y) eqn:Hxy; [|reflexivity].
              rewrite <- (proj2 (Hall y Hy)). symmetry. eapply less_trans; eassumption.
           ++ destruct Hy as [Hy|[<-|[]]]; [apply (Hall y Hy)|exact Hx].
Qed.

Lemma updates_tracks stream : forall (s s' : Sketch) seen,
  tracks s seen -> zlen seen + zlen stream < 2 ^ 64 ->
  updates s stream = Some s' -> tracks s' (seen ++ taken stream).
Proof.
  induction stream as [|x stream IH]; intros s s' seen Ht Hlen Hrun; cbn [updates] in Hrun.
  - injection Hrun as <-. unfold taken. cbn [List.filter]. now rewrite app_nil_r.
  - bind_step Hrun s1 E1. unfold Items.Update in E1. bind_step E1 s2 E2. injection E1 as <-.
    assert (Hl : zlen (x :: stream) = zlen stream + 1) by (unfold zlen; cbn [length]; lia).
    unfold taken. cbn [List.filter]. destruct (Items.isNil x) eqn:Hnil; cbn [negb].
    + unfold Items.updateItem in E2. rewrite Hnil in E2. injection E2 as <-.
      apply (IH (Items.set_sortedView s None) s' seen); [exact Ht|lia|exact Hrun].
    + apply (updateItem_tracks s s2 seen x Ht ltac:(unfold zlen in *; lia) Hnil) in E2.
      replace (seen ++ x :: List.filter (fun x => negb (Items.isNil x)) stream)
        with ((seen ++ [x]) ++ taken stream) by (rewrite <- app_assoc; reflexivity).
      apply (IH (Items.set_sortedView s2 None) s'); [| |exact Hrun].
      * destruct E2 as [En Emm]. split; [exact En|exact Emm].
      * unfold zlen in *. rewrite length_app. cbn [length]. lia.
Qed.

End MinMaxFacts.

(** X3. The generic items sketch reports the exact minimum and maximum. A
    new sketch fed a stream by [Update] calls that return, under a comparison
    that is irreflexive and transitive: if the stream has an item that is
    not nil, [GetMinItem] returns an item of the stream that none of its
    items is less than, and [GetMaxItem] one that is less than none. *)
Theorem items_min_max_are_exact {C SV : Type} {OpC : Items.ItemSketchOp C}
    {RtC : Items.Runtime C} (k : Z) (s0 s : Items.ItemsSketch C SV) (stream : list C) :
  (forall a : C, Items.lessFn a a = false) ->
  (forall a b c : C, Items.lessFn a b = true -> Items.lessFn b c = true ->
     Items.lessFn a c = true) ->
  Items.NewItemsSketch k = Ok s0 -> updates s0 stream = Some s -> zlen stream < 2 ^ 64 ->
  taken stream <> [] ->
  exists mn mx,
    Items.GetMinItem s = Ok mn /\ Items.GetMaxItem s = Ok mx /\
    In mn (taken stream) /\ In mx (taken stream) /\
    forall y, In y (taken stream) -> Items.lessFn y mn = false /\ Items.lessFn mx y = false.
Proof.
  intros Hirr Htr Hnew Hrun Hlen Hne.
  assert (H0 : tracks s0 []).
  { unfold Items.NewItemsSketch in Hnew. destruct (decide _); [discriminate|].
    injection Hnew as <-. split; [reflexivity|]. intros H; contradiction. }
  apply (updates_tracks Hirr Htr stream s0 s [] H0 ltac:(unfold zlen in *; cbn [length]; lia)) in Hrun.
  cbn [app] in Hrun. destruct Hrun as [Hn Hmm].
  destruct (Hmm Hne) as (mn & mx & Hmn & Hmx & Hin1 & Hin2 & Hall).
  exists mn, mx. unfold Items.GetMinItem, Items.GetMaxItem, Items.IsEmpty.
  rewrite bool_decide_eq_false_2.
  - rewrite Hmn, Hmx. repeat split; try assumption; apply (Hall y H).
  - rewrite Hn. destruct (taken stream); [contradiction|]. unfold zlen. cbn [length]. lia.
Qed.

Section StringOrder.

Lemma string_lt_irrefl (a : StringItems.GoString) : StringItems.string_lt a a = false.
Proof.
  induction a as [|x a IH]; [reflexivity|]. cbn [StringItems.string_lt].
  rewrite Z.ltb_irrefl. exact IH.
Qed.

Lemma string_lt_trans (a : StringItems.GoString) : forall b c,
  StringItems.string_lt a b = true -> StringItems.string_lt b c = true ->
  StringItems.string_lt a c = true.
Proof.
  induction a as [|x a IH]; intros [|y b] [|z c] Hab Hbc; cbn [StringItems.string_lt] in *;
    try discriminate; try reflexivity.
  destruct (Z.ltb_spec x y), (Z.ltb_spec y x), (Z.ltb_spec y z), (Z.ltb_spec z y),
    (Z.ltb_spec x z), (Z.ltb_spec z x); try lia; try discriminate; try reflexivity.
  eapply IH; eassumption.
Qed.

End StringOrder.

Lemma items_min_max_are_exact_witness :
  exists s0 s : Items.ItemsSketch StringItems.GoString unit,
    Items.NewItemsSketch 8 = Ok s0 /\ updates s0 (StringItems.letters 12) = Some s /\
    exists mn mx,
      Items.GetMinItem s = Ok mn /\ Items.GetMaxItem s = Ok mx /\
      In mn (taken (StringItems.letters 12)) /\ In mx (taken (StringItems.letters 12)) /\
      forall y, In y (taken (StringItems.letters 12)) ->
        Items.lessFn y mn = false /\ Items.lessFn mx y = false.
Proof.
  eexists. eexists.
  split; [vm_compute; reflexivity|].
  split; [vm_compute; reflexivity|].
  eapply (items_min_max_are_exact (C := StringItems.GoString) (SV := unit)
            (OpC := StringItems.stringItemsSketchOp) (RtC := StringItems.stringRuntime) 8 _ _
            (StringItems.letters 12) string_lt_irrefl string_lt_trans).
  - vm_compute. reflexivity.
  - vm_compute. reflexivity.
  - vm_compute. reflexivity.
  - vm_compute. discriminate.
Defined.

(** *** Updates return *)

Section WeightBounds.

Lemma wsum_ge_level f (n : nat) l :
  (forall i, 0 <= i < Z.of_nat n -> f i <= f (i + 1)) ->
  0 <= l < Z.of_nat n -> 2 ^ l * (f (l + 1) - f l) <= wsum f n.
Proof.
  intros Hmono Hl. induction n as [|n IH]; [lia|]. cbn [wsum].
  pose proof (wsum_nonneg f n ltac:(intros; apply Hmono; lia)) as Hnn.
  pose proof (Hmono (Z.of_nat n) ltac:(lia)) as Hs.
  assert (Hp : 0 < 2 ^ Z.of_nat n) by (apply Z.pow_pos_nonneg; lia).
  pose proof (Z.mul_nonneg_nonneg (2 ^ Z.of_nat n) (f (Z.of_nat n + 1) - f (Z.of_nat n))
                ltac:(lia) ltac:(lia)) as Hterm.
  destruct (decide (l = Z.of_nat n)) as [->|Hne]; [lia|].
  specialize (IH ltac:(intros; apply Hmono; lia) ltac:(lia)). lia.
Qed.

(** A level that holds 8 items puts the item count at [2^(l+3)] or more. *)
Lemma full_level_bounds_levels f (n : nat) l c :
  (forall i, 0 <= i < Z.of_nat n -> f i <= f (i + 1)) ->
  0 <= l < Z.of_nat n -> 8 <= f (l + 1) - f l -> wsum f n = c -> c < 2 ^ 63 -> l < 60.
Proof.
  intros Hmono Hl Hpop Hw Hc.
  pose proof (wsum_ge_level f n l Hmono Hl) as Hge. rewrite Hw in Hge.
  destruct (decide (l < 60)) as [|Hbig]; [assumption|exfalso].
  assert (Hp : 2 ^ 60 <= 2 ^ l) by (apply Z.pow_le_mono_r; lia).
  assert (H8 : 2 ^ 60 * 8 <= 2 ^ l * (f (l + 1) - f l)).
  { apply Z.mul_le_mono_nonneg; lia. }
  change (2 ^ 63) with (2 ^ 60 * 8) in Hc. lia.
Qed.

End WeightBounds.

Section FullSketch.
Variables k m : Z.
Hypothesis Hk : 8 <= k <= 65535.
Hypothesis Hm : m = 8.

(** A full sketch has a full level: the search of [findLevelToCompact] ends
    below the top. *)
Lemma findLevelToCompact_from_total (L : list Z) nl (fuel : nat) : forall level,
  1 <= nl <= 61 -> zlen L = nl + 1 ->
  (forall i, 0 <= i < nl -> lv L i <= lv L (i + 1)) ->
  0 <= lv L 0 -> lv L nl < 2 ^ 32 ->
  0 <= level < nl -> (Z.to_nat (nl - level) <= fuel)%nat ->
  capSum k m (Z.to_nat (nl - level)) <= lv L nl - lv L level ->
  exists r, Items.findLevelToCompact_from fuel k m nl L level = Some r /\ level <= r < nl.
Proof.
  induction fuel as [|fuel IH]; intros level Hnl Hlen Hmono H0 Htop Hl Hfuel Hfull; [lia|].
  cbn [Items.findLevelToCompact_from].
  rewrite (u8_small (level + 1)) by lia.
  rewrite (zget_lv L (level + 1)), (zget_lv L level) by lia. cbn [mbind option_bind].
  rewrite (levelCapacity_capOf k m Hk Hm nl level) by lia. cbn [mbind option_bind].
  pose proof (mono_le (lv L) nl Hmono 0 level ltac:(lia) ltac:(lia) ltac:(lia)) as Hle1.
  pose proof (Hmono level ltac:(lia)) as Hle2.
  pose proof (mono_le (lv L) nl Hmono (level + 1) nl ltac:(lia) ltac:(lia) ltac:(lia)) as Hle3.
  rewrite (u32_small (lv L (level + 1) - lv L level)) by lia.
  destruct (decide (lv L (level + 1) - lv L level >= capOf k m (nl - level - 1))) as [Hge|Hlt].
  - exists level. split; [reflexivity|lia].
  - replace (nl - level) with (nl - level - 1 + 1) in Hfull by lia.
    rewrite capSum_succ in Hfull by lia.
    assert (Hnext : level + 1 < nl).
    { destruct (decide (level + 1 < nl)) as [|Hn]; [assumption|exfalso].
      assert (Hz : nl - level - 1 = 0) by lia. rewrite Hz in Hfull, Hlt.
      change (capSum k m (Z.to_nat 0)) with 0 in Hfull.
      assert (He : level + 1 = nl) by lia. rewrite He in Hlt. lia. }
    destruct (IH (level + 1) Hnl Hlen Hmono H0 Htop ltac:(lia) ltac:(lia)) as (r & Hr & Hrr).
    + replace (nl - (level + 1)) with (nl - level - 1) by lia. lia.
    + exists r. split; [exact Hr|lia].
Qed.

End FullSketch.

Section ItemsProgress.
Context {C : Type} {OpC : Items.ItemSketchOp C} {RtC : Items.Runtime C}.
Hypothesis sortSlice_perm : forall less (l : list C), Permutation (Items.sortSlice less l) l.

Lemma zget_total {A} (l : list A) i : 0 <= i < zlen l -> exists x, zget l i = Some x.
Proof. intros Hi. destruct (zget_lt_is_Some l i Hi) as [x Hx]. eauto. Qed.

Lemma randomlyHalveUpItems_total (buf : list C) start h :
  0 <= start -> 1 <= h -> start + 2 * h <= zlen buf -> zlen buf < 2 ^ 32 ->
  exists buf', Items.randomlyHalveUpItems buf start (2 * h) = Some buf' /\ zlen buf' = zlen buf.
Proof.
  intros Hs Hh Hfit Hb. unfold Items.randomlyHalveUpItems.
  replace (2 * h / 2) with h by (rewrite Z.mul_comm, Z.div_mul; lia).
  rewrite (u32_small (start + h)) by lia. rewrite decide_False by lia.
  rewrite (u32_small (start + 2 * h)) by lia.
  rewrite (u32_small (start + 2 * h - 1)) by lia.
  set (top := start + 2 * h - 1).
  replace (top - (start + h) + 1) with h by (unfold top; lia).
  destruct (iter_down_total
              (fun i (p : list C * Z) => zlen p.1 = zlen buf /\ p.2 = u32 (2 * i - top - 1))
              (fun i '(buf, j) => x ← zget buf j; buf' ← zset buf i x; Some (buf', u32 (j - 2)))
              (Z.to_nat h) top (buf, u32 (top - 1))) as ([b j] & Hrun & Hlen & _).
  - intros i [b0 j0] Hi [Hl0 Hj0]. cbn [fst snd] in *.
    rewrite u32_small in Hj0 by (unfold top in *; lia). subst j0.
    destruct (zget_total b0 (2 * i - top - 1) ltac:(unfold top in *; lia)) as [x ->].
    cbn [mbind option_bind].
    destruct (zset_total b0 i x ltac:(unfold top in *; lia)) as [b1 Hb1]. rewrite Hb1.
    cbn [mbind option_bind]. eexists. split; [reflexivity|]. cbn [fst snd].
    split; [rewrite (zset_length _ _ _ _ Hb1); exact Hl0|]. f_equal. lia.
  - cbn [fst snd]. split; [reflexivity|]. f_equal. lia.
  - rewrite Hrun. cbn [mbind option_bind]. exists b. split; [reflexivity|exact Hlen].
Qed.

Lemma randomlyHalveDownItems_total (buf : list C) start h :
  0 <= start -> 0 <= h -> start + 2 * h <= zlen buf -> zlen buf < 2 ^ 32 ->
  exists buf', Items.randomlyHalveDownItems buf start (2 * h) = Some buf' /\ zlen buf' = zlen buf.
Proof.
  intros Hs Hh Hfit Hb. unfold Items.randomlyHalveDownItems.
  replace (2 * h / 2) with h by (rewrite Z.mul_comm, Z.div_mul; lia).
  rewrite (u32_small (start + h)) by lia.
  replace (start + h - start) with h by lia.
  destruct (iter_up_total
              (fun i (p : list C * Z) => zlen p.1 = zlen buf /\ p.2 = u32 (start + 1 + 2 * (i - start)))
              (fun i '(buf, j) => x ← zget buf j; buf' ← zset buf i x; Some (buf', u32 (j + 2)))
              (Z.to_nat h) start (buf, u32 (start + 1))) as ([b j] & Hrun & Hlen & _).
  - intros i [b0 j0] Hi [Hl0 Hj0]. cbn [fst snd] in *.
    rewrite u32_small in Hj0 by lia. subst j0.
    destruct (zget_total b0 (start + 1 + 2 * (i - start)) ltac:(lia)) as [x ->].
    cbn [mbind option_bind].
    destruct (zset_total b0 i x ltac:(lia)) as [b1 Hb1]. rewrite Hb1.
    cbn [mbind option_bind]. eexists. split; [reflexivity|]. cbn [fst snd].
    split; [rewrite (zset_length _ _ _ _ Hb1); exact Hl0|]. f_equal. lia.
  - cbn [fst snd]. split; [reflexivity|]. f_equal. lia.
  - rewrite Hrun. cbn [mbind option_bind]. exists b. split; [reflexivity|exact Hlen].
Qed.

Lemma sortRange_total (buf : list C) lo hi :
  0 <= lo <= hi -> hi <= zlen buf ->
  exists buf', Items.sortRange buf lo hi = Some buf' /\ zlen buf' = zlen buf.
Proof.
  intros Hlo Hhi. unfold Items.sortRange, zslice. rewrite decide_True by lia.
  cbn [mbind option_bind]. eexists. split; [reflexivity|]. unfold zlen in *.
  rewrite !length_app, (Permutation_length (sortSlice_perm _ _)).
  rewrite !length_take, !length_drop. lia.
Qed.

End ItemsProgress.

Section MergeProgress.
Context {C : Type}.
Variable less : C -> C -> bool.
Variables bufA bufB bufC : nat.
Variables limA limB : Z.

Lemma wr_total (st : store (C := C)) buf i x :
  0 <= i < zlen (st buf) -> exists st', wr st buf i x = Some st'.
Proof. intros Hi. apply wr_is_Some. exact Hi. Qed.

Lemma merge_loop_total n : forall (st : store (C := C)) a b c,
  0 <= a <= limA -> 0 <= b <= limB ->
  limA <= zlen (st bufA) -> limB <= zlen (st bufB) ->
  limA < 2 ^ 32 -> limB < 2 ^ 32 ->
  Z.of_nat n = (limA - a) + (limB - b) ->
  0 <= c -> c + Z.of_nat n <= zlen (st bufC) -> c + Z.of_nat n < 2 ^ 32 ->
  exists st', merge_loop u32 less bufA bufB bufC limA limB n st a b c = Some st' /\
    forall buf, zlen (st' buf) = zlen (st buf).
Proof.
  induction n as [|n IH]; intros st a b c Ha Hb HfA HfB HbA HbB Hn Hc Hfit Hcb; cbn [merge_loop].
  { exists st. split; reflexivity. }
  assert (Hstep : exists st1 a1 b1,
            merge_step u32 less bufA bufB bufC limA limB st a b c = Some (st1, a1, b1) /\
            (forall buf, zlen (st1 buf) = zlen (st buf)) /\
            0 <= a1 <= limA /\ 0 <= b1 <= limB /\ Z.of_nat n = (limA - a1) + (limB - b1)).
  { unfold merge_step, rd.
    destruct (decide (a = limA)) as [Hal|Hal]; [|destruct (decide (b = limB)) as [Hbl|Hbl]].
    - destruct (zget_lt_is_Some (st bufB) b ltac:(lia)) as [x ->]. cbn [mbind option_bind].
      destruct (wr_total st bufC c x ltac:(lia)) as [st1 Hw]. rewrite Hw. cbn [mbind option_bind].
      exists st1, a, (u32 (b + 1)). rewrite (u32_small (b + 1)) by lia.
      split; [reflexivity|]. split; [intros buf; eapply wr_zlen; exact Hw|]. lia.
    - destruct (zget_lt_is_Some (st bufA) a ltac:(lia)) as [x ->]. cbn [mbind option_bind].
      destruct (wr_total st bufC c x ltac:(lia)) as [st1 Hw]. rewrite Hw. cbn [mbind option_bind].
      exists st1, (u32 (a + 1)), b. rewrite (u32_small (a + 1)) by lia.
      split; [reflexivity|]. split; [intros buf; eapply wr_zlen; exact Hw|]. lia.
    - destruct (zget_lt_is_Some (st bufA) a ltac:(lia)) as [xa ->].
      destruct (zget_lt_is_Some (st bufB) b ltac:(lia)) as [xb ->]. cbn [mbind option_bind].
      destruct (less xa xb).
      + destruct (wr_total st bufC c xa ltac:(lia)) as [st1 Hw]. rewrite Hw. cbn [mbind option_bind].
        exists st1, (u32 (a + 1)), b. rewrite (u32_small (a + 1)) by lia.
        split; [reflexivity|]. split; [intros buf; eapply wr_zlen; exact Hw|]. lia.
      + destruct (wr_total st bufC c xb ltac:(lia)) as [st1 Hw]. rewrite Hw. cbn [mbind option_bind].
        exists st1, a, (u32 (b + 1)). rewrite (u32_small (b + 1)) by lia.
        split; [reflexivity|]. split; [intros buf; eapply wr_zlen; exact Hw|]. lia. }
  destruct Hstep as (st1 & a1 & b1 & -> & Hlen1 & Ha1 & Hb1 & Hn1). cbn [mbind option_bind].
  rewrite (u32_small (c + 1)) by lia.
  destruct (IH st1 a1 b1 (c + 1)) as (st' & Hrun & Hlen'); try assumption; try lia;
    try (rewrite Hlen1; lia).
  exists st'. split; [exact Hrun|]. intros buf. rewrite Hlen'. apply Hlen1.
Qed.

End MergeProgress.

Lemma mergeSortedArrays_total {C : Type} (less : C -> C -> bool) (buf : list C)
    startA lenA startB lenB startC :
  0 <= startA -> 0 <= lenA -> startA + lenA <= zlen buf ->
  0 <= startB -> 0 <= lenB -> startB + lenB <= zlen buf ->
  0 <= startC -> startC + lenA + lenB <= zlen buf -> zlen buf < 2 ^ 32 ->
  exists st', mergeSortedArrays u32 less (fun _ => buf) 0 startA lenA 0 startB lenB 0 startC = Some st' /\
    zlen (st' 0%nat) = zlen buf.
Proof.
  intros HA HlA HfA HB HlB HfB HC HfC Hb. unfold mergeSortedArrays.
  rewrite (u32_small (lenA + lenB)) by lia.
  rewrite (u32_small (startA + lenA)), (u32_small (startB + lenB)) by lia.
  rewrite (u32_small (startC + (lenA + lenB))) by lia.
  replace (startC + (lenA + lenB) - startC) with (lenA + lenB) by lia.
  destruct (merge_loop_total less 0 0 0 (startA + lenA) (startB + lenB)
              (Z.to_nat (lenA + lenB)) (fun _ => buf) startA startB startC)
    as (st' & Hrun & Hlen); try lia.
  exists st'. split; [exact Hrun|]. apply Hlen.
Qed.

Section UpdateProgress.
Context {C SV : Type} {OpC : Items.ItemSketchOp C} {RtC : Items.Runtime C}.
Hypothesis sortSlice_perm : forall less (l : list C), Permutation (Items.sortSlice less l) l.
#[local] Abbreviation Sketch := (Items.ItemsSketch C SV).

Lemma addEmptyTop_params (s s1 : Sketch) :
  Items.addEmptyTopLevelToCompletelyFullSketch s = Some s1 ->
  Items.k s1 = Items.k s /\ Items.m s1 = Items.m s.
Proof.
  intros Hrun. unfold Items.addEmptyTopLevelToCompletelyFullSketch in Hrun.
  bind_all Hrun. injection Hrun as <-. split; reflexivity.
Qed.

(** The sketch that [compressWhileUpdatingSketch] compacts: the full one,
    grown by a level when its full level is the top one. *)
Lemma grown_wfx (s : Sketch) c level :
  wfx s c -> c < 2 ^ 63 -> 0 <= level < Items.numLevels s ->
  8 <= lv (Items.levels s) (level + 1) - lv (Items.levels s) level ->
  exists s1,
    (if decide (level = u8 (Items.numLevels s - 1))
     then Items.addEmptyTopLevelToCompletelyFullSketch s else Some s) = Some s1 /\
    wfx s1 c /\ level + 2 <= Items.numLevels s1 /\
    8 <= lv (Items.levels s1) (level + 1) - lv (Items.levels s1) level.
Proof.
  intros [Hwf Hlen Hcap Hmm] Hc Hlevel Hpop.
  pose proof (wf_numLevels _ _ Hwf) as Hnl.
  rewrite u8_small by lia.
  destruct (decide (level = Items.numLevels s - 1)) as [Htop|Htop].
  - assert (H60 : level < 60).
    { apply (full_level_bounds_levels (lv (Items.levels s)) (Z.to_nat (Items.numLevels s)) level c).
      - intros i Hi. apply (wf_mono _ _ Hwf). lia.
      - lia.
      - exact Hpop.
      - apply (wf_weight _ _ Hwf).
      - exact Hc. }
    pose proof (wf_retained_le s c Hwf) as Hret.
    pose proof (wf_le s c (level + 1) (Items.numLevels s) Hwf ltac:(lia) ltac:(lia) ltac:(lia)) as Hle1.
    pose proof (wf_le s c 0 level Hwf ltac:(lia) ltac:(lia) ltac:(lia)) as Hle0.
    assert (Hn0 : Items.n s <> 0) by (rewrite (wf_n _ _ Hwf); lia).
    destruct (addEmptyTop_grows s (wf_k _ _ Hwf) (wf_m _ _ Hwf) ltac:(lia) (wf_len _ _ Hwf))
      as (s1 & delta & Hrun & Hdelta & Hnl1 & Hlen1 & Hshift & Htop1 & Hitems1 & _).
    + intros i Hi. pose proof (wf_lo _ _ Hwf). pose proof (wf_top _ _ Hwf).
      pose proof (wf_le s c 0 i Hwf ltac:(lia) ltac:(lia) ltac:(lia)).
      pose proof (wf_le s c i (Items.numLevels s) Hwf ltac:(lia) ltac:(lia) ltac:(lia)). lia.
    + unfold Items.GetTotalItemsArray. rewrite decide_False by exact Hn0. lia.
    + exists s1. split; [exact Hrun|].
      destruct (addEmptyTop_wf s s1 c Hwf Hrun) as (Hwf1 & _ & _).
      destruct (addEmptyTop_params s s1 Hrun) as [Hk1 Hm1].
      destruct (addEmptyTop_fields s s1 Hrun) as (Hmi1 & Hma1 & _).
      rewrite (levelCapacity_capOf (Items.k s) (Items.m s) (wf_k _ _ Hwf) (wf_m _ _ Hwf))
        in Hdelta by lia.
      injection Hdelta as Hdelta.
      replace (Items.numLevels s + 1 - 0 - 1) with (Items.numLevels s) in Hdelta by lia.
      split; [|split; [lia|rewrite !Hshift by lia; lia]].
      constructor.
      * exact Hwf1.
      * rewrite Hnl1, Htop1. exact Hitems1.
      * rewrite Hnl1, Htop1, Hk1, Hm1, capSum_succ by lia. rewrite <- Hdelta. lia.
      * rewrite Hmi1, Hma1. exact Hmm.
  - exists s. split; [reflexivity|]. split; [constructor; assumption|]. split; lia.
Qed.

End UpdateProgress.

Section CompactProgress.
Context {C SV : Type} {OpC : Items.ItemSketchOp C} {RtC : Items.Runtime C}.
Hypothesis sortSlice_perm : forall less (l : list C), Permutation (Items.sortSlice less l) l.
#[local] Abbreviation Sketch := (Items.ItemsSketch C SV).

(** The compaction of a level below the top level returns and leaves the
    lengths of the arrays and the top index as they are. *)
Lemma compact_level_total {X : Type} (K : list Z -> list C -> X) (s1 : Sketch) c level :
  wfx s1 c -> 0 <= level -> level + 2 <= Items.numLevels s1 ->
  8 <= lv (Items.levels s1) (level + 1) - lv (Items.levels s1) level ->
  exists L' items',
    (let myLevelsArr := Items.levels s1 in
     rawBeg ← zget myLevelsArr level;
     rawEnd ← zget myLevelsArr (u8 (level + 1));
     above ← zget myLevelsArr (u8 (level + 2));
     let popAbove := u32 (above - rawEnd) in
     let rawPop := u32 (rawEnd - rawBeg) in
     let oddPop := bool_decide (rawPop mod 2 = 1) in
     let adjBeg := if oddPop then u32 (rawBeg + 1) else rawBeg in
     let adjPop := if oddPop then u32 (rawPop - 1) else rawPop in
     let halfAdjPop := adjPop / 2 in
     let myItemsArr := Items.GetTotalItemsArray s1 in
     myItemsArr ← (if decide (level = 0)
                   then Items.sortRange myItemsArr adjBeg (u32 (adjBeg + adjPop))
                   else Some myItemsArr);
     myItemsArr ← (if decide (popAbove = 0)
                   then Items.randomlyHalveUpItems myItemsArr adjBeg adjPop
                   else
                     buf ← Items.randomlyHalveDownItems myItemsArr adjBeg adjPop;
                     st ← Items.mergeSortedItemsArrays (fun _ => buf)
                            0%nat adjBeg halfAdjPop 0%nat rawEnd popAbove
                            0%nat (u32 (adjBeg + halfAdjPop));
                     Some (st 0%nat));
     cur ← zget myLevelsArr (u8 (level + 1));
     let newIndex := u32 (cur - halfAdjPop) in
     myLevelsArr ← zset myLevelsArr (u8 (level + 1)) newIndex;
     r ← (if oddPop then
            v ← zget myLevelsArr (u8 (level + 1));
            myLevelsArr ← zset myLevelsArr level (u32 (v - 1));
            dst ← zget myLevelsArr level;
            x ← zget myItemsArr rawBeg;
            myItemsArr ← zset myItemsArr dst x;
            Some (myLevelsArr, myItemsArr)
          else
            v ← zget myLevelsArr (u8 (level + 1));
            myLevelsArr ← zset myLevelsArr level v;
            Some (myLevelsArr, myItemsArr));
     let '(myLevelsArr, myItemsArr) := r in
     myItemsArr ← (if decide (level > 0) then
                     l0 ← zget myLevelsArr 0;
                     let amount := u32 (rawBeg - l0) in
                     iter_down (Z.to_nat amount) amount
                       (fun i arr =>
                          l0 ← zget myLevelsArr 0;
                          let tgtInx := u32 (u32 (u32 (l0 + halfAdjPop) + i) - 1) in
                          let stcInx := u32 (u32 (l0 + i) - 1) in
                          x ← zget arr stcInx; zset arr tgtInx x)
                       myItemsArr
                   else Some myItemsArr);
     myLevelsArr ← iter_up (Z.to_nat level) 0
       (fun lvl arr => v ← zget arr lvl; zset arr lvl (u32 (v + halfAdjPop)))
       myLevelsArr;
     Some (K myLevelsArr myItemsArr)) = Some (K L' items') /\
    zlen items' = zlen (Items.items s1) /\
    lv L' (Items.numLevels s1) = lv (Items.levels s1) (Items.numLevels s1).
Proof.
  intros [Hwf Hilen Hcap Hmm] Hlevel Hl2 Hpop.
  pose proof (fun i => wf_range s1 c i Hwf) as Hrange.
  pose proof (fun i j => wf_le s1 c i j Hwf) as Hle.
  pose proof (wf_retained_le s1 c Hwf) as Hret.
  assert (Hcur : Items.GetTotalItemsArray s1 = Items.items s1).
  { unfold Items.GetTotalItemsArray. rewrite decide_False; [reflexivity|].
    rewrite (wf_n _ _ Hwf).
    pose proof (Hle (level + 1) (Items.numLevels s1) ltac:(lia) ltac:(lia) ltac:(lia)).
    pose proof (Hle 0 level ltac:(lia) ltac:(lia) ltac:(lia)). lia. }
  rewrite Hcur. clear Hcur Hret Hmm Hcap.
  destruct Hwf as [Hk Hm Hnl Hlen Hlo Hmono Htop Hw Hn Hitems]. clear Hitems Hw Hn.
  destruct s1 as [k m minK nl lz n L items mi ma sv]. sk_simpl.
  cbv zeta.
  rewrite (u8_small (level + 1)), (u8_small (level + 2)) by lia.
  destruct (Hrange level ltac:(lia)) as [Hr0 Hg0].
  destruct (Hrange (level + 1) ltac:(lia)) as [Hr1 Hg1].
  destruct (Hrange (level + 2) ltac:(lia)) as [Hr2 Hg2].
  pose proof (Hle (level + 1) (level + 2) ltac:(lia) ltac:(lia) ltac:(lia)) as Hle12.
  rewrite Hg0, Hg1, Hg2. cbn [mbind option_bind].
  set (rawBeg := lv L level) in *. set (rawEnd := lv L (level + 1)) in *.
  set (above := lv L (level + 2)) in *.
  rewrite (u32_small (above - rawEnd)), (u32_small (rawEnd - rawBeg)) by lia.
  set (pop := rawEnd - rawBeg) in *.
  pose proof (Z.div_mod pop 2 ltac:(lia)) as Hdm.
  pose proof (Z.mod_pos_bound pop 2 ltac:(lia)) as Hodd.
  set (odd := pop mod 2) in *. set (h := pop / 2) in *.
  assert (HadjBeg : (if bool_decide (odd = 1) then u32 (rawBeg + 1) else rawBeg) = rawBeg + odd).
  { case_bool_decide; [rewrite u32_small by lia|]; lia. }
  assert (HadjPop : (if bool_decide (odd = 1) then u32 (pop - 1) else pop) = 2 * h).
  { case_bool_decide; [rewrite u32_small by lia|]; lia. }
  rewrite HadjBeg, HadjPop. clear HadjBeg HadjPop.
  replace (2 * h / 2) with h by (rewrite Z.mul_comm, Z.div_mul; lia).
  replace (rawBeg + odd + 2 * h) with rawEnd by lia.
  rewrite (u32_small rawEnd), (u32_small (rawBeg + odd + h)), (u32_small (rawEnd - h)) by lia.
  pose proof (Hle 0 level ltac:(lia) ltac:(lia) ltac:(lia)) as Hle0.
  pose proof (Hle (level + 2) nl ltac:(lia) ltac:(lia) ltac:(lia)) as Hle2.
  fold rawBeg above in Hle0, Hle2.
  set (lo := lv L 0) in *. set (hi := lv L nl) in *.
  destruct (Hrange nl ltac:(lia)) as [Hrhi _]. fold hi in Hrhi.
  assert (Hb32 : hi < 2 ^ 32) by lia.
  (* the items: sorting, halving, merging *)
  assert (E1 : exists items1,
            (if decide (level = 0) then Items.sortRange items (rawBeg + odd) rawEnd
             else Some items) = Some items1 /\ zlen items1 = hi).
  { destruct (decide (level = 0)).
    - destruct (sortRange_total sortSlice_perm items (rawBeg + odd) rawEnd ltac:(lia) ltac:(lia))
        as (items1 & Hrun & Hl1).
      exists items1. split; [exact Hrun|lia].
    - exists items. split; [reflexivity|exact Hilen]. }
  destruct E1 as (items1 & -> & Hl1). cbn [mbind option_bind].
  assert (E2 : exists items2,
            (if decide (above - rawEnd = 0)
             then Items.randomlyHalveUpItems items1 (rawBeg + odd) (2 * h)
             else
               buf ← Items.randomlyHalveDownItems items1 (rawBeg + odd) (2 * h);
               st ← Items.mergeSortedItemsArrays (fun _ => buf) 0%nat (rawBeg + odd) h
                      0%nat rawEnd (above - rawEnd) 0%nat (rawBeg + odd + h);
               Some (st 0%nat)) = Some items2 /\ zlen items2 = hi).
  { destruct (decide (above - rawEnd = 0)).
    - destruct (randomlyHalveUpItems_total items1 (rawBeg + odd) h) as (items2 & Hrun & Hl2');
        try lia.
      exists items2. split; [exact Hrun|lia].
    - destruct (randomlyHalveDownItems_total items1 (rawBeg + odd) h) as (buf & Hrun & Hlb);
        try lia.
      rewrite Hrun. cbn [mbind option_bind]. unfold Items.mergeSortedItemsArrays.
      destruct (mergeSortedArrays_total Items.lessFn buf (rawBeg + odd) h rawEnd (above - rawEnd)
                  (rawBeg + odd + h)) as (st & Hst & Hlst); try lia.
      rewrite Hst. cbn [mbind option_bind]. exists (st 0%nat). split; [reflexivity|lia]. }
  destruct E2 as (items2 & -> & Hl2'). cbn [mbind option_bind].
  (* the level indices of the compacted level *)
  destruct (zset_total L (level + 1) (rawEnd - h) ltac:(lia)) as (La & ELa).
  rewrite ELa. cbn [mbind option_bind].
  pose proof (zset_length _ _ _ _ ELa) as HlenLa.
  pose proof (lv_zset_eq _ _ _ _ ELa) as HLa1.
  rewrite (zget_lv La (level + 1)) by lia. rewrite HLa1. cbn [mbind option_bind].
  assert (Er : exists Lb items3,
            (if bool_decide (odd = 1) then
               myLevelsArr0 ← zset La level (u32 (rawEnd - h - 1));
               dst ← zget myLevelsArr0 level;
               x ← zget items2 rawBeg;
               myItemsArr1 ← zset items2 dst x;
               Some (myLevelsArr0, myItemsArr1)
             else
               myLevelsArr0 ← zset La level (rawEnd - h);
               Some (myLevelsArr0, items2)) = Some (Lb, items3) /\
            zlen Lb = nl + 1 /\ zlen items3 = hi /\
            (forall i, i <> level -> i <> level + 1 -> lv Lb i = lv L i)).
  { destruct (bool_decide (odd = 1)) eqn:Hb.
    - apply bool_decide_eq_true in Hb.
      rewrite (u32_small (rawEnd - h - 1)) by lia.
      destruct (zset_total La level (rawEnd - h - 1) ltac:(lia)) as (Lb & ELb).
      rewrite ELb. cbn [mbind option_bind].
      pose proof (zset_length _ _ _ _ ELb) as HlenLb.
      rewrite (zget_lv Lb level) by lia. rewrite (lv_zset_eq _ _ _ _ ELb).
      cbn [mbind option_bind].
      destruct (zget_total items2 rawBeg ltac:(lia)) as [x ->]. cbn [mbind option_bind].
      destruct (zset_total items2 (rawEnd - h - 1) x ltac:(lia)) as (items3 & E3).
      rewrite E3. cbn [mbind option_bind]. exists Lb, items3.
      split; [reflexivity|]. split; [lia|]. split; [rewrite (zset_length _ _ _ _ E3); exact Hl2'|].
      intros i Hi1 Hi2. rewrite (lv_zset_ne _ _ _ i _ ELb) by lia.
      apply (lv_zset_ne _ _ _ i _ ELa). lia.
    - destruct (zset_total La level (rawEnd - h) ltac:(lia)) as (Lb & ELb).
      rewrite ELb. cbn [mbind option_bind].
      pose proof (zset_length _ _ _ _ ELb) as HlenLb.
      exists Lb, items2. split; [reflexivity|]. split; [lia|]. split; [exact Hl2'|].
      intros i Hi1 Hi2. rewrite (lv_zset_ne _ _ _ i _ ELb) by lia.
      apply (lv_zset_ne _ _ _ i _ ELa). lia. }
  destruct Er as (Lb & items3 & -> & HlenLb & Hl3 & HbO). cbn [mbind option_bind].
  (* the items below move up, and so do their level indices *)
  assert (E4 : exists items4,
            (if decide (level > 0) then
               l0 ← zget Lb 0;
               iter_down (Z.to_nat (u32 (rawBeg - l0))) (u32 (rawBeg - l0))
                 (fun i arr =>
                    l1 ← zget Lb 0;
                    x ← zget arr (u32 (u32 (l1 + i) - 1));
                    zset arr (u32 (u32 (u32 (l1 + h) + i) - 1)) x)
                 items3
             else Some items3) = Some items4 /\ zlen items4 = hi).
  { destruct (decide (level > 0)) as [Hpos|Hzero].
    - rewrite (zget_lv Lb 0) by lia. cbn [mbind option_bind].
      rewrite (HbO 0) by lia. fold lo. rewrite (u32_small (rawBeg - lo)) by lia.
      destruct (iter_down_total (fun _ (arr : list C) => zlen arr = hi)
                  (fun i arr =>
                     l1 ← Some lo;
                     x ← zget arr (u32 (u32 (l1 + i) - 1));
                     zset arr (u32 (u32 (u32 (l1 + h) + i) - 1)) x)
                  (Z.to_nat (rawBeg - lo)) (rawBeg - lo) items3) as (items4 & Hrun & Hl4).
      + intros i arr Hi Harr. cbn [mbind option_bind].
        rewrite (u32_small (lo + i)), (u32_small (lo + i - 1)) by lia.
        rewrite (u32_small (lo + h)), (u32_small (lo + h + i)), (u32_small (lo + h + i - 1)) by lia.
        destruct (zget_total arr (lo + i - 1) ltac:(lia)) as [x ->]. cbn [mbind option_bind].
        destruct (zset_total arr (lo + h + i - 1) x ltac:(lia)) as (arr' & Harr').
        exists arr'. split; [exact Harr'|]. rewrite (zset_length _ _ _ _ Harr'). exact Harr.
      + exact Hl3.
      + exists items4. split; [exact Hrun|exact Hl4].
    - exists items3. split; [reflexivity|exact Hl3]. }
  destruct E4 as (items4 & -> & Hl4). cbn [mbind option_bind].
  destruct (iter_up_total (fun _ (arr : list Z) => zlen arr = nl + 1 /\ lv arr nl = lv Lb nl)
              (fun lvl arr => v ← zget arr lvl; zset arr lvl (u32 (v + h)))
              (Z.to_nat level) 0 Lb) as (Lc & -> & HlenLc & HLc).
  - intros i arr Hi [Harr Htopa]. rewrite (zget_lv arr i) by lia. cbn [mbind option_bind].
    destruct (zset_total arr i (u32 (lv arr i + h)) ltac:(lia)) as (arr' & Harr').
    exists arr'. split; [exact Harr'|]. split; [rewrite (zset_length _ _ _ _ Harr'); exact Harr|].
    rewrite (lv_zset_ne _ _ _ nl _ Harr') by lia. exact Htopa.
  - split; [exact HlenLb|reflexivity].
  - cbn [mbind option_bind]. exists Lc, items4. split; [reflexivity|]. split; [lia|].
    rewrite HLc. apply HbO; lia.
Qed.

(** A full sketch that has taken in fewer than [2^63] items is compacted:
    [compressWhileUpdatingSketch] returns and leaves room in level 0. *)
Lemma compress_total (s : Sketch) c :
  wfx s c -> lv (Items.levels s) 0 = 0 -> c < 2 ^ 63 ->
  exists s', Items.compressWhileUpdatingSketch s = Some s' /\ wfx s' c /\
             1 <= lv (Items.levels s') 0.
Proof.
  intros Hwfx H0 Hc. pose proof (wfx_wf _ _ Hwfx) as Hwf.
  pose proof (wf_numLevels _ _ Hwf) as Hnl.
  destruct (findLevelToCompact_from_total (Items.k s) (Items.m s) (wf_k _ _ Hwf) (wf_m _ _ Hwf)
              (Items.levels s) (Items.numLevels s) 256 0 Hnl (wf_len _ _ Hwf) (wf_mono _ _ Hwf)
              (wf_lo _ _ Hwf)) as (level & Hfind & Hlevel).
  - pose proof (wf_top _ _ Hwf). lia.
  - lia.
  - lia.
  - rewrite Z.sub_0_r, H0, Z.sub_0_r. apply (wfx_cap _ _ Hwfx).
  - destruct (findLevelToCompact_wf s c level Hwf Hfind) as [_ Hpop].
    destruct (grown_wfx s c level Hwfx Hc ltac:(lia) Hpop) as (s1 & Es1 & Hwfx1 & Hl2 & Hpop1).
    destruct (compact_level_total (fun L it => Items.set_items (Items.set_levels s1 L) it)
                s1 c level Hwfx1 ltac:(lia) Hl2 Hpop1) as (L' & items' & Hrun & Hlen' & Htop').
    assert (Hcomp : Items.compressWhileUpdatingSketch s
                    = Some (Items.set_items (Items.set_levels s1 L') items')).
    { unfold Items.compressWhileUpdatingSketch. unfold Items.findLevelToCompact.
      rewrite Hfind. cbn [mbind option_bind]. rewrite Es1. cbn [mbind option_bind]. exact Hrun. }
    eexists. split; [exact Hcomp|].
    destruct (compress_wf sortSlice_perm _ _ c Hwf Hcomp) as [Hwf' Hlo'].
    destruct (compress_fields _ _ Hcomp) as (Hmi & Hma & _).
    split; [|exact Hlo'].
    constructor.
    + exact Hwf'.
    + unfold Items.set_items, Items.set_levels. sk_simpl.
      rewrite Hlen', Htop'. apply (wfx_len _ _ Hwfx1).
    + unfold Items.set_items, Items.set_levels. sk_simpl.
      rewrite Htop'. apply (wfx_cap _ _ Hwfx1).
    + rewrite Hmi, Hma. apply (wfx_minmax _ _ Hwfx).
Qed.

Lemma wfx_same_layout (s s0 : Sketch) c :
  Items.k s0 = Items.k s -> Items.m s0 = Items.m s -> Items.numLevels s0 = Items.numLevels s ->
  Items.levels s0 = Items.levels s -> Items.items s0 = Items.items s -> Items.n s0 = Items.n s ->
  (c <> 0 -> is_Some (Items.minItem s0) /\ is_Some (Items.maxItem s0)) ->
  wfx s c -> wfx s0 c.
Proof.
  intros Hk Hm Hnl HL Hi Hn Hmm [Hwf Hlen Hcap _].
  constructor; [eapply wf_same_layout; eassumption| | |exact Hmm];
    rewrite ?Hk, ?Hm, ?Hnl, ?HL, ?Hi; assumption.
Qed.

(** An update of a sketch that has taken in fewer than [2^63] items returns,
    and the invariant holds of the sketch it returns. *)
Lemma updateItem_total (s : Sketch) c x :
  wfx s c -> c < 2 ^ 63 ->
  exists s', Items.updateItem s x = Some s' /\
             wfx s' (c + (if Items.isNil x then 0 else 1)).
Proof.
  intros Hwfx Hc.
  assert (Hrun : exists s', Items.updateItem s x = Some s' /\
            (Items.isNil x = false ->
             zlen (Items.items s') = lv (Items.levels s') (Items.numLevels s') /\
             capSum (Items.k s') (Items.m s') (Z.to_nat (Items.numLevels s'))
             <= lv (Items.levels s') (Items.numLevels s') /\
             is_Some (Items.minItem s') /\ is_Some (Items.maxItem s'))).
  { unfold Items.updateItem. destruct (Items.isNil x) eqn:Hnil.
    { exists s. split; [reflexivity|discriminate]. }
    match goal with
    | |- exists s', mbind _ ?e = Some s' /\ _ =>
        assert (E0 : exists s0, e = Some s0 /\
                  wfx s0 c /\ is_Some (Items.minItem s0) /\ is_Some (Items.maxItem s0))
    end.
    { unfold Items.IsEmpty. destruct (bool_decide (Items.n s = 0)) eqn:Hemp.
      - eexists. split; [reflexivity|]. split; [|split; eexists; reflexivity].
        eapply wfx_same_layout; [..|exact Hwfx]; try reflexivity.
        intros _. split; eexists; reflexivity.
      - apply bool_decide_eq_false in Hemp.
        rewrite (wf_n _ _ (wfx_wf _ _ Hwfx)) in Hemp.
        destruct (wfx_minmax _ _ Hwfx Hemp) as [[mi Hmi] [ma Hma]].
        rewrite Hmi. cbn [mbind option_bind]. cbv zeta.
        assert (Hma' : Items.maxItem (if Items.lessFn x mi then Items.set_minItem s (Some x) else s)
                       = Some ma) by (destruct (Items.lessFn x mi); exact Hma).
        rewrite Hma'. cbn [mbind option_bind]. eexists. split; [reflexivity|].
        destruct (Items.lessFn x mi), (Items.lessFn ma x);
          (split; [eapply wfx_same_layout; [..|exact Hwfx]; try reflexivity;
                   intros _; split; eexists; first [reflexivity|eassumption]
                  |split; eexists; first [reflexivity|eassumption]]). }
    destruct E0 as (s0 & -> & Hwfx0 & Hmi0 & Hma0). cbn [mbind option_bind].
    pose proof (wfx_wf _ _ Hwfx0) as Hwf0.
    destruct (wf_range s0 c 0 Hwf0 ltac:(pose proof (wf_numLevels _ _ Hwf0); lia)) as [Hr Hg].
    rewrite Hg. cbn [mbind option_bind].
    match goal with
    | |- exists s', mbind _ ?e = Some s' /\ _ =>
        assert (E1 : exists s1 l1, e = Some (s1, l1) /\
                  wfx s1 c /\ l1 = lv (Items.levels s1) 0 /\ 1 <= l1 /\
                  is_Some (Items.minItem s1) /\ is_Some (Items.maxItem s1))
    end.
    { destruct (decide (lv (Items.levels s0) 0 = 0)) as [Hz|Hz].
      - destruct (compress_total s0 c Hwfx0 Hz Hc) as (s2 & Hcomp & Hwfx2 & Hl2).
        rewrite Hcomp. cbn [mbind option_bind].
        pose proof (wfx_wf _ _ Hwfx2) as Hwf2.
        destruct (wf_range s2 c 0 Hwf2 ltac:(pose proof (wf_numLevels _ _ Hwf2); lia)) as [_ Hg2].
        rewrite Hg2. cbn [mbind option_bind].
        destruct (compress_fields _ _ Hcomp) as (Hmi & Hma & _).
        eexists. eexists. split; [reflexivity|]. rewrite Hmi, Hma.
        split; [exact Hwfx2|]. split; [reflexivity|]. split; [exact Hl2|]. split; assumption.
      - eexists. eexists. split; [reflexivity|].
        split; [exact Hwfx0|]. split; [reflexivity|]. split; [lia|]. split; assumption. }
    destruct E1 as (s1 & l1 & -> & Hwfx1 & -> & Hl1 & Hmi1 & Hma1).
    clear Hwfx0 Hwf0 Hmi0 Hma0 Hr Hg Hwfx s0 s.
    destruct Hwfx1 as [Hwf Hlen Hcap _].
    pose proof (fun i => wf_range s1 c i Hwf) as Hrange.
    pose proof (fun i j => wf_le s1 c i j Hwf) as Hle.
    destruct Hwf as [Hk Hm Hnl Hllen Hlo Hmono Htop Hw Hn Hitems].
    destruct s1 as [k m minK nl lz n L items mi ma sv]. sk_simpl.
    destruct (Hrange 0 ltac:(lia)) as [Hr0 _].
    pose proof (Hle 0 nl ltac:(lia) ltac:(lia) ltac:(lia)) as H0top.
    cbn [mbind option_bind]. sk_simpl.
    rewrite (u32_small (lv L 0 - 1)) by lia.
    destruct (zset_total L 0 (lv L 0 - 1) ltac:(lia)) as (L' & EL). rewrite EL.
    cbn [mbind option_bind].
    destruct (zset_total items (lv L 0 - 1) x ltac:(lia)) as (items' & Ei). rewrite Ei.
    cbn [mbind option_bind]. eexists. split; [reflexivity|]. intros _. sk_simpl.
    rewrite (zset_length _ _ _ _ Ei). rewrite (lv_zset_ne _ _ _ nl _ EL) by lia.
    split; [exact Hlen|]. split; [exact Hcap|]. split; assumption. }
  destruct Hrun as (s' & Hrun & Hshape). exists s'. split; [exact Hrun|].
  pose proof (updateItem_wf sortSlice_perm s s' c x (wfx_wf _ _ Hwfx) ltac:(lia) Hrun) as Hwf'.
  destruct (Items.isNil x) eqn:Hnil.
  - unfold Items.updateItem in Hrun. rewrite Hnil in Hrun. injection Hrun as <-.
    rewrite Z.add_0_r. exact Hwfx.
  - destruct (Hshape eq_refl) as (Hlen & Hcap & Hmi & Hma).
    constructor; try assumption. intros _. split; assumption.
Qed.

End CompactProgress.

Section StreamProgress.
Context {C SV : Type} {OpC : Items.ItemSketchOp C} {RtC : Items.Runtime C}.
Hypothesis sortSlice_perm : forall less (l : list C), Permutation (Items.sortSlice less l) l.
#[local] Abbreviation Sketch := (Items.ItemsSketch C SV).

Lemma capOf_top_le_k k : 8 <= k <= 65535 -> capOf k 8 0 <= k.
Proof.
  intros Hk. unfold capOf.
  destruct (intCapAux_le_k k 0 ltac:(lia) ltac:(lia)) as (c & -> & Hc).
  change (default 0 (Some c)) with c. lia.
Qed.

Lemma fresh_wfx (k0 m0 minK0 : Z) (lz : bool) (sv : option SV) :
  8 <= k0 <= 65535 -> m0 = 8 ->
  wfx (Items.mkItemsSketch k0 m0 minK0 1 lz 0 [u32 k0; u32 k0]
         (replicate (Z.to_nat k0) Items.zeroValue) None None sv) 0.
Proof.
  intros Hk Hm. constructor.
  - apply fresh_wf; assumption.
  - sk_simpl. rewrite (u32_small k0) by lia. unfold zlen. rewrite length_replicate.
    change (lv [k0; k0] 1) with k0. lia.
  - sk_simpl. rewrite (u32_small k0) by lia. change (lv [k0; k0] 1) with k0.
    change (Z.to_nat 1) with 1%nat. cbn [capSum]. change (Z.of_nat 0) with 0. subst m0.
    pose proof (capOf_top_le_k k0 Hk). lia.
  - intros H. contradiction.
Qed.

Lemma zlen_taken_cons (x : C) stream :
  zlen (taken (x :: stream)) = (if Items.isNil x then 0 else 1) + zlen (taken stream).
Proof.
  unfold taken, zlen. cbn [List.filter]. destruct (Items.isNil x); cbn [negb length]; lia.
Qed.

Lemma zlen_taken_le (stream : list C) : 0 <= zlen (taken stream) <= zlen stream.
Proof.
  induction stream as [|x stream IH]; [unfold taken, zlen; cbn; lia|].
  rewrite zlen_taken_cons. unfold zlen in *. cbn [length]. destruct (Items.isNil x); lia.
Qed.

Lemma updates_total stream : forall (s : Sketch) c,
  wfx s c -> c + zlen stream < 2 ^ 63 ->
  exists s', updates s stream = Some s' /\ wfx s' (c + zlen (taken stream)).
Proof.
  induction stream as [|x stream IH]; intros s c Hwfx Hc; cbn [updates].
  - exists s. split; [reflexivity|]. unfold taken, zlen. cbn [List.filter length].
    rewrite Z.add_0_r. exact Hwfx.
  - assert (Hl : zlen (x :: stream) = zlen stream + 1) by (unfold zlen; cbn [length]; lia).
    pose proof (wf_count_nonneg _ _ (wfx_wf _ _ Hwfx)) as Hc0.
    assert (Hs0 : 0 <= zlen stream) by (unfold zlen; lia).
    destruct (updateItem_total sortSlice_perm s c x Hwfx ltac:(lia)) as (s1 & Hrun & Hwfx1).
    unfold Items.Update. rewrite Hrun. cbn [mbind option_bind].
    destruct (IH (Items.set_sortedView s1 None) (c + (if Items.isNil x then 0 else 1)))
      as (s' & Hrun' & Hwfx').
    + eapply wfx_same_layout; [..|exact Hwfx1]; try reflexivity.
      apply (wfx_minmax _ _ Hwfx1).
    + destruct (Items.isNil x); lia.
    + exists s'. split; [exact Hrun'|]. rewrite zlen_taken_cons, Z.add_assoc. exact Hwfx'.
Qed.

End StreamProgress.

(** X4. The generic items sketch takes in every stream of fewer than [2^63]
    items. For [K] from 8 to 65535 (and [sort.Slice] a permutation),
    [NewItemsSketch] returns a sketch and the [Update] calls of the stream
    all return: no index leaves its array, the search for the level to
    compact ends, and no level is added beyond the 61st. The sketch they leave
    has counted the items of the stream that are not nil, and its retained
    items weigh as much. *)
Theorem updates_take_in_every_stream {C SV : Type} {OpC : Items.ItemSketchOp C}
    {RtC : Items.Runtime C} (K : Z) (stream : list C) :
  (forall less (l : list C), Permutation (Items.sortSlice less l) l) ->
  8 <= K <= 65535 -> zlen stream < 2 ^ 63 ->
  exists s0 s : Items.ItemsSketch C SV,
    Items.NewItemsSketch K = Ok s0 /\ updates s0 stream = Some s /\
    Items.n s = zlen (taken stream) /\ totalWeight s = zlen (taken stream) /\
    zlen (Items.items s) = lv (Items.levels s) (Items.numLevels s).
Proof.
  intros Hsort HK Hlen. unfold Items.NewItemsSketch.
  rewrite decide_False by (unfold Items._MIN_K, Items._MAX_K, Items._DEFAULT_M; lia).
  destruct (updates_total (SV := SV) Hsort stream
              (Items.mkItemsSketch K Items._DEFAULT_M K 1 false 0 [u32 K; u32 K]
                 (replicate (Z.to_nat K) Items.zeroValue) None None None) 0)
    as (s & Hrun & Hwfx).
  - apply fresh_wfx; [exact HK|reflexivity].
  - lia.
  - eexists. exists s. split; [reflexivity|]. split; [exact Hrun|].
    rewrite Z.add_0_l in Hwfx.
    destruct (wf_totalWeight s _ (wfx_wf _ _ Hwfx)) as [Hw Hn].
    split; [exact Hn|]. split; [exact Hw|]. apply (wfx_len _ _ Hwfx).
Qed.

Lemma updates_take_in_every_stream_witness :
  exists s0 s : Items.ItemsSketch StringItems.GoString unit,
    Items.NewItemsSketch 8 = Ok s0 /\ updates s0 (StringItems.letters 40) = Some s /\
    Items.n s = zlen (taken (StringItems.letters 40)) /\
    totalWeight s = zlen (taken (StringItems.letters 40)) /\
    zlen (Items.items s) = lv (Items.levels s) (Items.numLevels s).
Proof.
  apply (updates_take_in_every_stream (C := StringItems.GoString) (SV := unit)
           (OpC := StringItems.stringItemsSketchOp) (RtC := StringItems.stringRuntime)
           8 (StringItems.letters 40) (fun less l => insertion_sort_perm less l)).
  - lia.
  - vm_compute. reflexivity.
Defined.

Section MergeProgressFacts.
Context {C SV : Type} {OpC : Items.ItemSketchOp C} {RtC : Items.Runtime C}.
Hypothesis sortSlice_perm : forall less (l : list C), Permutation (Items.sortSlice less l) l.
#[local] Abbreviation Sketch := (Items.ItemsSketch C SV).

Lemma updateItem_wfx (s s' : Sketch) c x :
  wfx s c -> c < 2 ^ 63 -> Items.updateItem s x = Some s' ->
  wfx s' (c + (if Items.isNil x then 0 else 1)).
Proof.
  intros Hwfx Hc Hrun.
  destruct (updateItem_total sortSlice_perm s c x Hwfx Hc) as (s'' & Hrun' & Hwfx').
  rewrite Hrun in Hrun'. injection Hrun' as <-. exact Hwfx'.
Qed.

Lemma level0_updates_wfx (other : Sketch) c' n : forall (s s1 : Sketch) c,
  wf other c' -> wfx s c ->
  0 <= n -> lv (Items.levels other) 0 + n <= lv (Items.levels other) 1 ->
  c + n < 2 ^ 63 ->
  iter_up (Z.to_nat n) (lv (Items.levels other) 0)
    (fun i s => x ← zget (Items.GetTotalItemsArray other) i; Items.updateItem s x) s = Some s1 ->
  wfx s1 (c + n).
Proof.
  intros s s1 c Ho Hs Hn Hfit Hc Hrun.
  pose proof (GetTotalItemsArray_nonNil other c' Ho) as Hnn.
  pose proof (wf_numLevels _ _ Ho) as Hnlo.
  pose proof (wf_le other c' 1 (Items.numLevels other) Ho ltac:(lia) ltac:(lia) ltac:(lia)) as H1top.
  pose proof (wf_count_nonneg _ _ (wfx_wf _ _ Hs)) as Hc0.
  set (lo := lv (Items.levels other) 0) in *.
  apply (iter_up_inv (fun i (s : Sketch) => wfx s (c + (i - lo)))) in Hrun.
  - replace (lo + Z.of_nat (Z.to_nat n) - lo) with n in Hrun by lia. exact Hrun.
  - intros i s0 s0' Hi Hinv Hbody. bind_step Hbody x Ex.
    assert (Hx : Items.isNil x = false).
    { eapply (nonNil_read _ _ _ i); [exact Hnn| |exact Ex]. lia. }
    apply (updateItem_wfx _ _ _ _ Hinv ltac:(lia)) in Hbody.
    rewrite Hx in Hbody. replace (c + (i + 1 - lo)) with (c + (i - lo) + 1) by lia. exact Hbody.
  - replace (c + (lo - lo)) with c by lia. exact Hs.
Qed.

Lemma mergeItemsSketch_wfx (s other s' : Sketch) c c' :
  wfx s c -> wfx other c' -> c + c' < 2 ^ 63 ->
  Items.mergeItemsSketch s other = Some s' -> wfx s' (c + c').
Proof.
  intros Hsx Hox Hc Hrun.
  pose proof (wfx_wf _ _ Hsx) as Hs. pose proof (wfx_wf _ _ Hox) as Ho.
  pose proof (mergeItemsSketch_wf sortSlice_perm s other s' c c' Hs Ho ltac:(lia) Hrun) as Hwf'.
  unfold Items.mergeItemsSketch in Hrun.
  destruct (Items.IsEmpty other) eqn:Hemp.
  { injection Hrun as <-. unfold Items.IsEmpty in Hemp. apply bool_decide_eq_true in Hemp.
    rewrite (wf_n _ _ Ho) in Hemp. subst c'. now rewrite Z.add_0_r. }
  unfold Items.IsEmpty in Hemp. apply bool_decide_eq_false in Hemp.
  rewrite (wf_n _ _ Ho) in Hemp.
  destruct (wfx_minmax _ _ Hox Hemp) as [[omi Homi] [oma Homa]].
  bind_step Hrun mm Emm. clear Emm. destruct mm as [myMin myMax].
  pose proof (wf_numLevels _ _ Ho) as Hnlo.
  destruct (wf_range other c' 0 Ho ltac:(lia)) as [Hr0 Hg0].
  destruct (wf_range other c' 1 Ho ltac:(lia)) as [Hr1 Hg1].
  pose proof (wf_le other c' 0 1 Ho ltac:(lia) ltac:(lia) ltac:(lia)) as H01.
  pose proof (wf_level0_le other c' Ho) as Hpop0.
  pose proof (wf_count_nonneg _ _ Hs) as Hc0. pose proof (wf_count_nonneg _ _ Ho) as Hc0'.
  rewrite Hg0, Hg1 in Hrun. cbn [mbind option_bind] in Hrun.
  bind_step Hrun s1 Es1.
  apply (level0_updates_wfx other c' (lv (Items.levels other) 1 - lv (Items.levels other) 0)
           s s1 c Ho Hsx ltac:(lia) ltac:(lia) ltac:(lia)) in Es1.
  pose proof (wfx_wf _ _ Es1) as Hs1.
  rewrite (wf_n _ _ Hs), (wf_n _ _ Ho) in Hrun.
  rewrite (u64_small (c + c')) in Hrun by lia.
  bind_step Hrun r Er. destruct r as [[nl' L'] items'].
  apply (merged_layout_ok sortSlice_perm s1 other _ c' (c + c') nl' L' items' Hs1 Ho ltac:(lia)) in Er
    as (_ & _ & _ & Hextra).
  destruct Hextra as [Hlen' Hcap'].
  { intros Hone. unfold Items.GetTotalItemsArray. rewrite decide_False.
    - apply (wfx_len _ _ Es1).
    - rewrite (wf_n _ _ Hs1).
      pose proof (wf_weight _ _ Ho) as HwO. rewrite Hone in HwO.
      change (Z.to_nat 1) with 1%nat in HwO. cbn [wsum] in HwO.
      change (Z.of_nat 0) with 0 in HwO. change (2 ^ 0) with 1 in HwO.
      change (0 + 1) with 1 in HwO. lia. }
  { apply (wfx_cap _ _ Es1). }
  bind_step Hrun mx Emx.
  assert (Hmx : is_Some mx.1 /\ is_Some mx.2).
  { destruct (Items.IsEmpty s).
    - injection Emx as <-. cbn [fst snd]. rewrite Homi, Homa. split; eexists; reflexivity.
    - rewrite Homi, Homa in Emx. cbn [mbind option_bind] in Emx. injection Emx as <-.
      cbn [fst snd]. split; [destruct (Items.lessFn myMin omi)|destruct (Items.lessFn oma myMax)];
        eexists; reflexivity. }
  clear Emx. injection Hrun as <-.
  constructor; sk_simpl.
  - exact Hwf'.
  - exact Hlen'.
  - exact Hcap'.
  - intros _. exact Hmx.
Qed.

Lemma Merge_wfx (s other s' : Sketch) c c' :
  wfx s c -> wfx other c' -> c + c' < 2 ^ 63 ->
  Items.Merge s other = Some s' -> wfx s' (c + c').
Proof.
  intros Hs Ho Hc Hrun. unfold Items.Merge in Hrun.
  destruct (Items.IsEmpty other) eqn:Hemp.
  - injection Hrun as <-. unfold Items.IsEmpty in Hemp. apply bool_decide_eq_true in Hemp.
    rewrite (wf_n _ _ (wfx_wf _ _ Ho)) in Hemp. subst c'. now rewrite Z.add_0_r.
  - bind_step Hrun s1 E1. injection Hrun as <-.
    apply (mergeItemsSketch_wfx s other s1 c c' Hs Ho Hc) in E1.
    eapply wfx_same_layout; [..|exact E1]; try reflexivity. apply (wfx_minmax _ _ E1).
Qed.

Lemma reachable_wfx (s : Sketch) c : reachable s c -> c < 2 ^ 63 -> wfx s c.
Proof.
  induction 1 as [k0 s Hnew|s c item s' Hr IH Hc Hrun|s c other c' s' Hr1 IH1 Hr2 IH2 Hc Hrun
                 |s c Hr IH]; intros Hlt.
  - unfold Items.NewItemsSketch in Hnew. destruct (decide _) as [|Hk]; [discriminate|].
    injection Hnew as <-. apply fresh_wfx; [|reflexivity].
    unfold Items._MIN_K, Items._MAX_K, Items._DEFAULT_M in Hk. lia.
  - pose proof (wf_count_nonneg _ _ (reachable_wf sortSlice_perm s c Hr)) as Hc0.
    assert (Hlt0 : c < 2 ^ 63) by (destruct (Items.isNil item); lia).
    specialize (IH Hlt0). unfold Items.Update in Hrun. bind_step Hrun s1 E1.
    injection Hrun as <-. apply (updateItem_wfx s s1 c item IH Hlt0) in E1.
    eapply wfx_same_layout; [..|exact E1]; try reflexivity. apply (wfx_minmax _ _ E1).
  - pose proof (wf_count_nonneg _ _ (reachable_wf sortSlice_perm s c Hr1)) as Hc0.
    pose proof (wf_count_nonneg _ _ (reachable_wf sortSlice_perm other c' Hr2)) as Hc0'.
    apply (Merge_wfx s other s' c c' (IH1 ltac:(lia)) (IH2 ltac:(lia)) Hlt Hrun).
  - pose proof (reachable_wf sortSlice_perm s c Hr) as Hwf.
    apply fresh_wfx; [apply (wf_k _ _ Hwf)|apply (wf_m _ _ Hwf)].
Qed.

End MergeProgressFacts.

(** X5. [Update] returns on every sketch that updates, merges and resets
    lead to, as long as fewer than [2^63] items have been taken in. On a
    sketch reachable from [NewItemsSketch] by [Update], [Merge] and [Reset]
    calls that returned ([sort.Slice] a permutation), the call [Update(item)]
    returns: no index leaves its array, the search for the level to compact
    ends and no level is added beyond the 61st. The sketch it returns is
    reachable, with the item counted if it is not nil, and its items array
    has the length [levels[numLevels]]. *)
Theorem update_returns_on_reachable {C SV : Type} {OpC : Items.ItemSketchOp C}
    {RtC : Items.Runtime C} (s : Items.ItemsSketch C SV) (c : Z) (item : C) :
  (forall less (l : list C), Permutation (Items.sortSlice less l) l) ->
  reachable s c -> c < 2 ^ 63 ->
  exists s', Items.Update s item = Some s' /\
    reachable s' (c + (if Items.isNil item then 0 else 1)) /\
    zlen (Items.items s') = lv (Items.levels s') (Items.numLevels s').
Proof.
  intros Hsort Hr Hc. pose proof (reachable_wfx Hsort s c Hr Hc) as Hwfx.
  destruct (updateItem_total Hsort s c item Hwfx Hc) as (s1 & Hrun & Hwfx1).
  assert (Hup : Items.Update s item = Some (Items.set_sortedView s1 None)).
  { unfold Items.Update. rewrite Hrun. reflexivity. }
  eexists. split; [exact Hup|]. split.
  - apply (reach_update s c item _ Hr ltac:(lia) Hup).
  - apply (wfx_len _ _ Hwfx1).
Qed.

Lemma update_returns_on_reachable_witness :
  exists s1 s2 s : Items.ItemsSketch StringItems.GoString unit,
    StringItems.sketchOf 8 (StringItems.letters 12) = Ok s1 /\
    StringItems.sketchOf 8 (StringItems.letters 20) = Ok s2 /\
    Items.Merge s1 s2 = Some s /\
    exists s', Items.Update s [97] = Some s' /\
      reachable s' (32 + (if Items.isNil (C := StringItems.GoString) [97] then 0 else 1)) /\
      zlen (Items.items s') = lv (Items.levels s') (Items.numLevels s').
Proof.
  eexists. eexists. eexists.
  split; [vm_compute; reflexivity|].
  split; [vm_compute; reflexivity|].
  split; [vm_compute; reflexivity|].
  apply (update_returns_on_reachable (C := StringItems.GoString) (SV := unit)
           (OpC := StringItems.stringItemsSketchOp) (RtC := StringItems.stringRuntime)
           _ 32 [97] (fun less l => insertion_sort_perm less l)).
  - eapply (reach_merge _ 12 _ 20).
    + apply (reachable_sketchOf 8 (StringItems.letters 12)); [vm_compute; reflexivity|].
      vm_compute. reflexivity.
    + apply (reachable_sketchOf 8 (StringItems.letters 20)); [vm_compute; reflexivity|].
      vm_compute. reflexivity.
    + lia.
    + vm_compute. reflexivity.
  - lia.
Defined.

(** ** The capacities of the levels *)

Section CapacityOrder.

Lemma div_le_cross a b c e :
  0 < b -> 0 < e -> 0 <= a -> a * e <= c * b -> a / b <= c / e.
Proof.
  intros Hb He Ha Hcross. apply Z.div_le_lower_bound; [exact He|].
  pose proof (Z.mul_div_le a b Hb) as H1.
  assert (H2 : 0 <= a / b) by (apply Z.div_pos; lia).
  assert (H3 : b * (e * (a / b)) <= b * c) by nia.
  apply (Z.mul_le_mono_pos_l _ _ b Hb). exact H3.
Qed.

(** [T * (2/3)^d], floored, shrinks as [d] grows. *)
Lemma scaled_div_antitone T d e :
  0 <= T -> 0 <= d -> 0 <= e -> T * 2 ^ (d + e) / 3 ^ (d + e) <= T * 2 ^ d / 3 ^ d.
Proof.
  intros HT Hd He.
  assert (H3d : 0 < 3 ^ d) by (apply Z.pow_pos_nonneg; lia).
  assert (H3e : 0 < 3 ^ e) by (apply Z.pow_pos_nonneg; lia).
  assert (H2d : 0 < 2 ^ d) by (apply Z.pow_pos_nonneg; lia).
  assert (H2e : 0 < 2 ^ e) by (apply Z.pow_pos_nonneg; lia).
  pose proof (pow2_le_pow3 e He) as Hle.
  rewrite !Z.pow_add_r by lia.
  assert (H : T * 2 ^ d * 3 ^ d * 2 ^ e <= T * 2 ^ d * 3 ^ d * 3 ^ e).
  { apply Z.mul_le_mono_nonneg_l; [|exact Hle].
    apply Z.mul_nonneg_nonneg; [apply Z.mul_nonneg_nonneg|]; lia. }
  apply div_le_cross.
  - apply Z.mul_pos_pos; lia.
  - exact H3d.
  - apply Z.mul_nonneg_nonneg; [lia|]. apply Z.mul_nonneg_nonneg; lia.
  - lia.
Qed.

Lemma rounded_antitone T d e :
  0 <= T -> 0 <= d -> 0 <= e ->
  (T * 2 ^ (d + e) / 3 ^ (d + e) + 1) / 2 <= (T * 2 ^ d / 3 ^ d + 1) / 2.
Proof.
  intros HT Hd He. apply Z.div_le_mono; [lia|].
  pose proof (scaled_div_antitone T d e HT Hd He). lia.
Qed.

Lemma intCapAuxAux_antitone k d e :
  0 <= k < 2 ^ 16 -> 0 <= d -> 0 <= e -> d + e <= 30 ->
  exists c c', Items.intCapAuxAux k d = Some c /\ Items.intCapAuxAux k (d + e) = Some c' /\
               0 <= c' <= c /\ c <= k.
Proof.
  intros Hk Hd He Hde.
  destruct (intCapAuxAux_eval k d Hk ltac:(lia)) as [-> Hr1].
  destruct (intCapAuxAux_eval k (d + e) Hk ltac:(lia)) as [-> Hr2].
  eexists. eexists. split; [reflexivity|]. split; [reflexivity|].
  assert (HT : 0 <= u16 (2 * k)) by (unfold u16; apply Z.mod_pos_bound; lia).
  pose proof (rounded_antitone (u16 (2 * k)) d e HT Hd He). lia.
Qed.

(** Thirty levels below the top nothing of [K] is left. *)
Lemma intCapAuxAux_30 k : 0 <= k < 2 ^ 16 -> Items.intCapAuxAux k 30 = Some 0.
Proof.
  intros Hk. destruct (intCapAuxAux_eval k 30 Hk ltac:(lia)) as [-> _]. f_equal.
  assert (HT : 0 <= u16 (2 * k) < 2 ^ 16) by (unfold u16; apply Z.mod_pos_bound; lia).
  assert (Hq : u16 (2 * k) * 2 ^ 30 / 3 ^ 30 = 0).
  { apply Z.div_small. split; [lia|].
    apply Z.lt_le_trans with (2 ^ 16 * 2 ^ 30); [|vm_compute; discriminate].
    apply Z.mul_lt_mono_pos_r; [reflexivity|lia]. }
  rewrite Hq. reflexivity.
Qed.

Lemma intCapAuxAux_15_le k : 0 <= k < 2 ^ 16 -> forall d, 15 <= d <= 30 ->
  exists c, Items.intCapAuxAux k d = Some c /\ 0 <= c <= 75.
Proof.
  intros Hk d Hd.
  destruct (intCapAuxAux_antitone k 15 (d - 15) Hk ltac:(lia) ltac:(lia) ltac:(lia))
    as (c & c' & Hc & Hc' & Hle & _).
  replace (15 + (d - 15)) with d in Hc' by lia.
  exists c'. split; [exact Hc'|].
  destruct (intCapAuxAux_eval k 15 Hk ltac:(lia)) as [Hv _]. rewrite Hv in Hc.
  injection Hc as <-.
  assert (HT : 0 <= u16 (2 * k) < 2 ^ 16) by (unfold u16; apply Z.mod_pos_bound; lia).
  assert (Hq : u16 (2 * k) * 2 ^ 15 / 3 ^ 15 <= 149).
  { apply Z.lt_succ_r. apply Z.div_lt_upper_bound; [reflexivity|].
    change (3 ^ 15 * Z.succ 149) with 2152336050. change (2 ^ 15) with 32768. lia. }
  assert (Hv75 : (u16 (2 * k) * 2 ^ 15 / 3 ^ 15 + 1) / 2 <= 75).
  { apply Z.lt_succ_r. apply Z.div_lt_upper_bound; lia. }
  lia.
Qed.

Lemma intCapAuxAux_small_16 k d :
  0 <= k <= 75 -> 16 <= d <= 30 -> Items.intCapAuxAux k d = Some 0.
Proof.
  intros Hk Hd.
  destruct (intCapAuxAux_antitone k 16 (d - 16) ltac:(lia) ltac:(lia) ltac:(lia) ltac:(lia))
    as (c & c' & Hc & Hc' & Hle & _).
  replace (16 + (d - 16)) with d in Hc' by lia. rewrite Hc'. f_equal.
  destruct (intCapAuxAux_eval k 16 ltac:(lia) ltac:(lia)) as [Hv _]. rewrite Hv in Hc.
  injection Hc as <-. rewrite (u16_small (2 * k)) in Hle by lia.
  assert (Hq : 2 * k * 2 ^ 16 / 3 ^ 16 = 0).
  { apply Z.div_small. change (2 ^ 16) with 65536. change (3 ^ 16) with 43046721. lia. }
  rewrite Hq in Hle. change ((0 + 1) / 2) with 0 in Hle. lia.
Qed.

Lemma intCapAux_deep k d : 0 <= k < 2 ^ 16 -> 30 <= d <= 60 -> Items.intCapAux k d = Some 0.
Proof.
  intros Hk Hd. unfold Items.intCapAux. destruct (decide (d <= 30)) as [Hle|Hgt].
  - replace d with 30 by lia. apply intCapAuxAux_30. exact Hk.
  - assert (Hh : 15 <= d / 2 <= 30).
    { split; [apply Z.div_le_lower_bound|apply Z.div_le_upper_bound]; lia. }
    assert (Hrest : 16 <= d - d / 2 <= 30).
    { pose proof (Z.div_mod d 2 ltac:(lia)). pose proof (Z.mod_pos_bound d 2 ltac:(lia)). lia. }
    destruct (intCapAuxAux_15_le k Hk (d / 2) Hh) as (c & -> & Hc). cbn [mbind option_bind].
    rewrite (u8_small (d - d / 2)) by lia. rewrite (u16_small c) by lia.
    apply intCapAuxAux_small_16; lia.
Qed.

Lemma intCapAux_antitone k d :
  0 <= k < 2 ^ 16 -> 0 <= d -> d + 1 <= 60 ->
  exists c c', Items.intCapAux k d = Some c /\ Items.intCapAux k (d + 1) = Some c' /\
               0 <= c' <= c /\ c <= k.
Proof.
  intros Hk Hd Hd1. destruct (decide (d + 1 <= 30)) as [Hlow|Hhigh].
  - unfold Items.intCapAux. rewrite !decide_True by lia.
    apply intCapAuxAux_antitone; lia.
  - rewrite (intCapAux_deep k (d + 1)) by lia.
    destruct (intCapAux_le_k k d Hk ltac:(lia)) as (c & Hc & Hr).
    exists c, 0. split; [exact Hc|]. split; [reflexivity|]. lia.
Qed.

End CapacityOrder.

(** X7. The capacities of the levels of the items sketch never decrease from
    a level to the one above it, lie between [M] and [max(M, K)], and are [M]
    from the 30th level below the top downwards. For [K] up to 65535, [M] up
    to 255 and at most 61 levels [levelCapacity] returns at both levels. *)
Theorem levelCapacity_grows_with_level (k m numLevels level : Z) :
  0 <= k <= 65535 -> 0 <= m <= 255 -> 1 <= numLevels <= 61 ->
  0 <= level -> level + 1 < numLevels ->
  exists c c',
    Items.levelCapacity k numLevels level m = Some c /\
    Items.levelCapacity k numLevels (level + 1) m = Some c' /\
    m <= c /\ c <= c' /\ c' <= Z.max m k /\
    (30 <= numLevels - level - 1 -> c = m).
Proof.
  intros Hk Hm Hnl Hl Hl1. unfold Items.levelCapacity.
  rewrite (u8_small (numLevels - level)), (u8_small (numLevels - level - 1)) by lia.
  rewrite (u8_small (numLevels - (level + 1))), (u8_small (numLevels - (level + 1) - 1)) by lia.
  rewrite (u32_small m) by lia.
  destruct (intCapAux_antitone k (numLevels - (level + 1) - 1) ltac:(lia) ltac:(lia) ltac:(lia))
    as (c' & c & Hc' & Hc & Hle & Hck).
  replace (numLevels - (level + 1) - 1 + 1) with (numLevels - level - 1) in Hc by lia.
  rewrite Hc, Hc'. cbn [mbind option_bind].
  eexists. eexists. split; [reflexivity|]. split; [reflexivity|].
  split; [lia|]. split; [lia|]. split; [lia|].
  intros Hdeep. rewrite (intCapAux_deep k (numLevels - level - 1)) in Hc by lia.
  injection Hc as <-. lia.
Qed.

Lemma levelCapacity_grows_with_level_witness :
  exists c c',
    Items.levelCapacity 200 5 1 8 = Some c /\
    Items.levelCapacity 200 5 (1 + 1) 8 = Some c' /\
    8 <= c /\ c <= c' /\ c' <= Z.max 8 200 /\
    (30 <= 5 - 1 - 1 -> c = 8).
Proof. apply (levelCapacity_grows_with_level 200 8 5 1); lia. Defined.

(** ** The level to compact *)

Section FirstFullLevel.
Variables k m nl : Z.
Variable L : list Z.
Hypothesis Hk : 0 <= k <= 65535.
Hypothesis Hm : 0 <= m <= 255.
Hypothesis Hnl : 1 <= nl <= 61.
Hypothesis Hlen : zlen L = nl + 1.
Hypothesis Hasc : forall i, 0 <= i < nl -> 0 <= lv L i <= lv L (i + 1) /\ lv L (i + 1) < 2 ^ 32.

Lemma findLevelToCompact_from_first_full (fuel : nat) : forall level l,
  0 <= level <= l -> l < nl -> (Z.to_nat (l - level) < fuel)%nat ->
  (forall j c, level <= j < l -> Items.levelCapacity k nl j m = Some c ->
     lv L (j + 1) - lv L j < c) ->
  (forall c, Items.levelCapacity k nl l m = Some c -> c <= lv L (l + 1) - lv L l) ->
  Items.findLevelToCompact_from fuel k m nl L level = Some l.
Proof.
  induction fuel as [|fuel IH]; intros level l Hl Hln Hfuel Hbelow Hfull; [lia|].
  cbn [Items.findLevelToCompact_from].
  rewrite (u8_small (level + 1)) by lia.
  rewrite (zget_lv L (level + 1)), (zget_lv L level) by lia. cbn [mbind option_bind].
  destruct (levelCapacity_total k nl level m ltac:(lia) ltac:(lia) ltac:(lia) ltac:(lia))
    as (c & Hc & _).
  rewrite Hc. cbn [mbind option_bind].
  destruct (Hasc level ltac:(lia)) as [Ha1 Ha2].
  rewrite (u32_small (lv L (level + 1) - lv L level)) by lia.
  destruct (decide (level = l)) as [->|Hne].
  - specialize (Hfull c Hc). destruct (decide _) as [|Hn]; [reflexivity|lia].
  - pose proof (Hbelow level c ltac:(lia) Hc) as Hb. destruct (decide _) as [Hy|]; [lia|].
    apply IH; [lia|lia|lia| |exact Hfull]. intros j c' Hj. apply Hbelow. lia.
Qed.

Lemma findLevelToCompact_from_none (fuel : nat) : forall level,
  0 <= level <= nl ->
  (forall j c, level <= j < nl -> Items.levelCapacity k nl j m = Some c ->
     lv L (j + 1) - lv L j < c) ->
  Items.findLevelToCompact_from fuel k m nl L level = None.
Proof.
  induction fuel as [|fuel IH]; intros level Hl Hbelow; [reflexivity|].
  cbn [Items.findLevelToCompact_from].
  rewrite (u8_small (level + 1)) by lia.
  destruct (decide (level = nl)) as [->|Hne].
  - assert (Hout : zget L (nl + 1) = None).
    { destruct (zget L (nl + 1)) as [x|] eqn:E; [|reflexivity].
      apply zget_Some_lt in E. lia. }
    rewrite Hout. reflexivity.
  - rewrite (zget_lv L (level + 1)), (zget_lv L level) by lia. cbn [mbind option_bind].
    destruct (levelCapacity_total k nl level m ltac:(lia) ltac:(lia) ltac:(lia) ltac:(lia))
      as (c & Hc & _).
    rewrite Hc. cbn [mbind option_bind].
    destruct (Hasc level ltac:(lia)) as [Ha1 Ha2].
    rewrite (u32_small (lv L (level + 1) - lv L level)) by lia.
    pose proof (Hbelow level c ltac:(lia) Hc) as Hb. destruct (decide _) as [Hy|]; [lia|].
    apply IH; [lia|]. intros j c' Hj. apply Hbelow. lia.
Qed.

End FirstFullLevel.

(** X8. [findLevelToCompact] of the items sketch returns the lowest level
    whose population has reached its capacity, and has no way out when there
    is none: on a levels array of [numLevels + 1] ascending entries, if level
    [l] is full and the levels below it are not, the result is [l]; if no
    level is full, the search runs past the top and the call panics (it
    reads [levels[numLevels + 1]]). *)
Theorem findLevelToCompact_returns_lowest_full_level (k m numLevels : Z) (levels : list Z) :
  0 <= k <= 65535 -> 0 <= m <= 255 -> 1 <= numLevels <= 61 ->
  zlen levels = numLevels + 1 ->
  (forall i, 0 <= i < numLevels ->
     0 <= lv levels i <= lv levels (i + 1) /\ lv levels (i + 1) < 2 ^ 32) ->
  (forall l, 0 <= l < numLevels ->
     (forall j c, 0 <= j < l -> Items.levelCapacity k numLevels j m = Some c ->
        lv levels (j + 1) - lv levels j < c) ->
     (forall c, Items.levelCapacity k numLevels l m = Some c ->
        c <= lv levels (l + 1) - lv levels l) ->
     Items.findLevelToCompact k m numLevels levels = Some l) /\
  ((forall j c, 0 <= j < numLevels -> Items.levelCapacity k numLevels j m = Some c ->
      lv levels (j + 1) - lv levels j < c) ->
   Items.findLevelToCompact k m numLevels levels = None).
Proof.
  intros Hk Hm Hnl Hlen Hasc. unfold Items.findLevelToCompact. split.
  - intros l Hl Hbelow Hfull.
    apply (findLevelToCompact_from_first_full k m numLevels levels Hk Hm Hnl Hlen Hasc 256 0 l);
      try lia; assumption.
  - intros Hbelow.
    apply (findLevelToCompact_from_none k m numLevels levels Hk Hm Hnl Hlen Hasc 256 0);
      [lia|assumption].
Qed.

Lemma findLevelToCompact_returns_lowest_full_level_witness :
  (forall l, 0 <= l < 2 ->
     (forall j c, 0 <= j < l -> Items.levelCapacity 8 2 j 8 = Some c ->
        lv [0; 3; 11] (j + 1) - lv [0; 3; 11] j < c) ->
     (forall c, Items.levelCapacity 8 2 l 8 = Some c ->
        c <= lv [0; 3; 11] (l + 1) - lv [0; 3; 11] l) ->
     Items.findLevelToCompact 8 8 2 [0; 3; 11] = Some l) /\
  ((forall j c, 0 <= j < 2 -> Items.levelCapacity 8 2 j 8 = Some c ->
      lv [0; 3; 11] (j + 1) - lv [0; 3; 11] j < c) ->
   Items.findLevelToCompact 8 8 2 [0; 3; 11] = None).
Proof.
  apply (findLevelToCompact_returns_lowest_full_level 8 8 2 [0; 3; 11]); try lia.
  - reflexivity.
  - intros i Hi. assert (Hc : i = 0 \/ i = 1) by lia.
    destruct Hc as [-> | ->]; vm_compute; repeat split; discriminate.
Defined.

(** ** The [int]-based helpers *)

Section HelperCapacity.

Lemma scaled_lt_pow60 x d : 0 <= x <= 2 ^ 30 -> 0 <= d <= 30 -> 0 <= x * 2 ^ d <= 2 ^ 60.
Proof.
  intros Hx Hd.
  assert (H2 : 0 < 2 ^ d) by (apply Z.pow_pos_nonneg; lia).
  assert (Hle : 2 ^ d <= 2 ^ 30) by (apply Z.pow_le_mono_r; lia).
  split; [apply Z.mul_nonneg_nonneg; lia|].
  change (2 ^ 60) with (2 ^ 30 * 2 ^ 30). apply Z.mul_le_mono_nonneg; lia.
Qed.

(** The [int64] step: nothing wraps for [k] up to [2^29], and the error
    [result > k] does not occur. *)
Lemma helper_intCapAuxAux_eval k d :
  0 <= k <= 2 ^ 29 -> 0 <= d <= 30 ->
  Helper.intCapAuxAux k d = Ok ((2 * k * 2 ^ d / 3 ^ d + 1) / 2) /\
  0 <= (2 * k * 2 ^ d / 3 ^ d + 1) / 2 <= k.
Proof.
  intros Hk Hd. unfold Helper.intCapAuxAux.
  rewrite powersOfThree_lookup by lia. cbn [of_option bind].
  rewrite (Z.shiftl_mul_pow2 k 1) by lia. change (2 ^ 1) with 2. rewrite (Z.mul_comm k 2).
  rewrite (i64_small (2 * k)) by lia.
  rewrite (Z.shiftl_mul_pow2 (2 * k) d) by lia.
  pose proof (scaled_lt_pow60 (2 * k) d ltac:(lia) Hd) as H60.
  rewrite (i64_small (2 * k * 2 ^ d)) by lia.
  assert (H3 : 0 < 3 ^ d) by (apply Z.pow_pos_nonneg; lia).
  rewrite Z.quot_div_nonneg by lia.
  pose proof (scaled_div_le (2 * k) d ltac:(lia) ltac:(lia)) as Hq.
  set (tmp := 2 * k * 2 ^ d / 3 ^ d) in *.
  rewrite (i64_small (tmp + 1)) by lia.
  rewrite Z.shiftr_div_pow2 by lia. change (2 ^ 1) with 2.
  assert (Hres : 0 <= (tmp + 1) / 2 <= k).
  { split; [apply Z.div_pos; lia|].
    enough ((tmp + 1) / 2 < k + 1) by lia. apply Z.div_lt_upper_bound; lia. }
  split; [|exact Hres]. destruct (decide _) as [Hgt|]; [lia|reflexivity].
Qed.

Lemma helper_intCapAux_le_k k d :
  0 <= k <= 2 ^ 29 -> 0 <= d <= 60 ->
  exists c, Helper.intCapAux k d = Ok c /\ 0 <= c <= k.
Proof.
  intros Hk Hd. unfold Helper.intCapAux. destruct (decide (d <= 30)).
  - destruct (helper_intCapAuxAux_eval k d Hk ltac:(lia)) as [-> Hr]. eauto.
  - rewrite Z.quot_div_nonneg by lia.
    assert (Hh : 15 <= d / 2 <= 30).
    { split; [apply Z.div_le_lower_bound|apply Z.div_le_upper_bound]; lia. }
    assert (Hrest : 0 <= d - d / 2 <= 30).
    { pose proof (Z.div_mod d 2 ltac:(lia)). pose proof (Z.mod_pos_bound d 2 ltac:(lia)). lia. }
    destruct (helper_intCapAuxAux_eval k (d / 2) Hk ltac:(lia)) as [-> Hr]. cbn [bind].
    set (tmp := (2 * k * 2 ^ (d / 2) / 3 ^ (d / 2) + 1) / 2) in *.
    destruct (helper_intCapAuxAux_eval tmp (d - d / 2) ltac:(lia) Hrest) as [-> Hr2].
    eexists. split; [reflexivity|lia].
Qed.

Lemma helper_items_intCapAux k d :
  0 <= k <= 32767 -> 0 <= d <= 60 ->
  exists c, Helper.intCapAux k d = Ok c /\ Items.intCapAux k d = Some c /\ 0 <= c <= k.
Proof.
  intros Hk Hd. unfold Helper.intCapAux, Items.intCapAux. destruct (decide (d <= 30)).
  - destruct (helper_intCapAuxAux_eval k d ltac:(lia) ltac:(lia)) as [-> Hr].
    destruct (intCapAuxAux_eval k d ltac:(lia) ltac:(lia)) as [-> _].
    rewrite (u16_small (2 * k)) by lia. eauto.
  - rewrite Z.quot_div_nonneg by lia.
    assert (Hh : 15 <= d / 2 <= 30).
    { split; [apply Z.div_le_lower_bound|apply Z.div_le_upper_bound]; lia. }
    assert (Hrest : 0 <= d - d / 2 <= 30).
    { pose proof (Z.div_mod d 2 ltac:(lia)). pose proof (Z.mod_pos_bound d 2 ltac:(lia)). lia. }
    destruct (helper_intCapAuxAux_eval k (d / 2) ltac:(lia) ltac:(lia)) as [-> Hr].
    destruct (intCapAuxAux_eval k (d / 2) ltac:(lia) ltac:(lia)) as [-> _].
    rewrite (u16_small (2 * k)) by lia. cbn [bind mbind option_bind].
    set (tmp := (2 * k * 2 ^ (d / 2) / 3 ^ (d / 2) + 1) / 2) in *.
    rewrite (u8_small (d - d / 2)) by lia. rewrite (u16_small tmp) by lia.
    destruct (helper_intCapAuxAux_eval tmp (d - d / 2) ltac:(lia) Hrest) as [-> Hr2].
    destruct (intCapAuxAux_eval tmp (d - d / 2) ltac:(lia) Hrest) as [-> _].
    rewrite (u16_small (2 * tmp)) by lia.
    eexists. split; [reflexivity|]. split; [reflexivity|lia].
Qed.

End HelperCapacity.

(** X9. The two implementations of [levelCapacity] agree up to [K = 32767].
    The [int]-based helper ([helper.go]) returns for every [K] from 0 to
    [2^29] at a valid level of at most 61 levels: its [int64] arithmetic does
    not wrap and its error [result > k] never occurs; the capacity lies
    between [M] and [max(M, K)]. For [K <= 32767] and [M <= 255] the
    [uint]-based function of the items sketch returns the same capacity. *)
Theorem helper_levelCapacity_agrees_with_items (k m numLevels level : Z) :
  0 <= k <= 2 ^ 29 -> 0 <= m -> 1 <= numLevels <= 61 -> 0 <= level < numLevels ->
  exists c,
    Helper.levelCapacity k numLevels level m = Ok c /\ m <= c <= Z.max m k /\
    (k <= 32767 -> m <= 255 -> Items.levelCapacity k numLevels level m = Some c).
Proof.
  intros Hk Hm Hnl Hl. unfold Helper.levelCapacity.
  rewrite !decide_False by lia.
  destruct (helper_intCapAux_le_k k (numLevels - level - 1) Hk ltac:(lia)) as (c & Hc & Hr).
  rewrite Hc. cbn [bind]. exists (Z.max m c). split; [reflexivity|]. split; [lia|].
  intros Hk' Hm'. unfold Items.levelCapacity.
  rewrite (u8_small (numLevels - level)), (u8_small (numLevels - level - 1)) by lia.
  destruct (helper_items_intCapAux k (numLevels - level - 1) ltac:(lia) ltac:(lia))
    as (c2 & Hc2 & Hi & _).
  rewrite Hc in Hc2. injection Hc2 as <-. rewrite Hi. cbn [mbind option_bind].
  rewrite (u32_small m) by lia. reflexivity.
Qed.

Lemma helper_levelCapacity_agrees_with_items_witness :
  exists c,
    Helper.levelCapacity 200 3 0 8 = Ok c /\ 8 <= c <= Z.max 8 200 /\
    (200 <= 32767 -> 8 <= 255 -> Items.levelCapacity 200 3 0 8 = Some c).
Proof. apply (helper_levelCapacity_agrees_with_items 200 8 3 0); lia. Defined.

Section HelperFirstFullLevel.
Variables k m nl : Z.
Variable L : list Z.
Hypothesis Hk : 0 <= k <= 2 ^ 29.
Hypothesis Hm : 0 <= m.
Hypothesis Hnl : 1 <= nl <= 61.
Hypothesis Hlen : nl + 1 <= zlen L.
Hypothesis Hrange : forall i, 0 <= i <= nl -> - 2 ^ 62 <= lv L i < 2 ^ 62.

Lemma helper_levelCapacity_total level :
  0 <= level < nl -> exists c, Helper.levelCapacity k nl level m = Ok c.
Proof.
  intros Hl. unfold Helper.levelCapacity. rewrite !decide_False by lia.
  destruct (helper_intCapAux_le_k k (nl - level - 1) Hk ltac:(lia)) as (c & -> & _).
  cbn [bind]. eauto.
Qed.

Lemma helper_findLevelToCompact_from_first_full (fuel : nat) : forall level l,
  0 <= level <= l -> l < nl -> (Z.to_nat (l - level) < fuel)%nat ->
  (forall j c, level <= j < l -> Helper.levelCapacity k nl j m = Ok c ->
     lv L (j + 1) - lv L j < c) ->
  (forall c, Helper.levelCapacity k nl l m = Ok c -> c <= lv L (l + 1) - lv L l) ->
  Helper.findLevelToCompact_from fuel k m nl L level = Ok l.
Proof.
  induction fuel as [|fuel IH]; intros level l Hl Hln Hfuel Hbelow Hfull; [lia|].
  cbn [Helper.findLevelToCompact_from].
  rewrite decide_False by lia.
  rewrite (i64_small (level + 1)) by lia.
  rewrite (zget_lv L (level + 1)), (zget_lv L level) by lia. cbn [of_option bind].
  destruct (helper_levelCapacity_total level ltac:(lia)) as (c & Hc).
  rewrite Hc. cbn [bind].
  pose proof (Hrange level ltac:(lia)) as Hr1. pose proof (Hrange (level + 1) ltac:(lia)) as Hr2.
  rewrite (i64_small (lv L (level + 1) - lv L level)) by lia.
  destruct (decide (level = l)) as [->|Hne].
  - specialize (Hfull c Hc). destruct (decide _) as [|Hn]; [reflexivity|lia].
  - pose proof (Hbelow level c ltac:(lia) Hc) as Hb. destruct (decide _) as [Hy|]; [lia|].
    apply IH; [lia|lia|lia| |exact Hfull]. intros j c' Hj. apply Hbelow. lia.
Qed.

Lemma helper_findLevelToCompact_from_none (fuel : nat) : forall level,
  0 <= level <= nl -> (Z.to_nat (nl - level) < fuel)%nat ->
  (forall j c, level <= j < nl -> Helper.levelCapacity k nl j m = Ok c ->
     lv L (j + 1) - lv L j < c) ->
  Helper.findLevelToCompact_from fuel k m nl L level = Err Helper.E_noLevel.
Proof.
  induction fuel as [|fuel IH]; intros level Hl Hfuel Hbelow; [lia|].
  cbn [Helper.findLevelToCompact_from].
  destruct (decide (level >= nl)) as [|Hlt]; [reflexivity|].
  rewrite (i64_small (level + 1)) by lia.
  rewrite (zget_lv L (level + 1)), (zget_lv L level) by lia. cbn [of_option bind].
  destruct (helper_levelCapacity_total level ltac:(lia)) as (c & Hc).
  rewrite Hc. cbn [bind].
  pose proof (Hrange level ltac:(lia)) as Hr1. pose proof (Hrange (level + 1) ltac:(lia)) as Hr2.
  rewrite (i64_small (lv L (level + 1) - lv L level)) by lia.
  pose proof (Hbelow level c ltac:(lia) Hc) as Hb. destruct (decide _) as [Hy|]; [lia|].
  apply IH; [lia|lia|]. intros j c' Hj. apply Hbelow. lia.
Qed.

End HelperFirstFullLevel.

(** X10. The [int]-based [findLevelToCompact] ([helper.go]) returns the
    lowest level whose population has reached its capacity, and the error
    [level >= numLevels] exactly when no level has: it neither panics nor
    returns another error on a levels array of at least [numLevels + 1]
    entries, for [K] up to [2^29] and at most 61 levels. *)
Theorem helper_findLevelToCompact_lowest_or_error (k m numLevels : Z) (levels : list Z) :
  0 <= k <= 2 ^ 29 -> 0 <= m -> 1 <= numLevels <= 61 ->
  numLevels + 1 <= zlen levels ->
  (forall i, 0 <= i <= numLevels -> - 2 ^ 62 <= lv levels i < 2 ^ 62) ->
  (forall l, 0 <= l < numLevels ->
     (forall j c, 0 <= j < l -> Helper.levelCapacity k numLevels j m = Ok c ->
        lv levels (j + 1) - lv levels j < c) ->
     (forall c, Helper.levelCapacity k numLevels l m = Ok c ->
        c <= lv levels (l + 1) - lv levels l) ->
     Helper.findLevelToCompact k m numLevels levels = Ok l) /\
  ((forall j c, 0 <= j < numLevels -> Helper.levelCapacity k numLevels j m = Ok c ->
      lv levels (j + 1) - lv levels j < c) ->
   Helper.findLevelToCompact k m numLevels levels = Err Helper.E_noLevel).
Proof.
  intros Hk Hm Hnl Hlen Hrange. unfold Helper.findLevelToCompact. split.
  - intros l Hl Hbelow Hfull.
    eapply helper_findLevelToCompact_from_first_full; try eassumption; lia.
  - intros Hbelow.
    eapply helper_findLevelToCompact_from_none; try eassumption; lia.
Qed.

Lemma helper_findLevelToCompact_lowest_or_error_witness :
  (forall l, 0 <= l < 2 ->
     (forall j c, 0 <= j < l -> Helper.levelCapacity 8 2 j 8 = Ok c ->
        lv [0; 3; 11] (j + 1) - lv [0; 3; 11] j < c) ->
     (forall c, Helper.levelCapacity 8 2 l 8 = Ok c ->
        c <= lv [0; 3; 11] (l + 1) - lv [0; 3; 11] l) ->
     Helper.findLevelToCompact 8 8 2 [0; 3; 11] = Ok l) /\
  ((forall j c, 0 <= j < 2 -> Helper.levelCapacity 8 2 j 8 = Ok c ->
      lv [0; 3; 11] (j + 1) - lv [0; 3; 11] j < c) ->
   Helper.findLevelToCompact 8 8 2 [0; 3; 11] = Err Helper.E_noLevel).
Proof.
  apply (helper_findLevelToCompact_lowest_or_error 8 8 2 [0; 3; 11]); try lia.
  - vm_compute. discriminate.
  - intros i Hi. assert (Hc : i = 0 \/ i = 1 \/ i = 2) by lia.
    destruct Hc as [-> | [-> | ->]]; vm_compute; (split; [discriminate|reflexivity]).
Defined.

(** ** The hash of the frequencies sketch *)

Section HashFacts.

Lemma u64_bits x : 0 <= x < 2 ^ 64 -> forall i, 64 <= i -> Z.testbit x i = false.
Proof.
  intros Hx i Hi. destruct (decide (x = 0)) as [->|Hne]; [apply Z.bits_0|].
  apply Z.bits_above_log2; [lia|].
  apply Z.lt_le_trans with 64; [|lia]. apply Z.log2_lt_pow2; lia.
Qed.

Lemma below_pow2_of_bits x :
  0 <= x -> (forall i, 64 <= i -> Z.testbit x i = false) -> x < 2 ^ 64.
Proof.
  intros Hx Hb. destruct (decide (x < 2 ^ 64)) as [|Hge]; [assumption|exfalso].
  assert (Hpos : 0 < x) by lia.
  pose proof (Z.bit_log2 x Hpos) as Hbit.
  rewrite Hb in Hbit; [discriminate|].
  apply Z.log2_le_pow2; lia.
Qed.

Lemma xorshift_range x : 0 <= x < 2 ^ 64 -> 0 <= Z.lxor x (Z.shiftr x 33) < 2 ^ 64.
Proof.
  intros Hx.
  assert (Hs : 0 <= Z.shiftr x 33) by (apply Z.shiftr_nonneg; lia).
  assert (Hnn : 0 <= Z.lxor x (Z.shiftr x 33)) by (apply Z.lxor_nonneg; lia).
  split; [exact Hnn|]. apply below_pow2_of_bits; [exact Hnn|].
  intros i Hi. rewrite Z.lxor_spec, Z.shiftr_spec by lia.
  rewrite (u64_bits x Hx i Hi), (u64_bits x Hx (i + 33)) by lia. reflexivity.
Qed.

(** [key ^= key >> 33] undoes itself on a 64-bit value. *)
Lemma xorshift_involutive x :
  0 <= x < 2 ^ 64 ->
  Z.lxor (Z.lxor x (Z.shiftr x 33)) (Z.shiftr (Z.lxor x (Z.shiftr x 33)) 33) = x.
Proof.
  intros Hx. apply Z.bits_inj'. intros i Hi.
  rewrite !Z.lxor_spec, !Z.shiftr_spec, !Z.lxor_spec, !Z.shiftr_spec by lia.
  rewrite (u64_bits x Hx (i + 33 + 33)) by lia.
  destruct (Z.testbit x i), (Z.testbit x (i + 33)); reflexivity.
Qed.

Lemma mul_odd_undone c cinv x :
  u64 (c * cinv) = 1 -> 0 <= x < 2 ^ 64 -> u64 (u64 (x * c) * cinv) = x.
Proof.
  intros Hinv Hx. unfold u64 in *.
  rewrite Z.mul_mod_idemp_l by lia. rewrite <- Z.mul_assoc.
  rewrite <- Z.mul_mod_idemp_r by lia. rewrite Hinv, Z.mul_1_r. apply Z.mod_small. lia.
Qed.

Lemma i64_u64 x : - 2 ^ 63 <= x < 2 ^ 63 -> i64 (u64 x) = x.
Proof.
  intros Hx. unfold i64, u64.
  rewrite Z.add_mod_idemp_l by lia. 
  rewrite Z.mod_small by lia. lia.
Qed.

Lemma u64_i64 x : 0 <= x < 2 ^ 64 -> u64 (i64 x) = x.
Proof.
  intros Hx. unfold i64, u64.
  destruct (decide (x < 2 ^ 63)) as [Hlt|Hge].
  - rewrite (Z.mod_small (x + 2 ^ 63)) by lia.
    replace (x + 2 ^ 63 - 2 ^ 63) with x by lia. apply Z.mod_small. lia.
  - replace (x + 2 ^ 63) with (x - 2 ^ 63 + 1 * 2 ^ 64) by lia.
    rewrite Z_mod_plus_full. rewrite (Z.mod_small (x - 2 ^ 63)) by lia.
    replace (x - 2 ^ 63 - 2 ^ 63) with (x + (-1) * 2 ^ 64) by lia.
    rewrite Z_mod_plus_full. apply Z.mod_small. lia.
Qed.

Lemma i64_range x : - 2 ^ 63 <= i64 x < 2 ^ 63.
Proof. unfold i64. pose proof (Z.mod_pos_bound (x + 2 ^ 63) (2 ^ 64) ltac:(lia)). lia. Qed.

End HashFacts.

(** X6. The hash of the frequencies sketch never maps two keys to one
    value: on the [int64] keys it is one-to-one (each of its steps can be
    undone: the shifted exclusive-or is its own inverse on a 64-bit value and
    both multipliers are odd), so it permutes them. *)
Theorem hash_is_one_to_one (a b : Z) :
  - 2 ^ 63 <= a < 2 ^ 63 -> - 2 ^ 63 <= b < 2 ^ 63 -> a <> b ->
  Frequencies.hash a <> Frequencies.hash b.
Proof.
  intros Ha Hb Hne Heq. apply Hne. clear Hne.
  unfold Frequencies.hash in Heq. cbv zeta in Heq.
  assert (Hua : 0 <= u64 a < 2 ^ 64) by apply u64_range.
  assert (Hub : 0 <= u64 b < 2 ^ 64) by apply u64_range.
  set (a1 := Z.lxor (u64 a) (Z.shiftr (u64 a) 33)) in *.
  set (b1 := Z.lxor (u64 b) (Z.shiftr (u64 b) 33)) in *.
  assert (Ha1 : 0 <= a1 < 2 ^ 64) by (apply xorshift_range; exact Hua).
  assert (Hb1 : 0 <= b1 < 2 ^ 64) by (apply xorshift_range; exact Hub).
  set (a2 := u64 (a1 * 0xff51afd7ed558ccd)) in *.
  set (b2 := u64 (b1 * 0xff51afd7ed558ccd)) in *.
  assert (Ha2 : 0 <= a2 < 2 ^ 64) by apply u64_range.
  assert (Hb2 : 0 <= b2 < 2 ^ 64) by apply u64_range.
  set (a3 := Z.lxor a2 (Z.shiftr a2 33)) in *.
  set (b3 := Z.lxor b2 (Z.shiftr b2 33)) in *.
  assert (Ha3 : 0 <= a3 < 2 ^ 64) by (apply xorshift_range; exact Ha2).
  assert (Hb3 : 0 <= b3 < 2 ^ 64) by (apply xorshift_range; exact Hb2).
  set (a4 := u64 (a3 * 0xc4ceb9fe1a85ec53)) in *.
  set (b4 := u64 (b3 * 0xc4ceb9fe1a85ec53)) in *.
  assert (Ha4 : 0 <= a4 < 2 ^ 64) by apply u64_range.
  assert (Hb4 : 0 <= b4 < 2 ^ 64) by apply u64_range.
  set (a5 := Z.lxor a4 (Z.shiftr a4 33)) in *.
  set (b5 := Z.lxor b4 (Z.shiftr b4 33)) in *.
  assert (Ha5 : 0 <= a5 < 2 ^ 64) by (apply xorshift_range; exact Ha4).
  assert (Hb5 : 0 <= b5 < 2 ^ 64) by (apply xorshift_range; exact Hb4).
  assert (E5 : a5 = b5) by (rewrite <- (u64_i64 a5 Ha5), <- (u64_i64 b5 Hb5); now f_equal).
  assert (E4 : a4 = b4).
  { rewrite <- (xorshift_involutive a4 Ha4), <- (xorshift_involutive b4 Hb4).
    fold a5 b5. now rewrite E5. }
  assert (E3 : a3 = b3).
  { rewrite <- (mul_odd_undone 0xc4ceb9fe1a85ec53 0x9cb4b2f8129337db a3 eq_refl Ha3).
    rewrite <- (mul_odd_undone 0xc4ceb9fe1a85ec53 0x9cb4b2f8129337db b3 eq_refl Hb3).
    fold a4 b4. now rewrite E4. }
  assert (E2 : a2 = b2).
  { rewrite <- (xorshift_involutive a2 Ha2), <- (xorshift_involutive b2 Hb2).
    fold a3 b3. now rewrite E3. }
  assert (E1 : a1 = b1).
  { rewrite <- (mul_odd_undone 0xff51afd7ed558ccd 0x4f74430c22a54005 a1 eq_refl Ha1).
    rewrite <- (mul_odd_undone 0xff51afd7ed558ccd 0x4f74430c22a54005 b1 eq_refl Hb1).
    fold a2 b2. now rewrite E2. }
  assert (E0 : u64 a = u64 b).
  { rewrite <- (xorshift_involutive (u64 a) Hua), <- (xorshift_involutive (u64 b) Hub).
    fold a1 b1. now rewrite E1. }
  rewrite <- (i64_u64 a Ha), <- (i64_u64 b Hb). now rewrite E0.
Qed.

Lemma hash_is_one_to_one_witness :
  (- 2 ^ 63 <= 1 < 2 ^ 63) /\ (- 2 ^ 63 <= -1 < 2 ^ 63) /\ 1 <> -1 /\
  Frequencies.hash 1 <> Frequencies.hash (-1).
Proof.
  split; [lia|]. split; [lia|]. split; [lia|].
  apply (hash_is_one_to_one 1 (-1)); lia.
Defined.

(** ** The string items: serialization *)

Section StringSerialization.
Import StringItems.

Lemma putLE_4 v : Items.putLE 4 [0; 0; 0; 0] 0 v = Some (le4 v).
Proof. reflexivity. Qed.

Lemma zget_app_at {A} (pre l : list A) i :
  0 <= i -> zget (pre ++ l) (zlen pre + i) = zget l i.
Proof.
  intros Hi. unfold zget, zlen. rewrite !decide_True by lia.
  rewrite lookup_app_r by lia. f_equal. lia.
Qed.

Lemma le4_value v : 0 <= v < 2 ^ 32 ->
  v mod 256 + 256 * (v / 256 mod 256 + 256 * (v / 256 / 256 mod 256 +
    256 * (v / 256 / 256 / 256 mod 256 + 256 * 0))) = v.
Proof.
  intros Hv.
  pose proof (Z.div_mod v 256 ltac:(lia)) as H0.
  pose proof (Z.div_mod (v / 256) 256 ltac:(lia)) as H1.
  pose proof (Z.div_mod (v / 256 / 256) 256 ltac:(lia)) as H2.
  assert (H3 : v / 256 / 256 / 256 mod 256 = v / 256 / 256 / 256).
  { apply Z.mod_small. split; [repeat (apply Z.div_pos; [|lia]); lia|].
    repeat (apply Z.div_lt_upper_bound; [lia|]). lia. }
  lia.
Qed.

Lemma getLE_4_at (pre rest : list Z) v :
  0 <= v < 2 ^ 32 -> Items.getLE 4 (pre ++ le4 v ++ rest) (zlen pre) = Some v.
Proof.
  intros Hv. set (mem := pre ++ le4 v ++ rest).
  assert (H0 : zget mem (zlen pre) = Some (v mod 256)).
  { replace (zlen pre) with (zlen pre + 0) by lia. unfold mem. rewrite zget_app_at by lia.
    reflexivity. }
  assert (H1 : zget mem (zlen pre + 1) = Some (v / 256 mod 256)).
  { unfold mem. rewrite zget_app_at by lia. reflexivity. }
  assert (H2 : zget mem (zlen pre + 1 + 1) = Some (v / 256 / 256 mod 256)).
  { replace (zlen pre + 1 + 1) with (zlen pre + 2) by lia. unfold mem.
    rewrite zget_app_at by lia. reflexivity. }
  assert (H3 : zget mem (zlen pre + 1 + 1 + 1) = Some (v / 256 / 256 / 256 mod 256)).
  { replace (zlen pre + 1 + 1 + 1) with (zlen pre + 3) by lia. unfold mem.
    rewrite zget_app_at by lia. reflexivity. }
  cbn [Items.getLE]. rewrite H0, H1, H2, H3. cbn [mbind option_bind].
  f_equal. apply le4_value. exact Hv.
Qed.

Lemma zslice_app_at {A} (pre x post : list A) :
  zslice (pre ++ x ++ post) (zlen pre) (zlen pre + zlen x) = Some x.
Proof.
  unfold zslice, zlen. rewrite decide_True.
  - f_equal. rewrite Nat2Z.id. rewrite drop_app_length.
    replace (Z.to_nat (Z.of_nat (length pre) + Z.of_nat (length x) - Z.of_nat (length pre)))
      with (length x) by lia.
    apply take_app_length.
  - rewrite !length_app. lia.
Qed.

Lemma string_SerializeManyToSlice_encoded (items : list GoString) :
  (forall x, In x items -> zlen x < 2 ^ 32) ->
  string_SerializeManyToSlice items = concat (map encoded items).
Proof.
  intros Hlen. unfold string_SerializeManyToSlice. destruct (decide (zlen items = 0)) as [Hz|Hnz].
  - destruct items; [reflexivity|]. unfold zlen in Hz. cbn [length] in Hz. lia.
  - f_equal. apply map_ext_in. intros x Hx. unfold encoded.
    rewrite (u32_small (zlen x)) by (specialize (Hlen x Hx); unfold zlen in *; lia).
    rewrite putLE_4. reflexivity.
Qed.

Lemma zlen_app {A} (l1 l2 : list A) : zlen (l1 ++ l2) = zlen l1 + zlen l2.
Proof. unfold zlen. rewrite length_app. lia. Qed.

Lemma zlen_encoded x : zlen (encoded x) = 4 + zlen x.
Proof. unfold encoded. rewrite zlen_app. reflexivity. Qed.

Lemma zlen_nonneg {A} (l : list A) : 0 <= zlen l.
Proof. unfold zlen. lia. Qed.

Lemma deserialize_loop_encoded (items : list GoString) : forall (fuel : nat) (pre post : list Z),
  (forall x, In x items -> zlen x < 2 ^ 32) -> (length items <= fuel)%nat ->
  deserialize_loop fuel (pre ++ concat (map encoded items) ++ post) (zlen pre) (zlen items)
  = Ok (items, zlen pre + zlen (concat (map encoded items))).
Proof.
  induction items as [|x items IH]; intros fuel pre post Hlen Hfuel.
  - destruct fuel; cbn [deserialize_loop]; rewrite decide_True by (unfold zlen; cbn; lia);
      cbn [map concat]; unfold zlen at 2; cbn [length]; rewrite Z.add_0_r; reflexivity.
  - destruct fuel as [|fuel]; [cbn [length] in Hfuel; lia|].
    cbn [deserialize_loop map concat].
    assert (Hx : zlen x < 2 ^ 32) by (apply Hlen; left; reflexivity).
    pose proof (zlen_nonneg x) as Hx0. pose proof (zlen_nonneg pre) as Hp0.
    pose proof (zlen_nonneg post) as Hq0.
    pose proof (zlen_nonneg (concat (map encoded items))) as Hr0.
    rewrite decide_False by (unfold zlen; cbn [length]; lia).
    set (mem := pre ++ (encoded x ++ concat (map encoded items)) ++ post).
    assert (Hmem : zlen mem = zlen pre + (4 + zlen x) + zlen (concat (map encoded items)) + zlen post).
    { unfold mem. rewrite !zlen_app, zlen_encoded. lia. }
    unfold checkBounds. rewrite bool_decide_eq_true_2 by lia. cbn [negb].
    assert (Hget : Items.getLE 4 mem (zlen pre) = Some (zlen x)).
    { unfold mem, encoded. rewrite <- !app_assoc. apply getLE_4_at. lia. }
    rewrite Hget. cbn [of_option bind].
    rewrite bool_decide_eq_true_2 by lia. cbn [negb].
    assert (Hsl : zslice mem (zlen pre + 4) (zlen pre + 4 + zlen x) = Some x).
    { unfold mem, encoded. rewrite <- !app_assoc.
      replace (zlen pre + 4) with (zlen (pre ++ le4 (zlen x))) by (rewrite zlen_app; reflexivity).
      rewrite (app_assoc pre (le4 (zlen x))). apply zslice_app_at. }
    rewrite Hsl. cbn [of_option bind].
    assert (Hnext : deserialize_loop fuel mem (zlen pre + 4 + zlen x) (zlen (x :: items) - 1)
                    = Ok (items, zlen pre + 4 + zlen x + zlen (concat (map encoded items)))).
    { replace (zlen (x :: items) - 1) with (zlen items) by (unfold zlen; cbn [length]; lia).
      replace (zlen pre + 4 + zlen x) with (zlen (pre ++ encoded x))
        by (rewrite zlen_app, zlen_encoded; lia).
      unfold mem. rewrite <- app_assoc. rewrite (app_assoc pre (encoded x)).
      apply IH; [intros y Hy; apply Hlen; right; exact Hy|cbn [length] in Hfuel; lia]. }
    rewrite Hnext. cbn [bind fst snd]. rewrite zlen_app, zlen_encoded. do 2 f_equal. lia.
Qed.

Lemma encoded_length_ge (items : list GoString) :
  (4 * length items <= length (concat (map encoded items)))%nat.
Proof.
  induction items as [|x items IH]; [cbn; lia|].
  cbn [map concat]. rewrite length_app. unfold encoded at 1. rewrite length_app.
  cbn [le4 length]. lia.
Qed.

End StringSerialization.

(** X11. The string operations of the tests read back what they wrote:
    [DeserializeFromSlice] on the bytes of [SerializeManyToSlice(items)],
    wherever they lie in a slice (at offset [len(pre)], whatever follows),
    returns [items], and [sizeOfMany] returns the number of bytes written;
    every string shorter than [2^32] bytes, the empty string included.
    ([checkBounds] is taken to accept the requests inside the slice.) *)
Theorem string_items_round_trip (pre post : list Z) (items : list StringItems.GoString) :
  (forall x, In x items -> zlen x < 2 ^ 32) ->
  StringItems.string_DeserializeFromSlice
    (pre ++ StringItems.string_SerializeManyToSlice items ++ post) (zlen pre) (zlen items)
  = Ok items /\
  StringItems.string_sizeOfMany
    (pre ++ StringItems.string_SerializeManyToSlice items ++ post) (zlen pre) (zlen items)
  = Ok (zlen (StringItems.string_SerializeManyToSlice items)).
Proof.
  intros Hlen. rewrite (string_SerializeManyToSlice_encoded items Hlen).
  unfold StringItems.string_DeserializeFromSlice, StringItems.string_sizeOfMany.
  destruct (decide (zlen items <= 0)) as [Hz|Hnz].
  - destruct items; [split; reflexivity|]. unfold zlen in Hz. cbn [length] in Hz. lia.
  - rewrite deserialize_loop_encoded.
    + cbn [bind fst snd]. split; [reflexivity|]. f_equal. lia.
    + exact Hlen.
    + pose proof (encoded_length_ge items). rewrite !length_app. lia.
Qed.

Lemma string_items_round_trip_witness :
  StringItems.string_DeserializeFromSlice
    ([7; 7] ++ StringItems.string_SerializeManyToSlice [[97; 98]; []; [99]] ++ [9])
    (zlen [7; 7]) (zlen [[97; 98]; []; [99]])
  = Ok [[97; 98]; []; [99]] /\
  StringItems.string_sizeOfMany
    ([7; 7] ++ StringItems.string_SerializeManyToSlice [[97; 98]; []; [99]] ++ [9])
    (zlen [7; 7]) (zlen [[97; 98]; []; [99]])
  = Ok (zlen (StringItems.string_SerializeManyToSlice [[97; 98]; []; [99]])).
Proof.
  apply (string_items_round_trip [7; 7] [9] [[97; 98]; []; [99]]).
  intros x Hx. cbn [In] in Hx.
  destruct Hx as [<- | [<- | [<- | []]]]; vm_compute; reflexivity.
Defined.

(** ** Split points *)

Section SplitPoints.

Lemma SFcompare_refl_of_lt x y :
  SFcompare (Prim2SF x) (Prim2SF y) = Some Lt ->
  SFcompare (Prim2SF x) (Prim2SF x) = Some Eq /\ SFcompare (Prim2SF y) (Prim2SF y) = Some Eq.
Proof.
  assert (Hrefl : forall f, f <> S754_nan -> SFcompare f f = Some Eq).
  { intros [s|s| |s m e] Hf; cbn [SFcompare]; try (destruct s; reflexivity); try congruence.
    destruct s; rewrite Z.compare_refl; change (PosDef.Pos.compare_cont Eq m m) with (Pos.compare m m);
      rewrite Pos.compare_refl; reflexivity. }
  intros Hlt. split; apply Hrefl; intros Hnan; rewrite Hnan in Hlt.
  - discriminate Hlt.
  - destruct (Prim2SF x) as [s|s| |s m e]; try destruct s; discriminate Hlt.
Qed.

(** An operand of a comparison [x < y] that holds is not NaN. *)
Lemma ltb_not_nan (x y : float) :
  (x <? y)%float = true -> (x =? x)%float = true /\ (y =? y)%float = true.
Proof.
  rewrite FloatAxioms.ltb_spec, !FloatAxioms.eqb_spec. unfold SFltb, SFeqb. intros Hlt.
  destruct (SFcompare (Prim2SF x) (Prim2SF y)) as [[| |]|] eqn:E; try discriminate Hlt.
  destruct (SFcompare_refl_of_lt x y E) as [-> ->]. split; reflexivity.
Qed.

Lemma splitPointsAscending_Sorted (values : list float) :
  Helper.splitPointsAscending values = true <->
  Sorted (fun x y => (x <? y)%float = true) values.
Proof.
  induction values as [|x [|y rest] IH]; cbn [Helper.splitPointsAscending].
  - split; [constructor|reflexivity].
  - split; [repeat constructor|reflexivity].
  - destruct (x <? y)%float eqn:E.
    + rewrite IH. split.
      * intros Hs. constructor; [exact Hs|constructor; exact E].
      * intros Hs. inversion Hs; assumption.
    + split; [discriminate|]. intros Hs. inversion Hs as [|? ? ? Hhd]; subst.
      inversion Hhd; subst. congruence.
Qed.

Lemma Sorted_lt_not_nan (values : list float) :
  Sorted (fun x y => (x <? y)%float = true) values -> (2 <= length values)%nat ->
  Forall (fun x => (x =? x)%float = true) values.
Proof.
  induction values as [|x [|y rest] IH]; intros Hs Hlen; cbn [length] in Hlen; try lia.
  inversion Hs as [|? ? Hs' Hhd]; subst. inversion Hhd as [|? ? Hxy]; subst.
  destruct (ltb_not_nan x y Hxy) as [Hx Hy]. constructor; [exact Hx|].
  destruct rest as [|z rest].
  - constructor; [exact Hy|constructor].
  - apply IH; [exact Hs'|cbn [length]; lia].
Qed.

End SplitPoints.

(** X12. [checkDoublesSplitPointsOrder] accepts exactly the split points that
    are strictly increasing and free of NaN: it returns no error if and only
    if every value is less than the next one and no value is NaN (the empty
    sequence included); equal neighbours, a descent or a NaN anywhere give
    the error. *)
Theorem checkDoublesSplitPointsOrder_accepts_increasing (values : list float) :
  Helper.checkDoublesSplitPointsOrder values = None <->
  Sorted (fun x y => (x <? y)%float = true) values /\
  Forall (fun x => (x =? x)%float = true) values.
Proof.
  unfold Helper.checkDoublesSplitPointsOrder.
  destruct values as [|x [|y rest]].
  - cbn [Helper.splitPointsAscending]. split; [intros _; split; constructor|reflexivity].
  - destruct (x =? x)%float eqn:E; cbn [negb].
    + split; [intros _|reflexivity]. split; [repeat constructor|].
      constructor; [exact E|constructor].
    + split; [discriminate|]. intros [_ Hf]. inversion Hf; subst. congruence.
  - destruct (Helper.splitPointsAscending (x :: y :: rest)) eqn:E.
    + apply splitPointsAscending_Sorted in E. split; [intros _|reflexivity].
      split; [exact E|]. apply Sorted_lt_not_nan; [exact E|cbn [length]; lia].
    + split; [discriminate|]. intros [Hs _]. apply splitPointsAscending_Sorted in Hs. congruence.
Qed.

(** ** Where the retained items come from *)

Section Provenance.
Context {C SV : Type} {OpC : Items.ItemSketchOp C} {RtC : Items.Runtime C}.
Variable p : C -> bool.
#[local] Abbreviation Sketch := (Items.ItemsSketch C SV).

Lemma updateItem_restrictTo (s : Sketch) x :
  (Items.isNil x = false -> p x = true) ->
  Items.updateItem (Runtime0 := restrictTo p RtC) s x = Items.updateItem s x.
Proof.
  intros Hp. unfold Items.updateItem. cbn [Items.isNil restrictTo].
  destruct (Items.isNil x); [reflexivity|]. rewrite Hp by reflexivity. reflexivity.
Qed.

Lemma updates_restrictTo stream : forall s : Sketch,
  (forall x, In x (taken stream) -> p x = true) ->
  updates (RtC := restrictTo p RtC) s stream = updates s stream /\
  taken (RtC := restrictTo p RtC) stream = taken stream.
Proof.
  induction stream as [|x stream IH]; intros s Hp; [split; reflexivity|].
  assert (Hx : Items.isNil x = false -> p x = true).
  { intros Hn. apply Hp. unfold taken. cbn [List.filter]. rewrite Hn. left. reflexivity. }
  assert (Hrest : forall y, In y (taken stream) -> p y = true).
  { intros y Hy. apply Hp. unfold taken. cbn [List.filter].
    destruct (negb (Items.isNil x)); [right|]; exact Hy. }
  split.
  - cbn [updates]. unfold Items.Update. rewrite (updateItem_restrictTo s x Hx).
    destruct (Items.updateItem s x) as [s1|]; [|reflexivity]. cbn [mbind option_bind].
    apply (IH _ Hrest).
  - unfold taken. cbn [List.filter Items.isNil restrictTo].
    destruct (Items.isNil x) eqn:Hn; cbn [orb negb].
    + apply (IH s Hrest).
    + rewrite (Hx eq_refl). cbn [negb]. f_equal. apply (IH s Hrest).
Qed.

End Provenance.

(** X13. The items sketch retains nothing but items of its stream. For a
    new sketch fed a stream of fewer than [2^63] items ([K] from 8 to 65535,
    [sort.Slice] a permutation, items comparable as Go requires): every slot
    from [levels[0]] up to [levels[numLevels]] of the items array holds an
    item that some update of the stream took in. *)
Theorem retained_items_come_from_the_stream {C SV : Type} `{EqDecision C}
    {OpC : Items.ItemSketchOp C} {RtC : Items.Runtime C} (K : Z) (stream : list C) :
  (forall less (l : list C), Permutation (Items.sortSlice less l) l) ->
  8 <= K <= 65535 -> zlen stream < 2 ^ 63 ->
  exists s0 s : Items.ItemsSketch C SV,
    Items.NewItemsSketch K = Ok s0 /\ updates s0 stream = Some s /\
    forall i, lv (Items.levels s) 0 <= i < lv (Items.levels s) (Items.numLevels s) ->
      exists x, zget (Items.items s) i = Some x /\ In x (taken stream).
Proof.
  intros Hsort HK Hlen.
  set (p := fun x : C => bool_decide (x ∈ taken stream)).
  assert (Hp : forall x, In x (taken stream) -> p x = true).
  { intros x Hx. unfold p. apply bool_decide_eq_true_2. apply list_elem_of_In. exact Hx. }
  unfold Items.NewItemsSketch.
  rewrite decide_False by (unfold Items._MIN_K, Items._MAX_K, Items._DEFAULT_M; lia).
  set (s0 := Items.mkItemsSketch K Items._DEFAULT_M K 1 false 0 [u32 K; u32 K]
               (replicate (Z.to_nat K) Items.zeroValue) None None None : Items.ItemsSketch C SV).
  destruct (updates_total (RtC := restrictTo p RtC) (SV := SV) Hsort stream s0 0)
    as (s & Hrun & Hwfx).
  - apply (fresh_wfx (RtC := restrictTo p RtC)); [exact HK|reflexivity].
  - lia.
  - destruct (updates_restrictTo p stream s0 Hp) as [Hu _]. rewrite Hu in Hrun.
    exists s0, s. split; [reflexivity|]. split; [exact Hrun|].
    intros i Hi. destruct (wf_items _ _ (wfx_wf _ _ Hwfx) i Hi) as (x & Hx & Hnil).
    exists x. split; [exact Hx|]. cbn [Items.isNil restrictTo] in Hnil.
    apply orb_false_elim in Hnil as [_ Hpx]. apply negb_false_iff in Hpx.
    unfold p in Hpx. apply bool_decide_eq_true in Hpx. apply list_elem_of_In. exact Hpx.
Qed.

Lemma retained_items_come_from_the_stream_witness :
  exists s0 s : Items.ItemsSketch StringItems.GoString unit,
    Items.NewItemsSketch 8 = Ok s0 /\ updates s0 (StringItems.letters 40) = Some s /\
    forall i, lv (Items.levels s) 0 <= i < lv (Items.levels s) (Items.numLevels s) ->
      exists x, zget (Items.items s) i = Some x /\ In x (taken (StringItems.letters 40)).
Proof.
  apply (retained_items_come_from_the_stream (C := StringItems.GoString) (SV := unit)
           (OpC := StringItems.stringItemsSketchOp) (RtC := StringItems.stringRuntime)
           8 (StringItems.letters 40) (fun less l => insertion_sort_perm less l)).
  - lia.
  - vm_compute. reflexivity.
Defined.

(** ** Minimum and maximum under a merge *)

Section MergeMinMax.
Context {C SV : Type} {OpC : Items.ItemSketchOp C} {RtC : Items.Runtime C}.
#[local] Abbreviation Sketch := (Items.ItemsSketch C SV).
Hypothesis less_irrefl : forall a : C, Items.lessFn a a = false.
Hypothesis less_trans : forall a b c : C,
  Items.lessFn a b = true -> Items.lessFn b c = true -> Items.lessFn a c = true.
Hypothesis less_between : forall a b c : C,
  Items.lessFn a b = true -> Items.lessFn a c = true \/ Items.lessFn c b = true.

Lemma tracks_nil (s : Sketch) seen : tracks s seen -> Items.n s = 0 -> seen = [].
Proof.
  intros [Hn _] Hz. rewrite Hz in Hn. destruct seen; [reflexivity|].
  unfold zlen in Hn. cbn [length] in Hn. lia.
Qed.

Lemma mergeItemsSketch_tracks (s other s' : Sketch) seen1 seen2 :
  tracks s seen1 -> tracks other seen2 -> zlen seen1 + zlen seen2 < 2 ^ 64 ->
  Items.mergeItemsSketch s other = Some s' -> tracks s' (seen1 ++ seen2).
Proof.
  intros H1 H2 Hlen Hrun. unfold Items.mergeItemsSketch in Hrun.
  unfold Items.IsEmpty in Hrun.
  destruct (bool_decide (Items.n other = 0)) eqn:Hoe.
  { apply bool_decide_eq_true in Hoe. rewrite (tracks_nil other seen2 H2 Hoe), app_nil_r.
    injection Hrun as <-. exact H1. }
  apply bool_decide_eq_false in Hoe.
  destruct H2 as [Hn2 Hmm2].
  assert (Hne2 : seen2 <> []) by (intros ->; apply Hoe; rewrite Hn2; reflexivity).
  destruct (Hmm2 Hne2) as (omn & omx & Homn & Homx & Hin2a & Hin2b & Hall2).
  bind_step Hrun mm Emm. destruct mm as [myMin myMax].
  bind_step Hrun lo Elo. clear Elo. bind_step Hrun hi Ehi. clear Ehi.
  bind_step Hrun s1 Es1. clear Es1. bind_step Hrun r Er. clear Er.
  destruct r as [[nl' L'] items']. bind_step Hrun mx Emx. injection Hrun as <-.
  assert (Hzl : zlen (seen1 ++ seen2) = zlen seen1 + zlen seen2).
  { unfold zlen. rewrite length_app. lia. }
  destruct H1 as [Hn1 Hmm1].
  split; sk_simpl.
  { rewrite Hn1, Hn2, Hzl. apply u64_small. unfold zlen in *. lia. }
  intros _. rewrite Homn, Homx in Emx. cbn [mbind option_bind] in Emx.
  destruct (bool_decide (Items.n s = 0)) eqn:Hse.
  - apply bool_decide_eq_true in Hse. rewrite (tracks_nil s seen1 (conj Hn1 Hmm1) Hse).
    injection Emx as <-. cbn [fst snd app]. exists omn, omx.
    repeat split; try assumption; apply (Hall2 y H).
  - apply bool_decide_eq_false in Hse.
    assert (Hne1 : seen1 <> []) by (intros ->; apply Hse; rewrite Hn1; reflexivity).
    destruct (Hmm1 Hne1) as (mn & mx1 & Hmn & Hmx & Hin1a & Hin1b & Hall1).
    rewrite Hmn, Hmx in Emm. cbn [mbind option_bind] in Emm. injection Emm as <- <-.
    injection Emx as <-. cbn [fst snd].
    exists (if Items.lessFn mn omn then mn else omn), (if Items.lessFn omx mx1 then mx1 else omx).
    split; [destruct (Items.lessFn mn omn); reflexivity|].
    split; [destruct (Items.lessFn omx mx1); reflexivity|].
    split; [destruct (Items.lessFn mn omn); apply in_or_app; [left|right]; assumption|].
    split; [destruct (Items.lessFn omx mx1); apply in_or_app; [left|right]; assumption|].
    intros y Hy. apply in_app_or in Hy. split.
    + destruct (Items.lessFn mn omn) eqn:Hcmp.
      * destruct Hy as [Hy|Hy]; [apply (Hall1 y Hy)|].
        destruct (Items.lessFn y mn) eqn:Hym; [|reflexivity].
        rewrite <- (proj1 (Hall2 y Hy)). symmetry. eapply less_trans; eassumption.
      * destruct Hy as [Hy|Hy]; [|apply (Hall2 y Hy)].
        destruct (Items.lessFn y omn) eqn:Hyo; [|reflexivity].
        destruct (less_between y omn mn Hyo) as [Hc|Hc].
        -- rewrite <- (proj1 (Hall1 y Hy)). symmetry. exact Hc.
        -- rewrite <- Hcmp. symmetry. exact Hc.
    + destruct (Items.lessFn omx mx1) eqn:Hcmp.
      * destruct Hy as [Hy|Hy]; [apply (Hall1 y Hy)|].
        destruct (Items.lessFn mx1 y) eqn:Hmy; [|reflexivity].
        rewrite <- (proj2 (Hall2 y Hy)). symmetry. eapply less_trans; eassumption.
      * destruct Hy as [Hy|Hy]; [|apply (Hall2 y Hy)].
        destruct (Items.lessFn omx y) eqn:Hoy; [|reflexivity].
        destruct (less_between omx y mx1 Hoy) as [Hc|Hc].
        -- rewrite <- Hcmp. symmetry. exact Hc.
        -- rewrite <- (proj2 (Hall1 y Hy)). symmetry. exact Hc.
Qed.

Lemma Merge_tracks (s other s' : Sketch) seen1 seen2 :
  tracks s seen1 -> tracks other seen2 -> zlen seen1 + zlen seen2 < 2 ^ 64 ->
  Items.Merge s other = Some s' -> tracks s' (seen1 ++ seen2).
Proof.
  intros H1 H2 Hlen Hrun. unfold Items.Merge in Hrun.
  destruct (Items.IsEmpty other) eqn:Hemp.
  - unfold Items.IsEmpty in Hemp. apply bool_decide_eq_true in Hemp.
    rewrite (tracks_nil other seen2 H2 Hemp), app_nil_r. injection Hrun as <-. exact H1.
  - bind_step Hrun s1 E1. injection Hrun as <-.
    apply (mergeItemsSketch_tracks s other s1 seen1 seen2 H1 H2 Hlen) in E1.
    destruct E1 as [En Emm]. split; [exact En|exact Emm].
Qed.

End MergeMinMax.

(** X14. A merge keeps the minimum and the maximum exact. Two new sketches
    each fed a stream by [Update] calls that return, under a comparison that
    is a strict weak order (irreflexive, transitive, and an item between two
    ordered ones is ordered with one of them): when [Merge] returns, [N] is
    the number of items the two streams brought in, [GetMinItem] returns one
    of them that none of them is less than, and [GetMaxItem] one that is less
    than none. *)
Theorem merge_min_max_are_exact {C SV : Type} {OpC : Items.ItemSketchOp C}
    {RtC : Items.Runtime C} (k1 k2 : Z) (a0 a b0 b s : Items.ItemsSketch C SV)
    (stream1 stream2 : list C) :
  (forall x : C, Items.lessFn x x = false) ->
  (forall x y z : C, Items.lessFn x y = true -> Items.lessFn y z = true ->
     Items.lessFn x z = true) ->
  (forall x y z : C, Items.lessFn x y = true ->
     Items.lessFn x z = true \/ Items.lessFn z y = true) ->
  Items.NewItemsSketch k1 = Ok a0 -> updates a0 stream1 = Some a ->
  Items.NewItemsSketch k2 = Ok b0 -> updates b0 stream2 = Some b ->
  zlen stream1 + zlen stream2 < 2 ^ 64 ->
  Items.Merge a b = Some s -> taken stream1 ++ taken stream2 <> [] ->
  Items.n s = zlen (taken stream1) + zlen (taken stream2) /\
  exists mn mx,
    Items.GetMinItem s = Ok mn /\ Items.GetMaxItem s = Ok mx /\
    In mn (taken stream1 ++ taken stream2) /\ In mx (taken stream1 ++ taken stream2) /\
    forall y, In y (taken stream1 ++ taken stream2) ->
      Items.lessFn y mn = false /\ Items.lessFn mx y = false.
Proof.
  intros Hirr Htr Hbt Hnew1 Hrun1 Hnew2 Hrun2 Hlen Hmerge Hne.
  assert (Hfresh : forall k (s0 : Items.ItemsSketch C SV),
            Items.NewItemsSketch k = Ok s0 -> tracks s0 []).
  { intros k s0 Hnew. unfold Items.NewItemsSketch in Hnew. destruct (decide _); [discriminate|].
    injection Hnew as <-. split; [reflexivity|]. intros H; contradiction. }
  assert (Hs1 : 0 <= zlen stream1) by (unfold zlen; lia).
  assert (Hs2 : 0 <= zlen stream2) by (unfold zlen; lia).
  pose proof (zlen_taken_le stream1) as Ht1. pose proof (zlen_taken_le stream2) as Ht2.
  apply (updates_tracks Hirr Htr stream1 a0 a [] (Hfresh _ _ Hnew1)
           ltac:(unfold zlen in *; cbn [length]; lia)) in Hrun1.
  apply (updates_tracks Hirr Htr stream2 b0 b [] (Hfresh _ _ Hnew2)
           ltac:(unfold zlen in *; cbn [length]; lia)) in Hrun2.
  cbn [app] in Hrun1, Hrun2.
  pose proof (Merge_tracks Htr Hbt a b s _ _ Hrun1 Hrun2 ltac:(lia) Hmerge) as [Hn Hmm].
  split.
  { rewrite Hn. unfold zlen. rewrite length_app. lia. }
  destruct (Hmm Hne) as (mn & mx & Hmn & Hmx & Hin1 & Hin2 & Hall).
  exists mn, mx. unfold Items.GetMinItem, Items.GetMaxItem, Items.IsEmpty.
  rewrite bool_decide_eq_false_2.
  - rewrite Hmn, Hmx. repeat split; try assumption; apply (Hall y H).
  - rewrite Hn. destruct (taken stream1 ++ taken stream2); [contradiction|].
    unfold zlen. cbn [length]. lia.
Qed.

Section StringWeakOrder.

Lemma string_lt_between (a : StringItems.GoString) : forall b c,
  StringItems.string_lt a b = true ->
  StringItems.string_lt a c = true \/ StringItems.string_lt c b = true.
Proof.
  induction a as [|x a IH]; intros [|y b] [|z c] Hab; cbn [StringItems.string_lt] in *;
    try discriminate; try (left; reflexivity); try (right; reflexivity).
  - destruct (Z.ltb_spec x y), (Z.ltb_spec y x), (Z.ltb_spec x z), (Z.ltb_spec z x),
      (Z.ltb_spec z y), (Z.ltb_spec y z); try lia; try discriminate;
      try (left; reflexivity); try (right; reflexivity).
    apply IH. exact Hab.
Qed.

End StringWeakOrder.

Lemma merge_min_max_are_exact_witness :
  exists a0 a b0 b s : Items.ItemsSketch StringItems.GoString unit,
    Items.NewItemsSketch 8 = Ok a0 /\ updates a0 (StringItems.letters 12) = Some a /\
    Items.NewItemsSketch 8 = Ok b0 /\ updates b0 (StringItems.letters 20) = Some b /\
    Items.Merge a b = Some s /\
    Items.n s = zlen (taken (StringItems.letters 12)) + zlen (taken (StringItems.letters 20)) /\
    exists mn mx,
      Items.GetMinItem s = Ok mn /\ Items.GetMaxItem s = Ok mx /\
      In mn (taken (StringItems.letters 12) ++ taken (StringItems.letters 20)) /\
      In mx (taken (StringItems.letters 12) ++ taken (StringItems.letters 20)) /\
      forall y, In y (taken (StringItems.letters 12) ++ taken (StringItems.letters 20)) ->
        Items.lessFn y mn = false /\ Items.lessFn mx y = false.
Proof.
  eexists. eexists. eexists. eexists. eexists.
  split; [vm_compute; reflexivity|].
  split; [vm_compute; reflexivity|].
  split; [vm_compute; reflexivity|].
  split; [vm_compute; reflexivity|].
  split; [vm_compute; reflexivity|].
  eapply (merge_min_max_are_exact (C := StringItems.GoString) (SV := unit)
            (OpC := StringItems.stringItemsSketchOp) (RtC := StringItems.stringRuntime) 8 8
            _ _ _ _ _ (StringItems.letters 12) (StringItems.letters 20)
            string_lt_irrefl string_lt_trans string_lt_between).
  - vm_compute. reflexivity.
  - vm_compute. reflexivity.
  - vm_compute. reflexivity.
  - vm_compute. reflexivity.
  - vm_compute. reflexivity.
  - vm_compute. reflexivity.
  - vm_compute. discriminate.
Defined.

(** ** The space of the sketch *)

Section SpaceFacts.
Context {C SV : Type} {OpC : Items.ItemSketchOp C} {RtC : Items.Runtime C}.
Hypothesis sortSlice_perm : forall less (l : list C), Permutation (Items.sortSlice less l) l.
#[local] Abbreviation Sketch := (Items.ItemsSketch C SV).

Lemma addEmptyTop_top (s s1 : Sketch) c :
  wfx s c -> c <> 0 -> Items.addEmptyTopLevelToCompletelyFullSketch s = Some s1 ->
  Items.numLevels s1 = Items.numLevels s + 1 /\ Items.k s1 = Items.k s /\
  lv (Items.levels s1) (Items.numLevels s + 1)
    <= lv (Items.levels s) (Items.numLevels s) + Items.k s.
Proof.
  intros Hwfx Hc Hrun. pose proof (wfx_wf _ _ Hwfx) as Hwf.
  pose proof (wf_numLevels _ _ Hwf) as Hnl. pose proof (wf_k _ _ Hwf) as Hk.
  pose proof (wf_m _ _ Hwf) as Hm.
  destruct (addEmptyTop_params s s1 Hrun) as [Hk1 _].
  assert (H60 : Items.numLevels s <= 60).
  { unfold Items.addEmptyTopLevelToCompletelyFullSketch in Hrun.
    bind_step Hrun cap Ecap. bind_step Hrun delta Edelta.
    rewrite (u8_small (Items.numLevels s + 1)) in Edelta by lia.
    apply levelCapacity_Some in Edelta as [Hd _]; lia. }
  destruct (addEmptyTop_grows s Hk Hm ltac:(lia) (wf_len _ _ Hwf))
    as (s1' & delta & Hrun' & Hdelta & Hnl1 & _ & _ & Htop1 & _).
  - intros i Hi. pose proof (wf_lo _ _ Hwf). pose proof (wf_top _ _ Hwf).
    pose proof (wf_le s c 0 i Hwf ltac:(lia) ltac:(lia) ltac:(lia)).
    pose proof (wf_le s c i (Items.numLevels s) Hwf ltac:(lia) ltac:(lia) ltac:(lia)). lia.
  - unfold Items.GetTotalItemsArray. rewrite decide_False by (rewrite (wf_n _ _ Hwf); exact Hc).
    rewrite (wfx_len _ _ Hwfx). lia.
  - rewrite Hrun in Hrun'. injection Hrun' as <-.
    pose proof (levelCapacity_Some (Items.k s) (Items.numLevels s + 1) 0 (Items.m s) delta
                  ltac:(lia) ltac:(lia) ltac:(lia) ltac:(lia) Hdelta) as [_ Hd].
    split; [exact Hnl1|]. split; [exact Hk1|]. rewrite Htop1. lia.
Qed.

Lemma compress_wfl (s s' : Sketch) c :
  wfx s c -> wfl s -> Items.compressWhileUpdatingSketch s = Some s' -> wfl s'.
Proof.
  intros Hwfx [Htopne Hcap] Hrun. pose proof (wfx_wf _ _ Hwfx) as Hwf.
  unfold Items.compressWhileUpdatingSketch in Hrun.
  bind_step Hrun level Elevel.
  apply (findLevelToCompact_wf s c level Hwf) in Elevel as [Hlevel Hpop].
  bind_step Hrun s1 Es1.
  assert (Hc : c <> 0).
  { pose proof (wf_retained_le s c Hwf).
    pose proof (wf_le s c (level + 1) (Items.numLevels s) Hwf ltac:(lia) ltac:(lia) ltac:(lia)).
    pose proof (wf_le s c 0 level Hwf ltac:(lia) ltac:(lia) ltac:(lia)). lia. }
  assert (H1 : wf s1 c /\ level + 2 <= Items.numLevels s1 /\
               8 <= lv (Items.levels s1) (level + 1) - lv (Items.levels s1) level /\
               lv (Items.levels s1) (Items.numLevels s1) <= Items.k s1 * Items.numLevels s1 /\
               (level + 2 < Items.numLevels s1 ->
                lv (Items.levels s1) (Items.numLevels s1 - 1)
                  < lv (Items.levels s1) (Items.numLevels s1))).
  { pose proof (wf_numLevels _ _ Hwf) as Hnl.
    rewrite u8_small in Es1 by lia.
    destruct (decide (level = Items.numLevels s - 1)) as [Htop|Htop].
    - destruct (addEmptyTop_top s s1 c Hwfx Hc Es1) as (Hnl1 & Hk1 & Htop1).
      apply (addEmptyTop_wf s s1 c Hwf) in Es1 as (Hwf1 & _ & delta & Hshift).
      split; [exact Hwf1|]. split; [lia|]. split; [rewrite !Hshift by lia; lia|].
      rewrite Hnl1, Hk1. split; [lia|]. intros Hlt. lia.
    - injection Es1 as <-. split; [exact Hwf|]. split; [lia|]. split; [lia|].
      split; [exact Hcap|]. intros _. apply Htopne. lia. }
  clear Hwf Hwfx Es1 Hpop Htopne Hcap Hc.
  destruct H1 as (Hwf & Hl2 & Hpop & Hcap & Htopne). destruct Hlevel as [Hlevel _]. clear s.
  pose proof (fun i => wf_range s1 c i Hwf) as Hrange.
  pose proof (fun i j => wf_le s1 c i j Hwf) as Hle.
  destruct Hwf as [Hk Hm Hnl Hlen Hlo Hmono Htop Hw Hn Hitems].
  destruct s1 as [k m minK nl lz n L items mi ma sv]. sk_simpl.
  rewrite (u8_small (level + 1)), (u8_small (level + 2)) in Hrun by lia.
  destruct (Hrange level ltac:(lia)) as [Hr0 Hg0].
  destruct (Hrange (level + 1) ltac:(lia)) as [Hr1 Hg1].
  destruct (Hrange (level + 2) ltac:(lia)) as [Hr2 Hg2].
  rewrite Hg0, Hg1, Hg2 in Hrun. cbn [mbind option_bind] in Hrun.
  set (rawBeg := lv L level) in *. set (rawEnd := lv L (level + 1)) in *.
  rewrite (u32_small (rawEnd - rawBeg)) in Hrun by lia.
  set (pop := rawEnd - rawBeg) in *.
  pose proof (Z.div_mod pop 2 ltac:(lia)) as Hdm.
  pose proof (Z.mod_pos_bound pop 2 ltac:(lia)) as Hodd.
  set (odd := pop mod 2) in *. set (h := pop / 2) in *.
  assert (HadjPop : (if bool_decide (odd = 1) then u32 (pop - 1) else pop) = 2 * h).
  { case_bool_decide; [rewrite u32_small by lia|]; lia. }
  rewrite HadjPop in Hrun. clear HadjPop.
  replace (2 * h / 2) with h in Hrun by (rewrite Z.mul_comm, Z.div_mul; lia).
  rewrite (u32_small (rawEnd - h)) in Hrun by lia.
  bind_step Hrun items1 E1. clear E1. bind_step Hrun items2 E2. clear E2.
  bind_step Hrun La ELa. bind_step Hrun r Er. destruct r as [Lb items3].
  assert (Hb : zlen Lb = zlen L /\ lv Lb (level + 1) = rawEnd - h /\
               (forall i, i <> level -> i <> level + 1 -> lv Lb i = lv L i)).
  { pose proof (zset_length _ _ _ _ ELa) as HlenLa.
    pose proof (lv_zset_eq _ _ _ _ ELa) as HLa1.
    rewrite (zget_lv La (level + 1)) in Er by (rewrite HlenLa; lia).
    rewrite HLa1 in Er. cbn [mbind option_bind] in Er.
    destruct (bool_decide (odd = 1)).
    - bind_step Er Lb' ELb. bind_step Er dst Edst. bind_step Er x Ex. bind_step Er items3' E3.
      injection Er as <- <-.
      pose proof (zset_length _ _ _ _ ELb) as HlenLb.
      split; [congruence|]. split.
      + rewrite (lv_zset_ne _ _ _ (level + 1) _ ELb) by lia. exact HLa1.
      + intros i Hi1 Hi2. rewrite (lv_zset_ne _ _ _ i _ ELb) by lia.
        apply (lv_zset_ne _ _ _ i _ ELa). lia.
    - bind_step Er Lb' ELb. injection Er as <- <-.
      pose proof (zset_length _ _ _ _ ELb) as HlenLb.
      split; [congruence|]. split.
      + rewrite (lv_zset_ne _ _ _ (level + 1) _ ELb) by lia. exact HLa1.
      + intros i Hi1 Hi2. rewrite (lv_zset_ne _ _ _ i _ ELb) by lia.
        apply (lv_zset_ne _ _ _ i _ ELa). lia. }
  clear Er ELa. destruct Hb as (HlenLb & HbM & HbO).
  bind_step Hrun items4 E4. clear E4. bind_step Hrun Lc ELc. injection Hrun as <-.
  apply (iter_up_pointwise (fun v => u32 (v + h))) in ELc as [HlenLc HLc].
  rewrite Z.add_0_l, Z2Nat.id in HLc by lia.
  assert (HcMid : lv Lc (level + 1) = lv L (level + 1) - h).
  { rewrite HLc. rewrite decide_False by lia. exact HbM. }
  assert (HcHigh : forall i, level + 2 <= i -> lv Lc i = lv L i).
  { intros i Hi. rewrite HLc. rewrite decide_False by lia. apply HbO; lia. }
  unfold Items.set_items, Items.set_levels. constructor; sk_simpl.
  - intros _. rewrite (HcHigh nl) by lia.
    destruct (decide (nl - 1 = level + 1)) as [Heq|Hne].
    + rewrite Heq, HcMid. pose proof (Hle (level + 1) nl ltac:(lia) ltac:(lia) ltac:(lia)).
      fold rawEnd. fold rawEnd in H. lia.
    + rewrite (HcHigh (nl - 1)) by lia. apply Htopne. lia.
  - rewrite (HcHigh nl) by lia. exact Hcap.
Qed.

Lemma updateItem_wfl (s s' : Sketch) c x :
  wfx s c -> wfl s -> Items.updateItem s x = Some s' -> wfl s'.
Proof.
  intros Hwfx Hl Hrun. unfold Items.updateItem in Hrun.
  destruct (Items.isNil x); [injection Hrun as <-; exact Hl|].
  bind_step Hrun s0 E0.
  assert (H0 : wfx s0 c /\ wfl s0).
  { destruct (Items.IsEmpty s).
    - injection E0 as <-. split; [|destruct Hl; constructor; assumption].
      eapply wfx_same_layout; [..|exact Hwfx]; try reflexivity.
      intros _. split; eexists; reflexivity.
    - bind_step E0 mi Emi. bind_step E0 ma Ema. injection E0 as <-.
      assert (Hma : Items.maxItem s = Some ma) by (destruct (Items.lessFn x mi); exact Ema).
      destruct (Items.lessFn x mi), (Items.lessFn ma x);
        (split; [eapply wfx_same_layout; [..|exact Hwfx]; try reflexivity;
                 intros _; split; eexists; first [reflexivity|eassumption]
                |destruct Hl; constructor; assumption]). }
  clear E0 Hwfx Hl s. destruct H0 as [Hwfx0 Hl0].
  bind_step Hrun l0 El0. bind_step Hrun r Er. destruct r as [s1 l1].
  assert (H1 : wf s1 c /\ wfl s1).
  { destruct (decide (l0 = 0)) as [Hz|Hz].
    - bind_step Er s2 E2. bind_step Er l2 El2. injection Er as <- <-.
      split; [apply (compress_wf sortSlice_perm _ _ c (wfx_wf _ _ Hwfx0) E2)|].
      apply (compress_wfl s0 s2 c Hwfx0 Hl0 E2).
    - injection Er as <- <-. split; [apply (wfx_wf _ _ Hwfx0)|exact Hl0]. }
  clear Er El0 Hwfx0 Hl0 s0. destruct H1 as (Hwf & [Htopne Hcap]).
  pose proof (wf_numLevels _ _ Hwf) as Hnl.
  destruct s1 as [k m minK nl lz n L items mi ma sv]. sk_simpl.
  bind_step Hrun L' EL. bind_step Hrun items' Ei. injection Hrun as <-.
  assert (HLi : forall i, 1 <= i -> lv L' i = lv L i).
  { intros i Hi. apply (lv_zset_ne _ _ _ i _ EL). lia. }
  constructor; sk_simpl.
  - intros H2. rewrite !HLi by lia. apply Htopne. exact H2.
  - rewrite HLi by lia. exact Hcap.
Qed.

Lemma compress_params (s s' : Sketch) :
  Items.compressWhileUpdatingSketch s = Some s' -> Items.k s' = Items.k s.
Proof.
  intros Hrun. unfold Items.compressWhileUpdatingSketch in Hrun.
  bind_step Hrun level Elevel. bind_step Hrun s1 Es1.
  assert (H1 : Items.k s1 = Items.k s).
  { destruct (decide (level = u8 (Items.numLevels s - 1))).
    - now apply addEmptyTop_params in Es1.
    - injection Es1 as <-. reflexivity. }
  rewrite <- H1. clear Es1 Elevel H1.
  bind_step Hrun a1 E1. bind_step Hrun a2 E2. bind_step Hrun a3 E3.
  bind_step Hrun a4 E4. clear E4. bind_step Hrun a5 E5. clear E5.
  bind_step Hrun a6 E6. bind_step Hrun a7 E7. clear E7. destruct a7 as [a7 a8].
  bind_step Hrun a9 E9. clear E9. bind_step Hrun a10 E10.
  injection Hrun as <-. reflexivity.
Qed.

Lemma updateItem_params (s s' : Sketch) x :
  Items.updateItem s x = Some s' -> Items.k s' = Items.k s.
Proof.
  intros Hrun. unfold Items.updateItem in Hrun.
  destruct (Items.isNil x); [injection Hrun as <-; reflexivity|].
  bind_step Hrun s0 E0.
  assert (H0 : Items.k s0 = Items.k s).
  { destruct (Items.IsEmpty s).
    - injection E0 as <-. reflexivity.
    - bind_step E0 mi Emi. bind_step E0 ma Ema. injection E0 as <-.
      destruct (Items.lessFn x mi), (Items.lessFn ma x); reflexivity. }
  rewrite <- H0. clear E0 H0.
  bind_step Hrun l0 El0. clear El0. bind_step Hrun r Er. destruct r as [s1 l1].
  assert (H1 : Items.k s1 = Items.k s0).
  { destruct (decide (l0 = 0)).
    - bind_step Er s2 E2. bind_step Er l2 El2. injection Er as <- <-.
      now apply compress_params.
    - injection Er as <- <-. reflexivity. }
  rewrite <- H1. clear Er H1.
  bind_step Hrun L' EL. bind_step Hrun it' Eit. injection Hrun as <-. reflexivity.
Qed.

Lemma updates_params stream : forall s s' : Sketch,
  updates s stream = Some s' -> Items.k s' = Items.k s.
Proof.
  induction stream as [|x stream IH]; intros s s' Hrun; cbn [updates] in Hrun.
  - injection Hrun as <-. reflexivity.
  - bind_step Hrun s1 E1. unfold Items.Update in E1. bind_step E1 s2 E2. injection E1 as <-.
    rewrite (IH _ _ Hrun). cbn [Items.k Items.set_sortedView]. now apply updateItem_params in E2.
Qed.

Lemma updates_wfl stream : forall (s s' : Sketch) c,
  wfx s c -> wfl s -> c + zlen stream < 2 ^ 63 ->
  updates s stream = Some s' -> wfl s' /\ wfx s' (c + zlen (taken stream)).
Proof.
  induction stream as [|x stream IH]; intros s s' c Hwfx Hl Hc Hrun; cbn [updates] in Hrun.
  - injection Hrun as <-. split; [exact Hl|]. unfold taken, zlen. cbn [List.filter length].
    rewrite Z.add_0_r. exact Hwfx.
  - assert (Hlen : zlen (x :: stream) = zlen stream + 1) by (unfold zlen; cbn [length]; lia).
    pose proof (wf_count_nonneg _ _ (wfx_wf _ _ Hwfx)) as Hc0.
    assert (Hs0 : 0 <= zlen stream) by (unfold zlen; lia).
    bind_step Hrun s1 E1. unfold Items.Update in E1. bind_step E1 s2 E2. injection E1 as <-.
    pose proof (updateItem_wfl s s2 c x Hwfx Hl E2) as Hl2.
    pose proof (updateItem_wfx sortSlice_perm s s2 c x Hwfx ltac:(lia) E2) as Hwfx2.
    rewrite zlen_taken_cons, Z.add_assoc.
    apply (IH (Items.set_sortedView s2 None) s' _); [| | |exact Hrun].
    + eapply wfx_same_layout; [..|exact Hwfx2]; try reflexivity. apply (wfx_minmax _ _ Hwfx2).
    + destruct Hl2; constructor; assumption.
    + destruct (Items.isNil x); lia.
Qed.

End SpaceFacts.

(** X15. The items sketch grows by one level each time the number of items
    doubles, and holds at most [K] items per level. For a new sketch fed a
    stream of fewer than [2^63] items ([K] from 8 to 65535, [sort.Slice] a
    permutation): with two levels or more the top level is not empty, so
    [2^(numLevels - 1) <= N]; the retained items number at most
    [K * numLevels], which [GetNumRetained] returns. *)
Theorem levels_grow_with_log_of_n {C SV : Type} {OpC : Items.ItemSketchOp C}
    {RtC : Items.Runtime C} (K : Z) (stream : list C) :
  (forall less (l : list C), Permutation (Items.sortSlice less l) l) ->
  8 <= K <= 65535 -> zlen stream < 2 ^ 63 ->
  exists (s0 s : Items.ItemsSketch C SV) (retained : Z),
    Items.NewItemsSketch K = Ok s0 /\ updates s0 stream = Some s /\
    2 ^ (Items.numLevels s - 1) <= Z.max 1 (Items.n s) /\
    Items.GetNumRetained s = Some retained /\
    0 <= retained <= K * Items.numLevels s /\ retained <= Items.n s.
Proof.
  intros Hsort HK Hlen. unfold Items.NewItemsSketch.
  rewrite decide_False by (unfold Items._MIN_K, Items._MAX_K, Items._DEFAULT_M; lia).
  set (s0 := Items.mkItemsSketch K Items._DEFAULT_M K 1 false 0 [u32 K; u32 K]
               (replicate (Z.to_nat K) Items.zeroValue) None None None : Items.ItemsSketch C SV).
  assert (Hwfx0 : wfx s0 0) by (apply fresh_wfx; [exact HK|reflexivity]).
  assert (Hl0 : wfl s0).
  { constructor; unfold s0; sk_simpl; [lia|]. rewrite (u32_small K) by lia.
    change (lv [K; K] 1) with K. lia. }
  destruct (updates_total Hsort stream s0 0 Hwfx0 ltac:(lia)) as (s & Hrun & _).
  destruct (updates_wfl Hsort stream s0 s 0 Hwfx0 Hl0 ltac:(lia) Hrun) as [[Htopne Hcap] Hwfx].
  assert (Hk : Items.k s = K) by apply (updates_params stream s0 s Hrun).
  rewrite Z.add_0_l in Hwfx. pose proof (wfx_wf _ _ Hwfx) as Hwf.
  pose proof (wf_numLevels _ _ Hwf) as Hnl.
  pose proof (wf_count_nonneg _ _ Hwf) as Hc0.
  destruct (wf_range s _ 0 Hwf ltac:(lia)) as [Hr0 Hg0].
  destruct (wf_range s _ (Items.numLevels s) Hwf ltac:(lia)) as [Hr1 Hg1].
  pose proof (wf_le s _ 0 (Items.numLevels s) Hwf ltac:(lia) ltac:(lia) ltac:(lia)) as H0top.
  pose proof (wf_retained_le s _ Hwf) as Hret. rewrite <- (wf_n _ _ Hwf) in Hret, Hc0.
  exists s0, s, (lv (Items.levels s) (Items.numLevels s) - lv (Items.levels s) 0).
  split; [reflexivity|]. split; [exact Hrun|]. split; [|split; [|split]].
  - destruct (decide (Items.numLevels s = 1)) as [H1|H2].
    + rewrite H1. change (2 ^ (1 - 1)) with 1. lia.
    + pose proof (wsum_ge_level (lv (Items.levels s)) (Z.to_nat (Items.numLevels s))
                    (Items.numLevels s - 1)
                    ltac:(intros i Hi; apply (wf_mono _ _ Hwf); lia) ltac:(lia)) as Hge.
      rewrite (wf_weight _ _ Hwf), <- (wf_n _ _ Hwf) in Hge.
      replace (Items.numLevels s - 1 + 1) with (Items.numLevels s) in Hge by lia.
      specialize (Htopne ltac:(lia)).
      assert (Hp : 0 < 2 ^ (Items.numLevels s - 1)) by (apply Z.pow_pos_nonneg; lia).
      nia.
  - unfold Items.GetNumRetained. rewrite Hg0, Hg1. cbn [mbind option_bind].
    rewrite u32_small by lia. reflexivity.
  - rewrite Hk in Hcap. lia.
  - exact Hret.
Qed.

Lemma levels_grow_with_log_of_n_witness :
  exists (s0 s : Items.ItemsSketch StringItems.GoString unit) (retained : Z),
    Items.NewItemsSketch 8 = Ok s0 /\ updates s0 (StringItems.letters 40) = Some s /\
    2 ^ (Items.numLevels s - 1) <= Z.max 1 (Items.n s) /\
    Items.GetNumRetained s = Some retained /\
    0 <= retained <= 8 * Items.numLevels s /\ retained <= Items.n s.
Proof.
  apply (levels_grow_with_log_of_n (C := StringItems.GoString) (SV := unit)
           (OpC := StringItems.stringItemsSketchOp) (RtC := StringItems.stringRuntime)
           8 (StringItems.letters 40) (fun less l => insertion_sort_perm less l)).
  - lia.
  - vm_compute. reflexivity.
Defined.

(** *** Exact mode and estimation mode *)

Section ExactMode.
Context {C SV : Type} {OpC : Items.ItemSketchOp C} {RtC : Items.Runtime C}.
Hypothesis sortSlice_perm : forall less (l : list C), Permutation (Items.sortSlice less l) l.
#[local] Abbreviation Sketch := (Items.ItemsSketch C SV).

(** With two levels or more, of which the top one is not empty, the items
    weigh more than they number. *)
Lemma wsum_gt_count f (n : nat) :
  (forall i, 0 <= i < Z.of_nat n -> f i <= f (i + 1)) ->
  (2 <= n)%nat -> f (Z.of_nat n - 1) < f (Z.of_nat n) -> f (Z.of_nat n) - f 0 < wsum f n.
Proof.
  intros Hmono Hn Htop. destruct n as [|n]; [lia|]. cbn [wsum].
  pose proof (wsum_ge_count f n ltac:(intros; apply Hmono; lia)) as Hge.
  replace (Z.of_nat (S n)) with (Z.of_nat n + 1) in * by lia.
  replace (Z.of_nat n + 1 - 1) with (Z.of_nat n) in Htop by lia.
  assert (Hp : 2 ^ 1 <= 2 ^ Z.of_nat n) by (apply Z.pow_le_mono_r; lia).
  change (2 ^ 1) with 2 in Hp. nia.
Qed.

Lemma drop_zset {A} (l l' : list A) i x :
  zset l i x = Some l' -> drop (Z.to_nat i) l' = x :: drop (Z.to_nat (i + 1)) l.
Proof.
  unfold zset. intros H. case_decide as Hi; [|discriminate]. injection H as <-.
  rewrite insert_take_drop by lia.
  rewrite drop_app_length' by (rewrite length_take; lia).
  replace (Z.to_nat (i + 1)) with (S (Z.to_nat i)) by lia. reflexivity.
Qed.

(** A compaction leaves two levels or more. *)
Lemma compress_numLevels (s s' : Sketch) c :
  wfx s c -> Items.compressWhileUpdatingSketch s = Some s' -> 2 <= Items.numLevels s'.
Proof.
  intros Hwfx Hrun. pose proof (wfx_wf _ _ Hwfx) as Hwf.
  unfold Items.compressWhileUpdatingSketch in Hrun.
  bind_step Hrun level Elevel.
  apply (findLevelToCompact_wf s c level Hwf) in Elevel as [Hlevel Hpop].
  bind_step Hrun s1 Es1.
  assert (Hc : c <> 0).
  { pose proof (wf_retained_le s c Hwf).
    pose proof (wf_le s c (level + 1) (Items.numLevels s) Hwf ltac:(lia) ltac:(lia) ltac:(lia)).
    pose proof (wf_le s c 0 level Hwf ltac:(lia) ltac:(lia) ltac:(lia)). lia. }
  assert (H1 : level + 2 <= Items.numLevels s1).
  { pose proof (wf_numLevels _ _ Hwf) as Hnl.
    rewrite u8_small in Es1 by lia.
    destruct (decide (level = Items.numLevels s - 1)) as [Htop|Htop].
    - destruct (addEmptyTop_top s s1 c Hwfx Hc Es1) as (Hnl1 & _). lia.
    - injection Es1 as <-. lia. }
  clear Es1.
  bind_step Hrun a1 E1. bind_step Hrun a2 E2. bind_step Hrun a3 E3.
  bind_step Hrun a4 E4. clear E4. bind_step Hrun a5 E5. clear E5.
  bind_step Hrun a6 E6. bind_step Hrun a7 E7. clear E7. destruct a7 as [a7 a8].
  bind_step Hrun a9 E9. clear E9. bind_step Hrun a10 E10.
  injection Hrun as <-. unfold Items.set_items, Items.set_levels. sk_simpl. lia.
Qed.

(** The sketch an update starts from, with its minimum and maximum set. *)
Lemma updateItem_minmax_wfx (s s0 : Sketch) c x :
  wfx s c ->
  (if Items.IsEmpty s
   then Some (Items.set_maxItem (Items.set_minItem s (Some x)) (Some x))
   else mi ← Items.minItem s;
        let s := if Items.lessFn x mi then Items.set_minItem s (Some x) else s in
        ma ← Items.maxItem s;
        Some (if Items.lessFn ma x then Items.set_maxItem s (Some x) else s)) = Some s0 ->
  wfx s0 c /\ Items.numLevels s0 = Items.numLevels s /\ Items.levels s0 = Items.levels s /\
  Items.items s0 = Items.items s /\ Items.k s0 = Items.k s.
Proof.
  intros Hwfx E0. destruct (Items.IsEmpty s).
  - injection E0 as <-. split; [|repeat split].
    eapply wfx_same_layout; [..|exact Hwfx]; try reflexivity.
    intros _. split; eexists; reflexivity.
  - bind_step E0 mi Emi. bind_step E0 ma Ema. injection E0 as <-.
    assert (Hma : Items.maxItem s = Some ma) by (destruct (Items.lessFn x mi); exact Ema).
    destruct (Items.lessFn x mi), (Items.lessFn ma x);
      (split; [eapply wfx_same_layout; [..|exact Hwfx]; try reflexivity;
               intros _; split; eexists; first [reflexivity|eassumption]
              |repeat split]).
Qed.

(** An update that leaves one level started from one level, compacted
    nothing, and put its item in front of level 0. *)
Lemma updateItem_exact (s s' : Sketch) c x :
  wfx s c -> Items.updateItem s x = Some s' -> Items.numLevels s' = 1 ->
  Items.numLevels s = 1 /\
  lv (Items.levels s') 1 = lv (Items.levels s) 1 /\
  drop (Z.to_nat (lv (Items.levels s') 0)) (Items.items s')
    = (if Items.isNil x then [] else [x])
      ++ drop (Z.to_nat (lv (Items.levels s) 0)) (Items.items s).
Proof.
  intros Hwfx Hrun Hone. unfold Items.updateItem in Hrun.
  destruct (Items.isNil x); [injection Hrun as <-; repeat split; assumption|].
  bind_step Hrun s0 E0.
  destruct (updateItem_minmax_wfx s s0 c x Hwfx E0) as (Hwfx0 & Hnl0 & HL0 & Hi0 & _).
  rewrite <- Hnl0, <- HL0, <- Hi0. clear E0 Hwfx Hnl0 HL0 Hi0 s.
  bind_step Hrun l0 El0. bind_step Hrun r Er. destruct r as [s1 l1].
  destruct (decide (l0 = 0)) as [Hz|Hz].
  - exfalso. bind_step Er s2 E2. bind_step Er l2 El2. injection Er as <- <-.
    pose proof (compress_numLevels s0 s2 c Hwfx0 E2) as H2.
    bind_step Hrun L' EL. bind_step Hrun items' Ei. injection Hrun as <-.
    sk_simpl. lia.
  - injection Er as <- <-.
    pose proof (wfx_wf _ _ Hwfx0) as Hwf.
    pose proof (lv_Some _ _ _ El0) as Hl0. pose proof (wf_lo _ _ Hwf) as Hlo.
    destruct (wf_range s0 c 0 Hwf ltac:(pose proof (wf_numLevels _ _ Hwf); lia)) as [Hr0 _].
    rewrite u32_small in Hrun by lia.
    bind_step Hrun L' EL. bind_step Hrun items' Ei. injection Hrun as <-.
    sk_simpl. split; [exact Hone|]. split.
    + apply (lv_zset_ne _ _ _ 1 _ EL). lia.
    + rewrite (lv_zset_eq _ _ _ _ EL). rewrite (drop_zset _ _ _ _ Ei).
      replace (l0 - 1 + 1) with l0 by lia. rewrite Hl0. reflexivity.
Qed.

Lemma updates_exact stream : forall (s s' : Sketch) c,
  wfx s c -> c + zlen stream < 2 ^ 63 -> updates s stream = Some s' ->
  Items.numLevels s' = 1 ->
  Items.numLevels s = 1 /\
  lv (Items.levels s') 1 = lv (Items.levels s) 1 /\
  drop (Z.to_nat (lv (Items.levels s') 0)) (Items.items s')
    = rev (taken stream) ++ drop (Z.to_nat (lv (Items.levels s) 0)) (Items.items s).
Proof.
  induction stream as [|x stream IH]; intros s s' c Hwfx Hc Hrun Hone; cbn [updates] in Hrun.
  - injection Hrun as <-. repeat split; assumption.
  - assert (Hlen : zlen (x :: stream) = zlen stream + 1) by (unfold zlen; cbn [length]; lia).
    pose proof (wf_count_nonneg _ _ (wfx_wf _ _ Hwfx)) as Hc0.
    assert (Hs0 : 0 <= zlen stream) by (unfold zlen; lia).
    bind_step Hrun s1 E1. unfold Items.Update in E1. bind_step E1 s2 E2. injection E1 as <-.
    pose proof (updateItem_wfx sortSlice_perm s s2 c x Hwfx ltac:(lia) E2) as Hwfx2.
    assert (Hwfx1 : wfx (Items.set_sortedView s2 None) (c + (if Items.isNil x then 0 else 1))).
    { eapply wfx_same_layout; [..|exact Hwfx2]; try reflexivity. apply (wfx_minmax _ _ Hwfx2). }
    destruct (IH (Items.set_sortedView s2 None) s' _ Hwfx1
                ltac:(destruct (Items.isNil x); lia) Hrun Hone) as (Hone2 & Htop2 & Hd2).
    + cbn [Items.set_sortedView Items.numLevels Items.levels Items.items] in Hone2, Htop2, Hd2.
      destruct (updateItem_exact s s2 c x Hwfx E2 Hone2) as (Hone1 & Htop1 & Hd1).
      split; [exact Hone1|]. split; [congruence|].
      rewrite Hd2, Hd1. unfold taken. cbn [List.filter].
      destruct (Items.isNil x); cbn [negb]; [reflexivity|].
      cbn [rev]. rewrite <- app_assoc. reflexivity.
Qed.

(** While no more than [K] items have been taken in, level 0 has room and
    nothing is compacted. *)
Lemma updateItem_stays_exact (s s' : Sketch) c x :
  wfx s c -> Items.numLevels s = 1 -> lv (Items.levels s) 1 = Items.k s ->
  c + (if Items.isNil x then 0 else 1) <= Items.k s ->
  Items.updateItem s x = Some s' ->
  Items.numLevels s' = 1 /\ lv (Items.levels s') 1 = Items.k s' /\ Items.k s' = Items.k s.
Proof.
  intros Hwfx Hone Htop Hroom Hrun. unfold Items.updateItem in Hrun.
  destruct (Items.isNil x); [injection Hrun as <-; repeat split; assumption|].
  bind_step Hrun s0 E0.
  destruct (updateItem_minmax_wfx s s0 c x Hwfx E0) as (Hwfx0 & Hnl0 & HL0 & Hi0 & Hk0).
  rewrite <- Hnl0 in Hone. rewrite <- HL0, <- Hk0 in Htop. rewrite <- Hk0 in Hroom.
  rewrite <- Hk0. clear E0 Hwfx Hnl0 HL0 Hi0 Hk0 s.
  pose proof (wfx_wf _ _ Hwfx0) as Hwf.
  pose proof (wf_weight _ _ Hwf) as Hw. rewrite Hone in Hw.
  change (Z.to_nat 1) with 1%nat in Hw. cbn [wsum] in Hw.
  change (Z.of_nat 0) with 0 in Hw. change (2 ^ 0) with 1 in Hw.
  replace (0 + 1) with 1 in Hw by lia.
  bind_step Hrun l0 El0. pose proof (lv_Some _ _ _ El0) as Hl0.
  rewrite decide_False in Hrun by lia. cbn [mbind option_bind] in Hrun.
  bind_step Hrun L' EL. bind_step Hrun items' Ei. injection Hrun as <-.
  sk_simpl. split; [exact Hone|]. split; [|reflexivity].
  rewrite (lv_zset_ne _ _ _ 1 _ EL) by lia. exact Htop.
Qed.

Lemma updates_stay_exact stream : forall (s s' : Sketch) c,
  wfx s c -> Items.numLevels s = 1 -> lv (Items.levels s) 1 = Items.k s ->
  c + zlen (taken stream) <= Items.k s ->
  updates s stream = Some s' -> Items.numLevels s' = 1.
Proof.
  induction stream as [|x stream IH]; intros s s' c Hwfx Hone Htop Hroom Hrun;
    cbn [updates] in Hrun.
  - injection Hrun as <-. exact Hone.
  - rewrite zlen_taken_cons in Hroom. pose proof (zlen_taken_le stream) as Ht.
    pose proof (wf_k _ _ (wfx_wf _ _ Hwfx)) as Hk.
    bind_step Hrun s1 E1. unfold Items.Update in E1. bind_step E1 s2 E2. injection E1 as <-.
    pose proof (updateItem_wfx sortSlice_perm s s2 c x Hwfx
                  ltac:(destruct (Items.isNil x); lia) E2) as Hwfx2.
    destruct (updateItem_stays_exact s s2 c x Hwfx Hone Htop ltac:(lia) E2)
      as (Hone2 & Htop2 & Hk2).
    apply (IH (Items.set_sortedView s2 None) s' (c + (if Items.isNil x then 0 else 1)));
      [| | | |exact Hrun].
    + eapply wfx_same_layout; [..|exact Hwfx2]; try reflexivity. apply (wfx_minmax _ _ Hwfx2).
    + exact Hone2.
    + exact Htop2.
    + cbn [Items.set_sortedView Items.k]. rewrite Hk2. lia.
Qed.

End ExactMode.

(** X16. A sketch is in estimation mode exactly when its stream had more
    than [K] items. Until then it holds the whole stream:
    [getRetainedItemsArray] returns the items taken in, the newest first. In
    estimation mode it retains fewer items than it has taken in. (A new
    sketch, [K] from 8 to 65535, fed a stream of fewer than [2^63] items;
    [sort.Slice] a permutation.) *)
Theorem exact_mode_holds_the_whole_stream {C SV : Type} {OpC : Items.ItemSketchOp C}
    {RtC : Items.Runtime C} (K : Z) (stream : list C) :
  (forall less (l : list C), Permutation (Items.sortSlice less l) l) ->
  8 <= K <= 65535 -> zlen stream < 2 ^ 63 ->
  exists s0 s : Items.ItemsSketch C SV,
    Items.NewItemsSketch K = Ok s0 /\ updates s0 stream = Some s /\
    Items.IsEstimationMode s = bool_decide (K < zlen (taken stream)) /\
    (Items.IsEstimationMode s = false ->
     Items.getRetainedItemsArray s = Some (rev (taken stream))) /\
    (Items.IsEstimationMode s = true ->
     exists retained, Items.GetNumRetained s = Some retained /\ retained < Items.n s).
Proof.
  intros Hsort HK Hlen. unfold Items.NewItemsSketch.
  rewrite decide_False by (unfold Items._MIN_K, Items._MAX_K, Items._DEFAULT_M; lia).
  set (s0 := Items.mkItemsSketch K Items._DEFAULT_M K 1 false 0 [u32 K; u32 K]
               (replicate (Z.to_nat K) Items.zeroValue) None None None : Items.ItemsSketch C SV).
  assert (Hwfx0 : wfx s0 0) by (apply fresh_wfx; [exact HK|reflexivity]).
  assert (Hl0 : wfl s0).
  { constructor; unfold s0; sk_simpl; [lia|]. rewrite (u32_small K) by lia.
    change (lv [K; K] 1) with K. lia. }
  assert (Htop0 : lv (Items.levels s0) 1 = K).
  { unfold s0; sk_simpl. rewrite (u32_small K) by lia. reflexivity. }
  assert (Hlo0 : lv (Items.levels s0) 0 = K).
  { unfold s0; sk_simpl. rewrite (u32_small K) by lia. reflexivity. }
  destruct (updates_total Hsort stream s0 0 Hwfx0 ltac:(lia)) as (s & Hrun & _).
  destruct (updates_wfl Hsort stream s0 s 0 Hwfx0 Hl0 ltac:(lia) Hrun) as [[Htopne Hcap] Hwfx].
  assert (Hk : Items.k s = K) by apply (updates_params stream s0 s Hrun).
  rewrite Z.add_0_l in Hwfx. pose proof (wfx_wf _ _ Hwfx) as Hwf.
  pose proof (wf_numLevels _ _ Hwf) as Hnl.
  destruct (wf_range s _ 0 Hwf ltac:(lia)) as [Hr0 Hg0].
  destruct (wf_range s _ (Items.numLevels s) Hwf ltac:(lia)) as [Hr1 Hg1].
  pose proof (wf_le s _ 0 (Items.numLevels s) Hwf ltac:(lia) ltac:(lia) ltac:(lia)) as H0top.
  pose proof (wf_weight _ _ Hwf) as Hw.
  assert (Hone : Items.numLevels s = 1 ->
            lv (Items.levels s) 1 - lv (Items.levels s) 0 = zlen (taken stream)).
  { intros H1. rewrite H1 in Hw. change (Z.to_nat 1) with 1%nat in Hw. cbn [wsum] in Hw.
    change (Z.of_nat 0) with 0 in Hw. change (2 ^ 0) with 1 in Hw.
    replace (0 + 1) with 1 in Hw by lia. lia. }
  exists s0, s. split; [reflexivity|]. split; [exact Hrun|]. split; [|split].
  - unfold Items.IsEstimationMode.
    destruct (decide (K < zlen (taken stream))) as [Hmany|Hfew].
    + rewrite (bool_decide_eq_true_2 (K < _)) by exact Hmany. apply bool_decide_eq_true_2.
      destruct (decide (Items.numLevels s = 1)) as [H1|]; [|lia].
      specialize (Hone H1). rewrite H1, Hk in Hcap. lia.
    + rewrite (bool_decide_eq_false_2 (K < _)) by exact Hfew. apply bool_decide_eq_false_2.
      pose proof (updates_stay_exact Hsort stream s0 s 0 Hwfx0 eq_refl Htop0 ltac:(cbn; lia) Hrun).
      lia.
  - intros Hmode. unfold Items.IsEstimationMode in Hmode.
    apply bool_decide_eq_false_1 in Hmode.
    assert (H1 : Items.numLevels s = 1) by lia. specialize (Hone H1).
    destruct (updates_exact Hsort stream s0 s 0 Hwfx0 ltac:(lia) Hrun H1) as (_ & _ & Hd).
    assert (Hd0 : drop (Z.to_nat (lv (Items.levels s0) 0)) (Items.items s0) = []).
    { rewrite Hlo0. apply drop_ge. unfold s0. sk_simpl. rewrite length_replicate. lia. }
    rewrite Hd0, app_nil_r in Hd.
    pose proof (wfx_len _ _ Hwfx) as Hilen. rewrite H1 in Hilen, Hg1, Hr1, H0top, Hcap.
    unfold Items.getRetainedItemsArray, Items.GetNumRetained.
    rewrite H1, Hg0, Hg1. cbn [mbind option_bind].
    rewrite u32_small by lia. unfold zslice.
    rewrite decide_True by lia. cbn [mbind option_bind].
    rewrite (take_ge (drop _ _)) by (rewrite length_drop; unfold zlen in *; lia).
    rewrite Hd, Hone.
    rewrite take_app_length' by (unfold zlen; rewrite length_rev; lia). reflexivity.
  - intros Hmode. unfold Items.IsEstimationMode in Hmode.
    apply bool_decide_eq_true_1 in Hmode.
    exists (lv (Items.levels s) (Items.numLevels s) - lv (Items.levels s) 0). split.
    + unfold Items.GetNumRetained. rewrite Hg0, Hg1. cbn [mbind option_bind].
      rewrite u32_small by lia. reflexivity.
    + rewrite (wf_n _ _ Hwf), <- Hw.
      pose proof (wsum_gt_count (lv (Items.levels s)) (Z.to_nat (Items.numLevels s))
                    ltac:(intros i Hi; apply (wf_mono _ _ Hwf); lia) ltac:(lia)) as Hgt.
      rewrite Z2Nat.id in Hgt by lia. apply Hgt. apply Htopne. lia.
Qed.

Lemma exact_mode_holds_the_whole_stream_witness :
  exists s0 s : Items.ItemsSketch StringItems.GoString unit,
    Items.NewItemsSketch 8 = Ok s0 /\ updates s0 (StringItems.letters 7) = Some s /\
    Items.IsEstimationMode s = bool_decide (8 < zlen (taken (StringItems.letters 7))) /\
    (Items.IsEstimationMode s = false ->
     Items.getRetainedItemsArray s = Some (rev (taken (StringItems.letters 7)))) /\
    (Items.IsEstimationMode s = true ->
     exists retained, Items.GetNumRetained s = Some retained /\ retained < Items.n s).
Proof.
  apply (exact_mode_holds_the_whole_stream (C := StringItems.GoString) (SV := unit)
           (OpC := StringItems.stringItemsSketchOp) (RtC := StringItems.stringRuntime)
           8 (StringItems.letters 7) (fun less l => insertion_sort_perm less l)).
  - lia.
  - vm_compute. reflexivity.
Defined.

(** *** Reset *)

Section ResetFacts.
Context {C SV : Type} {OpC : Items.ItemSketchOp C} {RtC : Items.Runtime C}.
#[local] Abbreviation Sketch := (Items.ItemsSketch C SV).

Lemma addEmptyTop_minK (s s1 : Sketch) :
  Items.addEmptyTopLevelToCompletelyFullSketch s = Some s1 -> Items.minK s1 = Items.minK s.
Proof.
  intros Hrun. unfold Items.addEmptyTopLevelToCompletelyFullSketch in Hrun.
  bind_all Hrun. injection Hrun as <-. reflexivity.
Qed.

Lemma compress_minK (s s' : Sketch) :
  Items.compressWhileUpdatingSketch s = Some s' ->
  Items.minK s' = Items.minK s /\ Items.m s' = Items.m s.
Proof.
  intros Hrun. unfold Items.compressWhileUpdatingSketch in Hrun.
  bind_step Hrun level Elevel. bind_step Hrun s1 Es1.
  assert (H1 : Items.minK s1 = Items.minK s /\ Items.m s1 = Items.m s).
  { destruct (decide (level = u8 (Items.numLevels s - 1))).
    - split; [now apply addEmptyTop_minK in Es1|now apply addEmptyTop_params in Es1].
    - injection Es1 as <-. split; reflexivity. }
  destruct H1 as [<- <-]. clear Es1 Elevel.
  bind_step Hrun a1 E1. bind_step Hrun a2 E2. bind_step Hrun a3 E3.
  bind_step Hrun a4 E4. clear E4. bind_step Hrun a5 E5. clear E5.
  bind_step Hrun a6 E6. bind_step Hrun a7 E7. clear E7. destruct a7 as [a7 a8].
  bind_step Hrun a9 E9. clear E9. bind_step Hrun a10 E10.
  injection Hrun as <-. split; reflexivity.
Qed.

Lemma updateItem_minK (s s' : Sketch) x :
  Items.updateItem s x = Some s' -> Items.minK s' = Items.minK s /\ Items.m s' = Items.m s.
Proof.
  intros Hrun. unfold Items.updateItem in Hrun.
  destruct (Items.isNil x); [injection Hrun as <-; split; reflexivity|].
  bind_step Hrun s0 E0.
  assert (H0 : Items.minK s0 = Items.minK s /\ Items.m s0 = Items.m s).
  { destruct (Items.IsEmpty s).
    - injection E0 as <-. split; reflexivity.
    - bind_step E0 mi Emi. bind_step E0 ma Ema. injection E0 as <-.
      destruct (Items.lessFn x mi), (Items.lessFn ma x); split; reflexivity. }
  destruct H0 as [<- <-]. clear E0.
  bind_step Hrun l0 El0. clear El0. bind_step Hrun r Er. destruct r as [s1 l1].
  assert (H1 : Items.minK s1 = Items.minK s0 /\ Items.m s1 = Items.m s0).
  { destruct (decide (l0 = 0)).
    - bind_step Er s2 E2. bind_step Er l2 El2. injection Er as <- <-.
      now apply compress_minK.
    - injection Er as <- <-. split; reflexivity. }
  destruct H1 as [<- <-]. clear Er.
  bind_step Hrun L' EL. bind_step Hrun it' Eit. injection Hrun as <-. split; reflexivity.
Qed.

Lemma updates_minK stream : forall s s' : Sketch,
  updates s stream = Some s' -> Items.minK s' = Items.minK s /\ Items.m s' = Items.m s.
Proof.
  induction stream as [|x stream IH]; intros s s' Hrun; cbn [updates] in Hrun.
  - injection Hrun as <-. split; reflexivity.
  - bind_step Hrun s1 E1. unfold Items.Update in E1. bind_step E1 s2 E2. injection E1 as <-.
    destruct (IH _ _ Hrun) as [-> ->]. cbn [Items.minK Items.m Items.set_sortedView].
    now apply updateItem_minK in E2.
Qed.

End ResetFacts.

(** X17. [Reset] takes a sketch back to where it started: whatever stream of
    updates a new sketch has been fed, how many levels it has grown and
    whatever it holds, the sketch [Reset] leaves is the one [NewItemsSketch]
    returned, in every field. *)
Theorem reset_gives_back_the_new_sketch {C SV : Type} {OpC : Items.ItemSketchOp C}
    {RtC : Items.Runtime C} (K : Z) (stream : list C) (s0 s : Items.ItemsSketch C SV) :
  Items.NewItemsSketch K = Ok s0 -> updates s0 stream = Some s -> Items.Reset s = s0.
Proof.
  intros Hnew Hrun. unfold Items.NewItemsSketch in Hnew.
  case_decide; [discriminate|]. injection Hnew as <-.
  pose proof (updates_params stream _ _ Hrun) as Hk.
  destruct (updates_minK stream _ _ Hrun) as [HminK Hm].
  unfold Items.Reset. sk_simpl. rewrite Hk, HminK, Hm. reflexivity.
Qed.

Lemma reset_gives_back_the_new_sketch_witness :
  exists s0 s : Items.ItemsSketch StringItems.GoString unit,
    Items.NewItemsSketch 8 = Ok s0 /\ updates s0 (StringItems.letters 40) = Some s /\
    Items.numLevels s = 3 /\ Items.Reset s = s0.
Proof.
  eexists _, _. split; [reflexivity|]. split; [vm_compute; reflexivity|].
  split; [reflexivity|].
  eapply (reset_gives_back_the_new_sketch (C := StringItems.GoString) (SV := unit)
            (OpC := StringItems.stringItemsSketchOp) (RtC := StringItems.stringRuntime)
            8 (StringItems.letters 40)).
  - reflexivity.
  - vm_compute. reflexivity.
Defined.

(** ** The doubles sketch: what it holds *)

Section DoublesStream.
Variables k m : Z.
Variable upd : Doubles.DoubleSketch -> float -> result Doubles.DoubleSketch.
Hypothesis upd_nan : forall s vals x,
  holdsAll k m s vals -> Doubles.IsNaN x = true -> upd s x = Ok s.
Hypothesis upd_room : forall s vals x,
  holdsAll k m s vals -> zlen vals < k -> Doubles.IsNaN x = false ->
  exists s', upd s x = Ok s' /\ holdsAll k m s' (vals ++ [x]).
Hypothesis upd_full : forall s vals x,
  holdsAll k m s vals -> zlen vals = k -> Doubles.IsNaN x = false -> upd s x = Panic.

Lemma updateAll_holdsAll stream : forall s pre,
  holdsAll k m s pre ->
  (zlen (pre ++ List.filter (fun x => negb (Doubles.IsNaN x)) stream) <= k ->
   exists s', Doubles.updateAll upd s stream = Ok s' /\
     holdsAll k m s' (pre ++ List.filter (fun x => negb (Doubles.IsNaN x)) stream)) /\
  (k < zlen (pre ++ List.filter (fun x => negb (Doubles.IsNaN x)) stream) ->
   Doubles.updateAll upd s stream = Panic).
Proof.
  induction stream as [|x stream IH]; intros s pre Hinv; cbn [List.filter Doubles.updateAll].
  - rewrite app_nil_r. split.
    + intros _. exists s. split; [reflexivity|exact Hinv].
    + intros Hlt. destruct Hinv as (_ & _ & _ & _ & Hb & _). lia.
  - destruct (Doubles.IsNaN x) eqn:Ex; cbn [negb].
    + rewrite (upd_nan s pre x Hinv Ex). cbn [bind]. apply IH. exact Hinv.
    + assert (Hb : 0 <= zlen pre <= k) by (destruct Hinv as (_ & _ & _ & _ & Hb & _); exact Hb).
      assert (Hlen : zlen (pre ++ x :: List.filter (fun x => negb (Doubles.IsNaN x)) stream)
                     >= zlen pre + 1).
      { unfold zlen. rewrite length_app. cbn [length]. lia. }
      destruct (decide (zlen pre = k)) as [Hfull|Hroom].
      * rewrite (upd_full s pre x Hinv Hfull Ex). cbn [bind].
        split; [intros Hle; lia|reflexivity].
      * destruct (upd_room s pre x Hinv ltac:(lia) Ex) as (s' & -> & Hinv'). cbn [bind].
        replace (pre ++ x :: List.filter (fun x => negb (Doubles.IsNaN x)) stream)
          with ((pre ++ [x]) ++ List.filter (fun x => negb (Doubles.IsNaN x)) stream)
          by (rewrite <- app_assoc; reflexivity).
        apply IH. exact Hinv'.
Qed.

End DoublesStream.

Section DoublesExact.
Variables k m : Z.
Hypothesis Hk : m <= k <= 65535.
Hypothesis Hm : 2 <= m <= 8.

Lemma helper_levelCapacity_one_level : Helper.levelCapacity k 1 0 m = Ok k.
Proof.
  unfold Helper.levelCapacity. rewrite !decide_False by lia.
  change (1 - 0 - 1) with 0. unfold Helper.intCapAux. rewrite decide_True by lia.
  destruct (helper_intCapAuxAux_eval k 0 ltac:(lia) ltac:(lia)) as [-> _].
  cbn [bind]. change (2 ^ 0) with 1. change (3 ^ 0) with 1.
  rewrite Z.mul_1_r, Z.div_1_r.
  replace ((2 * k + 1) / 2) with k
    by (apply Z.div_unique with (r := 1); lia).
  rewrite Z.max_r by lia. reflexivity.
Qed.

Lemma helper_findLevelToCompact_one_full :
  Helper.findLevelToCompact k m 1 [0; k] = Ok 0.
Proof.
  unfold Helper.findLevelToCompact. change (Z.to_nat 1 + 1)%nat with 2%nat.
  cbn [Helper.findLevelToCompact_from]. rewrite decide_False by lia.
  change (i64 (0 + 1)) with 1. change (zget [0; k] 1) with (Some k).
  change (zget [0; k] 0) with (Some 0). cbn [of_option bind].
  rewrite helper_levelCapacity_one_level. cbn [bind].
  rewrite Z.sub_0_r, i64_small by lia. rewrite decide_True by lia. reflexivity.
Qed.

(** The sketch between the two halves of [updateDouble]: its minimum and
    maximum set, nothing else touched. *)
Lemma holdsAll_same_layout (s s0 : Doubles.DoubleSketch) vals :
  Doubles.structure s0 = Doubles.structure s -> Doubles.readOnly s0 = Doubles.readOnly s ->
  Doubles.k s0 = Doubles.k s -> Doubles.m s0 = Doubles.m s -> Doubles.n s0 = Doubles.n s ->
  Doubles.levelsArr s0 = Doubles.levelsArr s -> Doubles.doubleItems s0 = Doubles.doubleItems s ->
  holdsAll k m s vals -> holdsAll k m s0 vals.
Proof.
  intros H1 H2 H3 H4 H5 H6 H7 Hinv. unfold holdsAll. rewrite H1, H2, H3, H4, H5, H6, H7.
  exact Hinv.
Qed.

(** With room in level 0 the value goes in front of it. *)
Lemma updateDouble_insert_room compress offset (s : Doubles.DoubleSketch) vals x :
  holdsAll k m s vals -> zlen vals < k ->
  exists s', Doubles.updateDouble_insert compress offset s x = Ok s' /\
    holdsAll k m s' (vals ++ [x]).
Proof.
  intros (Hst & Hro & Hks & Hms & Hb & Hn & HL & Hlen & Hd) Hroom.
  unfold Doubles.updateDouble_insert. rewrite HL.
  change (zget [k - zlen vals; k] 0) with (Some (k - zlen vals)). cbn [of_option bind].
  rewrite decide_False by lia. cbn [bind].
  destruct s as [st sv ro L k0 m0 n0 minK lz mi ma items].
  cbn [Doubles.structure Doubles.readOnly Doubles.k Doubles.m Doubles.n Doubles.levelsArr
       Doubles.doubleItems] in *.
  subst st ro k0 m0 n0 L.
  unfold Doubles.setLevelZeroSorted, Doubles.incN.
  cbn [Doubles.structure Doubles.readOnly Doubles.k Doubles.m Doubles.n Doubles.levelsArr
       Doubles.doubleItems Doubles.kllDoublesSV Doubles.minK Doubles.isLevelZeroSorted
       Doubles.minDoubleItem Doubles.maxDoubleItem].
  rewrite (i64_small (k - zlen vals - 1)) by lia.
  change (zset [k - zlen vals; k] 0 (k - zlen vals - 1)) with (Some [k - zlen vals - 1; k]).
  cbn [mbind option_bind].
  destruct (zset_total items (k - zlen vals - 1) x ltac:(lia)) as (items' & Ei).
  rewrite Ei. cbn [mbind option_bind of_option].
  eexists. split; [reflexivity|].
  assert (Hlen' : zlen (vals ++ [x]) = zlen vals + 1).
  { unfold zlen. rewrite length_app. cbn [length]. lia. }
  unfold holdsAll, Doubles.set_doubleItems, Doubles.set_levelsArr.
  cbn [Doubles.structure Doubles.readOnly Doubles.k Doubles.m Doubles.n Doubles.levelsArr
       Doubles.doubleItems].
  rewrite Hlen'. split; [reflexivity|]. split; [reflexivity|]. split; [reflexivity|].
  split; [reflexivity|]. split; [lia|]. split; [apply i64_small; lia|].
  split; [f_equal; lia|]. split; [rewrite (zset_length _ _ _ _ Ei); exact Hlen|].
  replace (k - (zlen vals + 1)) with (k - zlen vals - 1) by lia.
  rewrite (drop_zset _ _ _ _ Ei).
  replace (k - zlen vals - 1 + 1) with (k - zlen vals) by lia.
  rewrite Hd, rev_app_distr. reflexivity.
Qed.

(** With level 0 full the compaction is called first. *)
Lemma updateDouble_insert_full compress offset (s : Doubles.DoubleSketch) vals x :
  holdsAll k m s vals -> zlen vals = k -> compress offset s = Panic ->
  Doubles.updateDouble_insert compress offset s x = Panic.
Proof.
  intros (Hst & Hro & Hks & Hms & Hb & Hn & HL & Hlen & Hd) Hfull Hc.
  unfold Doubles.updateDouble_insert. rewrite HL, Hfull, Z.sub_diag.
  change (zget [0; k] 0) with (Some 0). cbn [of_option bind].
  rewrite decide_True by reflexivity. rewrite Hc. reflexivity.
Qed.

(** The compaction of a full sketch of one level needs a level added, and
    adding it reads the levels array past its end. *)
Lemma doubles_compress_full_panics offset (s : Doubles.DoubleSketch) vals :
  holdsAll k m s vals -> zlen vals = k ->
  Doubles.compressWhileUpdatingSketch offset s = Panic.
Proof.
  intros (Hst & Hro & Hks & Hms & Hb & Hn & HL & Hlen & Hd) Hfull.
  unfold Doubles.compressWhileUpdatingSketch, Doubles.compressWhileUpdatingSketch_with.
  assert (Hnl : Doubles.getNumLevels s = 1).
  { unfold Doubles.getNumLevels. rewrite decide_True by (left; exact Hst). rewrite HL.
    reflexivity. }
  rewrite Hnl, Hks, Hms, HL, Hfull, Z.sub_diag, helper_findLevelToCompact_one_full.
  cbn [bind]. change (i64 (1 - 1)) with 0. rewrite decide_True by reflexivity.
  assert (Hadd : Doubles.addEmptyTopLevelToCompletelyFullSketch s = Panic).
  { unfold Doubles.addEmptyTopLevelToCompletelyFullSketch, Doubles.getLevelsArray.
    rewrite Hnl, HL, Hfull, Z.sub_diag.
    change (zget [0; k] 1) with (Some k). cbn [of_option bind].
    unfold Doubles.GetMinItem, Doubles.GetMaxItem, Doubles.IsEmpty, Doubles.GetN.
    rewrite bool_decide_eq_false_2 by lia. cbn [bind].
    unfold Doubles.addEmptyTopLevel_grow.
    rewrite decide_False by (intros Hne; apply Hne; exact Hlen).
    change (zget [0; k] 0) with (Some 0). cbn [of_option bind].
    rewrite decide_False by (intros Hne; apply Hne; reflexivity).
    rewrite Hks, Hms. change (i64 (1 + 1)) with 2. unfold Helper.levelCapacity.
    rewrite !decide_False by lia.
    destruct (helper_intCapAux_le_k k (2 - 0 - 1) ltac:(lia) ltac:(lia)) as (c & -> & _).
    reflexivity. }
  rewrite Hadd. reflexivity.
Qed.

Lemma doublesRev0_compress_full_panics offset (s : Doubles.DoubleSketch) vals :
  holdsAll k m s vals -> zlen vals = k ->
  DoublesRev0.compressWhileUpdatingSketch offset s = Panic.
Proof.
  intros (Hst & Hro & Hks & Hms & Hb & Hn & HL & Hlen & Hd) Hfull.
  unfold DoublesRev0.compressWhileUpdatingSketch, Doubles.compressWhileUpdatingSketch_with.
  assert (Hnl : Doubles.getNumLevels s = 1).
  { unfold Doubles.getNumLevels. rewrite decide_True by (left; exact Hst). rewrite HL.
    reflexivity. }
  rewrite Hnl, Hks, Hms, HL, Hfull, Z.sub_diag, helper_findLevelToCompact_one_full.
  cbn [bind]. change (i64 (1 - 1)) with 0. rewrite decide_True by reflexivity.
  unfold DoublesRev0.addEmptyTopLevelToCompletelyFullSketch, DoublesRev0.getLevelsArray.
  cbn [of_option bind]. rewrite Hnl. reflexivity.
Qed.

Lemma doubles_Update_nan offset (s : Doubles.DoubleSketch) vals x :
  holdsAll k m s vals -> Doubles.IsNaN x = true -> Doubles.Update offset s x = Ok s.
Proof.
  intros (_ & Hro & _) Ex. unfold Doubles.Update, Doubles.updateDouble.
  rewrite Hro, Ex. reflexivity.
Qed.

(** The two branches that set the minimum and the maximum return a sketch
    of the same layout. *)
Lemma doubles_minmax_layout (s : Doubles.DoubleSketch) vals x :
  holdsAll k m s vals ->
  exists s0,
    (if Doubles.IsEmpty s then Ok (Doubles.setMaxItem (Doubles.setMinItem s x) x)
     else
       bind (Doubles.GetMinItem s) (fun mi =>
       let dblSk := Doubles.setMinItem s (Doubles.math_Min mi x) in
       bind (Doubles.GetMinItem dblSk) (fun ma =>
       Ok (Doubles.setMaxItem dblSk (Doubles.math_Max ma x))))) = Ok s0 /\
    holdsAll k m s0 vals.
Proof.
  intros Hinv. destruct (Doubles.IsEmpty s) eqn:Ee.
  - eexists. split; [reflexivity|].
    apply (holdsAll_same_layout s); try reflexivity. exact Hinv.
  - unfold Doubles.GetMinItem at 1. rewrite Ee. cbn [bind].
    unfold Doubles.GetMinItem.
    assert (Ee' : Doubles.IsEmpty (Doubles.setMinItem s
                    (Doubles.math_Min (Doubles.minDoubleItem s) x)) = false) by exact Ee.
    rewrite Ee'. cbn [bind].
    eexists. split; [reflexivity|].
    apply (holdsAll_same_layout s); try reflexivity. exact Hinv.
Qed.

Lemma doubles_Update_room offset (s : Doubles.DoubleSketch) vals x :
  holdsAll k m s vals -> zlen vals < k -> Doubles.IsNaN x = false ->
  exists s', Doubles.Update offset s x = Ok s' /\ holdsAll k m s' (vals ++ [x]).
Proof.
  intros Hinv Hroom Ex. unfold Doubles.Update, Doubles.updateDouble.
  assert (Hro : Doubles.readOnly s = false) by (destruct Hinv as (_ & Hro & _); exact Hro).
  rewrite Hro, Ex.
  match goal with
  | |- exists s', bind ?e _ = _ /\ _ =>
      assert (He : exists s0, e = Ok s0 /\ holdsAll k m s0 vals)
        by exact (doubles_minmax_layout s vals x Hinv)
  end.
  destruct He as (s0 & -> & Hinv0).
  cbn [bind]. apply updateDouble_insert_room; assumption.
Qed.

Lemma doubles_Update_full offset (s : Doubles.DoubleSketch) vals x :
  holdsAll k m s vals -> zlen vals = k -> Doubles.IsNaN x = false ->
  Doubles.Update offset s x = Panic.
Proof.
  intros Hinv Hfull Ex. unfold Doubles.Update, Doubles.updateDouble.
  assert (Hro : Doubles.readOnly s = false) by (destruct Hinv as (_ & Hro & _); exact Hro).
  rewrite Hro, Ex.
  match goal with
  | |- bind ?e _ = _ =>
      assert (He : exists s0, e = Ok s0 /\ holdsAll k m s0 vals)
        by exact (doubles_minmax_layout s vals x Hinv)
  end.
  destruct He as (s0 & -> & Hinv0).
  cbn [bind]. apply (updateDouble_insert_full _ _ _ vals); [exact Hinv0|exact Hfull|].
  apply (doubles_compress_full_panics _ _ vals); assumption.
Qed.

Lemma doublesRev0_minmax_layout (s : Doubles.DoubleSketch) vals x :
  holdsAll k m s vals ->
  holdsAll k m
    (if Doubles.IsEmpty s then Doubles.setMaxItem (Doubles.setMinItem s x) x
     else
       let dblSk := Doubles.setMinItem s (Doubles.math_Min (DoublesRev0.getMinItem s) x) in
       Doubles.setMaxItem dblSk (Doubles.math_Max (DoublesRev0.getMaxItem dblSk) x)) vals.
Proof.
  intros Hinv. destruct (Doubles.IsEmpty s);
    (apply (holdsAll_same_layout s); try reflexivity; exact Hinv).
Qed.

Lemma doublesRev0_updateDouble_nan offset (s : Doubles.DoubleSketch) vals x :
  holdsAll k m s vals -> Doubles.IsNaN x = true -> DoublesRev0.updateDouble offset s x = Ok s.
Proof. intros _ Ex. unfold DoublesRev0.updateDouble. rewrite Ex. reflexivity. Qed.

Lemma doublesRev0_updateDouble_room offset (s : Doubles.DoubleSketch) vals x :
  holdsAll k m s vals -> zlen vals < k -> Doubles.IsNaN x = false ->
  exists s', DoublesRev0.updateDouble offset s x = Ok s' /\ holdsAll k m s' (vals ++ [x]).
Proof.
  intros Hinv Hroom Ex. unfold DoublesRev0.updateDouble. rewrite Ex.
  apply updateDouble_insert_room; [|exact Hroom].
  apply doublesRev0_minmax_layout. exact Hinv.
Qed.

Lemma doublesRev0_updateDouble_full offset (s : Doubles.DoubleSketch) vals x :
  holdsAll k m s vals -> zlen vals = k -> Doubles.IsNaN x = false ->
  DoublesRev0.updateDouble offset s x = Panic.
Proof.
  intros Hinv Hfull Ex. unfold DoublesRev0.updateDouble. rewrite Ex.
  pose proof (doublesRev0_minmax_layout s vals x Hinv) as Hinv0.
  apply (updateDouble_insert_full _ _ _ vals); [exact Hinv0|exact Hfull|].
  apply (doublesRev0_compress_full_panics _ _ vals); assumption.
Qed.

End DoublesExact.

Lemma new_doubles_holdsAll (k m : Z) (s0 : Doubles.DoubleSketch) :
  Doubles.NewKllDoubleSketch k m = Ok s0 ->
  (m <= k <= 65535) /\ (2 <= m <= 8) /\ holdsAll k m s0 [].
Proof.
  unfold Doubles.NewKllDoubleSketch, Helper.checkK, Helper.checkM, Helper._MAX_K,
    Helper._MIN_M, Helper._MAX_M.
  intros Hnew. case_decide as Hk; [discriminate|]. case_decide as Hm; [discriminate|].
  injection Hnew as <-. split; [lia|]. split; [lia|].
  unfold holdsAll.
  cbn [Doubles.structure Doubles.readOnly Doubles.k Doubles.m Doubles.n Doubles.levelsArr
       Doubles.doubleItems].
  change (zlen (@nil float)) with 0. rewrite Z.sub_0_r.
  repeat split; try lia.
  - unfold zlen. rewrite length_replicate. lia.
  - apply drop_ge. rewrite length_replicate. lia.
Qed.

(** X18. The doubles sketch holds the first [K] values of its stream and no
    more. While the stream has at most [K] values that are not NaN, every
    update returns, [N] counts them, and the one level holds them all, the
    newest first. The update after that finds level 0 full, and the
    compaction it calls panics on adding the level: the stream never gets
    past its [K+1]-th value. Both revisions of the sketch behave so, for
    every [K] and [M] that [NewKllDoubleSketch] accepts. *)
Theorem doubles_sketch_takes_K_values (k m offset : Z) (s0 : Doubles.DoubleSketch)
    (stream : list float) :
  Doubles.NewKllDoubleSketch k m = Ok s0 ->
  let vals := List.filter (fun x => negb (Doubles.IsNaN x)) stream in
  (zlen vals <= k ->
   exists s r,
     Doubles.updateAll (Doubles.Update offset) s0 stream = Ok s /\
     Doubles.updateAll (DoublesRev0.updateDouble offset) s0 stream = Ok r /\
     Doubles.GetN s = zlen vals /\ Doubles.GetNumRetained s = Some (zlen vals) /\
     Doubles.levelsArr s = [k - zlen vals; k] /\
     drop (Z.to_nat (k - zlen vals)) (Doubles.doubleItems s) = rev vals /\
     Doubles.GetN r = zlen vals /\ Doubles.levelsArr r = [k - zlen vals; k] /\
     drop (Z.to_nat (k - zlen vals)) (Doubles.doubleItems r) = rev vals) /\
  (k < zlen vals ->
   Doubles.updateAll (Doubles.Update offset) s0 stream = Panic /\
   Doubles.updateAll (DoublesRev0.updateDouble offset) s0 stream = Panic).
Proof.
  intros Hnew vals. destruct (new_doubles_holdsAll k m s0 Hnew) as (Hk & Hm & Hinv0).
  assert (H1 := updateAll_holdsAll k m (Doubles.Update offset)
                  ltac:(intros; eapply doubles_Update_nan; eassumption)
                  ltac:(intros; eapply doubles_Update_room; eassumption)
                  ltac:(intros; eapply doubles_Update_full; eassumption)
                  stream s0 [] Hinv0).
  assert (H2 := updateAll_holdsAll k m (DoublesRev0.updateDouble offset)
                  ltac:(intros; eapply doublesRev0_updateDouble_nan; eassumption)
                  ltac:(intros; eapply doublesRev0_updateDouble_room; eassumption)
                  ltac:(intros; eapply doublesRev0_updateDouble_full; eassumption)
                  stream s0 [] Hinv0).
  cbn [app] in H1, H2. fold vals in H1, H2.
  destruct H1 as [H1ok H1p], H2 as [H2ok H2p]. split.
  - intros Hle. destruct (H1ok Hle) as (s & Hs & Hinvs). destruct (H2ok Hle) as (r & Hr & Hinvr).
    exists s, r. split; [exact Hs|]. split; [exact Hr|].
    destruct Hinvs as (Hst & _ & _ & _ & Hb & Hn & HL & _ & Hd).
    destruct Hinvr as (_ & _ & _ & _ & _ & Hn' & HL' & _ & Hd').
    split; [exact Hn|]. split.
    + unfold Doubles.GetNumRetained, Doubles.getNumLevels.
      rewrite decide_True by (left; exact Hst). rewrite HL.
      change (zlen [k - zlen vals; k] - 1) with 1.
      change (zget [k - zlen vals; k] 1) with (Some k).
      change (zget [k - zlen vals; k] 0) with (Some (k - zlen vals)).
      cbn [mbind option_bind]. f_equal. rewrite i64_small by lia. lia.
    + split; [exact HL|]. split; [exact Hd|]. split; [exact Hn'|]. split; [exact HL'|exact Hd'].
  - intros Hlt. split; [exact (H1p Hlt)|exact (H2p Hlt)].
Qed.

Lemma doubles_sketch_takes_K_values_witness :
  exists s0 : Doubles.DoubleSketch,
    Doubles.NewKllDoubleSketch 8 8 = Ok s0 /\
    let stream := [5; 3; 4; 1; nan; 2; 6; 7; 8; 9]%float in
    let vals := List.filter (fun x => negb (Doubles.IsNaN x)) stream in
    (zlen vals <= 8 ->
     exists s r,
       Doubles.updateAll (Doubles.Update 0) s0 stream = Ok s /\
       Doubles.updateAll (DoublesRev0.updateDouble 0) s0 stream = Ok r /\
       Doubles.GetN s = zlen vals /\ Doubles.GetNumRetained s = Some (zlen vals) /\
       Doubles.levelsArr s = [8 - zlen vals; 8] /\
       drop (Z.to_nat (8 - zlen vals)) (Doubles.doubleItems s) = rev vals /\
       Doubles.GetN r = zlen vals /\ Doubles.levelsArr r = [8 - zlen vals; 8] /\
       drop (Z.to_nat (8 - zlen vals)) (Doubles.doubleItems r) = rev vals) /\
    (8 < zlen vals ->
     Doubles.updateAll (Doubles.Update 0) s0 stream = Panic /\
     Doubles.updateAll (DoublesRev0.updateDouble 0) s0 stream = Panic).
Proof.
  eexists. split; [reflexivity|].
  apply (doubles_sketch_takes_K_values 8 8 0 _ [5; 3; 4; 1; nan; 2; 6; 7; 8; 9]%float).
  reflexivity.
Defined.

(** ** The levels above level 0 stay sorted *)

Section RunFacts.
Context {C : Type} {OpC : Items.ItemSketchOp C}.
Hypothesis less_between : forall x y z : C, Items.lessFn x y = true ->
  Items.lessFn x z = true \/ Items.lessFn z y = true.

Lemma sortedRun_sub (buf : list C) lo hi lo' hi' :
  sortedRun buf lo hi -> lo <= lo' -> hi' <= hi -> sortedRun buf lo' hi'.
Proof. intros H Hlo Hhi i x y Hi Hi'. apply H; lia. Qed.

Lemma sortedRun_short (buf : list C) lo hi : hi <= lo + 1 -> sortedRun buf lo hi.
Proof. intros H i x y Hi Hi'. lia. Qed.

(** A run read through a shift of the indices. *)
Lemma sortedRun_transport (buf buf' : list C) lo hi d :
  (forall i, lo <= i < hi -> zget buf' i = zget buf (i + d)) ->
  sortedRun buf (lo + d) (hi + d) -> sortedRun buf' lo hi.
Proof.
  intros Hsame Hrun i x y Hi Hi' Hx Hy.
  rewrite Hsame in Hx, Hy by lia.
  apply (Hrun (i + d) x y); [lia|lia|exact Hx|].
  replace (i + d + 1) with (i + 1 + d) by lia. exact Hy.
Qed.

(** In an ascending run no item is less than any earlier one. *)
Lemma sortedRun_far (buf : list C) lo hi (n : nat) : forall i j x y,
  sortedRun buf lo hi -> 0 <= lo -> hi <= zlen buf ->
  lo <= i -> j < hi -> j = i + 1 + Z.of_nat n ->
  zget buf i = Some x -> zget buf j = Some y -> Items.lessFn y x = false.
Proof.
  induction n as [|n IH]; intros i j x y Hrun Hlo Hhi Hi Hj Hij Hx Hy.
  - apply (Hrun i x y); [lia|lia|exact Hx|]. rewrite <- Hy. f_equal. lia.
  - destruct (zget_lt_is_Some buf (j - 1) ltac:(lia)) as [z Hz].
    pose proof (IH i (j - 1) x z Hrun Hlo Hhi Hi ltac:(lia) ltac:(lia) Hx Hz) as Hzx.
    assert (Hyz : Items.lessFn y z = false).
    { apply (Hrun (j - 1) z y); [lia|lia|exact Hz|].
      replace (j - 1 + 1) with j by lia. exact Hy. }
    destruct (Items.lessFn y x) eqn:Hyx; [|reflexivity].
    destruct (less_between y x z Hyx) as [H|H]; congruence.
Qed.

(** Every other item of an ascending run, read through [pick], is an
    ascending run. *)
Lemma sortedRun_every_other (buf buf' : list C) lo hi lo' hi' (base : Z) :
  sortedRun buf lo hi -> 0 <= lo -> hi <= zlen buf ->
  (forall u, 0 <= u < hi' - lo' ->
     lo <= base + 2 * u < hi /\ zget buf' (lo' + u) = zget buf (base + 2 * u)) ->
  sortedRun buf' lo' hi'.
Proof.
  intros Hrun Hlo Hhi Hpick i x y Hi Hi' Hx Hy.
  destruct (Hpick (i - lo') ltac:(lia)) as [Hr1 He1].
  destruct (Hpick (i + 1 - lo') ltac:(lia)) as [Hr2 He2].
  replace (lo' + (i - lo')) with i in He1 by lia.
  replace (lo' + (i + 1 - lo')) with (i + 1) in He2 by lia.
  rewrite He1 in Hx. rewrite He2 in Hy.
  apply (sortedRun_far buf lo hi 1 (base + 2 * (i - lo')) (base + 2 * (i + 1 - lo')) x y);
    try assumption; lia.
Qed.

(** The two readings of ascending order: by slots of the array, and of the
    list of the items. *)
Lemma Sorted_adjacent (R : C -> C -> Prop) (l : list C) :
  (forall (t : nat) x y, l !! t = Some x -> l !! S t = Some y -> R x y) <-> Sorted R l.
Proof.
  split.
  - induction l as [|a l IH]; intros H; [constructor|].
    constructor.
    + apply IH. intros t x y Hx Hy. apply (H (S t) x y); assumption.
    + destruct l as [|b l]; constructor. apply (H 0%nat a b); reflexivity.
  - induction 1 as [|a l Hs IH Hhd]; intros t x y Hx Hy; [discriminate|].
    destruct t as [|t].
    + cbn in Hx, Hy. injection Hx as <-. destruct l as [|b l]; [discriminate|].
      cbn in Hy. injection Hy as <-. inversion Hhd; assumption.
    + apply (IH t x y); assumption.
Qed.

Lemma zget_slice (buf : list C) lo hi (t : nat) :
  0 <= lo -> (t < Z.to_nat (hi - lo))%nat ->
  take (Z.to_nat (hi - lo)) (drop (Z.to_nat lo) buf) !! t = zget buf (lo + Z.of_nat t).
Proof.
  intros Hlo Ht. rewrite lookup_take_lt by exact Ht. rewrite lookup_drop.
  unfold zget. rewrite decide_True by lia. f_equal. lia.
Qed.

Lemma sortedRun_ascending (buf : list C) lo hi :
  0 <= lo -> sortedRun buf lo hi ->
  ascending Items.lessFn (take (Z.to_nat (hi - lo)) (drop (Z.to_nat lo) buf)).
Proof.
  intros Hlo Hrun. unfold ascending. apply Sorted_adjacent. intros t x y Hx Hy.
  assert (Ht : (S t < Z.to_nat (hi - lo))%nat).
  { apply lookup_lt_Some in Hy. rewrite length_take in Hy. lia. }
  rewrite zget_slice in Hx, Hy by lia.
  apply (Hrun (lo + Z.of_nat t) x y); [lia|lia|exact Hx|].
  rewrite <- Hy. f_equal. lia.
Qed.

Lemma ascending_sortedRun (buf : list C) (l : list C) lo :
  ascending Items.lessFn l ->
  (forall t : nat, (t < length l)%nat -> zget buf (lo + Z.of_nat t) = l !! t) ->
  sortedRun buf lo (lo + zlen l).
Proof.
  intros Hasc Hrd i x y Hi Hi' Hx Hy. unfold zlen in Hi'.
  pose proof (Hrd (Z.to_nat (i - lo)) ltac:(lia)) as H1.
  pose proof (Hrd (S (Z.to_nat (i - lo))) ltac:(lia)) as H2.
  replace (lo + Z.of_nat (Z.to_nat (i - lo))) with i in H1 by lia.
  replace (lo + Z.of_nat (S (Z.to_nat (i - lo)))) with (i + 1) in H2 by lia.
  rewrite Hx in H1. rewrite Hy in H2.
  apply (proj2 (Sorted_adjacent _ l) Hasc (Z.to_nat (i - lo)) x y); congruence.
Qed.

End RunFacts.

Section HalvingContent.
Context {C : Type} {OpC : Items.ItemSketchOp C} {RtC : Items.Runtime C}.

(** [randomlyHalveUpItems] leaves in the upper half of its range the items
    at the even offsets, in their order, and touches nothing else. *)
Lemma randomlyHalveUpItems_content (buf buf' : list C) start h :
  0 <= start -> 0 <= h -> start + 2 * h <= zlen buf -> zlen buf < 2 ^ 32 ->
  Items.randomlyHalveUpItems buf start (2 * h) = Some buf' ->
  zlen buf' = zlen buf /\
  (forall u, 0 <= u < h -> zget buf' (start + h + u) = zget buf (start + 2 * u)) /\
  (forall i, ~ (start + h <= i < start + 2 * h) -> zget buf' i = zget buf i).
Proof.
  intros Hs Hh Hfit Hb. unfold Items.randomlyHalveUpItems.
  replace (2 * h / 2) with h by (rewrite Z.mul_comm, Z.div_mul; lia).
  rewrite (u32_small (start + h)) by lia.
  case_decide as Hlim; [discriminate|].
  rewrite (u32_small (start + 2 * h)) by lia.
  rewrite (u32_small (start + 2 * h - 1)) by lia.
  set (top := start + 2 * h - 1).
  replace (top - (start + h) + 1) with h by (unfold top; lia).
  destruct (iter_down _ _ _ _) as [[b j]|] eqn:Hrun; [|discriminate].
  cbn [mbind option_bind]. intros [= <-].
  apply (iter_down_inv
    (fun i (p : list C * Z) =>
       p.2 = u32 (2 * i - top - 1) /\ zlen p.1 = zlen buf /\
       (forall q, i < q <= top -> zget p.1 q = zget buf (2 * q - top - 1)) /\
       (forall q, q <= i \/ top < q -> zget p.1 q = zget buf q))) in Hrun.
  - cbn [fst snd] in Hrun. destruct Hrun as (_ & Hlen & Hdone & Hrest).
    split; [exact Hlen|]. split.
    + intros u Hu. rewrite Hdone by (unfold top; lia). f_equal. unfold top. lia.
    + intros i Hi. apply Hrest. unfold top. lia.
  - intros i [b0 j0] [b1 j1] Hi (Hj0 & Hlen0 & Hdone0 & Hrest0). cbn [fst snd] in *.
    rewrite u32_small in Hj0 by (unfold top in *; lia). subst j0.
    destruct (zget b0 (2 * i - top - 1)) as [x|] eqn:Hx; [|discriminate]. cbn [mbind option_bind].
    destruct (zset b0 i x) as [b2|] eqn:Hset; [|discriminate]. cbn [mbind option_bind].
    intros [= <- <-]. split; [f_equal; lia|].
    split; [rewrite (zset_length _ _ _ _ Hset); exact Hlen0|]. split.
    + intros q Hq. destruct (decide (q = i)) as [->|Hne].
      * rewrite (zget_zset_eq _ _ _ _ Hset). rewrite <- Hx. apply Hrest0. unfold top in *. lia.
      * rewrite (zget_zset_ne _ _ _ _ _ Hset) by lia. apply Hdone0. lia.
    + intros q Hq. rewrite (zget_zset_ne _ _ _ _ _ Hset) by lia. apply Hrest0. lia.
  - cbn [fst snd]. split; [f_equal; lia|]. split; [reflexivity|]. split.
    + intros q Hq. lia.
    + intros q Hq. reflexivity.
Qed.

(** [randomlyHalveDownItems] leaves in the lower half of its range the
    items at the odd offsets, in their order, and touches nothing else. *)
Lemma randomlyHalveDownItems_content (buf buf' : list C) start h :
  0 <= start -> 0 <= h -> start + 2 * h <= zlen buf -> zlen buf < 2 ^ 32 ->
  Items.randomlyHalveDownItems buf start (2 * h) = Some buf' ->
  zlen buf' = zlen buf /\
  (forall u, 0 <= u < h -> zget buf' (start + u) = zget buf (start + 1 + 2 * u)) /\
  (forall i, ~ (start <= i < start + h) -> zget buf' i = zget buf i).
Proof.
  intros Hs Hh Hfit Hb. unfold Items.randomlyHalveDownItems.
  replace (2 * h / 2) with h by (rewrite Z.mul_comm, Z.div_mul; lia).
  rewrite (u32_small (start + h)) by lia.
  replace (start + h - start) with h by lia.
  destruct (iter_up _ _ _ _) as [[b j]|] eqn:Hrun; [|discriminate].
  cbn [mbind option_bind]. intros [= <-].
  apply (iter_up_inv
    (fun i (p : list C * Z) =>
       p.2 = u32 (start + 1 + 2 * (i - start)) /\ zlen p.1 = zlen buf /\
       (forall q, start <= q < i -> zget p.1 q = zget buf (start + 1 + 2 * (q - start))) /\
       (forall q, q < start \/ i <= q -> zget p.1 q = zget buf q))) in Hrun.
  - cbn [fst snd] in Hrun. destruct Hrun as (_ & Hlen & Hdone & Hrest).
    rewrite Z2Nat.id in Hdone, Hrest by lia.
    split; [exact Hlen|]. split.
    + intros u Hu. rewrite Hdone by lia. f_equal. lia.
    + intros i Hi. apply Hrest. lia.
  - intros i [b0 j0] [b1 j1] Hi (Hj0 & Hlen0 & Hdone0 & Hrest0). cbn [fst snd] in *.
    rewrite u32_small in Hj0 by lia. subst j0.
    destruct (zget b0 (start + 1 + 2 * (i - start))) as [x|] eqn:Hx; [|discriminate].
    cbn [mbind option_bind].
    destruct (zset b0 i x) as [b2|] eqn:Hset; [|discriminate]. cbn [mbind option_bind].
    intros [= <- <-]. split; [f_equal; lia|].
    split; [rewrite (zset_length _ _ _ _ Hset); exact Hlen0|]. split.
    + intros q Hq. destruct (decide (q = i)) as [->|Hne].
      * rewrite (zget_zset_eq _ _ _ _ Hset). rewrite <- Hx. apply Hrest0. lia.
      * rewrite (zget_zset_ne _ _ _ _ _ Hset) by lia. apply Hdone0. lia.
    + intros q Hq. rewrite (zget_zset_ne _ _ _ _ _ Hset) by lia. apply Hrest0. lia.
  - cbn [fst snd]. split; [f_equal; lia|]. split; [reflexivity|]. split.
    + intros q Hq. lia.
    + intros q Hq. reflexivity.
Qed.

End HalvingContent.

Section MergeInPlace.
Context {C : Type}.
Variable wrap : Z -> Z.
Variable less : C -> C -> bool.
Variable bound : Z.
Hypothesis wrap_small : forall z, 0 <= z < bound -> wrap z = z.

(** A run of [n] turns writes the [n] slots from [c] on and no other. *)
Lemma merge_loop_frame bufA bufB bufC limA limB n : forall (st st' : store (C := C)) a b c,
  0 <= c -> c + Z.of_nat n < bound ->
  merge_loop wrap less bufA bufB bufC limA limB n st a b c = Some st' ->
  forall buf j, ~ (buf = bufC /\ c <= j < c + Z.of_nat n) -> rd st' buf j = rd st buf j.
Proof.
  induction n as [|n IH]; intros st st' a b c Hc Hfit Hrun buf j Hj; cbn [merge_loop] in Hrun.
  - injection Hrun as <-. reflexivity.
  - destruct (merge_step _ _ _ _ _ _ _ _ _ _ _) as [[[st1 a1] b1]|] eqn:Hstep; [|discriminate].
    cbn [mbind option_bind] in Hrun. rewrite wrap_small in Hrun by lia.
    rewrite (IH st1 st' a1 b1 (c + 1) ltac:(lia) ltac:(lia) Hrun buf j) by (intros [-> Hr]; apply Hj; split; [reflexivity|lia]).
    assert (Hwr : exists x, wr st bufC c x = Some st1).
    { unfold merge_step in Hstep.
      repeat match type of Hstep with
      | (if ?d then _ else _) = Some _ => destruct d
      | mbind _ ?e = Some _ =>
          let x := fresh "x" in let E := fresh "E" in
          destruct e as [x|] eqn:E; [cbn [mbind option_bind] in Hstep|discriminate Hstep]
      end; injection Hstep as <- _ _; eauto. }
    destruct Hwr as [x Hwr].
    apply (rd_wr_ne _ _ _ _ _ _ _ Hwr). intros [-> ->]. apply Hj. split; [reflexivity|lia].
Qed.

(** The merge of the compactor: the first run ends where the destination
    starts, the second run lies behind it at the distance of the first
    run's length, all in one array. No write lands on an unread item. *)
Lemma inplace_no_clobber buf0 limA limB n : forall (st : store (C := C)) a b c,
  0 <= a <= limA -> 0 <= b <= limB -> limB < bound -> limA <= c ->
  c = b - (limA - a) -> Z.of_nat n = (limA - a) + (limB - b) ->
  no_clobber wrap less buf0 buf0 buf0 limA limB n st a b c.
Proof.
  induction n as [|n IH]; intros st a b c Ha Hb HlimB Hc Hcb Hn; cbn [no_clobber]; [exact I|].
  destruct (merge_step _ _ _ _ _ _ _ _ _ _ _) as [[[st1 a1] b1]|] eqn:Hstep; [|exact I].
  assert (Hcase : (a1 = a + 1 /\ b1 = b /\ a < limA) \/ (a1 = a /\ b1 = b + 1 /\ b < limB)).
  { unfold merge_step in Hstep.
    repeat match type of Hstep with
    | (if ?d then _ else _) = Some _ => destruct d
    | mbind _ ?e = Some _ =>
        let x := fresh "x" in let E := fresh "E" in
        destruct e as [x|] eqn:E; [cbn [mbind option_bind] in Hstep|discriminate Hstep]
    end; injection Hstep as _ <- <-;
      first [left; rewrite wrap_small by lia; split; [reflexivity|split; [reflexivity|lia]]
            |right; rewrite wrap_small by lia; split; [reflexivity|split; [reflexivity|lia]]]. }
  rewrite wrap_small by lia.
  destruct Hcase as [(-> & -> & Hlt)|(-> & -> & Hlt)].
  - split; [split; intros [_ Hr]; lia|]. apply IH; lia.
  - split; [split; intros [_ Hr]; lia|]. apply IH; lia.
Qed.

End MergeInPlace.

Section CompactorContent.
Context {C : Type} {OpC : Items.ItemSketchOp C} {RtC : Items.Runtime C}.
Hypothesis less_asym : forall x y : C, Items.lessFn x y = true -> Items.lessFn y x = false.

(** The merge of [compressWhileUpdatingSketch]: the halved run in
    [start, start + h), the level above in [start + 2h, start + 2h + p),
    merged into [start + h, start + 2h + p) of the same array. *)
Lemma merge_in_place (buf : list C) (st : store (C := C)) start h p :
  0 <= start -> 0 <= h -> 0 <= p -> start + 2 * h + p <= zlen buf -> zlen buf < 2 ^ 32 ->
  sortedRun buf start (start + h) -> sortedRun buf (start + 2 * h) (start + 2 * h + p) ->
  Items.mergeSortedItemsArrays (fun _ => buf) 0%nat start h 0%nat (start + 2 * h) p
    0%nat (u32 (start + h)) = Some st ->
  zlen (st 0%nat) = zlen buf /\
  sortedRun (st 0%nat) (start + h) (start + 2 * h + p) /\
  (forall j, ~ (start + h <= j < start + 2 * h + p) -> zget (st 0%nat) j = zget buf j).
Proof.
  intros Hs Hh Hp Hfit Hb HsA HsB Hrun.
  unfold Items.mergeSortedItemsArrays, mergeSortedArrays in Hrun.
  rewrite (u32_small (start + h)) in Hrun by lia.
  rewrite (u32_small (h + p)), (u32_small (start + 2 * h + p)) in Hrun by lia.
  rewrite (u32_small (start + h + (h + p))) in Hrun by lia.
  replace (start + h + (h + p) - (start + h)) with (h + p) in Hrun by lia.
  set (la := take (Z.to_nat (start + h - start)) (drop (Z.to_nat start) buf)).
  set (lb := take (Z.to_nat (start + 2 * h + p - (start + 2 * h)))
               (drop (Z.to_nat (start + 2 * h)) buf)).
  assert (Hla : length la = Z.to_nat h).
  { unfold la. rewrite length_take, length_drop. unfold zlen in *. lia. }
  assert (Hlb : length lb = Z.to_nat p).
  { unfold lb. rewrite length_take, length_drop. unfold zlen in *. lia. }
  destruct (merge_loop_spec u32 Items.lessFn (2 ^ 32) u32_small 0%nat 0%nat 0%nat
              (start + h) (start + 2 * h + p) (Z.to_nat (h + p))
              la lb (fun _ => buf) start (start + 2 * h) (start + h))
    as (st' & Hrun' & Hout & _ & Hlen); unfold zlen in *; try lia.
  - intros t Ht. unfold rd, la. symmetry. apply (zget_slice buf start (start + h) t); lia.
  - intros t Ht. unfold rd, lb. symmetry.
    apply (zget_slice buf (start + 2 * h) (start + 2 * h + p) t); lia.
  - apply (inplace_no_clobber u32 Items.lessFn (2 ^ 32) u32_small); lia.
  - rewrite Hrun in Hrun'. injection Hrun' as <-.
    split; [apply (Hlen 0%nat)|]. split.
    + assert (Hasc : ascending Items.lessFn (merge_lists Items.lessFn la lb)).
      { apply merge_lists_ascending; [exact less_asym| |].
        - apply (sortedRun_ascending buf start (start + h)); assumption.
        - apply (sortedRun_ascending buf (start + 2 * h) (start + 2 * h + p)); [lia|assumption]. }
      assert (Hml : length (merge_lists Items.lessFn la lb) = Z.to_nat (h + p)).
      { rewrite (Permutation_length (merge_lists_perm Items.lessFn la lb)), length_app. lia. }
      pose proof (ascending_sortedRun (st 0%nat) _ (start + h) Hasc) as Hsr.
      unfold zlen in Hsr. rewrite Hml in Hsr.
      replace (start + h + Z.of_nat (Z.to_nat (h + p))) with (start + 2 * h + p) in Hsr by lia.
      apply Hsr. intros t Ht. apply Hout. lia.
    + intros j Hj.
      apply (merge_loop_frame u32 Items.lessFn (2 ^ 32) u32_small 0%nat 0%nat 0%nat
               (start + h) (start + 2 * h + p) (Z.to_nat (h + p)) (fun _ => buf) st
               start (start + 2 * h) (start + h) ltac:(lia) ltac:(lia) Hrun 0%nat j).
      intros [_ Hr]. apply Hj. lia.
Qed.

Hypothesis sortSlice_perm : forall less (l : list C), Permutation (Items.sortSlice less l) l.
Hypothesis sortSlice_sorted : forall l : list C,
  ascending Items.lessFn (Items.sortSlice Items.lessFn l).

(** [sort.Slice] on a range of the array. *)
Lemma sortRange_content (buf buf' : list C) lo hi :
  Items.sortRange buf lo hi = Some buf' ->
  zlen buf' = zlen buf /\ sortedRun buf' lo hi /\
  (forall j, ~ (lo <= j < hi) -> zget buf' j = zget buf j).
Proof.
  unfold Items.sortRange.
  destruct (zslice buf lo hi) as [mid|] eqn:Hmid; [|discriminate].
  cbn [mbind option_bind]. intros [= <-].
  pose proof (zslice_reads _ _ _ _ Hmid) as (Hl0 & Hfit & Hlen & _).
  unfold zslice in Hmid. case_decide as Hr; [|discriminate]. clear Hmid.
  set (sorted := Items.sortSlice Items.lessFn mid).
  assert (Hsl : length sorted = length mid) by (apply Permutation_length, sortSlice_perm).
  unfold zlen in *.
  assert (Htk : length (take (Z.to_nat lo) buf) = Z.to_nat lo) by (rewrite length_take; lia).
  split; [|split].
  - rewrite !length_app, Htk, Hsl, length_drop. lia.
  - replace hi with (lo + zlen sorted) by (unfold zlen; lia).
    apply ascending_sortedRun; [apply sortSlice_sorted|].
    intros t Ht. unfold zget. rewrite decide_True by lia.
    rewrite lookup_app_r by lia. rewrite Htk.
    rewrite lookup_app_l by lia. f_equal. lia.
  - intros j Hj. unfold zget. case_decide as Hj0; [|reflexivity].
    destruct (decide (j < lo)) as [Hlt|Hge].
    + rewrite lookup_app_l by lia. apply lookup_take_lt. lia.
    + rewrite lookup_app_r by lia. rewrite Htk.
      rewrite lookup_app_r by lia. rewrite Hsl, lookup_drop. f_equal. lia.
Qed.

End CompactorContent.

Section SortedLevels.
Context {C SV : Type} {OpC : Items.ItemSketchOp C} {RtC : Items.Runtime C}.
Hypothesis less_asym : forall x y : C, Items.lessFn x y = true -> Items.lessFn y x = false.
Hypothesis less_between : forall x y z : C, Items.lessFn x y = true ->
  Items.lessFn x z = true \/ Items.lessFn z y = true.
Hypothesis sortSlice_perm : forall less (l : list C), Permutation (Items.sortSlice less l) l.
Hypothesis sortSlice_sorted : forall l : list C,
  ascending Items.lessFn (Items.sortSlice Items.lessFn l).
#[local] Abbreviation Sketch := (Items.ItemsSketch C SV).

(** Adding the empty top level moves the runs and keeps their order. *)
Lemma grown_sorted (s s1 : Sketch) c level :
  wfx s c -> c < 2 ^ 63 -> 0 <= level < Items.numLevels s ->
  8 <= lv (Items.levels s) (level + 1) - lv (Items.levels s) level ->
  sortedAbove s ->
  (if decide (level = u8 (Items.numLevels s - 1))
   then Items.addEmptyTopLevelToCompletelyFullSketch s else Some s) = Some s1 ->
  sortedAbove s1.
Proof.
  intros [Hwf Hlen Hcap Hmm] Hc Hlevel Hpop Hsorted Es1.
  pose proof (wf_numLevels _ _ Hwf) as Hnl.
  rewrite u8_small in Es1 by lia.
  destruct (decide (level = Items.numLevels s - 1)) as [Htop|Htop];
    [|injection Es1 as <-; exact Hsorted].
  assert (H60 : level < 60).
  { apply (full_level_bounds_levels (lv (Items.levels s)) (Z.to_nat (Items.numLevels s)) level c).
    - intros i Hi. apply (wf_mono _ _ Hwf). lia.
    - lia.
    - exact Hpop.
    - apply (wf_weight _ _ Hwf).
    - exact Hc. }
  pose proof (wf_retained_le s c Hwf) as Hret.
  pose proof (wf_le s c (level + 1) (Items.numLevels s) Hwf ltac:(lia) ltac:(lia) ltac:(lia)) as Hle1.
  pose proof (wf_le s c 0 level Hwf ltac:(lia) ltac:(lia) ltac:(lia)) as Hle0.
  assert (Hn0 : Items.n s <> 0) by (rewrite (wf_n _ _ Hwf); lia).
  assert (Hcur : Items.GetTotalItemsArray s = Items.items s).
  { unfold Items.GetTotalItemsArray. rewrite decide_False by exact Hn0. reflexivity. }
  destruct (addEmptyTop_grows s (wf_k _ _ Hwf) (wf_m _ _ Hwf) ltac:(lia) (wf_len _ _ Hwf))
    as (s1' & delta & Hrun & Hdelta & Hnl1 & Hlen1 & Hshift & Htop1 & Hitems1 & Hmoved).
  - intros i Hi. pose proof (wf_lo _ _ Hwf). pose proof (wf_top _ _ Hwf).
    pose proof (wf_le s c 0 i Hwf ltac:(lia) ltac:(lia) ltac:(lia)).
    pose proof (wf_le s c i (Items.numLevels s) Hwf ltac:(lia) ltac:(lia) ltac:(lia)). lia.
  - rewrite Hcur. lia.
  - rewrite Es1 in Hrun. injection Hrun as <-. rewrite Hcur in Hmoved.
    intros l Hl. rewrite Hnl1 in Hl.
    destruct (decide (l = Items.numLevels s)) as [->|Hne].
    + apply sortedRun_short. rewrite Htop1, Hshift by lia. lia.
    + rewrite !Hshift by lia.
      pose proof (wf_lo _ _ Hwf) as Hlo.
      pose proof (wf_le s c 0 l Hwf ltac:(lia) ltac:(lia) ltac:(lia)) as Hl0.
      pose proof (wf_le s c (l + 1) (Items.numLevels s) Hwf ltac:(lia) ltac:(lia) ltac:(lia)) as Hl1.
      apply (sortedRun_transport (Items.items s) _ _ _ (- delta)).
      * intros i Hi. replace i with (i + - delta + delta) at 1 by lia.
        apply Hmoved. lia.
      * replace (lv (Items.levels s) l + delta + - delta) with (lv (Items.levels s) l) by lia.
        replace (lv (Items.levels s) (l + 1) + delta + - delta)
          with (lv (Items.levels s) (l + 1)) by lia.
        apply Hsorted. lia.
Qed.

(** A compaction halves a sorted run and merges it into the sorted run of
    the level above: the levels above level 0 are in ascending order
    afterwards as before. *)
Lemma compress_sorted (s s' : Sketch) c :
  wfx s c -> c < 2 ^ 63 -> sortedAbove s ->
  Items.compressWhileUpdatingSketch s = Some s' -> sortedAbove s'.
Proof.
  intros Hwfx Hc Hsorted Hrun. pose proof (wfx_wf _ _ Hwfx) as Hwf.
  unfold Items.compressWhileUpdatingSketch in Hrun.
  bind_step Hrun level Elevel.
  apply (findLevelToCompact_wf s c level Hwf) in Elevel as [Hlevel Hpop].
  bind_step Hrun s1 Es1.
  pose proof (grown_sorted s s1 c level Hwfx Hc Hlevel Hpop Hsorted Es1) as Hsorted1.
  destruct (grown_wfx s c level Hwfx Hc Hlevel Hpop) as (s1' & Es1' & Hwfx1 & Hl2 & Hpop1).
  rewrite Es1 in Es1'. injection Es1' as <-.
  clear Hwf Hwfx Es1 Hpop Hsorted. destruct Hlevel as [Hlevel _]. clear s.
  destruct Hwfx1 as [Hwf Hilen _ _].
  pose proof (fun i => wf_range s1 c i Hwf) as Hrange.
  pose proof (fun i j => wf_le s1 c i j Hwf) as Hle.
  assert (Hn0 : Items.n s1 <> 0).
  { rewrite (wf_n _ _ Hwf). pose proof (wf_retained_le s1 c Hwf).
    pose proof (wf_numLevels _ _ Hwf).
    pose proof (Hle (level + 1) (Items.numLevels s1) ltac:(lia) ltac:(lia) ltac:(lia)).
    pose proof (Hle 0 level ltac:(lia) ltac:(lia) ltac:(lia)). lia. }
  unfold Items.GetTotalItemsArray in Hrun. rewrite decide_False in Hrun by exact Hn0.
  clear Hn0.
  destruct Hwf as [Hk Hm Hnl Hlen Hlo Hmono Htop Hw Hn Hitems].
  unfold sortedAbove in Hsorted1.
  destruct s1 as [k m minK nl lz n L items mi ma sv]. sk_simpl.
  rewrite (u8_small (level + 1)), (u8_small (level + 2)) in Hrun by lia.
  destruct (Hrange level ltac:(lia)) as [Hr0 Hg0].
  destruct (Hrange (level + 1) ltac:(lia)) as [Hr1 Hg1].
  destruct (Hrange (level + 2) ltac:(lia)) as [Hr2 Hg2].
  pose proof (Hle (level + 1) (level + 2) ltac:(lia) ltac:(lia) ltac:(lia)) as Hle12.
  rewrite Hg0, Hg1, Hg2 in Hrun. cbn [mbind option_bind] in Hrun.
  set (rawBeg := lv L level) in *. set (rawEnd := lv L (level + 1)) in *.
  set (above := lv L (level + 2)) in *.
  rewrite (u32_small (above - rawEnd)), (u32_small (rawEnd - rawBeg)) in Hrun by lia.
  set (pop := rawEnd - rawBeg) in *.
  pose proof (Z.div_mod pop 2 ltac:(lia)) as Hdm.
  pose proof (Z.mod_pos_bound pop 2 ltac:(lia)) as Hodd.
  set (odd := pop mod 2) in *. set (h := pop / 2) in *.
  assert (HadjBeg : (if bool_decide (odd = 1) then u32 (rawBeg + 1) else rawBeg) = rawBeg + odd).
  { case_bool_decide; [rewrite u32_small by lia|]; lia. }
  assert (HadjPop : (if bool_decide (odd = 1) then u32 (pop - 1) else pop) = 2 * h).
  { case_bool_decide; [rewrite u32_small by lia|]; lia. }
  rewrite HadjBeg, HadjPop in Hrun. clear HadjBeg HadjPop.
  replace (2 * h / 2) with h in Hrun by (rewrite Z.mul_comm, Z.div_mul; lia).
  replace (rawBeg + odd + 2 * h) with rawEnd in Hrun by lia.
  rewrite (u32_small rawEnd), (u32_small (rawEnd - h)) in Hrun by lia.
  pose proof (Hle 0 level ltac:(lia) ltac:(lia) ltac:(lia)) as Hle0.
  pose proof (Hle (level + 2) nl ltac:(lia) ltac:(lia) ltac:(lia)) as Hle2.
  fold rawBeg above in Hle0, Hle2.
  set (lo := lv L 0) in *. set (hi := lv L nl) in *.
  destruct (Hrange nl ltac:(lia)) as [Hrhi _]. fold hi in Hrhi.
  set (start := rawBeg + odd) in *.
  assert (Hstart : start + 2 * h = rawEnd) by (unfold start; lia).
  (* sorting level 0 *)
  bind_step Hrun items1 E1.
  assert (F1 : zlen items1 = zlen items /\ sortedRun items1 start rawEnd /\
               (forall j, ~ (start <= j < rawEnd) -> zget items1 j = zget items j) /\
               (level > 0 -> items1 = items)).
  { destruct (decide (level = 0)) as [Hz|Hz].
    - destruct (sortRange_content sortSlice_perm sortSlice_sorted _ _ _ _ E1) as (H1 & H2 & H3).
      split; [exact H1|]. split; [exact H2|]. split; [exact H3|]. intros Hpos. lia.
    - injection E1 as <-. split; [reflexivity|]. split; [|split; [reflexivity|reflexivity]].
      apply (sortedRun_sub items rawBeg rawEnd); [|unfold start; lia|lia].
      apply (Hsorted1 level). lia. }
  clear E1. destruct F1 as (Hlen1 & Hrun1 & Hframe1 & Hsame1).
  (* halving, and merging with the level above *)
  bind_step Hrun items2 E2.
  assert (F2 : zlen items2 = zlen items /\ sortedRun items2 (rawEnd - h) above /\
               (forall j, ~ (start <= j < above) -> zget items2 j = zget items1 j)).
  { destruct (decide (above - rawEnd = 0)) as [Hnone|Hsome].
    - destruct (randomlyHalveUpItems_content items1 items2 start h) as (H1 & H2 & H3);
        [unfold start; lia|lia|lia|lia|exact E2|].
      split; [congruence|]. split.
      + replace above with (start + 2 * h) by lia.
        replace (rawEnd - h) with (start + h) by lia.
        apply (sortedRun_every_other less_between items1 items2 start rawEnd _ _ start);
          [exact Hrun1|unfold start; lia|lia|].
        intros u Hu. split; [lia|]. apply H2. lia.
      + intros j Hj. apply H3. lia.
    - bind_step E2 buf Ebuf. bind_step E2 st Est. injection E2 as <-.
      destruct (randomlyHalveDownItems_content items1 buf start h) as (H1 & H2 & H3);
        [unfold start; lia|lia|lia|lia|exact Ebuf|].
      remember (above - rawEnd) as pa eqn:Hpa.
      replace rawEnd with (start + 2 * h) in Est by lia. subst pa.
      destruct (merge_in_place less_asym buf st start h (above - rawEnd)) as (M1 & M2 & M3);
        [unfold start; lia|lia|lia|lia|lia| | |exact Est|].
      + apply (sortedRun_every_other less_between items1 buf start rawEnd _ _ (start + 1));
          [exact Hrun1|unfold start; lia|lia|].
        intros u Hu. split; [lia|]. apply H2. lia.
      + replace (start + 2 * h + (above - rawEnd)) with above by lia.
        rewrite Hstart.
        apply (sortedRun_transport items _ _ _ 0).
        * intros i Hi. rewrite Z.add_0_r. rewrite H3 by lia. apply Hframe1. lia.
        * rewrite !Z.add_0_r. pose proof (Hsorted1 (level + 1) ltac:(lia)) as Hs.
          replace (level + 1 + 1) with (level + 2) in Hs by lia. exact Hs.
      + split; [congruence|]. split.
        * replace (rawEnd - h) with (start + h) by lia.
          replace above with (start + 2 * h + (above - rawEnd)) by lia. exact M2.
        * intros j Hj. rewrite M3 by lia. apply H3. lia. }
  clear E2. destruct F2 as (Hlen2 & Hrun2 & Hframe2).
  bind_step Hrun La ELa. bind_step Hrun r Er. destruct r as [Lb items3].
  assert (Hb : zlen Lb = zlen L /\ lv Lb level = rawBeg + h /\ lv Lb (level + 1) = rawEnd - h /\
               (forall i, i <> level -> i <> level + 1 -> lv Lb i = lv L i) /\
               zlen items3 = zlen items /\
               (forall j, j < rawBeg \/ rawEnd - h <= j -> zget items3 j = zget items2 j)).
  { pose proof (zset_length _ _ _ _ ELa) as HlenLa.
    pose proof (lv_zset_eq _ _ _ _ ELa) as HLa1.
    rewrite (zget_lv La (level + 1)) in Er by (rewrite HlenLa; lia).
    rewrite HLa1 in Er. cbn [mbind option_bind] in Er.
    destruct (bool_decide (odd = 1)) eqn:Hb.
    - apply bool_decide_eq_true in Hb.
      rewrite (u32_small (rawEnd - h - 1)) in Er by lia.
      bind_step Er Lb' ELb. bind_step Er dst Edst. bind_step Er x Ex. bind_step Er items3' E3.
      injection Er as <- <-.
      pose proof (zset_length _ _ _ _ ELb) as HlenLb.
      assert (Hdst : dst = rawEnd - h - 1).
      { rewrite (zget_lv Lb' level) in Edst by lia. injection Edst as <-.
        apply (lv_zset_eq _ _ _ _ ELb). }
      split; [congruence|]. split; [rewrite (lv_zset_eq _ _ _ _ ELb); lia|].
      split; [rewrite (lv_zset_ne _ _ _ (level + 1) _ ELb) by lia; exact HLa1|].
      split; [intros i Hi1 Hi2; rewrite (lv_zset_ne _ _ _ i _ ELb) by lia;
              apply (lv_zset_ne _ _ _ i _ ELa); lia|].
      split; [rewrite (zset_length _ _ _ _ E3); exact Hlen2|].
      intros j Hj. apply (zget_zset_ne _ _ _ _ _ E3). unfold start in *. lia.
    - bind_step Er Lb' ELb. injection Er as <- <-.
      apply bool_decide_eq_false in Hb.
      pose proof (zset_length _ _ _ _ ELb) as HlenLb.
      split; [congruence|]. split; [rewrite (lv_zset_eq _ _ _ _ ELb); lia|].
      split; [rewrite (lv_zset_ne _ _ _ (level + 1) _ ELb) by lia; exact HLa1|].
      split; [intros i Hi1 Hi2; rewrite (lv_zset_ne _ _ _ i _ ELb) by lia;
              apply (lv_zset_ne _ _ _ i _ ELa); lia|].
      split; [exact Hlen2|]. intros j Hj. reflexivity. }
  clear Er ELa. destruct Hb as (HlenLb & HbL & HbM & HbO & Hlen3 & Hframe3).
  (* moving the lower levels up *)
  bind_step Hrun items4 E4.
  assert (F4 : (forall p, lo <= p < rawBeg -> zget items4 (p + h) = zget items3 p) /\
               (forall q, rawBeg + h <= q -> zget items4 q = zget items3 q)).
  { destruct (decide (level > 0)) as [Hpos|Hzero].
    - rewrite (zget_lv Lb 0) in E4 by lia. cbn [mbind option_bind] in E4.
      rewrite (HbO 0) in E4 by lia. fold lo in E4.
      rewrite (u32_small (rawBeg - lo)) in E4 by lia.
      apply (iter_down_inv (fun i (arr : list C) =>
               zlen arr = zlen items3 /\
               (forall p, lo + i <= p < rawBeg -> zget arr (p + h) = zget items3 p) /\
               (forall q, q < lo + h + i \/ rawBeg + h <= q -> zget arr q = zget items3 q)))
        in E4.
      + destruct E4 as (_ & Hdone & Hrest). rewrite Z2Nat.id in Hdone, Hrest by lia.
        split.
        * intros p Hp. apply Hdone. lia.
        * intros q Hq. apply Hrest. lia.
      + intros i arr arr' Hi (Hal & Hdone & Hrest) Hbody. cbn beta in Hbody.
        rewrite (u32_small (lo + h)), (u32_small (lo + h + i)), (u32_small (lo + h + i - 1)),
          (u32_small (lo + i)), (u32_small (lo + i - 1)) in Hbody by lia.
        bind_step Hbody x Ex.
        split; [rewrite (zset_length _ _ _ _ Hbody); exact Hal|]. split.
        * intros p Hp. destruct (decide (p = lo + i - 1)) as [->|Hne].
          -- replace (lo + i - 1 + h) with (lo + h + i - 1) by lia.
             rewrite (zget_zset_eq _ _ _ _ Hbody). rewrite <- Ex. apply Hrest. lia.
          -- rewrite (zget_zset_ne _ _ _ _ _ Hbody) by lia. apply Hdone. lia.
        * intros q Hq. rewrite (zget_zset_ne _ _ _ _ _ Hbody) by lia. apply Hrest. lia.
      + split; [reflexivity|]. split; [intros p Hp; lia|intros q Hq; reflexivity].
    - injection E4 as <-. assert (level = 0) by lia. subst level.
      split; [intros p Hp; unfold lo, rawBeg in Hp; lia|intros q Hq; reflexivity]. }
  clear E4. destruct F4 as (Hmoved4 & Hframe4).
  bind_step Hrun Lc ELc. injection Hrun as <-.
  apply (iter_up_pointwise (fun v => u32 (v + h))) in ELc as [HlenLc HLc].
  rewrite Z.add_0_l, Z2Nat.id in HLc by lia.
  assert (HcLow : forall i, 0 <= i <= level -> lv Lc i = lv L i + h).
  { intros i Hi. rewrite HLc. destruct (decide (0 <= i < level)).
    - rewrite HbO by lia. destruct (Hrange i ltac:(lia)) as [Hr _].
      pose proof (Hle i level ltac:(lia) ltac:(lia) ltac:(lia)) as Hil. fold rawBeg in Hil.
      apply u32_small. lia.
    - replace i with level by lia. exact HbL. }
  assert (HcMid : lv Lc (level + 1) = lv L (level + 1) - h).
  { rewrite HLc. rewrite decide_False by lia. exact HbM. }
  assert (HcHigh : forall i, level + 2 <= i -> lv Lc i = lv L i).
  { intros i Hi. rewrite HLc. rewrite decide_False by lia. apply HbO; lia. }
  unfold sortedAbove, Items.set_items, Items.set_levels. sk_simpl.
  intros l Hl.
  destruct (decide (l < level)) as [Hbelow|Hnb].
  - (* a level below the compacted one: moved up by h *)
    rewrite !HcLow by lia.
    pose proof (Hle 0 l ltac:(lia) ltac:(lia) ltac:(lia)) as Hl0. fold lo in Hl0.
    pose proof (Hle (l + 1) level ltac:(lia) ltac:(lia) ltac:(lia)) as Hl1. fold rawBeg in Hl1.
    apply (sortedRun_transport items _ _ _ (- h)).
    + intros i Hi. replace i with (i + - h + h) at 1 by lia.
      rewrite Hmoved4 by lia. rewrite Hframe3 by lia. rewrite Hframe2 by (unfold start; lia).
      rewrite Hsame1 by lia. reflexivity.
    + replace (lv L l + h + - h) with (lv L l) by lia.
      replace (lv L (l + 1) + h + - h) with (lv L (l + 1)) by lia.
      apply Hsorted1. lia.
  - destruct (decide (l = level)) as [->|Hnl'].
    + (* the compacted level: at most its odd item is left *)
      apply sortedRun_short. rewrite (HcLow level), HcMid by lia. fold rawBeg rawEnd. lia.
    + destruct (decide (l = level + 1)) as [->|Hna].
      * (* the level above: the merged run *)
        rewrite HcMid. replace (level + 1 + 1) with (level + 2) by lia.
        rewrite HcHigh by lia. fold rawEnd above.
        apply (sortedRun_transport items2 _ _ _ 0).
        -- intros i Hi. rewrite Z.add_0_r. rewrite Hframe4 by lia. apply Hframe3. lia.
        -- rewrite !Z.add_0_r. exact Hrun2.
      * (* the levels further up: untouched *)
        rewrite !HcHigh by lia.
        pose proof (Hle (level + 2) l ltac:(lia) ltac:(lia) ltac:(lia)) as Hl2'.
        fold above in Hl2'.
        apply (sortedRun_transport items _ _ _ 0).
        -- intros i Hi. rewrite Z.add_0_r. rewrite Hframe4 by lia. rewrite Hframe3 by lia.
           rewrite Hframe2 by lia. apply Hframe1. lia.
        -- rewrite !Z.add_0_r. apply Hsorted1. lia.
Qed.

End SortedLevels.

Section SortedStream.
Context {C SV : Type} {OpC : Items.ItemSketchOp C} {RtC : Items.Runtime C}.
Hypothesis less_asym : forall x y : C, Items.lessFn x y = true -> Items.lessFn y x = false.
Hypothesis less_between : forall x y z : C, Items.lessFn x y = true ->
  Items.lessFn x z = true \/ Items.lessFn z y = true.
Hypothesis sortSlice_perm : forall less (l : list C), Permutation (Items.sortSlice less l) l.
Hypothesis sortSlice_sorted : forall l : list C,
  ascending Items.lessFn (Items.sortSlice Items.lessFn l).
#[local] Abbreviation Sketch := (Items.ItemsSketch C SV).

(** An update writes in front of level 0, below every other level. *)
Lemma updateItem_sorted (s s' : Sketch) c x :
  wfx s c -> c < 2 ^ 63 -> sortedAbove s -> Items.updateItem s x = Some s' -> sortedAbove s'.
Proof.
  intros Hwfx Hc Hsorted Hrun. unfold Items.updateItem in Hrun.
  destruct (Items.isNil x); [injection Hrun as <-; exact Hsorted|].
  bind_step Hrun s0 E0.
  destruct (updateItem_minmax_wfx s s0 c x Hwfx E0) as (Hwfx0 & Hnl0 & HL0 & Hi0 & _).
  assert (Hsorted0 : sortedAbove s0).
  { unfold sortedAbove. rewrite Hnl0, HL0, Hi0. exact Hsorted. }
  clear E0 Hwfx Hsorted Hnl0 HL0 Hi0 s.
  bind_step Hrun l0 El0. bind_step Hrun r Er. destruct r as [s1 l1].
  assert (H1 : wf s1 c /\ sortedAbove s1 /\ 1 <= l1 /\ l1 = lv (Items.levels s1) 0).
  { pose proof (wfx_wf _ _ Hwfx0) as Hwf0.
    destruct (decide (l0 = 0)) as [Hz|Hz].
    - bind_step Er s2 E2. bind_step Er l2 El2. injection Er as <- <-.
      destruct (compress_wf sortSlice_perm _ _ c Hwf0 E2) as [Hwf2 Hpos].
      split; [exact Hwf2|].
      split; [apply (compress_sorted less_asym less_between sortSlice_perm sortSlice_sorted
                       s0 s2 c Hwfx0 Hc Hsorted0 E2)|].
      pose proof (lv_Some _ _ _ El2) as Hl2. split; [lia|lia].
    - injection Er as <- <-. split; [exact Hwf0|]. split; [exact Hsorted0|].
      pose proof (wf_lo _ _ Hwf0). pose proof (lv_Some _ _ _ El0). split; lia. }
  clear Er El0 Hwfx0 Hsorted0 s0. destruct H1 as (Hwf & Hsorted & Hpos & ->).
  pose proof (wf_numLevels _ _ Hwf) as Hnl.
  pose proof (fun i j => wf_le s1 c i j Hwf) as Hle.
  destruct (wf_range s1 c 0 Hwf ltac:(lia)) as [Hr0 _].
  unfold sortedAbove in Hsorted.
  destruct s1 as [k m minK nl lz n L items mi ma sv]. sk_simpl.
  rewrite u32_small in Hrun by lia.
  bind_step Hrun L' EL. bind_step Hrun items' Ei. injection Hrun as <-.
  unfold sortedAbove. sk_simpl. intros l Hl.
  rewrite (lv_zset_ne _ _ _ l _ EL), (lv_zset_ne _ _ _ (l + 1) _ EL) by lia.
  pose proof (Hle 0 l ltac:(lia) ltac:(lia) ltac:(lia)) as H0l.
  apply (sortedRun_transport items _ _ _ 0).
  - intros i Hi. rewrite Z.add_0_r. apply (zget_zset_ne _ _ _ _ _ Ei). lia.
  - rewrite !Z.add_0_r. apply Hsorted. exact Hl.
Qed.

Lemma updates_sorted stream : forall (s s' : Sketch) c,
  wfx s c -> c + zlen stream < 2 ^ 63 -> sortedAbove s ->
  updates s stream = Some s' -> sortedAbove s' /\ wfx s' (c + zlen (taken stream)).
Proof.
  induction stream as [|x stream IH]; intros s s' c Hwfx Hc Hsorted Hrun; cbn [updates] in Hrun.
  - injection Hrun as <-. split; [exact Hsorted|]. unfold taken, zlen. cbn [List.filter length].
    rewrite Z.add_0_r. exact Hwfx.
  - assert (Hlen : zlen (x :: stream) = zlen stream + 1) by (unfold zlen; cbn [length]; lia).
    pose proof (wf_count_nonneg _ _ (wfx_wf _ _ Hwfx)) as Hc0.
    assert (Hs0 : 0 <= zlen stream) by (unfold zlen; lia).
    bind_step Hrun s1 E1. unfold Items.Update in E1. bind_step E1 s2 E2. injection E1 as <-.
    pose proof (updateItem_sorted s s2 c x Hwfx ltac:(lia) Hsorted E2) as Hsorted2.
    pose proof (updateItem_wfx sortSlice_perm s s2 c x Hwfx ltac:(lia) E2) as Hwfx2.
    rewrite zlen_taken_cons, Z.add_assoc.
    apply (IH (Items.set_sortedView s2 None) s' _); [| | |exact Hrun].
    + eapply wfx_same_layout; [..|exact Hwfx2]; try reflexivity. apply (wfx_minmax _ _ Hwfx2).
    + destruct (Items.isNil x); lia.
    + exact Hsorted2.
Qed.

End SortedStream.

(** X19. Every level above level 0 of the items sketch is in ascending
    order, at every point of every stream. For a comparison that is
    asymmetric and whose incomparability is transitive (a strict weak
    order), and a [sort.Slice] that sorts: a new sketch ([K] from 8 to
    65535) fed a stream of fewer than [2^63] items by [Update] has, in each
    level from 1 up, no item that is less than the one before it. *)
Theorem levels_above_zero_stay_sorted {C SV : Type} {OpC : Items.ItemSketchOp C}
    {RtC : Items.Runtime C} (K : Z) (stream : list C) :
  (forall x y : C, Items.lessFn x y = true -> Items.lessFn y x = false) ->
  (forall x y z : C, Items.lessFn x y = true ->
     Items.lessFn x z = true \/ Items.lessFn z y = true) ->
  (forall less (l : list C), Permutation (Items.sortSlice less l) l) ->
  (forall l : list C, ascending Items.lessFn (Items.sortSlice Items.lessFn l)) ->
  8 <= K <= 65535 -> zlen stream < 2 ^ 63 ->
  exists s0 s : Items.ItemsSketch C SV,
    Items.NewItemsSketch K = Ok s0 /\ updates s0 stream = Some s /\
    forall l, 1 <= l < Items.numLevels s -> ascending Items.lessFn (levelItems s l).
Proof.
  intros Hasym Hbt Hperm Hsort HK Hlen. unfold Items.NewItemsSketch.
  rewrite decide_False by (unfold Items._MIN_K, Items._MAX_K, Items._DEFAULT_M; lia).
  set (s0 := Items.mkItemsSketch K Items._DEFAULT_M K 1 false 0 [u32 K; u32 K]
               (replicate (Z.to_nat K) Items.zeroValue) None None None : Items.ItemsSketch C SV).
  assert (Hwfx0 : wfx s0 0) by (apply fresh_wfx; [exact HK|reflexivity]).
  assert (Hsorted0 : sortedAbove s0) by (intros l Hl; unfold s0 in Hl; sk_simpl; lia).
  destruct (updates_total Hperm stream s0 0 Hwfx0 ltac:(lia)) as (s & Hrun & _).
  destruct (updates_sorted Hasym Hbt Hperm Hsort stream s0 s 0 Hwfx0 ltac:(lia) Hsorted0 Hrun)
    as [Hsorted Hwfx].
  exists s0, s. split; [reflexivity|]. split; [exact Hrun|].
  intros l Hl. unfold levelItems.
  destruct (wf_range s _ l (wfx_wf _ _ Hwfx) ltac:(lia)) as [Hr _].
  apply sortedRun_ascending; [lia|]. apply Hsorted. exact Hl.
Qed.

Section InsertionSort.
Context {A : Type}.
Variable less : A -> A -> bool.
Hypothesis less_asym : forall x y, less x y = true -> less y x = false.

Lemma insert_sorted_hd (R : A -> A -> Prop) z x l :
  R z x -> HdRel R z l -> HdRel R z (StringItems.insert_sorted less x l).
Proof.
  intros Hzx Hhd. destruct l as [|y l]; cbn [StringItems.insert_sorted]; [constructor; exact Hzx|].
  destruct (less x y); constructor; [exact Hzx|]. inversion Hhd; assumption.
Qed.

Lemma insert_sorted_ascending x l :
  ascending less l -> ascending less (StringItems.insert_sorted less x l).
Proof.
  unfold ascending. induction 1 as [|y l Hs IH Hhd]; cbn [StringItems.insert_sorted].
  - repeat constructor.
  - destruct (less x y) eqn:Hxy.
    + constructor; [constructor; assumption|]. constructor. apply less_asym. exact Hxy.
    + constructor; [exact IH|]. apply insert_sorted_hd; [exact Hxy|exact Hhd].
Qed.

Lemma insertion_sort_ascending l : ascending less (StringItems.insertion_sort less l).
Proof.
  unfold StringItems.insertion_sort. induction l as [|x l IH]; cbn [foldr]; [constructor|].
  apply insert_sorted_ascending. exact IH.
Qed.

End InsertionSort.

Lemma string_lt_asym (a b : StringItems.GoString) :
  StringItems.string_lt a b = true -> StringItems.string_lt b a = false.
Proof.
  intros Hab. destruct (StringItems.string_lt b a) eqn:Hba; [|reflexivity].
  pose proof (string_lt_trans a b a Hab Hba) as Haa.
  rewrite string_lt_irrefl in Haa. discriminate.
Qed.

Lemma levels_above_zero_stay_sorted_witness :
  exists s0 s : Items.ItemsSketch StringItems.GoString unit,
    Items.NewItemsSketch 8 = Ok s0 /\
    updates s0 (rev (StringItems.letters 40)) = Some s /\
    forall l, 1 <= l < Items.numLevels s -> ascending Items.lessFn (levelItems s l).
Proof.
  apply (levels_above_zero_stay_sorted (C := StringItems.GoString) (SV := unit)
           (OpC := StringItems.stringItemsSketchOp) (RtC := StringItems.stringRuntime)
           8 (rev (StringItems.letters 40))
           string_lt_asym string_lt_between
           (fun less l => insertion_sort_perm less l)
           (fun l => insertion_sort_ascending StringItems.string_lt string_lt_asym l)).
  - lia.
  - vm_compute. reflexivity.
Defined.

(** ** What a compaction keeps *)

Section CompactorSteps.
Context {C : Type} {OpC : Items.ItemSketchOp C} {RtC : Items.Runtime C}.

Lemma halving_content (buf : list C) (start h : Z) :
  0 <= start -> 1 <= h -> start + 2 * h <= zlen buf -> zlen buf < 2 ^ 32 ->
  exists up down,
    Items.randomlyHalveUpItems buf start (2 * h) = Some up /\
    Items.randomlyHalveDownItems buf start (2 * h) = Some down /\
    zlen up = zlen buf /\ zlen down = zlen buf /\
    (forall u, 0 <= u < h -> zget up (start + h + u) = zget buf (start + 2 * u)) /\
    (forall i, ~ (start + h <= i < start + 2 * h) -> zget up i = zget buf i) /\
    (forall u, 0 <= u < h -> zget down (start + u) = zget buf (start + 1 + 2 * u)) /\
    (forall i, ~ (start <= i < start + h) -> zget down i = zget buf i).
Proof.
  intros Hs Hh Hfit Hb.
  destruct (randomlyHalveUpItems_total buf start h Hs Hh Hfit Hb) as (up & Hup & _).
  destruct (randomlyHalveDownItems_total buf start h Hs ltac:(lia) Hfit Hb) as (down & Hdown & _).
  destruct (randomlyHalveUpItems_content buf up start h Hs ltac:(lia) Hfit Hb Hup)
    as (U1 & U2 & U3).
  destruct (randomlyHalveDownItems_content buf down start h Hs ltac:(lia) Hfit Hb Hdown)
    as (D1 & D2 & D3).
  exists up, down. repeat split; assumption.
Qed.

Lemma merge_in_place_lists (buf : list C) (start h p : Z) (la lb : list C) :
  (forall x y : C, Items.lessFn x y = true -> Items.lessFn y x = false) ->
  zslice buf start (start + h) = Some la ->
  zslice buf (start + 2 * h) (start + 2 * h + p) = Some lb ->
  ascending Items.lessFn la -> ascending Items.lessFn lb ->
  zlen buf < 2 ^ 32 ->
  exists st lc,
    Items.mergeSortedItemsArrays (fun _ => buf) 0%nat start h 0%nat (start + 2 * h) p
      0%nat (start + h) = Some st /\
    zslice (st 0%nat) (start + h) (start + 2 * h + p) = Some lc /\
    ascending Items.lessFn lc /\ Permutation lc (la ++ lb) /\
    zlen (st 0%nat) = zlen buf /\
    forall j, ~ (start + h <= j < start + 2 * h + p) -> zget (st 0%nat) j = zget buf j.
Proof.
  intros Hasym HA HB HsA HsB Hb.
  apply zslice_reads in HA as (HA0 & HAfit & HAlen & HrdA).
  apply zslice_reads in HB as (HB0 & HBfit & HBlen & HrdB).
  assert (Hh : 0 <= h) by (unfold zlen in HAlen; lia).
  assert (Hp : 0 <= p) by (unfold zlen in HBlen; lia).
  unfold Items.mergeSortedItemsArrays, mergeSortedArrays.
  rewrite (u32_small (h + p)), (u32_small (start + h)), (u32_small (start + 2 * h + p)) by lia.
  rewrite (u32_small (start + h + (h + p))) by lia.
  replace (start + h + (h + p) - (start + h)) with (h + p) by lia.
  destruct (merge_loop_spec u32 Items.lessFn (2 ^ 32) u32_small 0%nat 0%nat 0%nat
              (start + h) (start + 2 * h + p) (Z.to_nat (h + p))
              la lb (fun _ => buf) start (start + 2 * h) (start + h))
    as (st & Hrun & Hout & _ & Hlen); unfold zlen in *; try lia; try assumption.
  - apply (inplace_no_clobber u32 Items.lessFn (2 ^ 32) u32_small); lia.
  - exists st, (merge_lists Items.lessFn la lb). split; [exact Hrun|].
    assert (Hml : length (merge_lists Items.lessFn la lb) = Z.to_nat (h + p)).
    { rewrite (Permutation_length (merge_lists_perm Items.lessFn la lb)), length_app. lia. }
    split; [|split; [|split; [|split]]].
    + replace (start + 2 * h + p)
        with (start + h + zlen (merge_lists Items.lessFn la lb)) by (unfold zlen; lia).
      apply reads_zslice; [lia|unfold zlen; rewrite (Hlen 0%nat); lia|].
      intros t Ht. apply Hout. lia.
    + apply merge_lists_ascending; assumption.
    + apply merge_lists_perm.
    + apply (Hlen 0%nat).
    + intros j Hj.
      apply (merge_loop_frame u32 Items.lessFn (2 ^ 32) u32_small 0%nat 0%nat 0%nat
               (start + h) (start + 2 * h + p) (Z.to_nat (h + p)) (fun _ => buf) st
               start (start + 2 * h) (start + h) ltac:(lia) ltac:(lia) Hrun 0%nat j).
      intros [_ Hr]. apply Hj. lia.
Qed.

End CompactorSteps.

(** X20. Which items a halving keeps. On a range of [2h] items inside the
    array, [randomlyHalveUpItems] leaves in the upper half of the range the
    items that were at the even offsets 0, 2, 4, ..., in their order, and
    [randomlyHalveDownItems] leaves in the lower half the items that were
    at the odd offsets 1, 3, 5, ...; both return, keep the length of the
    array and change no slot outside the half they write. *)
Theorem halving_keeps_every_other_item {C : Type} {OpC : Items.ItemSketchOp C}
    {RtC : Items.Runtime C} (buf : list C) (start h : Z) :
  0 <= start -> 1 <= h -> start + 2 * h <= zlen buf -> zlen buf < 2 ^ 32 ->
  exists up down,
    Items.randomlyHalveUpItems buf start (2 * h) = Some up /\
    Items.randomlyHalveDownItems buf start (2 * h) = Some down /\
    zlen up = zlen buf /\ zlen down = zlen buf /\
    (forall u, 0 <= u < h -> zget up (start + h + u) = zget buf (start + 2 * u)) /\
    (forall i, ~ (start + h <= i < start + 2 * h) -> zget up i = zget buf i) /\
    (forall u, 0 <= u < h -> zget down (start + u) = zget buf (start + 1 + 2 * u)) /\
    (forall i, ~ (start <= i < start + h) -> zget down i = zget buf i).
Proof. apply halving_content. Qed.

Lemma halving_keeps_every_other_item_witness :
  exists up down : list StringItems.GoString,
    Items.randomlyHalveUpItems (StringItems.letters 9) 1 (2 * 3) = Some up /\
    Items.randomlyHalveDownItems (StringItems.letters 9) 1 (2 * 3) = Some down /\
    zlen up = zlen (StringItems.letters 9) /\ zlen down = zlen (StringItems.letters 9) /\
    (forall u, 0 <= u < 3 -> zget up (1 + 3 + u) = zget (StringItems.letters 9) (1 + 2 * u)) /\
    (forall i, ~ (1 + 3 <= i < 1 + 2 * 3) -> zget up i = zget (StringItems.letters 9) i) /\
    (forall u, 0 <= u < 3 -> zget down (1 + u) = zget (StringItems.letters 9) (1 + 1 + 2 * u)) /\
    (forall i, ~ (1 <= i < 1 + 3) -> zget down i = zget (StringItems.letters 9) i).
Proof.
  apply (halving_keeps_every_other_item (C := StringItems.GoString)
           (OpC := StringItems.stringItemsSketchOp) (RtC := StringItems.stringRuntime)
           (StringItems.letters 9) 1 3).
  - lia.
  - lia.
  - vm_compute. discriminate.
  - vm_compute. reflexivity.
Defined.

(** X21. The merge of a compaction is safe in place. In the layout
    [compressWhileUpdatingSketch] calls it with (the halved run in
    [start, start + h), the run of the level above in
    [start + 2h, start + 2h + p), the destination from [start + h] on, all
    in one array) no write lands on an item not yet read:
    [mergeSortedItemsArrays] returns, the destination
    [start + h, start + 2h + p) then holds the two runs merged, in
    ascending order when both were, and every other slot is as before. *)
Theorem compaction_merge_is_safe_in_place {C : Type} {OpC : Items.ItemSketchOp C}
    {RtC : Items.Runtime C} (buf : list C) (start h p : Z) (la lb : list C) :
  (forall x y : C, Items.lessFn x y = true -> Items.lessFn y x = false) ->
  zslice buf start (start + h) = Some la ->
  zslice buf (start + 2 * h) (start + 2 * h + p) = Some lb ->
  ascending Items.lessFn la -> ascending Items.lessFn lb ->
  zlen buf < 2 ^ 32 ->
  exists st lc,
    Items.mergeSortedItemsArrays (fun _ => buf) 0%nat start h 0%nat (start + 2 * h) p
      0%nat (start + h) = Some st /\
    zslice (st 0%nat) (start + h) (start + 2 * h + p) = Some lc /\
    ascending Items.lessFn lc /\ Permutation lc (la ++ lb) /\
    zlen (st 0%nat) = zlen buf /\
    forall j, ~ (start + h <= j < start + 2 * h + p) -> zget (st 0%nat) j = zget buf j.
Proof. apply merge_in_place_lists. Qed.

Lemma compaction_merge_is_safe_in_place_witness :
  exists st lc,
    Items.mergeSortedItemsArrays
      (fun _ => [[98]; [100]; [0]; [0]; [97]; [99]; [101]] : list StringItems.GoString)
      0%nat 0 2 0%nat (0 + 2 * 2) 3 0%nat (0 + 2) = Some st /\
    zslice (st 0%nat) (0 + 2) (0 + 2 * 2 + 3) = Some lc /\
    ascending Items.lessFn lc /\ Permutation lc ([[98]; [100]] ++ [[97]; [99]; [101]]) /\
    zlen (st 0%nat) = zlen ([[98]; [100]; [0]; [0]; [97]; [99]; [101]] : list StringItems.GoString) /\
    forall j, ~ (0 + 2 <= j < 0 + 2 * 2 + 3) ->
      zget (st 0%nat) j = zget ([[98]; [100]; [0]; [0]; [97]; [99]; [101]] : list StringItems.GoString) j.
Proof.
  apply (compaction_merge_is_safe_in_place (C := StringItems.GoString)
           (OpC := StringItems.stringItemsSketchOp) (RtC := StringItems.stringRuntime)
           [[98]; [100]; [0]; [0]; [97]; [99]; [101]] 0 2 3
           [[98]; [100]] [[97]; [99]; [101]] string_lt_asym).
  - reflexivity.
  - reflexivity.
  - repeat constructor.
  - repeat constructor.
  - vm_compute. reflexivity.
Defined.

(** ** Where the items of a merged sketch come from *)

Section MergeProvenance.
Context {C SV : Type} {OpC : Items.ItemSketchOp C} {RtC : Items.Runtime C}.
Variable p : C -> bool.
#[local] Abbreviation Sketch := (Items.ItemsSketch C SV).

Lemma iter_up_ext {St} (f g : Z -> St -> option St) n : forall a st,
  (forall i s, a <= i < a + Z.of_nat n -> f i s = g i s) ->
  iter_up n a f st = iter_up n a g st.
Proof.
  induction n as [|n IH]; intros a st Hext; cbn [iter_up]; [reflexivity|].
  rewrite (Hext a st) by lia. destruct (g a st) as [st1|]; [|reflexivity].
  cbn [mbind option_bind]. apply IH. intros i s Hi. apply Hext. lia.
Qed.

Lemma mbind_ext_Some {A B} (m : option A) (f g : A -> option B) :
  (forall x, m = Some x -> f x = g x) -> m ≫= f = m ≫= g.
Proof. intros H. destruct m as [x|]; [apply H; reflexivity|reflexivity]. Qed.

(** A merge takes in the items of the other sketch's level 0 by
    [updateItem]; that is its one use of the test for nil. *)
Lemma mergeItemsSketch_restrictTo (s other : Sketch) :
  (forall i x, lv (Items.levels other) 0 <= i < lv (Items.levels other) 1 ->
     zget (Items.items other) i = Some x -> Items.isNil x = false -> p x = true) ->
  Items.mergeItemsSketch (Runtime0 := restrictTo p RtC) s other = Items.mergeItemsSketch s other.
Proof.
  intros Hp. unfold Items.mergeItemsSketch.
  destruct (Items.IsEmpty other) eqn:Hemp; [reflexivity|].
  unfold Items.IsEmpty in Hemp. apply bool_decide_eq_false in Hemp.
  apply mbind_ext_Some. intros [myMin myMax] _.
  apply mbind_ext_Some. intros lo Elo. apply mbind_ext_Some. intros hi Ehi.
  apply lv_Some in Elo, Ehi.
  assert (Hiter :
    iter_up (Z.to_nat (hi - lo)) lo
      (fun i s0 => x ← zget (Items.GetTotalItemsArray other) i;
                   Items.updateItem (Runtime0 := restrictTo p RtC) s0 x) s
    = iter_up (Z.to_nat (hi - lo)) lo
      (fun i s0 => x ← zget (Items.GetTotalItemsArray other) i; Items.updateItem s0 x) s).
  { apply iter_up_ext. intros i s0 Hi.
    unfold Items.GetTotalItemsArray. rewrite decide_False by exact Hemp.
    destruct (zget (Items.items other) i) as [x|] eqn:Ex; [|reflexivity].
    cbn [mbind option_bind]. apply updateItem_restrictTo. intros Hnil.
    apply (Hp i x); [lia|exact Ex|exact Hnil]. }
  change (Items.GetTotalItemsArray (Runtime0 := restrictTo p RtC) other)
    with (Items.GetTotalItemsArray other).
  rewrite Hiter. reflexivity.
Qed.

Lemma Merge_restrictTo (s other : Sketch) :
  (forall i x, lv (Items.levels other) 0 <= i < lv (Items.levels other) 1 ->
     zget (Items.items other) i = Some x -> Items.isNil x = false -> p x = true) ->
  Items.Merge (Runtime0 := restrictTo p RtC) s other = Items.Merge s other.
Proof.
  intros Hp. unfold Items.Merge. rewrite (mergeItemsSketch_restrictTo s other Hp). reflexivity.
Qed.

End MergeProvenance.

(** X22. A merged sketch retains nothing but items of the two streams. For
    two new sketches, each fed its stream by [Update], with fewer than
    [2^63] items together: when [Merge] returns, every slot of the items
    array from [levels[0]] up to [levels[numLevels]] holds an item that an
    update of one of the two streams took in ([sort.Slice] a permutation,
    items comparable as Go requires). *)
Theorem merged_items_come_from_both_streams {C SV : Type} `{EqDecision C}
    {OpC : Items.ItemSketchOp C} {RtC : Items.Runtime C} (k1 k2 : Z)
    (a0 a b0 b s : Items.ItemsSketch C SV) (stream1 stream2 : list C) :
  (forall less (l : list C), Permutation (Items.sortSlice less l) l) ->
  Items.NewItemsSketch k1 = Ok a0 -> updates a0 stream1 = Some a ->
  Items.NewItemsSketch k2 = Ok b0 -> updates b0 stream2 = Some b ->
  zlen stream1 + zlen stream2 < 2 ^ 63 ->
  Items.Merge a b = Some s ->
  forall i, lv (Items.levels s) 0 <= i < lv (Items.levels s) (Items.numLevels s) ->
    exists x, zget (Items.items s) i = Some x /\ In x (taken stream1 ++ taken stream2).
Proof.
  intros Hsort Hnew1 Hrun1 Hnew2 Hrun2 Hlen Hmerge.
  set (p := fun x : C => bool_decide (x ∈ taken stream1 ++ taken stream2)).
  assert (Hp1 : forall x, In x (taken stream1) -> p x = true).
  { intros x Hx. unfold p. apply bool_decide_eq_true_2. apply list_elem_of_In.
    apply in_or_app. left. exact Hx. }
  assert (Hp2 : forall x, In x (taken stream2) -> p x = true).
  { intros x Hx. unfold p. apply bool_decide_eq_true_2. apply list_elem_of_In.
    apply in_or_app. right. exact Hx. }
  assert (Hs1 : 0 <= zlen stream1) by (unfold zlen; lia).
  assert (Hs2 : 0 <= zlen stream2) by (unfold zlen; lia).
  assert (Hfed : forall k (s0 s1 : Items.ItemsSketch C SV) stream,
            Items.NewItemsSketch k = Ok s0 -> updates s0 stream = Some s1 ->
            zlen stream < 2 ^ 63 -> (forall x, In x (taken stream) -> p x = true) ->
            wfx (RtC := restrictTo p RtC) s1 (zlen (taken stream))).
  { intros k s0 s1 stream Hnew Hrun Hl Hp.
    unfold Items.NewItemsSketch in Hnew. case_decide as Hk; [discriminate|].
    injection Hnew as <-. unfold Items._MIN_K, Items._MAX_K, Items._DEFAULT_M in Hk.
    set (f0 := Items.mkItemsSketch k Items._DEFAULT_M k 1 false 0 [u32 k; u32 k]
                 (replicate (Z.to_nat k) Items.zeroValue) None None None
               : Items.ItemsSketch C SV) in *.
    destruct (updates_total (RtC := restrictTo p RtC) (SV := SV) Hsort stream f0 0)
      as (s1' & Hrun' & Hwfx).
    - apply (fresh_wfx (RtC := restrictTo p RtC)); [lia|reflexivity].
    - lia.
    - destruct (updates_restrictTo p stream f0 Hp) as [Hu Ht].
      rewrite Hu in Hrun'. rewrite Hrun in Hrun'. injection Hrun' as <-.
      rewrite Ht, Z.add_0_l in Hwfx. exact Hwfx. }
  pose proof (Hfed k1 a0 a stream1 Hnew1 Hrun1 ltac:(lia) Hp1) as Hwa.
  pose proof (Hfed k2 b0 b stream2 Hnew2 Hrun2 ltac:(lia) Hp2) as Hwb.
  pose proof (zlen_taken_le stream1) as Ht1. pose proof (zlen_taken_le stream2) as Ht2.
  assert (Hfrom : forall (t : Items.ItemsSketch C SV) c i,
            wfx (RtC := restrictTo p RtC) t c ->
            lv (Items.levels t) 0 <= i < lv (Items.levels t) (Items.numLevels t) ->
            exists x, zget (Items.items t) i = Some x /\ p x = true).
  { intros t c i Hw Hi. destruct (wf_items _ _ (wfx_wf _ _ Hw) i Hi) as (x & Hx & Hnil).
    exists x. split; [exact Hx|]. cbn [Items.isNil restrictTo] in Hnil.
    apply orb_false_elim in Hnil as [_ Hpx]. apply negb_false_iff in Hpx. exact Hpx. }
  assert (Hmerge' : Items.Merge (Runtime0 := restrictTo p RtC) a b = Some s).
  { rewrite <- Hmerge. apply Merge_restrictTo. intros i x Hi Hx _.
    pose proof (wfx_wf _ _ Hwb) as Hwfb. pose proof (wf_numLevels _ _ Hwfb) as Hnlb.
    pose proof (wf_le b _ 1 (Items.numLevels b) Hwfb ltac:(lia) ltac:(lia) ltac:(lia)) as H1n.
    destruct (Hfrom b _ i Hwb ltac:(lia)) as (y & Hy & Hpy). congruence. }
  pose proof (Merge_wfx (RtC := restrictTo p RtC) Hsort a b s _ _ Hwa Hwb ltac:(lia) Hmerge')
    as Hws.
  intros i Hi. destruct (Hfrom s _ i Hws Hi) as (x & Hx & Hpx).
  exists x. split; [exact Hx|]. unfold p in Hpx. apply bool_decide_eq_true in Hpx.
  apply list_elem_of_In. exact Hpx.
Qed.

Lemma merged_items_come_from_both_streams_witness :
  exists a0 a b0 b s : Items.ItemsSketch StringItems.GoString unit,
    Items.NewItemsSketch 8 = Ok a0 /\ updates a0 (StringItems.letters 12) = Some a /\
    Items.NewItemsSketch 8 = Ok b0 /\ updates b0 (StringItems.letters 20) = Some b /\
    Items.Merge a b = Some s /\
    forall i, lv (Items.levels s) 0 <= i < lv (Items.levels s) (Items.numLevels s) ->
      exists x, zget (Items.items s) i = Some x /\
        In x (taken (StringItems.letters 12) ++ taken (StringItems.letters 20)).
Proof.
  eexists. eexists. eexists. eexists. eexists.
  split; [vm_compute; reflexivity|].
  split; [vm_compute; reflexivity|].
  split; [vm_compute; reflexivity|].
  split; [vm_compute; reflexivity|].
  split; [vm_compute; reflexivity|].
  eapply (merged_items_come_from_both_streams (C := StringItems.GoString) (SV := unit)
            (OpC := StringItems.stringItemsSketchOp) (RtC := StringItems.stringRuntime) 8 8
            _ _ _ _ _ (StringItems.letters 12) (StringItems.letters 20)
            (fun less l => insertion_sort_perm less l)).
  - vm_compute. reflexivity.
  - vm_compute. reflexivity.
  - vm_compute. reflexivity.
  - vm_compute. reflexivity.
  - vm_compute. reflexivity.
  - vm_compute. reflexivity.
Defined.

(** ** What [convertToCumulative] returns *)

Lemma convertToCumulative_from_entries array : forall subtotal,
  zlen (Helper.convertToCumulative_from subtotal array).1 = zlen array /\
  forall i, 0 <= i < zlen array ->
    zget (Helper.convertToCumulative_from subtotal array).1 i
      = Some (i64 ((if decide (i = 0) then subtotal else lv array (i - 1)) + lv array i)).
Proof.
  induction array as [|x rest IH]; intros subtotal.
  - split; [reflexivity|]. intros i Hi. unfold zlen in Hi. cbn [length] in Hi. lia.
  - rewrite convertToCumulative_from_cons. cbn [fst].
    destruct (IH x) as [Hlen Hpt]. unfold zlen in *. cbn [length]. split; [lia|].
    intros i Hi. destruct (decide (i = 0)) as [->|Hne]; [reflexivity|].
    assert (Hshift : forall (A : Type) (l : list A) (y : A) j, 1 <= j ->
              zget (y :: l) j = zget l (j - 1)).
    { intros A l y j Hj. unfold zget. rewrite !decide_True by lia.
      replace (Z.to_nat j) with (S (Z.to_nat (j - 1))) by lia. reflexivity. }
    rewrite Hshift by lia. rewrite Hpt by lia. f_equal. f_equal.
    unfold lv. rewrite (Hshift _ rest x i) by lia.
    destruct (decide (i - 1 = 0)) as [H0|H0].
    + rewrite H0. reflexivity.
    + rewrite (Hshift _ rest x (i - 1)) by lia. reflexivity.
Qed.

(** X23. [convertToCumulative] on any array of weights: the array it
    returns has the same length; its first entry is the first weight and
    every later entry is the sum of two neighbouring weights,
    [W[i-1] + W[i]] in [int64], since the loop carries the weight just read
    and not the sum just written; the total it returns is the last weight
    (0 for the empty array). *)
Theorem convertToCumulative_returns_neighbour_sums (array : list Z) :
  zlen (Helper.convertToCumulative array).1 = zlen array /\
  (forall i, 0 <= i < zlen array ->
     zget (Helper.convertToCumulative array).1 i
       = Some (i64 (lv array (i - 1) + lv array i))) /\
  (Helper.convertToCumulative array).2 = List.last array 0.
Proof.
  unfold Helper.convertToCumulative.
  destruct (convertToCumulative_from_entries array 0) as [Hlen Hpt].
  split; [exact Hlen|]. split; [|apply convertToCumulative_total].
  intros i Hi. rewrite Hpt by exact Hi. f_equal. f_equal.
  destruct (decide (i = 0)) as [->|Hne]; reflexivity.
Qed.

(** ** A merge keeps the levels above level 0 sorted *)

Section MergeBuffers.
Context {C : Type}.
Variable wrap : Z -> Z.
Variable less : C -> C -> bool.

Lemma merge_loop_length bufA bufB bufC limA limB n : forall (st st' : store (C := C)) a b c,
  merge_loop wrap less bufA bufB bufC limA limB n st a b c = Some st' ->
  forall buf, zlen (st' buf) = zlen (st buf).
Proof.
  induction n as [|n IH]; intros st st' a b c Hrun buf; cbn [merge_loop] in Hrun.
  - injection Hrun as <-. reflexivity.
  - destruct (merge_step _ _ _ _ _ _ _ _ _ _ _) as [[[st1 a1] b1]|] eqn:Hstep; [|discriminate].
    cbn [mbind option_bind] in Hrun. rewrite (IH _ _ _ _ _ Hrun buf).
    unfold merge_step in Hstep.
    repeat match type of Hstep with
    | (if ?d then _ else _) = Some _ => destruct d
    | mbind _ ?e = Some _ =>
        let x := fresh "x" in let E := fresh "E" in
        destruct e as [x|] eqn:E; [cbn [mbind option_bind] in Hstep|discriminate Hstep]
    end; injection Hstep as <- _ _; eapply wr_zlen; eassumption.
Qed.

(** A merge into a third buffer reads nothing it has written. *)
Lemma distinct_no_clobber bufA bufB bufC limA limB n : forall (st : store (C := C)) a b c,
  bufC <> bufA -> bufC <> bufB ->
  no_clobber wrap less bufA bufB bufC limA limB n st a b c.
Proof.
  induction n as [|n IH]; intros st a b c HA HB; cbn [no_clobber]; [exact I|].
  destruct (merge_step _ _ _ _ _ _ _ _ _ _ _) as [[[st1 a1] b1]|]; [|exact I].
  split; [split; intros [He _]; congruence|]. apply IH; assumption.
Qed.

Lemma iter_up_zlen (body : Z -> list C -> option (list C)) n : forall a buf buf',
  (forall i b b', body i b = Some b' -> zlen b' = zlen b) ->
  iter_up n a body buf = Some buf' -> zlen buf' = zlen buf.
Proof.
  induction n as [|n IH]; intros a buf buf' Hbody Hrun; cbn [iter_up] in Hrun.
  - injection Hrun as <-. reflexivity.
  - destruct (body a buf) as [b1|] eqn:Hb; [|discriminate]. cbn [mbind option_bind] in Hrun.
    rewrite (IH _ _ _ Hbody Hrun). apply (Hbody _ _ _ Hb).
Qed.

End MergeBuffers.

Section WorkArraysSorted.
Context {C : Type} {OpC : Items.ItemSketchOp C} {RtC : Items.Runtime C}.
Hypothesis less_asym : forall x y : C, Items.lessFn x y = true -> Items.lessFn y x = false.

(** The copy of a level into the work buffer. *)
Lemma copy_run_content (src : list C) (W Lsrc : list Z) lvl n wl l (buf buf' : list C) :
  zget W lvl = Some wl -> zget Lsrc lvl = Some l ->
  0 <= l -> l + n < 2 ^ 32 -> 0 <= wl -> wl + n < 2 ^ 32 -> 0 <= n ->
  iter_up (Z.to_nat n) 0
    (fun i buf =>
       wl ← zget W lvl; l ← zget Lsrc lvl;
       x ← zget src (u32 (l + i));
       zset buf (u32 (wl + i)) x) buf = Some buf' ->
  (forall i, 0 <= i < n -> zget buf' (wl + i) = zget src (l + i)) /\
  (forall j, ~ (wl <= j < wl + n) -> zget buf' j = zget buf j).
Proof.
  intros HW HL Hl Hln Hwl Hwn Hn Hrun.
  apply (iter_up_inv (fun i (b : list C) =>
           (forall t, 0 <= t < i -> zget b (wl + t) = zget src (l + t)) /\
           (forall j, ~ (wl <= j < wl + i) -> zget b j = zget buf j))) in Hrun.
  - rewrite Z.add_0_l, Z2Nat.id in Hrun by lia. exact Hrun.
  - intros i b b' Hi [Hdone Hrest] Hbody. rewrite HW, HL in Hbody.
    cbn [mbind option_bind] in Hbody.
    rewrite (u32_small (l + i)), (u32_small (wl + i)) in Hbody by lia.
    bind_step Hbody x Ex. split.
    + intros t Ht. destruct (decide (t = i)) as [->|Hne].
      * rewrite (zget_zset_eq _ _ _ _ Hbody). symmetry. exact Ex.
      * rewrite (zget_zset_ne _ _ _ _ _ Hbody) by lia. apply Hdone. lia.
    + intros j Hj. rewrite (zget_zset_ne _ _ _ _ _ Hbody) by lia. apply Hrest. lia.
  - split; [intros t Ht; lia|intros j Hj; reflexivity].
Qed.

(** The merge of a level of the two sketches into the work buffer. *)
Lemma merge_into_work (curS curO wb : list C) (st : store (C := C)) a lenA b lenB wl :
  0 <= a -> 0 <= lenA -> a + lenA <= zlen curS -> a + lenA < 2 ^ 32 ->
  0 <= b -> 0 <= lenB -> b + lenB <= zlen curO -> b + lenB < 2 ^ 32 ->
  0 <= wl -> wl + lenA + lenB <= zlen wb -> wl + lenA + lenB < 2 ^ 32 ->
  sortedRun curS a (a + lenA) -> sortedRun curO b (b + lenB) ->
  Items.mergeSortedItemsArrays
    (fun bf => if decide (bf = Items.bufSelf) then curS
               else if decide (bf = Items.bufOther) then curO else wb)
    Items.bufSelf a lenA Items.bufOther b lenB Items.bufWork wl = Some st ->
  sortedRun (st Items.bufWork) wl (wl + lenA + lenB) /\
  (forall j, j < wl -> zget (st Items.bufWork) j = zget wb j).
Proof.
  intros Ha HlenA HfitA HbA Hb HlenB HfitB HbB Hwl Hfit Hbd HsA HsB Hrun.
  unfold Items.mergeSortedItemsArrays, mergeSortedArrays in Hrun.
  rewrite (u32_small (lenA + lenB)), (u32_small (a + lenA)), (u32_small (b + lenB)) in Hrun by lia.
  rewrite (u32_small (wl + (lenA + lenB))) in Hrun by lia.
  replace (wl + (lenA + lenB) - wl) with (lenA + lenB) in Hrun by lia.
  set (la := take (Z.to_nat (a + lenA - a)) (drop (Z.to_nat a) curS)).
  set (lb := take (Z.to_nat (b + lenB - b)) (drop (Z.to_nat b) curO)).
  assert (Hla : length la = Z.to_nat lenA).
  { unfold la. rewrite length_take, length_drop. unfold zlen in *. lia. }
  assert (Hlb : length lb = Z.to_nat lenB).
  { unfold lb. rewrite length_take, length_drop. unfold zlen in *. lia. }
  match type of Hrun with
  | merge_loop _ _ _ _ _ _ _ _ ?s _ _ _ = _ => set (st0 := s) in *
  end.
  destruct (merge_loop_spec u32 Items.lessFn (2 ^ 32) u32_small Items.bufSelf Items.bufOther
              Items.bufWork (a + lenA) (b + lenB) (Z.to_nat (lenA + lenB))
              la lb st0 a b wl)
    as (st' & Hrun' & Hout & Hframe & _); unfold zlen in *; try lia.
  - change (st0 Items.bufWork) with wb. lia.
  - intros t Ht. unfold rd. change (st0 Items.bufSelf) with curS. unfold la. symmetry.
    apply (zget_slice curS a (a + lenA) t); lia.
  - intros t Ht. unfold rd. change (st0 Items.bufOther) with curO. unfold lb. symmetry.
    apply (zget_slice curO b (b + lenB) t); lia.
  - apply distinct_no_clobber; discriminate.
  - rewrite Hrun in Hrun'. injection Hrun' as <-. split.
    + assert (Hasc : ascending Items.lessFn (merge_lists Items.lessFn la lb)).
      { apply merge_lists_ascending; [exact less_asym| |].
        - apply (sortedRun_ascending curS a (a + lenA)); assumption.
        - apply (sortedRun_ascending curO b (b + lenB)); assumption. }
      assert (Hml : length (merge_lists Items.lessFn la lb) = Z.to_nat (lenA + lenB)).
      { rewrite (Permutation_length (merge_lists_perm Items.lessFn la lb)), length_app. lia. }
      pose proof (ascending_sortedRun (st Items.bufWork) _ wl Hasc) as Hsr.
      unfold zlen in Hsr. rewrite Hml in Hsr.
      replace (wl + Z.of_nat (Z.to_nat (lenA + lenB))) with (wl + lenA + lenB) in Hsr by lia.
      apply Hsr. intros t Ht. apply Hout. lia.
    + intros j Hj. apply (Hframe j Hj).
Qed.

Lemma populateItemWorkArrays_length (wb0 : list C) W0 prov nls Ls (curS : list C) nlo Lo
    (curO : list C) wb W :
  Items.populateItemWorkArrays wb0 W0 prov nls Ls curS nlo Lo curO = Some (wb, W) ->
  zlen wb = zlen wb0.
Proof.
  intros Hrun. unfold Items.populateItemWorkArrays in Hrun.
  bind_step Hrun Wa EWa. bind_step Hrun sp0 Esp0. bind_step Hrun wb1 Ewb1.
  assert (Hcopy : forall (src : list C) (Wx Lx : list Z) lvl n (b b' : list C),
            iter_up n 0
              (fun i buf =>
                 wl ← zget Wx lvl; l ← zget Lx lvl;
                 x ← zget src (u32 (l + i));
                 zset buf (u32 (wl + i)) x) b = Some b' -> zlen b' = zlen b).
  { intros src Wx Lx lvl n b b'. apply iter_up_zlen. intros i b0 b1 Hbody.
    bind_step Hbody wl Ewl. bind_step Hbody l El. bind_step Hbody x Ex.
    apply (zset_length _ _ _ _ Hbody). }
  apply Hcopy in Ewb1.
  bind_step Hrun w0 Ew0. bind_step Hrun Wb EWb.
  apply (iter_up_inv (fun _ (p : list C * list Z) => zlen p.1 = zlen wb0)) in Hrun;
    [exact Hrun| |exact Ewb1].
  intros lvl [buf Wc] [buf' Wc'] Hlvl Hinv Hbody. cbn [fst snd] in *.
  bind_step Hbody sp Esp. bind_step Hbody op Eop. bind_step Hbody wl Ewl.
  bind_step Hbody Wd EWd.
  destruct (decide (sp > 0 /\ op = 0)).
  { bind_step Hbody b1 Eb1. injection Hbody as <- <-. cbn [fst snd].
    apply Hcopy in Eb1. lia. }
  destruct (decide (sp = 0 /\ op > 0)).
  { bind_step Hbody b1 Eb1. injection Hbody as <- <-. cbn [fst snd].
    apply Hcopy in Eb1. lia. }
  destruct (decide (sp > 0 /\ op > 0)).
  { bind_step Hbody la Ela. bind_step Hbody lb Elb. bind_step Hbody wl' Ewl'.
    bind_step Hbody st Est. injection Hbody as <- <-. cbn [fst snd].
    unfold Items.mergeSortedItemsArrays, mergeSortedArrays in Est.
    rewrite (merge_loop_length _ _ _ _ _ _ _ _ _ _ _ _ _ Est Items.bufWork). exact Hinv. }
  injection Hbody as <- <-. exact Hinv.
Qed.

(** The work arrays of a merge: the levels above level 0 are ascending runs
    when those of the two sketches are. *)
Lemma populateItemWorkArrays_sorted (wb0 : list C) W0 prov nls Ls (curS : list C) nlo Lo
    (curO : list C) wb W :
  levels_ok nls Ls -> levels_ok nlo Lo -> 2 <= nlo -> prov = Z.max nls nlo ->
  nonNil curS (lv Ls 0) (lv Ls nls) -> nonNil curO (lv Lo 0) (lv Lo nlo) ->
  workLevel Ls nls Lo nlo prov <= zlen wb0 ->
  (forall l, 1 <= l < nls -> sortedRun curS (lv Ls l) (lv Ls (l + 1))) ->
  (forall l, 1 <= l < nlo -> sortedRun curO (lv Lo l) (lv Lo (l + 1))) ->
  Items.populateItemWorkArrays wb0 W0 prov nls Ls curS nlo Lo curO = Some (wb, W) ->
  forall l, 1 <= l < prov -> sortedRun wb (lv W l) (lv W (l + 1)).
Proof.
  intros Hs Ho Hnlo Hprov HcurS HcurO Hroom HsortS HsortO Hrun.
  pose proof Hs as (Hnls & HlenS & HloS & HmonoS & HtopS).
  pose proof Ho as (Hnlo' & HlenO & HloO & HmonoO & HtopO).
  assert (HlenCurS : forall i, lv Ls 0 <= i < lv Ls nls -> i < zlen curS).
  { intros i Hi. destruct (HcurS i Hi) as (x & Hx & _). apply zget_Some_lt in Hx. lia. }
  assert (HlenCurO : forall i, lv Lo 0 <= i < lv Lo nlo -> i < zlen curO).
  { intros i Hi. destruct (HcurO i Hi) as (x & Hx & _). apply zget_Some_lt in Hx. lia. }
  assert (HTmono : forall i j, 0 <= i <= j ->
            workLevel Ls nls Lo nlo i <= workLevel Ls nls Lo nlo j).
  { intros i j Hij.
    apply (mono_le (workLevel Ls nls Lo nlo) j
             (fun t Ht => workLevel_mono Ls nls Lo nlo t Hs Ho (proj1 Ht))); lia. }
  unfold Items.populateItemWorkArrays in Hrun.
  bind_step Hrun Wa EWa.
  rewrite (currentLevelSizeItems_clamp nls Ls 0 Hs ltac:(lia)) in Hrun.
  cbn [mbind option_bind] in Hrun.
  pose proof (clamp_mono nls Ls 0 Hs ltac:(lia)) as Hsp0.
  pose proof (clamp_range nls Ls 1 Hs ltac:(lia)) as Hc1.
  pose proof (clamp_range nls Ls 0 Hs ltac:(lia)) as Hc0.
  change (0 + 1) with 1 in *.
  set (sp0 := clamp Ls nls 1 - clamp Ls nls 0) in *.
  bind_step Hrun wb1 Ewb1.
  pose proof (zget_zset_eq _ _ _ _ EWa) as HWa0.
  assert (Hlen1 : zlen wb1 = zlen wb0).
  { revert Ewb1. apply iter_up_zlen. intros i b0 b1 Hbody.
    bind_step Hbody wl Ewl. bind_step Hbody l El. bind_step Hbody x Ex.
    apply (zset_length _ _ _ _ Hbody). }
  clear Ewb1. rewrite HWa0 in Hrun. cbn [mbind option_bind] in Hrun.
  rewrite (u32_small (0 + sp0)) in Hrun by lia.
  bind_step Hrun Wb EWb.
  apply (iter_up_inv (fun lvl (p : list C * list Z) =>
           lvl < zlen p.2 /\
           (forall j, 0 <= j <= lvl -> lv p.2 j = workLevel Ls nls Lo nlo j) /\
           zlen p.1 = zlen wb0 /\
           (forall j, 1 <= j < lvl ->
              sortedRun p.1 (workLevel Ls nls Lo nlo j) (workLevel Ls nls Lo nlo (j + 1))))) in Hrun.
  - replace (1 + Z.of_nat (Z.to_nat (prov - 1))) with prov in Hrun by lia.
    cbn [fst snd] in Hrun. destruct Hrun as (_ & HT & _ & Hsorted).
    intros l Hl. rewrite !HT by lia. apply Hsorted. exact Hl.
  - intros lvl [buf Wc] [buf' Wc'] Hlvl (Hlen & HT & Hbl & Hsorted) Hbody. cbn [fst snd] in *.
    rewrite (currentLevelSizeItems_clamp nls Ls lvl Hs ltac:(lia)) in Hbody.
    rewrite (currentLevelSizeItems_clamp nlo Lo lvl Ho ltac:(lia)) in Hbody.
    cbn [mbind option_bind] in Hbody.
    pose proof (clamp_mono nls Ls lvl Hs ltac:(lia)) as Hsp.
    pose proof (clamp_mono nlo Lo lvl Ho ltac:(lia)) as Hop.
    set (sp := clamp Ls nls (lvl + 1) - clamp Ls nls lvl) in *.
    set (op := clamp Lo nlo (lvl + 1) - clamp Lo nlo lvl) in *.
    pose proof (workLevel_succ Ls nls Lo nlo lvl ltac:(lia) ltac:(lia)) as HTs.
    fold sp op in HTs.
    pose proof (workLevel_range Ls nls Lo nlo lvl Hs Ho ltac:(lia)) as HTr.
    pose proof (workLevel_range Ls nls Lo nlo (lvl + 1) Hs Ho ltac:(lia)) as HTr1.
    pose proof (HTmono (lvl + 1) prov ltac:(lia)) as HTtop.
    rewrite (zget_lv Wc lvl) in Hbody by lia. cbn [mbind option_bind] in Hbody.
    rewrite (HT lvl) in Hbody by lia.
    set (wl := workLevel Ls nls Lo nlo lvl) in *.
    rewrite (u8_small (lvl + 1)) in Hbody by lia.
    rewrite (u32_small (wl + sp)), (u32_small (wl + sp + op)) in Hbody by lia.
    bind_step Hbody Wd EWd.
    pose proof (zset_length _ _ _ _ EWd) as HlenWd.
    pose proof (zset_Some_lt _ _ _ _ EWd) as HinWd.
    pose proof (lv_zset_eq _ _ _ _ EWd) as HWd1.
    assert (HWdl : zget Wd lvl = Some wl).
    { rewrite (zget_zset_ne _ _ _ _ _ EWd) by lia. rewrite zget_lv by lia. f_equal.
      apply HT. lia. }
    assert (Hgoal : forall b : list C, zlen b = zlen wb0 ->
              (forall j, j < wl -> zget b j = zget buf j) ->
              sortedRun b wl (wl + sp + op) ->
              lvl + 1 < zlen Wd /\
              (forall j, 0 <= j <= lvl + 1 -> lv Wd j = workLevel Ls nls Lo nlo j) /\
              zlen b = zlen wb0 /\
              (forall j, 1 <= j < lvl + 1 ->
                 sortedRun b (workLevel Ls nls Lo nlo j) (workLevel Ls nls Lo nlo (j + 1)))).
    { intros b Hb Hframe Hnew. split; [lia|]. split; [|split; [exact Hb|]].
      - intros j Hj. destruct (decide (j = lvl + 1)) as [->|Hne].
        + rewrite HWd1. lia.
        + rewrite (lv_zset_ne _ _ _ j _ EWd) by lia. apply HT. lia.
      - intros j Hj. destruct (decide (j = lvl)) as [->|Hne].
        + fold wl. rewrite HTs. exact Hnew.
        + pose proof (HTmono (j + 1) lvl ltac:(lia)) as Hjl. fold wl in Hjl.
          apply (sortedRun_transport buf _ _ _ 0).
          * intros i Hi. rewrite Z.add_0_r. apply Hframe. lia.
          * rewrite !Z.add_0_r. apply Hsorted. lia. }
    assert (HselfIn : sp > 0 -> lvl < nls /\ clamp Ls nls lvl = lv Ls lvl /\
                      clamp Ls nls (lvl + 1) = lv Ls (lvl + 1)).
    { intros Hpos. unfold sp, clamp in *. destruct (decide (lvl < nls)) as [Hlt|Hge].
      - rewrite !Z.min_l by lia. auto.
      - rewrite !Z.min_r in Hpos by lia. lia. }
    assert (HotherIn : op > 0 -> lvl < nlo /\ clamp Lo nlo lvl = lv Lo lvl /\
                       clamp Lo nlo (lvl + 1) = lv Lo (lvl + 1)).
    { intros Hpos. unfold op, clamp in *. destruct (decide (lvl < nlo)) as [Hlt|Hge].
      - rewrite !Z.min_l by lia. auto.
      - rewrite !Z.min_r in Hpos by lia. lia. }
    destruct (decide (sp > 0 /\ op = 0)) as [[Hsp1 Hop0]|Hc1'].
    { bind_step Hbody b1 Eb1. injection Hbody as <- <-. cbn [fst snd].
      destruct (HselfIn Hsp1) as (Hlt & Hcl & Hcl1).
      pose proof (mono_le (lv Ls) nls HmonoS 0 lvl ltac:(lia) ltac:(lia) ltac:(lia)) as Hm0.
      pose proof (mono_le (lv Ls) nls HmonoS (lvl + 1) nls ltac:(lia) ltac:(lia) ltac:(lia)) as Hm1.
      assert (Hb1len : zlen b1 = zlen buf).
      { revert Eb1. apply iter_up_zlen. intros i b0 b2 Hb.
        bind_step Hb wl' Ewl. bind_step Hb l El. bind_step Hb x Ex.
        apply (zset_length _ _ _ _ Hb). }
      destruct (copy_run_content curS Wd Ls lvl sp wl (lv Ls lvl) buf b1 HWdl
                  (proj2 (levels_ok_range nls Ls lvl Hs ltac:(lia)))
                  ltac:(lia) ltac:(unfold sp in *; lia) ltac:(lia) ltac:(lia) ltac:(lia) Eb1)
        as [Hcont Hframe].
      apply Hgoal; [lia|intros j Hj; apply Hframe; lia|].
      replace (wl + sp + op) with (wl + sp) by lia.
      apply (sortedRun_transport curS _ _ _ (lv Ls lvl - wl)).
      - intros i Hi. replace i with (wl + (i - wl)) at 1 by lia.
        rewrite Hcont by lia. f_equal. lia.
      - replace (wl + (lv Ls lvl - wl)) with (lv Ls lvl) by lia.
        replace (wl + sp + (lv Ls lvl - wl)) with (lv Ls (lvl + 1)) by (unfold sp; lia).
        apply HsortS. lia. }
    destruct (decide (sp = 0 /\ op > 0)) as [[Hsp0' Hop1]|Hc2'].
    { bind_step Hbody b1 Eb1. injection Hbody as <- <-. cbn [fst snd].
      destruct (HotherIn Hop1) as (Hlt & Hcl & Hcl1).
      pose proof (mono_le (lv Lo) nlo HmonoO 0 lvl ltac:(lia) ltac:(lia) ltac:(lia)) as Hm0.
      pose proof (mono_le (lv Lo) nlo HmonoO (lvl + 1) nlo ltac:(lia) ltac:(lia) ltac:(lia)) as Hm1.
      assert (Hb1len : zlen b1 = zlen buf).
      { revert Eb1. apply iter_up_zlen. intros i b0 b2 Hb.
        bind_step Hb wl' Ewl. bind_step Hb l El. bind_step Hb x Ex.
        apply (zset_length _ _ _ _ Hb). }
      destruct (copy_run_content curO Wd Lo lvl op wl (lv Lo lvl) buf b1 HWdl
                  (proj2 (levels_ok_range nlo Lo lvl Ho ltac:(lia)))
                  ltac:(lia) ltac:(unfold op in *; lia) ltac:(lia) ltac:(lia) ltac:(lia) Eb1)
        as [Hcont Hframe].
      apply Hgoal; [lia|intros j Hj; apply Hframe; lia|].
      replace (wl + sp + op) with (wl + op) by lia.
      apply (sortedRun_transport curO _ _ _ (lv Lo lvl - wl)).
      - intros i Hi. replace i with (wl + (i - wl)) at 1 by lia.
        rewrite Hcont by lia. f_equal. lia.
      - replace (wl + (lv Lo lvl - wl)) with (lv Lo lvl) by lia.
        replace (wl + op + (lv Lo lvl - wl)) with (lv Lo (lvl + 1)) by (unfold op; lia).
        apply HsortO. lia. }
    destruct (decide (sp > 0 /\ op > 0)) as [[Hsp1 Hop1]|Hc3'].
    { destruct (HselfIn Hsp1) as (HltS & HclS & HclS1).
      destruct (HotherIn Hop1) as (HltO & HclO & HclO1).
      rewrite (proj2 (levels_ok_range nls Ls lvl Hs ltac:(lia))) in Hbody.
      rewrite (proj2 (levels_ok_range nlo Lo lvl Ho ltac:(lia))) in Hbody.
      rewrite HWdl in Hbody. cbn [mbind option_bind] in Hbody.
      bind_step Hbody st Est. injection Hbody as <- <-. cbn [fst snd].
      pose proof (mono_le (lv Ls) nls HmonoS 0 lvl ltac:(lia) ltac:(lia) ltac:(lia)).
      pose proof (mono_le (lv Ls) nls HmonoS (lvl + 1) nls ltac:(lia) ltac:(lia) ltac:(lia)).
      pose proof (mono_le (lv Lo) nlo HmonoO 0 lvl ltac:(lia) ltac:(lia) ltac:(lia)).
      pose proof (mono_le (lv Lo) nlo HmonoO (lvl + 1) nlo ltac:(lia) ltac:(lia) ltac:(lia)).
      pose proof (HlenCurS (lv Ls (lvl + 1) - 1) ltac:(unfold sp in *; lia)) as HfitS.
      pose proof (HlenCurO (lv Lo (lvl + 1) - 1) ltac:(unfold op in *; lia)) as HfitO.
      assert (Hstlen : zlen (st Items.bufWork) = zlen buf).
      { unfold Items.mergeSortedItemsArrays, mergeSortedArrays in Est.
        apply (merge_loop_length _ _ _ _ _ _ _ _ _ _ _ _ _ Est Items.bufWork). }
      destruct (merge_into_work curS curO buf st (lv Ls lvl) sp (lv Lo lvl) op wl) as [Hnew Hframe];
        try (unfold sp, op in *; lia); try exact Est.
      - replace (lv Ls lvl + sp) with (lv Ls (lvl + 1)) by (unfold sp; lia).
        apply HsortS. lia.
      - replace (lv Lo lvl + op) with (lv Lo (lvl + 1)) by (unfold op; lia).
        apply HsortO. lia.
      - apply Hgoal; [lia|exact Hframe|exact Hnew]. }
    injection Hbody as <- <-. cbn [fst snd].
    apply Hgoal; [exact Hbl|intros; reflexivity|apply sortedRun_short; lia].
  - cbn [fst snd]. pose proof (zset_Some_lt _ _ _ _ EWb) as HinWb.
    pose proof (lv_zset_eq _ _ _ _ EWb) as HWb1.
    split; [rewrite (zset_length _ _ _ _ EWb); lia|]. split; [|split; [exact Hlen1|intros; lia]].
    intros j Hj. destruct (decide (j = 1)) as [->|Hne].
    + rewrite HWb1. unfold workLevel, clamp1, sp0.
      replace (Z.max 1 (Z.min 1 nlo)) with (Z.max 1 (Z.min 0 nlo)) by lia. lia.
    + replace j with 0 by lia. rewrite (lv_zset_ne _ _ _ 0 _ EWb) by lia.
      rewrite (lv_zset_eq _ _ _ _ EWa). now rewrite workLevel_0.
Qed.

End WorkArraysSorted.

Section CompressSorted.
Context {C : Type} {OpC : Items.ItemSketchOp C} {RtC : Items.Runtime C}.
Hypothesis less_asym : forall x y : C, Items.lessFn x y = true -> Items.lessFn y x = false.
Hypothesis less_between : forall x y z : C, Items.lessFn x y = true ->
  Items.lessFn x z = true \/ Items.lessFn z y = true.
Hypothesis sortSlice_perm : forall less (l : list C), Permutation (Items.sortSlice less l) l.
Hypothesis sortSlice_sorted : forall l : list C,
  ascending Items.lessFn (Items.sortSlice Items.lessFn l).
Variables k m Wt B : Z.
Hypothesis Hk : 8 <= k <= 65535.
Hypothesis Hm : m = 8.
Hypothesis HB : B < 2 ^ 32.

(** A level that is not compacted is copied down to its place, front to
    back, inside the one buffer. *)
Lemma copy_down_content (O : list Z) cl o beg n (st st' : store (C := C)) :
  zget O cl = Some o -> 0 <= o <= beg -> beg + n < 2 ^ 32 -> 0 <= n ->
  iter_up (Z.to_nat n) 0
    (fun i st =>
       o ← zget O cl;
       x ← rd st 0%nat (u32 (beg + i));
       wr st 0%nat (u32 (o + i)) x) st = Some st' ->
  zlen (st' 0%nat) = zlen (st 0%nat) /\
  (forall i, 0 <= i < n -> zget (st' 0%nat) (o + i) = zget (st 0%nat) (beg + i)) /\
  (forall j, ~ (o <= j < o + n) -> zget (st' 0%nat) j = zget (st 0%nat) j).
Proof.
  intros HO Ho Hfit Hn Hrun.
  apply (iter_up_inv (fun i (s : store (C := C)) =>
           zlen (s 0%nat) = zlen (st 0%nat) /\
           (forall t, 0 <= t < i -> zget (s 0%nat) (o + t) = zget (st 0%nat) (beg + t)) /\
           (forall j, ~ (o <= j < o + i) -> zget (s 0%nat) j = zget (st 0%nat) j))) in Hrun.
  - rewrite Z.add_0_l, Z2Nat.id in Hrun by lia. exact Hrun.
  - intros i s s' Hi (Hlen & Hdone & Hrest) Hbody. rewrite HO in Hbody.
    cbn [mbind option_bind] in Hbody.
    rewrite (u32_small (beg + i)), (u32_small (o + i)) in Hbody by lia.
    bind_step Hbody x Ex. unfold rd in Ex.
    pose proof (rd_wr_eq _ _ _ _ _ Hbody) as Heq. unfold rd in Heq.
    pose proof (fun j Hj => rd_wr_ne _ _ _ _ _ 0%nat j Hbody Hj) as Hne. unfold rd in Hne.
    split; [rewrite (wr_zlen _ _ _ _ _ 0%nat Hbody); exact Hlen|]. split.
    + intros t Ht. destruct (decide (t = i)) as [->|Hti].
      * rewrite Heq. rewrite <- Ex. apply Hrest. lia.
      * rewrite Hne by (intros [_ He]; lia). apply Hdone. lia.
    + intros j Hj. rewrite Hne by (intros [_ He]; lia). apply Hrest. lia.
  - split; [reflexivity|]. split; [intros t Ht; lia|intros j Hj; reflexivity].
Qed.

(** One turn of [generalItemsCompress] keeps the order of the levels: a
    level copied down keeps its order, and a level compacted is sorted (level
    0) or is sorted already, so that its half merges with the level above. *)
Lemma generalItemsCompress_step_sorted cl (cs cs' : Items.compressState (C := C)) :
  compress_inv Wt B cl cs -> cl < Items.cs_numLevels cs -> sortedLevels cl cs ->
  Items.generalItemsCompress_step k m 0 0 false cl cs = Some cs' ->
  sortedLevels (cl + 1) cs'.
Proof.
  intros [Hcl Hnl Hout0 Hmono Hw Hcount Hbelow Htop Htarget Hitems] Hlt (Hlen & Hout & Hin) Hrun.
  destruct cs as [nl cur target st I O]. cs_simpl.
  unfold Items.generalItemsCompress_step in Hrun. cs_simpl.
  assert (HOmono : forall i j, 0 <= i <= j -> j <= cl -> lv O i <= lv O j).
  { intros i j Hij Hj.
    pose proof (mono_le _ nl Hmono i j ltac:(lia) ltac:(lia) ltac:(lia)) as H.
    rewrite (blend_low O I cl i), (blend_low O I cl j) in H by lia. exact H. }
  assert (HImono : forall i j, cl <= i <= j -> j <= nl -> lv I i <= lv I j).
  { intros i j Hij Hj.
    pose proof (mono_le _ nl Hmono i j ltac:(lia) ltac:(lia) ltac:(lia)) as H.
    rewrite (blend_high O I cl i), (blend_high O I cl j) in H by lia. lia. }
  assert (HBlen : B <= zlen (st 0%nat)).
  { destruct (decide (B <= 0)) as [|Hpos]; [pose proof (zlen_nonneg (st 0%nat)); lia|].
    destruct (Hitems (B - 1) ltac:(lia)) as (x & Hx & _). apply zget_Some_lt in Hx. lia. }
  bind_step Hrun I1 EI1.
  assert (HI1 : (forall i, 0 <= i <= nl -> lv I1 i = lv I i) /\
                (cl = nl - 1 -> lv I1 (nl + 1) = lv I nl)).
  { destruct (decide (cl = nl - 1)) as [Heq|Hne].
    - bind_step EI1 v Ev. apply lv_Some in Ev. subst v. split.
      + intros i Hi. apply (lv_zset_ne _ _ _ i _ EI1). lia.
      + intros _. replace (nl + 1) with (cl + 2) by lia. rewrite (lv_zset_eq _ _ _ _ EI1).
        f_equal. lia.
    - injection EI1 as <-. split; [reflexivity|]. intros Heq. lia. }
  clear EI1. destruct HI1 as [HI1 HI1top].
  bind_step Hrun rawBeg Ebeg. bind_step Hrun rawLim Elim.
  apply lv_Some in Ebeg, Elim. rewrite HI1 in Ebeg, Elim by lia. subst rawBeg rawLim.
  pose proof (mono_le _ nl Hmono 0 cl ltac:(lia) ltac:(lia) ltac:(lia)) as H0cl.
  pose proof (Hmono cl ltac:(lia)) as Hclcl.
  pose proof (mono_le _ nl Hmono (cl + 1) nl ltac:(lia) ltac:(lia) ltac:(lia)) as Hclnl.
  rewrite (blend_low O I cl 0), (blend_low O I cl cl) in H0cl by lia.
  rewrite (blend_low O I cl cl), (blend_high O I cl (cl + 1)) in Hclcl by lia.
  rewrite (blend_high O I cl (cl + 1)), (blend_high O I cl nl) in Hclnl by lia.
  set (rawBeg := lv I cl) in *. set (rawLim := lv I (cl + 1)) in *.
  rewrite (u32_small (rawLim - rawBeg)) in Hrun by lia.
  bind_step Hrun through Eth. clear Eth. destruct through.
  - (* the level is copied through *)
    bind_step Hrun st' Est. bind_step Hrun o Eo. rewrite <- Eo in Est.
    destruct (copy_down_content O cl o rawBeg (rawLim - rawBeg) st st' Eo
                ltac:(apply lv_Some in Eo; lia) ltac:(lia) ltac:(lia) Est)
      as (Hlen' & Hcont & Hframe).
    apply lv_Some in Eo. subst o.
    rewrite (u32_small (lv O cl + (rawLim - rawBeg))) in Hrun by lia.
    bind_step Hrun O' EO'. injection Hrun as <-. cs_simpl.
    pose proof (lv_zset_eq _ _ _ _ EO') as HO'1.
    assert (HO'i : forall i, i <> cl + 1 -> lv O' i = lv O i).
    { intros i Hi. apply (lv_zset_ne _ _ _ i _ EO'). lia. }
    split; [cs_simpl; lia|]. split; cs_simpl.
    + intros j Hj. destruct (decide (j = cl)) as [->|Hne].
      * rewrite HO'1, HO'i by lia.
        apply (sortedRun_transport (st 0%nat) _ _ _ (rawBeg - lv O cl)).
        -- intros i Hi. replace i with (lv O cl + (i - lv O cl)) at 1 by lia.
           rewrite Hcont by lia. f_equal. lia.
        -- replace (lv O cl + (rawBeg - lv O cl)) with rawBeg by lia.
           replace (lv O cl + (rawLim - rawBeg) + (rawBeg - lv O cl)) with rawLim by lia.
           apply Hin; lia.
      * rewrite !HO'i by lia.
        pose proof (HOmono (j + 1) cl ltac:(lia) ltac:(lia)) as Hjc.
        apply (sortedRun_transport (st 0%nat) _ _ _ 0).
        -- intros i Hi. rewrite Z.add_0_r. apply Hframe. lia.
        -- rewrite !Z.add_0_r. apply Hout. lia.
    + intros j Hj1 Hj. rewrite !HI1 by lia.
      pose proof (HImono (cl + 1) j ltac:(lia) ltac:(lia)) as Hjc. fold rawLim in Hjc.
      apply (sortedRun_transport (st 0%nat) _ _ _ 0).
      * intros i Hi. rewrite Z.add_0_r. apply Hframe. lia.
      * rewrite !Z.add_0_r. apply Hin; lia.
  - (* the level is compacted *)
    bind_step Hrun above Eab. apply lv_Some in Eab.
    assert (Hab : rawLim <= above <= B /\ (cl + 2 <= nl -> above = lv I (cl + 2)) /\
                  (cl = nl - 1 -> above = rawLim)).
    { destruct (decide (cl = nl - 1)) as [Heq|Hne].
      - replace (cl + 2) with (nl + 1) in Eab by lia. rewrite HI1top in Eab by lia.
        assert (rawLim = lv I nl) by (unfold rawLim; f_equal; lia).
        split; [lia|]. split; [intros; lia|intros; lia].
      - rewrite HI1 in Eab by lia.
        pose proof (Hmono (cl + 1) ltac:(lia)) as H12.
        pose proof (mono_le _ nl Hmono (cl + 2) nl ltac:(lia) ltac:(lia) ltac:(lia)) as H2n.
        rewrite (blend_high O I cl (cl + 1)), (blend_high O I cl (cl + 1 + 1)) in H12 by lia.
        rewrite (blend_high O I cl (cl + 2)), (blend_high O I cl nl) in H2n by lia.
        replace (cl + 1 + 1) with (cl + 2) in H12 by lia. fold rawBeg rawLim in H12, H2n.
        split; [lia|]. split; [intros; lia|intros; lia]. }
    destruct Hab as (Habr & Hab2 & Habtop).
    rewrite (u32_small (above - rawLim)) in Hrun by lia.
    set (pop := rawLim - rawBeg) in *.
    pose proof (Z.div_mod pop 2 ltac:(lia)) as Hdm.
    pose proof (Z.mod_pos_bound pop 2 ltac:(lia)) as Hodd.
    set (odd := pop mod 2) in *. set (h := pop / 2) in *.
    assert (HadjBeg : (if bool_decide (odd = 1) then u32 (rawBeg + 1) else rawBeg) = rawBeg + odd).
    { case_bool_decide; [rewrite u32_small by lia|]; lia. }
    assert (HadjPop : (if bool_decide (odd = 1) then u32 (pop - 1) else pop) = 2 * h).
    { case_bool_decide; [rewrite u32_small by lia|]; lia. }
    rewrite HadjBeg, HadjPop in Hrun. clear HadjBeg HadjPop.
    replace (2 * h / 2) with h in Hrun by (rewrite Z.mul_comm, Z.div_mul; lia).
    rewrite (u32_small (rawBeg + odd + 2 * h)), (u32_small (rawLim - h)) in Hrun by lia.
    set (start := rawBeg + odd) in *.
    assert (HrawLim : rawLim = start + 2 * h) by (unfold start; lia).
    bind_step Hrun r Er. destruct r as [st1 O'].
    assert (Hr : lv O' (cl + 1) = lv O cl + odd /\
                 (forall i, i <> cl + 1 -> lv O' i = lv O i) /\
                 zlen (st1 0%nat) = zlen (st 0%nat) /\
                 (forall j, start <= j \/ j < lv O cl -> zget (st1 0%nat) j = zget (st 0%nat) j)).
    { destruct (bool_decide (odd = 1)) eqn:Hb.
      - apply bool_decide_eq_true in Hb.
        bind_step Er o Eo. apply lv_Some in Eo. subst o.
        bind_step Er x Ex. bind_step Er st1' Est1.
        rewrite (u32_small (lv O cl + 1)) in Er by lia.
        bind_step Er O'' EO'. injection Er as <- <-.
        split; [rewrite (lv_zset_eq _ _ _ _ EO'); lia|]. split; [|split].
        + intros i Hi. apply (lv_zset_ne _ _ _ i _ EO'). lia.
        + apply (wr_zlen _ _ _ _ _ 0%nat Est1).
        + intros j Hj. apply (rd_wr_ne _ _ _ _ _ 0%nat j Est1). intros [_ He].
          unfold start in Hj. lia.
      - apply bool_decide_eq_false in Hb.
        bind_step Er o Eo. apply lv_Some in Eo. subst o.
        bind_step Er O'' EO'. injection Er as <- <-.
        split; [rewrite (lv_zset_eq _ _ _ _ EO'); lia|]. split; [|split].
        + intros i Hi. apply (lv_zset_ne _ _ _ i _ EO'). lia.
        + reflexivity.
        + intros j Hj. reflexivity. }
    clear Er. destruct Hr as (HO'1 & HO'i & Hlen1 & Hframe1).
    bind_step Hrun buf1 E1.
    assert (H1 : zlen buf1 = zlen (st 0%nat) /\ sortedRun buf1 start (start + 2 * h) /\
                 (forall j, start + 2 * h <= j \/ j < lv O cl ->
                    zget buf1 j = zget (st 0%nat) j)).
    { destruct (decide (cl = 0 /\ false = false)) as [Hz|Hnz].
      - destruct (sortRange_content sortSlice_perm sortSlice_sorted _ _ _ _ E1)
          as (Hl & Hs & Hf).
        split; [lia|]. split; [exact Hs|].
        intros j Hj. rewrite Hf by (unfold start in *; lia). apply Hframe1.
        unfold start in *. lia.
      - injection E1 as <-. split; [exact Hlen1|]. split.
        + apply (sortedRun_transport (st 0%nat) _ _ _ 0).
          * intros i Hi. rewrite Z.add_0_r. apply Hframe1. lia.
          * rewrite !Z.add_0_r. rewrite <- HrawLim.
            apply (sortedRun_sub (st 0%nat) rawBeg rawLim); [|unfold start; lia|lia].
            apply Hin; lia.
        + intros j Hj. apply Hframe1. lia. }
    clear E1. destruct H1 as (Hlenb1 & Hsorted1 & Hframeb1).
    bind_step Hrun buf2 E2.
    assert (H2 : zlen buf2 = zlen (st 0%nat) /\ sortedRun buf2 (rawLim - h) above /\
                 (forall j, above <= j \/ j < lv O cl -> zget buf2 j = zget (st 0%nat) j)).
    { destruct (decide (above - rawLim = 0)) as [Hp0|Hp1].
      - destruct (randomlyHalveUpItems_content buf1 buf2 start h
                    ltac:(unfold start; lia) ltac:(lia) ltac:(lia) ltac:(lia) E2)
          as (Hl & Hc & Hf).
        split; [lia|]. split.
        + replace above with (start + 2 * h) by lia.
          replace (rawLim - h) with (start + h) by lia.
          apply (sortedRun_every_other less_between buf1 buf2 start (start + 2 * h) _ _ start
                   Hsorted1 ltac:(unfold start; lia) ltac:(lia)).
          intros u Hu. split; [lia|].
          replace (start + h + u) with (start + h + u) by lia. apply Hc. lia.
        + intros j Hj. rewrite Hf by (unfold start in *; lia). apply Hframeb1.
          unfold start in *. lia.
      - bind_step E2 buf Ebuf. bind_step E2 st2 Est2. injection E2 as <-.
        destruct (randomlyHalveDownItems_content buf1 buf start h
                    ltac:(unfold start; lia) ltac:(lia) ltac:(lia) ltac:(lia) Ebuf)
          as (Hl & Hc & Hf).
        assert (Hcl2 : cl + 2 <= nl) by lia.
        assert (HsA : sortedRun buf start (start + h)).
        { apply (sortedRun_every_other less_between buf1 buf start (start + 2 * h) _ _ (start + 1)
                   Hsorted1 ltac:(unfold start; lia) ltac:(lia)).
          intros u Hu. split; [lia|]. apply Hc. lia. }
        assert (HsB : sortedRun buf (start + 2 * h) (start + 2 * h + (above - rawLim))).
        { apply (sortedRun_transport (st 0%nat) _ _ _ 0).
          - intros i Hi. rewrite Z.add_0_r. rewrite Hf by lia. apply Hframeb1. lia.
          - rewrite !Z.add_0_r. rewrite <- HrawLim.
            replace (rawLim + (above - rawLim)) with above by lia.
            rewrite (Hab2 Hcl2). unfold rawLim.
            replace (cl + 2) with (cl + 1 + 1) by lia. apply Hin; lia. }
        rewrite HrawLim in Est2 at 1.
        destruct (merge_in_place less_asym buf st2 start h (above - rawLim)
                    ltac:(unfold start; lia) ltac:(lia) ltac:(lia) ltac:(lia) ltac:(lia)
                    HsA HsB Est2) as (Hl2 & Hs2 & Hf2).
        split; [lia|]. split.
        + replace (rawLim - h) with (start + h) by lia.
          replace above with (start + 2 * h + (above - rawLim)) at 1 by lia. exact Hs2.
        + intros j Hj. rewrite Hf2 by (unfold start in *; lia).
          rewrite Hf by (unfold start in *; lia). apply Hframeb1. unfold start in *. lia. }
    clear E2. destruct H2 as (Hlenb2 & Hsorted2 & Hframeb2).
    bind_step Hrun I2 EI2.
    pose proof (lv_zset_eq _ _ _ _ EI2) as HI21.
    assert (HI2i : forall i, i <> cl + 1 -> lv I2 i = lv I1 i).
    { intros i Hi. apply (lv_zset_ne _ _ _ i _ EI2). lia. }
    assert (Hfinal : forall nl' cur' target',
              (nl' = nl /\ cl + 2 <= nl) \/ (nl' = nl + 1 /\ cl = nl - 1) ->
              sortedLevels (cl + 1)
                (Items.mkCompressState nl' cur' target'
                   (fun b => if decide (b = 0%nat) then buf2 else st1 b) I2 O')).
    { intros nl' cur' target' Hnl'. split; cs_simpl.
      { rewrite decide_True by reflexivity. lia. }
      rewrite decide_True by reflexivity. split.
      - intros j Hj. destruct (decide (j = cl)) as [->|Hne].
        + apply sortedRun_short. rewrite HO'1, HO'i by lia. lia.
        + rewrite !HO'i by lia.
          pose proof (HOmono (j + 1) cl ltac:(lia) ltac:(lia)) as Hjc.
          apply (sortedRun_transport (st 0%nat) _ _ _ 0).
          * intros i Hi. rewrite Z.add_0_r. apply Hframeb2. lia.
          * rewrite !Z.add_0_r. apply Hout. lia.
      - intros j Hj1 Hj. destruct (decide (j = cl + 1)) as [->|Hne].
        + rewrite HI21. rewrite HI2i by lia.
          replace (cl + 1 + 1) with (cl + 2) by lia. rewrite Eab. exact Hsorted2.
        + assert (Hnl2 : nl' = nl /\ cl + 2 <= nl) by lia. destruct Hnl2 as [-> Hcl2].
          rewrite !HI2i by lia. rewrite !HI1 by lia.
          pose proof (HImono (cl + 2) j ltac:(lia) ltac:(lia)) as Hjc.
          rewrite <- (Hab2 Hcl2) in Hjc.
          apply (sortedRun_transport (st 0%nat) _ _ _ 0).
          * intros i Hi. rewrite Z.add_0_r. apply Hframeb2. lia.
          * rewrite !Z.add_0_r. apply Hin; lia. }
    destruct (decide (cl = nl - 1)) as [Heq|Hne].
    + bind_step Hrun c Ec. 
      assert (Hnl60 : nl <= 254) by lia.
      rewrite (u8_small (nl + 1)) in Hrun by lia.
      injection Hrun as <-. apply Hfinal. lia.
    + injection Hrun as <-. apply Hfinal. lia.
Qed.

Lemma generalItemsCompress_loop_sorted fuel : forall cl (cs cs' : Items.compressState (C := C)),
  compress_inv Wt B cl cs -> cl < Items.cs_numLevels cs -> sortedLevels cl cs ->
  Items.generalItemsCompress_loop fuel k m 0 0 false cl cs = Some cs' ->
  sortedLevels (Items.cs_numLevels cs') cs'.
Proof.
  induction fuel as [|fuel IH]; intros cl cs cs' Hinv Hlt Hs Hrun;
    cbn [Items.generalItemsCompress_loop] in Hrun; [discriminate|].
  bind_step Hrun cs1 E1.
  pose proof (generalItemsCompress_step_sorted cl cs cs1 Hinv Hlt Hs E1) as Hs1.
  apply (generalItemsCompress_step_inv sortSlice_perm k m Wt B false Hk Hm HB cl cs cs1 Hinv Hlt)
    in E1 as [Hinv1 Hle1].
  destruct (decide (cl = Items.cs_numLevels cs1 - 1)) as [Heq|Hne].
  - injection Hrun as <-.
    replace (Items.cs_numLevels cs1) with (cl + 1) at 1 by lia. exact Hs1.
  - pose proof (ci_level _ _ _ _ Hinv1) as Hl1.
    apply (IH (cl + 1) cs1 cs' Hinv1 ltac:(lia) Hs1 Hrun).
Qed.

(** [generalItemsCompress] on work arrays whose levels above level 0 are
    ascending runs writes out levels of which those above level 0 are
    ascending runs. *)
Lemma generalItemsCompress_sorted prov (wb : list C) W O0 (cs : Items.compressState (C := C)) :
  1 <= prov <= 61 -> lv W 0 = 0 ->
  (forall i, 0 <= i < prov -> lv W i <= lv W (i + 1)) ->
  lv W prov = B -> nonNil wb 0 B -> wsum (lv W) (Z.to_nat prov) = Wt ->
  zlen wb < 2 ^ 32 ->
  (forall l, 1 <= l < prov -> sortedRun wb (lv W l) (lv W (l + 1))) ->
  Items.generalItemsCompress k m prov (fun _ => wb) 0 W 0 O0 false = Some cs ->
  sortedLevels (Items.cs_numLevels cs) cs.
Proof.
  intros Hprov HW0 HWmono HWtop Hwb HWw Hwblen Hsorted Hrun.
  unfold Items.generalItemsCompress in Hrun.
  bind_step Hrun hi Ehi. bind_step Hrun lo Elo. apply lv_Some in Ehi, Elo.
  rewrite HWtop in Ehi. rewrite HW0 in Elo. subst hi lo.
  pose proof (mono_le _ prov HWmono 0 prov ltac:(lia) ltac:(lia) ltac:(lia)) as H0B.
  rewrite HW0, HWtop in H0B.
  rewrite (u32_small (B - 0)) in Hrun by lia.
  bind_step Hrun target Et.
  apply (computeTotalItemCapacity_le k m Hk Hm) in Et; [|lia].
  bind_step Hrun O1 EO1.
  pose proof (lv_zset_eq _ _ _ _ EO1) as HO10.
  apply generalItemsCompress_loop_sorted in Hrun; cs_simpl; [exact Hrun| |lia|].
  - assert (Hext : forall i, 0 <= i -> blend O1 W 0 i = lv W i).
    { intros i Hi. destruct (decide (i = 0)) as [->|].
      - rewrite blend_low by lia. congruence.
      - rewrite blend_high by lia. lia. }
    constructor; cs_simpl; try assumption; try lia.
    + intros i Hi. rewrite !Hext by lia. apply HWmono. lia.
    + rewrite <- HWw. apply wsum_ext. intros i Hi. apply Hext. lia.
    + rewrite Hext by lia. lia.
  - split; cs_simpl; [exact Hwblen|]. split.
    + intros j Hj. lia.
    + intros j Hj1 Hj. apply Hsorted. lia.
Qed.

End CompressSorted.

Section MergeSorted.
Context {C SV : Type} {OpC : Items.ItemSketchOp C} {RtC : Items.Runtime C}.
Hypothesis less_asym : forall x y : C, Items.lessFn x y = true -> Items.lessFn y x = false.
Hypothesis less_between : forall x y z : C, Items.lessFn x y = true ->
  Items.lessFn x z = true \/ Items.lessFn z y = true.
Hypothesis sortSlice_perm : forall less (l : list C), Permutation (Items.sortSlice less l) l.
Hypothesis sortSlice_sorted : forall l : list C,
  ascending Items.lessFn (Items.sortSlice Items.lessFn l).
#[local] Abbreviation Sketch := (Items.ItemsSketch C SV).

(** No update marks level 0 as sorted. *)
Lemma updateItem_level0_flag (s s' : Sketch) x :
  Items.isLevelZeroSorted s = false -> Items.updateItem s x = Some s' ->
  Items.isLevelZeroSorted s' = false.
Proof.
  intros Hlz Hrun. unfold Items.updateItem in Hrun.
  destruct (Items.isNil x); [injection Hrun as <-; exact Hlz|].
  bind_step Hrun s0 E0. bind_step Hrun l0 El0. bind_step Hrun r Er. destruct r as [s1 l1].
  bind_step Hrun L' EL. bind_step Hrun items' Ei. injection Hrun as <-. reflexivity.
Qed.

Lemma GetTotalItemsArray_sorted (s : Sketch) c :
  wf s c -> sortedAbove s ->
  forall l, 1 <= l < Items.numLevels s ->
    sortedRun (Items.GetTotalItemsArray s) (lv (Items.levels s) l) (lv (Items.levels s) (l + 1)).
Proof.
  intros Hwf Hsorted l Hl. unfold Items.GetTotalItemsArray. case_decide as Hn.
  - apply sortedRun_short.
    pose proof (wf_retained_le s c Hwf) as Hret. rewrite (wf_n _ _ Hwf) in Hn.
    pose proof (wf_le s c 0 l Hwf ltac:(lia) ltac:(lia) ltac:(lia)).
    pose proof (wf_le s c (l + 1) (Items.numLevels s) Hwf ltac:(lia) ltac:(lia) ltac:(lia)).
    lia.
  - apply Hsorted. exact Hl.
Qed.

(** The items of level 0 of the other sketch, fed to the updates. *)
Lemma level0_updates_sorted (other : Sketch) c' n : forall (s s1 : Sketch) c,
  wf other c' -> wfx s c ->
  0 <= n -> lv (Items.levels other) 0 + n <= lv (Items.levels other) 1 ->
  c + n < 2 ^ 63 ->
  sortedAbove s -> Items.isLevelZeroSorted s = false ->
  iter_up (Z.to_nat n) (lv (Items.levels other) 0)
    (fun i s => x ← zget (Items.GetTotalItemsArray other) i; Items.updateItem s x) s = Some s1 ->
  sortedAbove s1 /\ Items.isLevelZeroSorted s1 = false.
Proof.
  intros s s1 c Ho Hs Hn Hfit Hc Hsorted Hlz Hrun.
  pose proof (GetTotalItemsArray_nonNil other c' Ho) as Hnn.
  pose proof (wf_numLevels _ _ Ho) as Hnlo.
  pose proof (wf_le other c' 1 (Items.numLevels other) Ho ltac:(lia) ltac:(lia) ltac:(lia)) as H1top.
  pose proof (wf_count_nonneg _ _ (wfx_wf _ _ Hs)) as Hc0.
  set (lo := lv (Items.levels other) 0) in *.
  apply (iter_up_inv (fun i (s : Sketch) =>
           wfx s (c + (i - lo)) /\ sortedAbove s /\ Items.isLevelZeroSorted s = false)) in Hrun.
  - destruct Hrun as (_ & H1 & H2). split; assumption.
  - intros i s0 s0' Hi (Hinv & Hso & Hl0) Hbody. bind_step Hbody x Ex.
    assert (Hx : Items.isNil x = false).
    { eapply (nonNil_read _ _ _ i); [exact Hnn| |exact Ex]. lia. }
    split; [|split].
    + apply (updateItem_wfx sortSlice_perm _ _ _ _ Hinv ltac:(lia)) in Hbody.
      rewrite Hx in Hbody. replace (c + (i + 1 - lo)) with (c + (i - lo) + 1) by lia. exact Hbody.
    + apply (updateItem_sorted less_asym less_between sortSlice_perm sortSlice_sorted
               s0 s0' _ x Hinv ltac:(lia) Hso Hbody).
    + apply (updateItem_level0_flag s0 s0' x Hl0 Hbody).
  - replace (c + (lo - lo)) with c by lia. split; [exact Hs|]. split; assumption.
Qed.

(** The level array and the items array that [mergeItemsSketch] installs:
    the levels above level 0 are ascending runs. *)
Lemma merged_layout_sorted (s1 other : Sketch) c1 c' fin nl' L' (items' : list C) :
  wf s1 c1 -> wf other c' ->
  c1 + c' - (lv (Items.levels other) 1 - lv (Items.levels other) 0) = fin ->
  Items.isLevelZeroSorted s1 = false -> sortedAbove s1 -> sortedAbove other ->
  (if decide (Items.numLevels other > 1) then
     retained ← Items.GetNumRetained s1;
     above ← Items.getNumRetainedAboveLevelZero (Items.numLevels other) (Items.levels other);
     let tmpSpaceNeeded := u32 (retained + above) in
     let workbuf := replicate (Z.to_nat tmpSpaceNeeded) Items.zeroValue in
     let ub := Items.ubOnNumLevels fin in
     if decide (ub + 2 < 0) then None
     else
       let worklevels := replicate (Z.to_nat (ub + 2)) 0 in
       let outlevels := replicate (Z.to_nat (ub + 2)) 0 in
       let provisionalNumLevels := Z.max (Items.numLevels s1) (Items.numLevels other) in
       w ← Items.populateItemWorkArrays workbuf worklevels provisionalNumLevels
             (Items.numLevels s1) (Items.levels s1) (Items.GetTotalItemsArray s1)
             (Items.numLevels other) (Items.levels other) (Items.GetTotalItemsArray other);
       let '(workbuf, worklevels) := w in
       cs ← Items.generalItemsCompress (Items.k s1) (Items.m s1) provisionalNumLevels
              (fun _ => workbuf) 0%nat worklevels 0%nat outlevels (Items.isLevelZeroSorted s1);
       let workbuf := Items.cs_store cs 0%nat in
       let outlevels := Items.cs_outLevels cs in
       let targetItemCount := Items.cs_targetItemCount cs in
       let curItemCount := Items.cs_currentItemCount cs in
       let myNewNumLevels := u8 (Items.cs_numLevels cs) in
       let myNewItemsArr :=
         if decide (targetItemCount = zlen (Items.GetTotalItemsArray s1))
         then Items.GetTotalItemsArray s1
         else replicate (Z.to_nat targetItemCount) Items.zeroValue in
       let freeSpaceAtBottom := u32 (targetItemCount - curItemCount) in
       myNewItemsArr ← iter_up (Z.to_nat curItemCount) 0
         (fun i arr =>
            o0 ← zget outlevels 0;
            x ← zget workbuf (u32 (o0 + i));
            zset arr (u32 (freeSpaceAtBottom + i)) x)
         myNewItemsArr;
       o0 ← zget outlevels 0;
       let theShift := u32 (freeSpaceAtBottom - o0) in
       let finalLevelsArrLen :=
         if decide (u32 (zlen (Items.levels s1)) < u8 (myNewNumLevels + 1))
         then u8 (myNewNumLevels + 1) else u32 (zlen (Items.levels s1)) in
       myNewLevelsArr ← iter_up (Z.to_nat (u8 (myNewNumLevels + 1))) 0
         (fun lvl arr => o ← zget outlevels lvl; zset arr lvl (u32 (o + theShift)))
         (replicate (Z.to_nat finalLevelsArrLen) 0);
       Some (myNewNumLevels, myNewLevelsArr, myNewItemsArr)
   else Some (Items.numLevels s1, Items.levels s1, Items.GetTotalItemsArray s1))
  = Some (nl', L', items') ->
  forall l, 1 <= l < nl' -> sortedRun items' (lv L' l) (lv L' (l + 1)).
Proof.
  intros Hs Ho Hfin Hlz HsortS HsortO Er.
  pose proof (wf_levels_ok s1 c1 Hs) as HokS. pose proof (wf_levels_ok other c' Ho) as HokO.
  pose proof (GetTotalItemsArray_nonNil s1 c1 Hs) as HcurS.
  pose proof (GetTotalItemsArray_nonNil other c' Ho) as HcurO.
  pose proof (GetTotalItemsArray_sorted s1 c1 Hs HsortS) as HsS.
  pose proof (GetTotalItemsArray_sorted other c' Ho HsortO) as HsO.
  pose proof (wf_numLevels _ _ Hs) as Hnls. pose proof (wf_numLevels _ _ Ho) as Hnlo.
  pose proof (wf_k _ _ Hs) as Hk. pose proof (wf_m _ _ Hs) as Hm.
  pose proof (wf_len _ _ Hs) as HlenS.
  pose proof (wf_weight _ _ Hs) as HwS. pose proof (wf_weight _ _ Ho) as HwO.
  rewrite Hlz in Er. clear Hlz HsortS HsortO.
  revert HcurS HcurO HsS HsO Er.
  generalize (Items.GetTotalItemsArray s1), (Items.GetTotalItemsArray other).
  intros curS curO HcurS HcurO HsS HsO Er.
  set (nls := Items.numLevels s1) in *. set (Ls := Items.levels s1) in *.
  set (nlo := Items.numLevels other) in *. set (Lo := Items.levels other) in *.
  destruct (decide (nlo > 1)) as [Hest|Hone].
  2:{ injection Er as <- <- <-. exact HsS. }
  cbn zeta in Er.
  bind_step Er retained Eret. clear Eret. bind_step Er above Eab. clear Eab.
  destruct (decide (Items.ubOnNumLevels fin + 2 < 0)); [discriminate|].
  bind_step Er w Ew. destruct w as [wb W].
  pose proof (populateItemWorkArrays_length _ _ _ _ _ _ _ _ _ _ _ Ew) as Hwblen.
  pose proof Ew as Ew'.
  apply (populateItemWorkArrays_spec _ _ _ nls Ls curS nlo Lo curO wb W HokS HokO
           ltac:(lia) eq_refl HcurS HcurO) in Ew' as (HWlen & HWT & Hwb).
  set (prov := Z.max nls nlo) in *.
  pose proof (workLevel_range Ls nls Lo nlo prov HokS HokO ltac:(lia)) as HBr.
  rewrite <- (HWT prov) in HBr by lia.
  assert (Hwb0len : zlen (replicate (Z.to_nat (u32 (retained + above))) (Items.zeroValue (C := C)))
                    = u32 (retained + above)).
  { unfold zlen. rewrite length_replicate. pose proof (u32_range (retained + above)). lia. }
  rewrite Hwb0len in Hwblen.
  assert (Hroom : lv W prov <= zlen wb).
  { destruct (decide (lv W prov <= 0)) as [|Hpos]; [pose proof (zlen_nonneg wb); lia|].
    destruct (Hwb (lv W prov - 1) ltac:(lia)) as (x & Hx & _). apply zget_Some_lt in Hx. lia. }
  pose proof (populateItemWorkArrays_sorted less_asym _ _ prov nls Ls curS nlo Lo curO wb W
                HokS HokO ltac:(lia) eq_refl HcurS HcurO
                ltac:(rewrite Hwb0len, <- (HWT prov) by lia; lia) HsS HsO Ew) as HsW.
  clear Ew.
  bind_step Er cs Ecs.
  assert (HW0 : lv W 0 = 0) by (rewrite HWT by lia; apply workLevel_0).
  assert (HWmono : forall i, 0 <= i < prov -> lv W i <= lv W (i + 1)).
  { intros i Hi. rewrite !HWT by lia. apply workLevel_mono; try assumption. lia. }
  assert (HWw : wsum (lv W) (Z.to_nat prov) = fin).
  { rewrite (wsum_ext (workLevel Ls nls Lo nlo) (lv W))
      by (intros i Hi; apply HWT; lia).
    rewrite (wsum_add (clamp Ls nls) (clamp1 Lo nlo) _
               (- clamp Ls nls 0 - clamp1 Lo nlo 0))
      by (intros i Hi; unfold workLevel; lia).
    rewrite wsum_clamp, wsum_clamp1 by lia. lia. }
  pose proof (u32_range (retained + above)) as Hu.
  pose proof (generalItemsCompress_sorted less_asym less_between sortSlice_perm sortSlice_sorted
                _ _ fin (lv W prov) Hk Hm ltac:(lia) prov wb W _ cs
                ltac:(lia) HW0 HWmono eq_refl Hwb HWw ltac:(lia) HsW Ecs) as (_ & HsOut & _).
  apply (generalItemsCompress_inv sortSlice_perm _ _ fin (lv W prov) _ Hk Hm ltac:(lia))
    in Ecs as [Hinv Hprov]; try lia; try assumption.
  apply compress_inv_final in Hinv
    as (Hnlf & HO0 & HOmono & HOw & Hcur & HcurB & Htarget & Hst).
  destruct cs as [nlf cur target st I O]. cs_simpl.
  rewrite (u8_small nlf), (u8_small (nlf + 1)) in Er by lia.
  rewrite (zget_lv O 0) in Er.
  2:{ destruct (zget O 0) as [o|] eqn:Eo; [apply zget_Some_lt in Eo; exact Eo|].
      bind_step Er a Ea. discriminate Er. }
  rewrite HO0 in Er. cbn [mbind option_bind] in Er.
  set (free := u32 (target - cur)) in *.
  assert (Hfree : 0 <= free < 2 ^ 32) by apply u32_range.
  rewrite (u32_small (free - 0)) in Er by lia.
  pose proof (mono_le _ nlf HOmono 0 nlf ltac:(lia) ltac:(lia) ltac:(lia)) as H0cur.
  rewrite HO0, <- Hcur in H0cur.
  bind_step Er items1 Eit.
  assert (Hit : free = target - cur /\ cur <= target /\
                (forall t, 0 <= t < cur -> zget items1 (free + t) = zget (st 0%nat) t)).
  { apply (iter_up_inv (fun i (arr : list C) =>
             zlen arr = target /\ (1 <= i -> free < target) /\
             (forall t, 0 <= t < i -> zget arr (free + t) = zget (st 0%nat) t))) in Eit.
    - rewrite Z.add_0_l, Z2Nat.id in Eit by lia. destruct Eit as (Hl1 & Hf & Hcont).
      destruct (decide (cur = 0)) as [Hz|Hnz].
      + assert (free = target) by (unfold free; rewrite Hz, Z.sub_0_r; apply u32_small; lia).
        split; [lia|]. split; [lia|exact Hcont].
      + destruct (u32_sub_fits target cur ltac:(lia) ltac:(lia) (Hf ltac:(lia))) as [Hle Heq].
        fold free in Heq. split; [exact Heq|]. split; [exact Hle|exact Hcont].
    - intros i arr arr' Hi (Hlen & Hf & Hcont) Hbody. cbn beta in Hbody.
      rewrite Z.add_0_l, Z2Nat.id in Hi by lia.
      rewrite (u32_small (0 + i)) in Hbody by lia. bind_step Hbody x Ex.
      assert (Hidx : u32 (free + i) = free + i /\ free < target).
      { destruct (decide (i = 0)) as [->|Hpos].
        - rewrite Z.add_0_r in *. rewrite (u32_small free) in * by lia.
          split; [reflexivity|]. apply zset_Some_lt in Hbody. lia.
        - specialize (Hf ltac:(lia)).
          destruct (u32_sub_fits target cur ltac:(lia) ltac:(lia) Hf) as [Hle Heq].
          fold free in Heq. split; [apply u32_small; lia|exact Hf]. }
      destruct Hidx as [Hidx Hft]. rewrite Hidx in Hbody.
      split; [rewrite (zset_length _ _ _ _ Hbody); exact Hlen|]. split; [intros _; exact Hft|].
      intros t Ht. destruct (decide (t = i)) as [->|Hne].
      + rewrite (zget_zset_eq _ _ _ _ Hbody). rewrite <- Ex. f_equal.
      + rewrite (zget_zset_ne _ _ _ _ _ Hbody) by lia. apply Hcont. lia.
    - split; [|split; [intros; lia|intros t Ht; lia]].
      destruct (decide (target = zlen curS)) as [Heq|Hne]; [congruence|].
      unfold zlen. rewrite length_replicate. lia. }
  clear Eit. destruct Hit as (Hfeq & Hcurle & Hcont).
  bind_step Er Lnew EL. injection Er as <- <- <-.
  apply (iter_up_fill O (fun o => u32 (o + (free - 0)))) in EL as (HLlen & _ & HLpt).
  assert (Hshift : forall i, 0 <= i <= nlf -> lv Lnew i = lv O i + free).
  { intros i Hi. rewrite HLpt. rewrite decide_True by lia. rewrite Z.sub_0_r.
    pose proof (mono_le _ nlf HOmono 0 i ltac:(lia) ltac:(lia) ltac:(lia)) as H1.
    pose proof (mono_le _ nlf HOmono i nlf ltac:(lia) ltac:(lia) ltac:(lia)) as H2.
    apply u32_small. lia. }
  intros l Hl. rewrite !Hshift by lia.
  pose proof (mono_le _ nlf HOmono 0 l ltac:(lia) ltac:(lia) ltac:(lia)) as H0l.
  pose proof (mono_le _ nlf HOmono (l + 1) nlf ltac:(lia) ltac:(lia) ltac:(lia)) as Hl1.
  apply (sortedRun_transport (st 0%nat) _ _ _ (- free)).
  - intros i Hi. replace i with (free + (i + - free)) at 1 by lia.
    apply Hcont. lia.
  - replace (lv O l + free + - free) with (lv O l) by lia.
    replace (lv O (l + 1) + free + - free) with (lv O (l + 1)) by lia.
    apply HsOut. lia.
Qed.

End MergeSorted.

Section MergeSortedSketch.
Context {C SV : Type} {OpC : Items.ItemSketchOp C} {RtC : Items.Runtime C}.
Hypothesis less_asym : forall x y : C, Items.lessFn x y = true -> Items.lessFn y x = false.
Hypothesis less_between : forall x y z : C, Items.lessFn x y = true ->
  Items.lessFn x z = true \/ Items.lessFn z y = true.
Hypothesis sortSlice_perm : forall less (l : list C), Permutation (Items.sortSlice less l) l.
Hypothesis sortSlice_sorted : forall l : list C,
  ascending Items.lessFn (Items.sortSlice Items.lessFn l).
#[local] Abbreviation Sketch := (Items.ItemsSketch C SV).

Lemma mergeItemsSketch_sorted (s other s' : Sketch) c c' :
  wfx s c -> wfx other c' -> c + c' < 2 ^ 63 ->
  sortedAbove s -> Items.isLevelZeroSorted s = false -> sortedAbove other ->
  Items.mergeItemsSketch s other = Some s' ->
  sortedAbove s' /\ Items.isLevelZeroSorted s' = false.
Proof.
  intros Hsx Hox Hc Hsorted Hlz HsortedO Hrun.
  pose proof (wfx_wf _ _ Hsx) as Hs. pose proof (wfx_wf _ _ Hox) as Ho.
  unfold Items.mergeItemsSketch in Hrun.
  destruct (Items.IsEmpty other) eqn:Hemp.
  { injection Hrun as <-. split; assumption. }
  bind_step Hrun mm Emm. clear Emm. destruct mm as [myMin myMax].
  pose proof (wf_numLevels _ _ Ho) as Hnlo.
  destruct (wf_range other c' 0 Ho ltac:(lia)) as [Hr0 Hg0].
  destruct (wf_range other c' 1 Ho ltac:(lia)) as [Hr1 Hg1].
  pose proof (wf_le other c' 0 1 Ho ltac:(lia) ltac:(lia) ltac:(lia)) as H01.
  pose proof (wf_level0_le other c' Ho) as Hpop0.
  pose proof (wf_count_nonneg _ _ Hs) as Hc0. pose proof (wf_count_nonneg _ _ Ho) as Hc0'.
  rewrite Hg0, Hg1 in Hrun. cbn [mbind option_bind] in Hrun.
  bind_step Hrun s1 Es1.
  destruct (level0_updates_sorted less_asym less_between sortSlice_perm sortSlice_sorted
              other c' (lv (Items.levels other) 1 - lv (Items.levels other) 0)
              s s1 c Ho Hsx ltac:(lia) ltac:(lia) ltac:(lia) Hsorted Hlz Es1)
    as [Hsorted1 Hlz1].
  apply (level0_updates_wfx sortSlice_perm other c'
           (lv (Items.levels other) 1 - lv (Items.levels other) 0)
           s s1 c Ho Hsx ltac:(lia) ltac:(lia) ltac:(lia)) in Es1.
  pose proof (wfx_wf _ _ Es1) as Hs1.
  rewrite (wf_n _ _ Hs), (wf_n _ _ Ho) in Hrun.
  rewrite (u64_small (c + c')) in Hrun by lia.
  bind_step Hrun r Er. destruct r as [[nl' L'] items'].
  pose proof (merged_layout_sorted less_asym less_between sortSlice_perm sortSlice_sorted
                s1 other _ c' (c + c') nl' L' items' Hs1 Ho ltac:(lia)
                Hlz1 Hsorted1 HsortedO Er) as Hfinal.
  bind_step Hrun mx Emx. injection Hrun as <-.
  split; [|exact Hlz1]. unfold sortedAbove. sk_simpl. exact Hfinal.
Qed.

Lemma Merge_sorted (s other s' : Sketch) c c' :
  wfx s c -> wfx other c' -> c + c' < 2 ^ 63 ->
  sortedAbove s -> Items.isLevelZeroSorted s = false -> sortedAbove other ->
  Items.Merge s other = Some s' ->
  sortedAbove s' /\ Items.isLevelZeroSorted s' = false.
Proof.
  intros Hsx Hox Hc Hsorted Hlz HsortedO Hrun. unfold Items.Merge in Hrun.
  destruct (Items.IsEmpty other); [injection Hrun as <-; split; assumption|].
  bind_step Hrun s1 E1. injection Hrun as <-.
  apply (mergeItemsSketch_sorted s other s1 c c' Hsx Hox Hc Hsorted Hlz HsortedO) in E1.
  exact E1.
Qed.

Lemma reachable_sorted (s : Sketch) c :
  reachable s c -> c < 2 ^ 63 -> sortedAbove s /\ Items.isLevelZeroSorted s = false.
Proof.
  induction 1 as [k0 s Hnew|s c item s' Hr IH Hc Hrun|s c other c' s' Hr1 IH1 Hr2 IH2 Hc Hrun
                 |s c Hr IH]; intros Hlt.
  - unfold Items.NewItemsSketch in Hnew. destruct (decide _) as [|Hk]; [discriminate|].
    injection Hnew as <-. split; [|reflexivity]. intros l Hl. sk_simpl. lia.
  - pose proof (wf_count_nonneg _ _ (reachable_wf sortSlice_perm s c Hr)) as Hc0.
    assert (Hlt0 : c < 2 ^ 63) by (destruct (Items.isNil item); lia).
    destruct (IH Hlt0) as [Hsorted Hlz].
    pose proof (reachable_wfx sortSlice_perm s c Hr Hlt0) as Hwfx.
    unfold Items.Update in Hrun. bind_step Hrun s1 E1. injection Hrun as <-.
    split.
    + apply (updateItem_sorted less_asym less_between sortSlice_perm sortSlice_sorted
               s s1 c item Hwfx Hlt0 Hsorted E1).
    + apply (updateItem_level0_flag s s1 item Hlz E1).
  - pose proof (wf_count_nonneg _ _ (reachable_wf sortSlice_perm s c Hr1)) as Hc0.
    pose proof (wf_count_nonneg _ _ (reachable_wf sortSlice_perm other c' Hr2)) as Hc0'.
    destruct (IH1 ltac:(lia)) as [Hsorted Hlz]. destruct (IH2 ltac:(lia)) as [HsortedO _].
    apply (Merge_sorted s other s' c c'
             (reachable_wfx sortSlice_perm s c Hr1 ltac:(lia))
             (reachable_wfx sortSlice_perm other c' Hr2 ltac:(lia))
             Hlt Hsorted Hlz HsortedO Hrun).
  - split; [|reflexivity]. intros l Hl. unfold Items.Reset in Hl. sk_simpl. lia.
Qed.

End MergeSortedSketch.

(** X24. Merges keep the levels above level 0 sorted. For a comparison that
    is asymmetric and whose incomparability is transitive, and a
    [sort.Slice] that sorts: every sketch that [Update], [Merge] and [Reset]
    calls lead to from a new one (the two sketches of a merge two objects,
    no sketch merged into itself), with fewer than [2^63] items taken in,
    has each level from 1 up in ascending order. Its flag
    [isLevelZeroSorted] is false, which is what makes the compaction of a
    merge sort level 0 before halving it. *)
Theorem merges_keep_the_levels_sorted {C SV : Type} {OpC : Items.ItemSketchOp C}
    {RtC : Items.Runtime C} (s : Items.ItemsSketch C SV) (c : Z) :
  (forall x y : C, Items.lessFn x y = true -> Items.lessFn y x = false) ->
  (forall x y z : C, Items.lessFn x y = true ->
     Items.lessFn x z = true \/ Items.lessFn z y = true) ->
  (forall less (l : list C), Permutation (Items.sortSlice less l) l) ->
  (forall l : list C, ascending Items.lessFn (Items.sortSlice Items.lessFn l)) ->
  reachable s c -> c < 2 ^ 63 ->
  Items.isLevelZeroSorted s = false /\
  forall l, 1 <= l < Items.numLevels s -> ascending Items.lessFn (levelItems s l).
Proof.
  intros Hasym Hbt Hperm Hsort Hr Hc.
  destruct (reachable_sorted Hasym Hbt Hperm Hsort s c Hr Hc) as [Hsorted Hlz].
  split; [exact Hlz|]. intros l Hl. unfold levelItems.
  destruct (wf_range s _ l (reachable_wf Hperm s c Hr) ltac:(lia)) as [Hr0 _].
  apply sortedRun_ascending; [lia|]. apply Hsorted. exact Hl.
Qed.

Lemma merges_keep_the_levels_sorted_witness :
  exists s1 s2 s : Items.ItemsSketch StringItems.GoString unit,
    StringItems.sketchOf 8 (rev (StringItems.letters 40)) = Ok s1 /\
    StringItems.sketchOf 8 (StringItems.letters 30) = Ok s2 /\
    Items.Merge s1 s2 = Some s /\
    Items.numLevels s = 3 /\
    Items.isLevelZeroSorted s = false /\
    forall l, 1 <= l < Items.numLevels s -> ascending Items.lessFn (levelItems s l).
Proof.
  eexists. eexists. eexists.
  split; [vm_compute; reflexivity|].
  split; [vm_compute; reflexivity|].
  split; [vm_compute; reflexivity|].
  split; [reflexivity|].
  apply (merges_keep_the_levels_sorted (C := StringItems.GoString) (SV := unit)
           (OpC := StringItems.stringItemsSketchOp) (RtC := StringItems.stringRuntime)
           _ 70 string_lt_asym string_lt_between
           (fun less l => insertion_sort_perm less l)
           (fun l => insertion_sort_ascending StringItems.string_lt string_lt_asym l)).
  - eapply (reach_merge _ 40 _ 30).
    + apply (reachable_sketchOf 8 (rev (StringItems.letters 40)));
        [vm_compute; reflexivity|vm_compute; reflexivity].
    + apply (reachable_sketchOf 8 (StringItems.letters 30));
        [vm_compute; reflexivity|vm_compute; reflexivity].
    + lia.
    + vm_compute. reflexivity.
  - lia.
Defined.

(** A sketch merged into itself is another matter: at [K = 8] after 19
    updates, [s.Merge(s)] merges level 1 with a run of the copied items that
    is not sorted, and leaves the top level out of order. *)
Lemma self_merge_leaves_a_level_unsorted :
  exists s t : Items.ItemsSketch StringItems.GoString unit,
    StringItems.sketchOf 8 (StringItems.letters 19) = Ok s /\
    MergeSelf s = Some t /\ Items.numLevels t = 3 /\
    ~ ascending Items.lessFn (levelItems t 2).
Proof.
  eexists. eexists.
  split; [vm_compute; reflexivity|].
  split; [vm_compute; reflexivity|]. split; [reflexivity|].
  intros Hasc. unfold ascending in Hasc.
  pose proof (proj2 (Sorted_adjacent _ _) Hasc 3%nat [110] [108] eq_refl eq_refl) as H.
  vm_compute in H. discriminate H.
Qed.
